(** * RescueMaze map generator: a shallow embedding of [GenerateMap.py]

    The development follows the generator leaf to root: the grid, the
    random source, door cutting ([openDoor], [addDoorToWall], [addDoors]),
    the partition tree ([node], [splitNode], [splitDepth], [generateWorld]),
    base placement ([addBase], [createBases]) and wall-block extraction
    ([generateWallParts], [generateEdges], [createAllWallBlocks]).
    Definitions come first, then the facts proved about them. *)

From Stdlib Require Import ZArith Lia.
From stdpp Require Import base tactics option numbers list.

Local Open Scope Z_scope.

(** ** Cells, coordinates and the grid *)

(** The three strings stored in the array: [" "], ["w"] and ["b"]. *)
Inductive cell : Type := Empty | Wall | Base.

#[global] Instance cell_eq_dec : EqDecision cell.
Proof. solve_decision. Defined.

(** A position is the Python list [[x, y]]. *)
Abbreviation coord := (Z * Z)%type.

(** [array[y][x]]: a list of rows. *)
Abbreviation grid := (list (list cell)).

(** ** Outcomes of a Python computation *)

Inductive pyerr : Type := IndexError | ValueError.

(** [Ok] is a normal return, [Raise] an exception, [Spin] a [while] loop
    that was still running when the fuel given to it ran out. *)
Inductive res (A : Type) : Type :=
  | Ok (a : A)
  | Raise (e : pyerr)
  | Spin.
Arguments Ok {A} a.
Arguments Raise {A} e.
Arguments Spin {A}.

Definition res_bind {A B} (c : res A) (k : A -> res B) : res B :=
  match c with
  | Ok a => k a
  | Raise e => Raise e
  | Spin => Spin
  end.

Notation "'let?' x ':=' c 'in' k" := (res_bind c (fun x => k))
  (at level 10, x pattern, c at level 100, k at level 200).

(** The random source: the stream of raw draws still to come. *)
Definition rng : Type := nat -> Z.

Definition rng_tail (s : rng) : rng := fun n => s (S n).

(** A computation that draws from the random source. *)
Definition M (A : Type) : Type := rng -> res (A * rng).

Definition ret {A} (a : A) : M A := fun s => Ok (a, s).

Definition bind {A B} (c : M A) (k : A -> M B) : M B :=
  fun s => match c s with
           | Ok (a, s') => k a s'
           | Raise e => Raise e
           | Spin => Spin
           end.

Definition lift {A} (c : res A) : M A :=
  fun s => match c with
           | Ok a => Ok (a, s)
           | Raise e => Raise e
           | Spin => Spin
           end.

Notation "'let*' x ':=' c 'in' k" := (bind c (fun x => k))
  (at level 10, x pattern, c at level 100, k at level 200).

(** [random.randint(a, b)]: an integer of [a..b], both ends included;
    [ValueError] on an empty range.  The raw draw is reduced into the
    range, so every stream gives a legal result and every legal result is
    given by some stream. *)
Definition randint (a b : Z) : M Z :=
  fun s => if a <=? b then Ok (a + (s 0%nat) mod (b - a + 1), rng_tail s)
           else Raise ValueError.

(** ** Python indexing and loops *)

(** An index [i] into a sequence of [len] items: negative indices count
    from the end, anything outside raises [IndexError]. *)
Definition py_index (len : nat) (i : Z) : option nat :=
  let j := if i <? 0 then i + Z.of_nat len else i in
  if (0 <=? j) && (j <? Z.of_nat len) then Some (Z.to_nat j) else None.

Definition py_nth {A} (l : list A) (i : Z) : res A :=
  match py_index (length l) i with
  | Some j => match l !! j with Some a => Ok a | None => Raise IndexError end
  | None => Raise IndexError
  end.

(** [array[y][x]] read. *)
Definition getCell (array : grid) (c : coord) : res cell :=
  let? row := py_nth array c.2 in py_nth row c.1.

(** [array[y][x] = v]. *)
Definition setCell (array : grid) (c : coord) (v : cell) : res grid :=
  match py_index (length array) c.2 with
  | Some j =>
      match array !! j with
      | Some row =>
          match py_index (length row) c.1 with
          | Some i => Ok (<[j := <[i := v]> row]> array)
          | None => Raise IndexError
          end
      | None => Raise IndexError
      end
  | None => Raise IndexError
  end.

(** The content of the cell in column [x] of row [y], for the statements:
    [None] outside the grid. *)
Definition cellAt (array : grid) (c : coord) : option cell :=
  if (0 <=? c.1) && (0 <=? c.2)
  then array !! Z.to_nat c.2 ≫= (λ row, row !! Z.to_nat c.1)
  else None.

(** [range(a, b)]. *)
Definition range (a b : Z) : list Z := seqZ a (b - a).

(** [len(l)] as a Python integer. *)
Definition len {A} (l : list A) : Z := Z.of_nat (length l).

(** A [for] loop over [l] whose body updates the state [s]. *)
Fixpoint forM {A S} (body : S -> A -> M S) (l : list A) (s : S) : M S :=
  match l with
  | [] => ret s
  | a :: l' => let* s' := body s a in forM body l' s'
  end.

Fixpoint forR {A S} (body : S -> A -> res S) (l : list A) (s : S) : res S :=
  match l with
  | [] => Ok s
  | a :: l' => let? s' := body s a in forR body l' s'
  end.

(** Writing [v] into the cells of [ps], one after the other. *)
Definition setCells (v : cell) (ps : list coord) (array : grid) : res grid :=
  forR (fun array p => setCell array p v) ps array.

Abbreviation clearCells := (setCells Empty).

(** ** Door cutting *)

(** [openDoor(wall, array)], lines 241-261. *)
Definition openDoor (wall : list coord) (array : grid) : M grid :=
  if 16 <? len wall then
    let* r := randint 1 (len wall - 16) in
    lift (forR (fun array i =>
                  if i + r <? len wall then
                    let? p := py_nth wall (i + r) in setCell array p Empty
                  else Ok array)
               (range 0 15) array)
  else
    lift (forR (fun array i =>
                  let? p := py_nth wall i in setCell array p Empty)
               (range 1 (len wall - 1)) array).

(** The first loop of [addDoorToWall], lines 266-288: the wall is cut at
    every position listed in [unusable]; [wallParts] and [currentPart]
    are the two accumulators of the source. *)
Fixpoint wallPartsLoop (wall unusable : list coord)
    (wallParts : list (list coord)) (currentPart : list coord)
    : list (list coord) :=
  match wall with
  | [] => if decide (currentPart = []) then wallParts
          else wallParts ++ [currentPart]
  | p :: wall' =>
      if decide (p ∈ unusable)
      then (if decide (currentPart = [])
            then wallPartsLoop wall' unusable wallParts currentPart
            else wallPartsLoop wall' unusable (wallParts ++ [currentPart]) [])
      else wallPartsLoop wall' unusable wallParts (currentPart ++ [p])
  end.

Definition usableParts (wall unusable : list coord) : list (list coord) :=
  wallPartsLoop wall unusable [] [].

(** Lines 290-298. *)
Definition largePartsOf (wallParts : list (list coord)) : list (list coord) :=
  filter (fun part => 15 <= len part) wallParts.

(** The selection loop of lines 317-325, with its two variables.  The
    source stores [len(wallParts)] in [longest], not [len(wallParts[i])]. *)
Definition selectLoop (wallParts : list (list coord)) : Z * Z :=
  fold_left (fun '(longest, selected) i =>
               match py_nth wallParts i with
               | Ok part => if longest <? len part
                            then (len wallParts, i)
                            else (longest, selected)
               | _ => (longest, selected)
               end)
            (range 0 (len wallParts)) (-1, -1).

(** [addDoorToWall(wall, unusable, array)], lines 264-333. *)
Definition addDoorToWall (wall unusable : list coord) (array : grid) : M grid :=
  let wallParts := usableParts wall unusable in
  let largeParts := largePartsOf wallParts in
  if 0 <? len largeParts then
    let* w1 := randint 0 (len largeParts - 1) in
    let* part := lift (py_nth largeParts w1) in
    let* array := openDoor part array in
    forM (fun array i =>
            let* c := randint 0 2 in
            if (c =? 0) && negb (i =? w1)
            then let* part := lift (py_nth largeParts i) in openDoor part array
            else ret array)
         (range 0 (len largeParts)) array
  else
    let selected := (selectLoop wallParts).2 in
    if selected =? -1 then ret array
    else let* part := lift (py_nth wallParts selected) in openDoor part array.

(** ** The partition tree *)

(** [int(n * 0.35)], for the integers a double holds exactly.  The
    double nearest to 0.35 is [m35 * 2^-54]; the product with an integer
    is rounded to 53 bits, ties to even, and [int()] truncates towards
    zero.  (At [n = 180] the double product is just below 63, and the
    result is 62.) *)
Definition m35 : Z := 6305039478318694.

Definition roundShift (p e : Z) : Z :=
  if e <=? 0 then p
  else
    let q := Z.shiftr p e in
    let r := p - Z.shiftl q e in
    let half := Z.shiftl 1 (e - 1) in
    if (half <? r) || ((r =? half) && Z.odd q) then q + 1 else q.

Definition int35 (n : Z) : Z :=
  if n =? 0 then 0
  else
    let p := Z.abs n * m35 in
    let e := Z.log2 p + 1 - 53 in
    Z.sgn n * Z.shiftr (Z.shiftl (roundShift p e) e) 54.

(** The class [node].  The [parent] reference is not stored: its one use,
    [adjustWall] appending the end points of a new wall to every ancestor,
    is done by [splitDepth], which hands the new end points back to its
    caller. [shape] is [[[xMin, yMin], [xMax, yMax]]]; the children are
    [None] or a node. *)
#[local] Set Warnings "-register-all".

Inductive node : Type :=
  Node {
    shape : coord * coord;
    wall : option (list coord);
    unusableWall : list coord;
    wallParts : list (list coord);
    basePresent : bool;
    basePossible : bool;
    outside : bool;
    left : option node;
    right : option node
  }.

(** [node.__init__], lines 19-40.  [len(array[0])] is only evaluated when
    the first two tests of the [or] fail. *)
Definition node_init (xMin xMax yMin yMax : Z) (array : grid) : res node :=
  let possible := (20 <? (xMax - xMin) - 2) && (20 <? (yMax - yMin) - 2) in
  let? out :=
    if (xMin =? 0) || (yMin =? 0) then Ok true
    else let? row0 := py_nth array 0 in
         Ok ((xMax =? len row0 - 1) || (yMax =? len array)) in
  Ok {| shape := ((xMin, yMin), (xMax, yMax));
        wall := None;
        unusableWall := [];
        wallParts := [];
        basePresent := false;
        basePossible := possible;
        outside := out;
        left := None;
        right := None |}.

(** [getBounds], as [(xMin, yMin, xMax, yMax)]. *)
Definition xMin (n : node) : Z := (shape n).1.1.
Definition yMin (n : node) : Z := (shape n).1.2.
Definition xMax (n : node) : Z := (shape n).2.1.
Definition yMax (n : node) : Z := (shape n).2.2.

(** [createEmptyWorld()], lines 107-130. *)
Definition createEmptyWorld : grid :=
  map (fun i =>
         map (fun j =>
                if (i =? 0) || (i =? 199) || (j =? 0) || (j =? 249)
                then Wall else Empty)
             (range 0 250))
      (range 0 200).

(** The end points handed to [parent.adjustWall] by [setWall], lines
    50-58: none for an empty wall. *)
Definition wallEnds (w : list coord) : list coord :=
  match w, last w with
  | p :: _, Some q => [p; q]
  | _, _ => []
  end.

(** The horizontal branch of [splitNode], lines 194-203: the two halves
    above and below row [r], and the wall along it. *)
Definition splitRow (n : node) (r : Z) (array : grid)
    : res (node * grid * list coord) :=
  let? l := node_init (xMin n) (xMax n) (yMin n) r array in
  let? rt := node_init (xMin n) (xMax n) r (yMax n) array in
  let w := map (fun xPos => (xPos, r)) (range (xMin n) (xMax n + 1)) in
  let? array := setCells Wall w array in
  Ok (Node (shape n) (Some w) (unusableWall n) (wallParts n)
           (basePresent n) (basePossible n) (outside n) (Some l) (Some rt),
      array, wallEnds w).

(** The vertical branch, lines 204-214. *)
Definition splitCol (n : node) (r : Z) (array : grid)
    : res (node * grid * list coord) :=
  let? l := node_init (xMin n) r (yMin n) (yMax n) array in
  let? rt := node_init r (xMax n) (yMin n) (yMax n) array in
  let w := map (fun yPos => (r, yPos)) (range (yMin n) (yMax n + 1)) in
  let? array := setCells Wall w array in
  Ok (Node (shape n) (Some w) (unusableWall n) (wallParts n)
           (basePresent n) (basePossible n) (outside n) (Some l) (Some rt),
      array, wallEnds w).

(** [splitNode(n, array)], lines 155-222.  Returns the node with its two
    children and its wall, the array, and the end points of the wall for
    the ancestors.  [size[0] > 1.5 * size[1]] compares an integer with an
    exactly represented double, so it is [2 * size[0] > 3 * size[1]]. *)
Definition splitNode (n : node) (array : grid) : M (node * grid * list coord) :=
  let sizeX := xMax n - xMin n in
  let sizeY := yMax n - yMin n in
  let bounds0 := (int35 sizeY + yMin n, yMax n - int35 sizeY) in
  let bounds1 := (int35 sizeX + xMin n, xMax n - int35 sizeX) in
  let* direction := randint 0 1 in
  let direction := if 3 * sizeY <? 2 * sizeX then 1 else direction in
  let direction := if 3 * sizeX <? 2 * sizeY then 0 else direction in
  let bounds := if direction =? 0 then bounds0 else bounds1 in
  let* r := randint bounds.1 bounds.2 in
  lift (if direction =? 0 then splitRow n r array else splitCol n r array).

(** [splitDepth(rootNode, array)], lines 225-238.  The end points of every
    wall made below a node are appended to its [unusableWall], in the
    order the walls are made, and handed further up. *)
Fixpoint splitDepth (rootNode : node) (array : grid)
    : M (node * grid * list coord) :=
  match rootNode with
  | Node sh w un wp bp bpos out (Some c0) (Some c1) =>
      let* (c0', array, ends0) := splitDepth c0 array in
      let* (c1', array, ends1) := splitDepth c1 array in
      ret (Node sh w (un ++ ends0 ++ ends1) wp bp bpos out (Some c0') (Some c1'),
           array, ends0 ++ ends1)
  | _ => splitNode rootNode array
  end.

(** [addDoors(rootNode, array)], lines 336-361. *)
Fixpoint addDoors (rootNode : node) (array : grid) : M grid :=
  match rootNode with
  | Node sh w un wp bp bpos out c0 c1 =>
      let* array := match c0 with
                    | Some c => addDoors c array
                    | None => ret array
                    end in
      let* array := match c1 with
                    | Some c => addDoors c array
                    | None => ret array
                    end in
      match w with
      | Some w => addDoorToWall w un array
      | None => ret array
      end
  end.

(** [generateWorld()], lines 364-380. *)
Definition generateWorld : M (grid * node) :=
  let array := createEmptyWorld in
  let* row0 := lift (py_nth array 0) in
  let* root := lift (node_init 0 (len row0 - 1) 0 (len array - 1) array) in
  let* (root, array) :=
    forM (fun '(root, array) _ =>
            let* (root, array, _) := splitDepth root array in
            ret (root, array))
         (range 0 4) (root, array) in
  let* array := addDoors root array in
  ret (array, root).

(** ** Base placement *)

(** [l.remove(x)] for an [x] known to be in [l]: the first item equal to
    [x] goes. *)
Fixpoint removeFirst {A} `{EqDecision A} (x : A) (l : list A) : list A :=
  match l with
  | [] => []
  | y :: l' => if decide (x = y) then l' else y :: removeFirst x l'
  end.

(** The two quadrant steps of [addBase], lines 490-501: from the root to
    the child and grandchild chosen by [quad], as far as children exist.
    Returns the child indices taken and the node reached. *)
Definition quadStep (root : node) (quad : Z * Z) : res (list Z * node) :=
  match root with
  | Node _ _ _ _ _ _ _ (Some c0) (Some c1) =>
      let? cur := py_nth [c0; c1] quad.1 in
      match cur with
      | Node _ _ _ _ _ _ _ (Some d0) (Some d1) =>
          let? cur := py_nth [d0; d1] quad.2 in Ok ([quad.1; quad.2], cur)
      | _ => Ok ([quad.1], cur)
      end
  | _ => Ok ([], root)
  end.

(** The random descent to a leaf, lines 504-510. *)
Fixpoint descend (n : node) : M (list Z * node) :=
  match n with
  | Node _ _ _ _ _ _ _ (Some c0) (Some c1) =>
      let* r := randint 0 1 in
      let* (path, leaf) := descend (if r =? 0 then c0 else c1) in
      ret (r :: path, leaf)
  | _ => ret ([], n)
  end.

(** [currentNode.setBase()] on the node reached from the root by the
    child indices [path]: the tree with that node's [basePresent] set. *)
Fixpoint setBaseAt (path : list Z) (n : node) : node :=
  match path, n with
  | [], Node sh w un wp _ bpos out c0 c1 =>
      Node sh w un wp true bpos out c0 c1
  | k :: path', Node sh w un wp bp bpos out (Some c0) (Some c1) =>
      match py_index 2 k with
      | Some O => Node sh w un wp bp bpos out (Some (setBaseAt path' c0)) (Some c1)
      | Some _ => Node sh w un wp bp bpos out (Some c0) (Some (setBaseAt path' c1))
      | None => n
      end
  | _, _ => n
  end.

(** The test of line 518: [not already and possible and outside]. *)
Definition eligible (leaf : node) : bool :=
  negb (basePresent leaf) && basePossible leaf && outside leaf.

(** The [while not added] loop of [addBase], lines 481-544.  Returns the
    tree with the chosen leaf marked, the base and the quadrant used.
    [quadrants[rQuad]] is read at once: the index was drawn in range.
    [math.floor(d / 3)] is the floor division of the integer [d]. *)
Fixpoint addBaseLoop (fuel : nat) (root : node) (quadrants : list (Z * Z))
    : M (node * (coord * coord) * (Z * Z)) :=
  match fuel with
  | O => fun _ => Spin
  | S fuel' =>
      let* rQuad := randint 0 (len quadrants - 1) in
      let* quad := lift (py_nth quadrants rQuad) in
      let* (path1, cur) := lift (quadStep root quad) in
      let* (path2, leaf) := descend cur in
      if eligible leaf then
        let x0 := xMin leaf + 1 in
        let y0 := yMin leaf + 1 in
        let x1 := xMax leaf - 21 in
        let y1 := yMax leaf - 21 in
        let xThird := (x1 - x0) `div` 3 in
        let yThird := (y1 - y0) `div` 3 in
        let* xPos := randint (x0 + xThird) (x1 - xThird) in
        let* yPos := randint (y0 + yThird) (y1 - yThird) in
        ret (setBaseAt (path1 ++ path2) root,
             ((xPos, yPos), (xPos + 20, yPos + 20)), quad)
      else addBaseLoop fuel' root quadrants
  end.

(** The marking loops of [addBase], lines 546-555. *)
Definition markBase (base : coord * coord) (array : grid) : res grid :=
  forR (fun array x =>
          forR (fun array y =>
                  let? ok :=
                    if 0 <? x then
                      let? row0 := py_nth array 0 in
                      Ok ((x <? len row0 - 1) && (0 <? y) && (y <? len array))
                    else Ok false in
                  if ok : bool then setCell array (x, y) Base else Ok array)
               (range base.1.2 (base.2.2 + 1)) array)
       (range base.1.1 (base.2.1 + 1)) array.

(** [addBase(root, array, quadrants)], lines 474-558.  The tree is
    returned as well: [setBase] has changed one of its leaves. *)
Definition addBase (fuel : nat) (root : node) (array : grid)
    (quadrants : list (Z * Z))
    : M ((coord * coord) * grid * (Z * Z) * node) :=
  let* (root, base, usedQuad) := addBaseLoop fuel root quadrants in
  let* array := lift (markBase base array) in
  ret (base, array, usedQuad, root).

(** One turn of the loop of [createBases], lines 568-576; the state is
    [(array, rootNode, quads, bases)]. *)
Definition createBasesStep (fuel : nat)
    (st : grid * node * list (Z * Z) * list (coord * coord))
    : M (grid * node * list (Z * Z) * list (coord * coord)) :=
  let '(array, rootNode, quads, bases) := st in
  let* (base, array, used, rootNode) := addBase fuel rootNode array quads in
  let quads := if decide (used ∈ quads) then removeFirst used quads else quads in
  ret (array, rootNode, quads, bases ++ [base]).

(** [createBases(array, rootNode)], lines 561-579, every [addBase] running
    on [fuel]. *)
Definition createBases (fuel : nat) (array : grid) (rootNode : node)
    : M (grid * list (coord * coord) * node) :=
  let quads := [(0, 0); (0, 1); (1, 0); (1, 1)] in
  let* (array, rootNode, _, bases) :=
    forM (fun st _ => createBasesStep fuel st) (range 0 3)
         (array, rootNode, quads, []) in
  ret (array, bases, rootNode).

(** ** Wall blocks *)

(** The loop of [generateWallParts], lines 403-424: the runs of cells of
    the wall that still hold ["w"]. *)
Fixpoint wallRunsLoop (wall : list coord) (array : grid)
    (wallParts : list (list coord)) (part : list coord)
    : res (list (list coord)) :=
  match wall with
  | [] => Ok (if decide (part = []) then wallParts else wallParts ++ [part])
  | piece :: wall' =>
      let? v := getCell array piece in
      if decide (v = Wall)
      then wallRunsLoop wall' array wallParts (part ++ [piece])
      else if decide (part = [])
           then wallRunsLoop wall' array wallParts part
           else wallRunsLoop wall' array (wallParts ++ [part]) []
  end.

(** [generateWallParts(rootNode, array)], lines 383-427: the tree with
    the [wallParts] of every node set. *)
Fixpoint generateWallParts (rootNode : node) (array : grid) : res node :=
  match rootNode with
  | Node sh w un wp bp bpos out c0 c1 =>
      let? c0 := match c0 with
                 | Some c => let? c' := generateWallParts c array in Ok (Some c')
                 | None => Ok None
                 end in
      let? c1 := match c1 with
                 | Some c => let? c' := generateWallParts c array in Ok (Some c')
                 | None => Ok None
                 end in
      match w with
      | Some wl =>
          let? parts := wallRunsLoop wl array [] [] in
          Ok (Node sh w un parts bp bpos out c0 c1)
      | None => Ok (Node sh w un wp bp bpos out c0 c1)
      end
  end.

(** The loop of lines 443-445, [for bit in part: if bit in usedPos:
    part.remove(bit)]: the iterator is the index [i] into the list being
    shortened, so the item after a removed one is never looked at.  At most
    [fuel] turns are taken. *)
Fixpoint removeUsedLoop (fuel i : nat) (part usedPos : list coord)
    : list coord :=
  match fuel with
  | O => part
  | S fuel' =>
      match part !! i with
      | None => part
      | Some bit =>
          if decide (bit ∈ usedPos)
          then removeUsedLoop fuel' (S i) (removeFirst bit part) usedPos
          else removeUsedLoop fuel' (S i) part usedPos
      end
  end.

(** The index passes the end of the list within [length part] turns. *)
Definition removeUsed (part usedPos : list coord) : list coord :=
  removeUsedLoop (length part) 0 part usedPos.

(** A wall block, by the two positions given to
    [WorldCreator.transformFromBounds]: [part[0]] and [part[-1]]. *)
Abbreviation block := (coord * coord)%type.

(** The loop over the parts of one node, lines 440-453; the state is
    [(wallData, usedPos)]. *)
Definition blocksOfParts (parts : list (list coord))
    (st : list block * list coord) : list block * list coord :=
  fold_left
    (fun '(wallData, usedPos) part =>
       let part := removeUsed part usedPos in
       let wallData :=
         match part, last part with
         | p :: _, Some q => wallData ++ [(p, q)]
         | _, _ => wallData
         end in
       (wallData, usedPos ++ part))
    parts st.

(** [createAllWallBlocks(rootNode, usedPos)], lines 429-471. *)
Fixpoint createAllWallBlocks (rootNode : node) (usedPos : list coord)
    : list block * list coord :=
  match rootNode with
  | Node sh w un wp bp bpos out c0 c1 =>
      let '(wallData, usedPos) := blocksOfParts wp ([], usedPos) in
      let '(wallData, usedPos) :=
        match c0 with
        | Some c => let '(part, usedPos) := createAllWallBlocks c usedPos in
                    (wallData ++ part, usedPos)
        | None => (wallData, usedPos)
        end in
      match c1 with
      | Some c => let '(part, usedPos) := createAllWallBlocks c usedPos in
                  (wallData ++ part, usedPos)
      | None => (wallData, usedPos)
      end
  end.

(** [generateEdges(array)], lines 630-651. *)
Definition generateEdges (array : grid) : res (list coord) :=
  let? row0 := py_nth array 0 in
  let positions :=
    fold_left (fun positions i => positions ++ [(0, i); (len row0 - 1, i)])
              (range 0 (len array)) [] in
  Ok (fold_left
        (fun positions i =>
           fold_left (fun positions j =>
                        if decide ((i, j) ∈ positions) then positions
                        else positions ++ [(i, j)])
                     [0; len array - 1] positions)
        (range 0 (len row0)) positions).

(** [mainGenerate()], lines 670-698, up to the list of wall blocks; the
    robots, the obstacles, the picture and the world file are left out.
    The function goes on after the wall blocks: line 698 calls
    [WorldCreator.makeFile] with four arguments, and [makeFile] has six
    parameters without a default.  A result of this definition is the
    state before that call, not a result of the whole function. *)
Definition mainGenerate (fuel : nat)
    : M (grid * node * list (coord * coord) * list block) :=
  let* (world, root) := generateWorld in
  let* (world, bases, root) := createBases fuel world root in
  let* root := lift (generateWallParts root world) in
  let* used := lift (generateEdges world) in
  let '(walls, used) := createAllWallBlocks root used in
  ret (world, root, bases, walls).

(** * The rest of the generator: robots, obstacles and world units *)

(** ** Robots *)

(** [addRobots(bases)], lines 582-597: a robot at the centre of each of
    the first two bases.  [math.floor(d / 2)] is the floor division of
    the integer [d]. *)
Definition addRobots (bases : list (coord * coord)) : res (list coord) :=
  forR (fun robots i =>
          if i <? len bases then
            let? b := py_nth bases i in
            let xPos := (b.2.1 - b.1.1) `div` 2 + b.1.1 in
            let yPos := (b.2.2 - b.1.2) `div` 2 + b.1.2 in
            Ok (robots ++ [(xPos, yPos)])
          else Ok robots)
       (range 0 2) [].

(** ** Decimals and doubles *)

(** A fraction [n / d] with [d] positive: an exact value. *)
Abbreviation ratio := (Z * Z)%type.

Definition rsub (a b : ratio) : ratio := (a.1 * b.2 - b.1 * a.2, a.2 * b.2).
Definition radd (a b : ratio) : ratio := (a.1 * b.2 + b.1 * a.2, a.2 * b.2).

(** The quotient, for a divisor other than zero (the divisors of this
    program are the constants 2, 10 and 100). *)
Definition rdiv (a b : ratio) : ratio :=
  if 0 <? b.1 then (a.1 * b.2, a.2 * b.1) else (- (a.1 * b.2), a.2 * - b.1).

(** The number of digits of the positive integer [n] in [base]: the
    least [k] from 1 on with [n < base ^ k]; [p] is [base ^ k]. *)
Fixpoint ndigitsLoop (base n : Z) (fuel : nat) (p k : Z) : Z :=
  match fuel with
  | O => k
  | S fuel' => if n <? p then k
               else ndigitsLoop base n fuel' (p * base) (k + 1)
  end.

Definition ndigits (base n : Z) : Z :=
  ndigitsLoop base n (Z.to_nat (Z.log2 n) + 1) base 1.

(** The integer part of the logarithm of [n / d] in [base], for positive
    [n] and [d]. *)
Definition ilog (base n d : Z) : Z :=
  let e := ndigits base n - ndigits base d in
  if 0 <=? e then (if n <? d * base ^ e then e - 1 else e)
  else (if n * base ^ (- e) <? d then e - 1 else e).

(** [n / d] rounded to the nearest integer, ties to the even one. *)
Definition roundHalfEven (n d : Z) : Z :=
  let q := n `div` d in
  let r := n `mod` d in
  if 2 * r <? d then q
  else if d <? 2 * r then q + 1
  else if Z.even q then q else q + 1.

(** [n / d] rounded to [prec] significant digits in [base], with no
    exponent below [emin]: the pair [(m, e)] stands for [m * base ^ e]. *)
Definition roundSig (base prec emin : Z) (q : ratio) : Z * Z :=
  if q.1 =? 0 then (0, 0)
  else
    let a := Z.abs q.1 in
    let e := Z.max (ilog base a q.2 - (prec - 1)) emin in
    let m := if 0 <=? e then roundHalfEven a (q.2 * base ^ e)
             else roundHalfEven (a * base ^ (- e)) q.2 in
    if m =? base ^ prec then (Z.sgn q.1 * base ^ (prec - 1), e + 1)
    else (Z.sgn q.1 * m, e).

(** A Python float that is a number: the double [mant * 2 ^ expo], with a
    mantissa of 53 bits unless the number is zero or subnormal.  (The
    numbers of this program are far below the largest double.) *)
Record double : Type := Dbl { mant : Z; expo : Z }.

#[global] Instance double_eq_dec : EqDecision double.
Proof. solve_decision. Defined.

(** A [Decimal] that is a number: [coef * 10 ^ dexp]. *)
Record decimal : Type := Dec { coef : Z; dexp : Z }.

#[global] Instance decimal_eq_dec : EqDecision decimal.
Proof. solve_decision. Defined.

Definition ratio_of_pow (base m e : Z) : ratio :=
  if 0 <=? e then (m * base ^ e, 1) else (m, base ^ (- e)).

Definition ratio_of_double (x : double) : ratio :=
  ratio_of_pow 2 (mant x) (expo x).

Definition ratio_of_decimal (x : decimal) : ratio :=
  ratio_of_pow 10 (coef x) (dexp x).

(** The double nearest to a fraction, ties to even: what a float literal,
    [float()] of a [Decimal] and a float division give. *)
Definition double_of_ratio (q : ratio) : double :=
  let '(m, e) := roundSig 2 53 (-1074) q in Dbl m e.

(** The rounding of the default decimal context: 28 significant digits,
    ties to even. *)
Definition decimal_of_ratio (q : ratio) : decimal :=
  let '(c, x) := roundSig 10 28 (-1000026) q in Dec c x.

(** [Decimal(n)] of an integer and [Decimal(x)] of a float: both exact. *)
Definition Decimal (n : Z) : decimal := Dec n 0.

Definition Decimal_of_float (x : double) : decimal :=
  if 0 <=? expo x then Dec (mant x * 2 ^ expo x) 0
  else Dec (mant x * 5 ^ (- expo x)) (expo x).

(** [a + b], [a - b] and [a / b] on decimals: the exact result, rounded
    by the context. *)
Definition dadd (a b : decimal) : decimal :=
  decimal_of_ratio (radd (ratio_of_decimal a) (ratio_of_decimal b)).

Definition dsub (a b : decimal) : decimal :=
  decimal_of_ratio (rsub (ratio_of_decimal a) (ratio_of_decimal b)).

Definition ddiv (a b : decimal) : decimal :=
  decimal_of_ratio (rdiv (ratio_of_decimal a) (ratio_of_decimal b)).

(** [float(x)] of a decimal, and [float(n)] of an integer. *)
Definition float_of_decimal (x : decimal) : double :=
  double_of_ratio (ratio_of_decimal x).

Definition float_of_int (n : Z) : double := double_of_ratio (n, 1).

(** [a / b] on floats. *)
Definition fdiv (a b : double) : double :=
  double_of_ratio (rdiv (ratio_of_double a) (ratio_of_double b)).

(** The float literals [12.45], [9.95] and [100.0]. *)
Definition f12_45 : double := double_of_ratio (1245, 100).
Definition f9_95 : double := double_of_ratio (995, 100).
Definition f100 : double := double_of_ratio (100, 1).

(** ** World units *)

(** [WorldCreator.transformFromBounds(start, end)], lines 22-46: the
    centre and the size, in world units, of the box that covers the cells
    from [start] to [end]. *)
Definition transformFromBounds (start end_ : coord)
    : (double * double) * (double * double) :=
  let start := (Decimal start.1, Decimal start.2) in
  let end_ := (Decimal end_.1, Decimal end_.2) in
  let pos := (dadd start.1 (ddiv (dsub end_.1 start.1) (Decimal 2)),
              dadd start.2 (ddiv (dsub end_.2 start.2) (Decimal 2))) in
  let scale := (dadd (dsub end_.1 start.1) (Decimal 1),
                dadd (dsub end_.2 start.2) (Decimal 1)) in
  let scale := (ddiv scale.1 (Decimal 10), ddiv scale.2 (Decimal 10)) in
  let pos := (dsub (ddiv pos.1 (Decimal 10)) (Decimal_of_float f12_45),
              dsub (ddiv pos.2 (Decimal 10)) (Decimal_of_float f9_95)) in
  ((float_of_decimal pos.1, float_of_decimal pos.2),
   (float_of_decimal scale.1, float_of_decimal scale.2)).

(** [createBaseBlocks(bases)], lines 600-612. *)
Definition createBaseBlocks (bases : list (coord * coord))
    : list ((double * double) * (double * double)) :=
  map (fun base => transformFromBounds base.1 base.2) bases.

(** [convertRobotsToWorld(robots)], lines 615-627. *)
Definition convertRobotsToWorld (robots : list coord)
    : list (double * double) :=
  map (fun robot => (transformFromBounds robot robot).1) robots.

(** ** Obstacles *)

(** [random.randrange(a, b)]: an integer of [a..b-1]; [ValueError] on an
    empty range. *)
Definition randrange (a b : Z) : M Z :=
  fun s => if a <? b then Ok (a + (s 0%nat) mod (b - a), rng_tail s)
           else Raise ValueError.

(** [addObstacle()], lines 653-658: [[width, height, depth]]. *)
Definition addObstacle : M (double * double * double) :=
  let* h := randrange 50 130 in
  let height := fdiv (float_of_int h) f100 in
  let* w := randrange 30 220 in
  let width := fdiv (float_of_int w) f100 in
  let* d := randrange 30 220 in
  let depth := fdiv (float_of_int d) f100 in
  ret (width, height, depth).

(** [generateObstacles()], lines 661-668. *)
Definition generateObstacles : M (list (double * double * double)) :=
  let* num := randrange 4 8 in
  forM (fun obstacles _ =>
          let* newObstacle := addObstacle in
          ret (obstacles ++ [newObstacle]))
       (range 0 num) [].

(** * Vocabulary of the statements *)

Definition inGrid (array : grid) (c : coord) : Prop := is_Some (cellAt array c).

(** [array'] is [array] with the cells of [ps] set to [v]; rows keep
    their lengths. *)
Definition filled (v : cell) (ps : list coord) (array array' : grid) : Prop :=
  map length array' = map length array ∧
  ∀ c, cellAt array' c = if decide (c ∈ ps) then Some v else cellAt array c.

Abbreviation cleared := (filled Empty).

(** The fifteen cells of a full door that starts at offset [r]. *)
Definition doorCells (wall : list coord) (r : Z) : list coord :=
  take 15 (drop (Z.to_nat r) wall).

(** Every cell of the part but its two ends. *)
Definition interiorCells (wall : list coord) : list coord :=
  take (length wall - 2) (drop 1 wall).

(** [array'] differs from [array] only in cells of [P] that were inside
    the grid and are now [Empty]. *)
Definition carved (P : coord → Prop) (array array' : grid) : Prop :=
  map length array' = map length array ∧
  ∀ c, cellAt array' c = cellAt array c ∨
       (P c ∧ inGrid array c ∧ cellAt array' c = Some Empty).

(** A cell of the wall that is neither its first nor its last. *)
Definition innerCell (wall : list coord) (c : coord) : Prop :=
  ∃ k, (0 < k < length wall - 1)%nat ∧ wall !! k = Some c.

(** [part] is a non-empty run of consecutive cells of [wall]. *)
Definition isRun (wall part : list coord) : Prop :=
  part ≠ [] ∧ ∃ l1 l2, wall = l1 ++ part ++ l2.

(** The condition under which the door loop is sure to leave a gap: some
    part is large, or there is a part and no part has fewer than three
    cells. *)
Definition gapEnsured (wall unusable : list coord) : Prop :=
  largePartsOf (usableParts wall unusable) ≠ [] ∨
  (usableParts wall unusable ≠ [] ∧
   Forall (fun part => 3 <= len part) (usableParts wall unusable)).

(** [m] is [n] or one of the nodes below it. *)
Inductive subnode (m : node) : node → Prop :=
  | subnode_here : subnode m m
  | subnode_left n c : left n = Some c → subnode m c → subnode m n
  | subnode_right n c : right n = Some c → subnode m c → subnode m n.

(** A cell that some wall of the tree has strictly between its ends. *)
Definition innerOfTree (root : node) (c : coord) : Prop :=
  ∃ m w, subnode m root ∧ wall m = Some w ∧ innerCell w c.

(** Every wall of the tree lies inside the grid. *)
Definition wallsInGrid (root : node) (array : grid) : Prop :=
  ∀ m w, subnode m root → wall m = Some w → Forall (inGrid array) w.

(** The leaves of the tree, left to right. *)
Fixpoint leaves (n : node) : list node :=
  match n with
  | Node _ _ _ _ _ _ _ (Some c0) (Some c1) => leaves c0 ++ leaves c1
  | _ => [n]
  end.

(** The grid has 200 rows of 250 cells. *)
Definition dims (array : grid) : Prop :=
  map length array = replicate 200 250%nat.

(** Two random sources for the examples. *)
Definition zeroRng : rng := fun _ => 0.
Definition demoRng : rng :=
  fun n => (31 * Z.of_nat n * Z.of_nat n + 17 * Z.of_nat n + 5) `div` 7.

(** A column of [n] cells down from [(x, y)]. *)
Definition column (x y : Z) (n : Z) : list coord :=
  map (fun yPos => (x, yPos)) (range y (y + n)).

(** How many cells of [ps] hold [v]. *)
Definition countCells (v : cell) (array : grid) (ps : list coord) : nat :=
  length (filter (fun c => cellAt array c = Some v) ps).

(** A node with a wall of five cells and no joint, and two leaves. *)
Definition leafNode (sh : coord * coord) : node :=
  Node sh None [] [] false false false None None.

Definition plainTree : node :=
  Node ((3, 1), (7, 5)) (Some (column 5 1 5)) [] [] false false false
       (Some (leafNode ((3, 1), (5, 5)))) (Some (leafNode ((5, 1), (7, 5)))).

(** ** Geometry of the partition tree *)

(** Strictly inside the rectangle of a node, and inside or on its edge. *)
Definition inside (n : node) (c : coord) : Prop :=
  xMin n < c.1 < xMax n ∧ yMin n < c.2 < yMax n.

Definition within (n : node) (c : coord) : Prop :=
  xMin n <= c.1 <= xMax n ∧ yMin n <= c.2 <= yMax n.

(** The wall of a horizontal split at row [r], and of a vertical split at
    column [r]. *)
Definition rowWall (n : node) (r : Z) : list coord :=
  map (fun xPos => (xPos, r)) (range (xMin n) (xMax n + 1)).

Definition colWall (n : node) (r : Z) : list coord :=
  map (fun yPos => (r, yPos)) (range (yMin n) (yMax n + 1)).

(** [c0] and [c1] are the two halves of [n], cut by the wall [w]. *)
Definition splitAt (n c0 c1 : node) (w : list coord) : Prop :=
  (∃ r, yMin n < r < yMax n ∧ w = rowWall n r ∧
        shape c0 = ((xMin n, yMin n), (xMax n, r)) ∧
        shape c1 = ((xMin n, r), (xMax n, yMax n))) ∨
  (∃ r, xMin n < r < xMax n ∧ w = colWall n r ∧
        shape c0 = ((xMin n, yMin n), (r, yMax n)) ∧
        shape c1 = ((r, yMin n), (xMax n, yMax n))).

(** The rectangle is a proper rectangle of the 250 by 200 grid, and a
    node flagged [basePossible] is more than 22 cells wide and high. *)
Definition rectOk (n : node) : Prop :=
  0 <= xMin n < xMax n ∧ xMax n <= 249 ∧
  0 <= yMin n < yMax n ∧ yMax n <= 199 ∧
  (basePossible n = true → 22 < xMax n - xMin n ∧ 22 < yMax n - yMin n).

(** A well-formed partition tree: a leaf has no wall, no wall part and no
    child; any other node has a wall of three cells or more and its two
    halves. *)
Fixpoint wf (n : node) : Prop :=
  rectOk n ∧
  match n with
  | Node _ None _ wp _ _ _ None None => wp = []
  | Node _ (Some w) _ _ _ _ _ (Some c0) (Some c1) =>
      xMin n + 2 <= xMax n ∧ yMin n + 2 <= yMax n ∧
      splitAt n c0 c1 w ∧ wf c0 ∧ wf c1
  | _ => False
  end.

(** A complete tree of depth [k] whose leaves are at least [m] wide and
    high. *)
Fixpoint grown (k : nat) (m : Z) (n : node) : Prop :=
  match k with
  | O => left n = None ∧ right n = None ∧ wall n = None ∧
         m <= xMax n - xMin n ∧ m <= yMax n - yMin n
  | S k' => ∃ c0 c1, left n = Some c0 ∧ right n = Some c1 ∧
                     grown k' m c0 ∧ grown k' m c1
  end.

(** The outer ring of the grid, and the invariant that it holds [Wall]. *)
Definition onBorder (c : coord) : Prop :=
  (0 <= c.1 <= 249 ∧ 0 <= c.2 <= 199) ∧
  (c.1 = 0 ∨ c.1 = 249 ∨ c.2 = 0 ∨ c.2 = 199).

Definition borderOk (array : grid) : Prop :=
  ∀ c, onBorder c → cellAt array c = Some Wall.

(** The four split rounds of [generateWorld], before the doors. *)
Definition splitRounds : M (node * grid) :=
  let array := createEmptyWorld in
  let* row0 := lift (py_nth array 0) in
  let* root := lift (node_init 0 (len row0 - 1) 0 (len array - 1) array) in
  forM (fun '(root, array) _ =>
          let* (root, array, _) := splitDepth root array in
          ret (root, array))
       (range 0 4) (root, array).

(** [array'] differs from [array] only in cells that now hold [Wall]. *)
Definition walled (array array' : grid) : Prop :=
  map length array' = map length array ∧
  ∀ c, cellAt array' c = cellAt array c ∨ cellAt array' c = Some Wall.

(** ** Bases *)

(** The cells visited by the marking loops of [addBase] for [base], in
    the order of the loops. *)
Definition squareCells (base : coord * coord) : list coord :=
  x ← range base.1.1 (base.2.1 + 1);
  (fun y => (x, y)) <$> range base.1.2 (base.2.2 + 1).

(** The tree with every [basePresent] flag off: what stays the same when
    bases are placed. *)
Fixpoint unmark (n : node) : node :=
  match n with
  | Node sh w un wp _ bpos out c0 c1 =>
      Node sh w un wp false bpos out
           (match c0 with Some c => Some (unmark c) | None => None end)
           (match c1 with Some c => Some (unmark c) | None => None end)
  end.

(** The four pairs of child choices. *)
Definition allQuads : list (Z * Z) := [(0, 0); (0, 1); (1, 0); (1, 1)].

(** The node that the two quadrant steps reach, and its leaves. *)
Definition quadNode (root : node) (q : Z * Z) : option node :=
  match quadStep root q with
  | Ok (_, n) => Some n
  | _ => None
  end.

Definition quadLeaves (root : node) (q : Z * Z) : list node :=
  match quadNode root q with
  | Some n => leaves n
  | None => []
  end.

(** No leaf that can be reached through [quadrants] may take a base. *)
Definition noEligible (root : node) (quadrants : list (Z * Z)) : Prop :=
  ∀ q leaf, q ∈ quadrants → leaf ∈ quadLeaves root q → eligible leaf = false.

(** The base is a square of 21 by 21 cells, kept one cell away from the
    edges of the rectangle of [n]. *)
Definition baseIn (n : node) (base : coord * coord) : Prop :=
  base.2 = (base.1.1 + 20, base.1.2 + 20) ∧
  xMin n + 1 <= base.1.1 ∧ base.1.1 + 20 <= xMax n - 1 ∧
  yMin n + 1 <= base.1.2 ∧ base.1.2 + 20 <= yMax n - 1.

(** How many cells of the grid hold [v], row by row. *)
Definition countInGrid (v : cell) (array : grid) : nat :=
  sum_list (map (fun row => length (filter (fun c => c = v) row)) array).

(** Every cell of the base is strictly inside the rectangle of [n]. *)
Definition baseInside (n : node) (base : coord * coord) : Prop :=
  ∀ c, c ∈ squareCells base → inside n c.


(** The base keeps clear of the outer ring of the grid. *)
Definition baseOffBorder (base : coord * coord) : Prop :=
  1 <= base.1.1 ∧ base.2.1 <= 248 ∧ 1 <= base.1.2 ∧ base.2.2 <= 198.


(** A tree of depth two over the whole grid whose right half is a strip
    of 19 columns: the leaves of the quadrants [(1, 0)] and [(1, 1)] are
    too narrow for a base, those of [(0, 0)] and [(0, 1)] can take one. *)
Definition flaggedLeaf (sh : coord * coord) (possible : bool) : node :=
  Node sh None [] [] false possible true None None.

Definition twoQuadTree : node :=
  Node ((0, 0), (249, 199)) (Some (column 230 0 200)) [] [] false true true
    (Some (Node ((0, 0), (230, 199))
                (Some (map (fun x => (x, 100)) (range 0 231))) [] []
                false true true
                (Some (flaggedLeaf ((0, 0), (230, 100)) true))
                (Some (flaggedLeaf ((0, 100), (230, 199)) true))))
    (Some (Node ((230, 0), (249, 199))
                (Some (map (fun x => (x, 100)) (range 230 250))) [] []
                false false true
                (Some (flaggedLeaf ((230, 0), (249, 100)) false))
                (Some (flaggedLeaf ((230, 100), (249, 199)) false)))).

(** ** Wall blocks *)

(** The cells between the two positions of a block, ends included. *)
Definition inSpan (b : block) (c : coord) : Prop :=
  b.1.1 <= c.1 <= b.2.1 ∧ b.1.2 <= c.2 <= b.2.2.

Definition spanApart (b b' : block) : Prop :=
  ∀ c, inSpan b c → inSpan b' c → False.

(** No cell lies within the span of two blocks at different places of
    the list. *)
Definition blocksApart (walls : list block) : Prop :=
  ∀ i j b b', walls !! i = Some b → walls !! j = Some b' → i ≠ j →
              spanApart b b'.

Fixpoint allApart (walls : list block) : Prop :=
  match walls with
  | [] => True
  | b :: walls' => Forall (spanApart b) walls' ∧ allApart walls'
  end.

(** A list of positions that runs along a row, or down a column, one
    cell at a time. *)
Definition isRow (x y : Z) (l : list coord) : Prop :=
  ∀ k c, l !! k = Some c ↔ (k < length l)%nat ∧ c = (x + Z.of_nat k, y).

Definition isCol (x y : Z) (l : list coord) : Prop :=
  ∀ k c, l !! k = Some c ↔ (k < length l)%nat ∧ c = (x, y + Z.of_nat k).

Definition straight (l : list coord) : Prop :=
  (∃ x y, isRow x y l) ∨ (∃ x y, isCol x y l).

(** The parts of a wall: runs of it, in order and without overlap. *)
Definition partsFrom (w : list coord) (parts : list (list coord)) : Prop :=
  Forall (isRun w) parts ∧ sublist (concat parts) w.

(** Every wall of the tree has its parts. *)
Definition partsOk (root : node) : Prop :=
  ∀ m w, subnode m root → wall m = Some w → partsFrom w (wallParts m).

(** * Rooms, joints and doors of a generated world: vocabulary *)

(** Width and height of the rectangle of a node, [size] in [splitNode]. *)
Definition sizeX (n : node) : Z := xMax n - xMin n.
Definition sizeY (n : node) : Z := yMax n - yMin n.

(** A node as [node.__init__] leaves it: no wall, no child, nothing
    unusable. *)
Definition fresh (n : node) : Prop :=
  wall n = None ∧ left n = None ∧ right n = None ∧ unusableWall n = [].

(** The end points of the walls of [n] and of the nodes below it: what
    [setWall] hands to [adjustWall]. *)
Fixpoint wallEndsOf (n : node) : list coord :=
  match n with
  | Node _ w _ _ _ _ _ c0 c1 =>
      match w with Some w => wallEnds w | None => [] end ++
      match c0 with Some c => wallEndsOf c | None => [] end ++
      match c1 with Some c => wallEndsOf c | None => [] end
  end.

(** The end points of the walls strictly below [n]. *)
Definition jointsBelow (n : node) : list coord :=
  match left n with Some c => wallEndsOf c | None => [] end ++
  match right n with Some c => wallEndsOf c | None => [] end.

(** Every node lists as unusable exactly the end points of the walls
    below it. *)
Fixpoint jointsOk (n : node) : Prop :=
  (∀ c, c ∈ unusableWall n ↔ c ∈ jointsBelow n) ∧
  match n with
  | Node _ _ _ _ _ _ _ c0 c1 =>
      match c0 with Some c => jointsOk c | None => True end ∧
      match c1 with Some c => jointsOk c | None => True end
  end.

(** The cells of all the walls of the tree. *)
Fixpoint wallCells (n : node) : list coord :=
  match n with
  | Node _ w _ _ _ _ _ c0 c1 =>
      match w with Some w => w | None => [] end ++
      match c0 with Some c => wallCells c | None => [] end ++
      match c1 with Some c => wallCells c | None => [] end
  end.

(** The widths and heights a room can have after [k] split rounds. *)
Definition roomSizes (k : nat) (w h : Z) : Prop :=
  match k with
  | 0%nat => w = 249 ∧ h = 199
  | 1%nat => (87 <= w <= 162 ∧ h = 199) ∨ (w = 249 ∧ 69 <= h <= 130)
  | 2%nat => (46 <= w <= 106 ∧ h = 199) ∨ (87 <= w <= 162 ∧ 69 <= h <= 130)
  | 3%nat => (30 <= w <= 106 ∧ 69 <= h <= 130) ∨
             (87 <= w <= 162 ∧ 24 <= h <= 85)
  | _ => (16 <= w <= 162 ∧ 20 <= h <= 130)
  end.

(** Every room of the tree has a width and height allowed by [P]. *)
Definition roomsSized (P : Z → Z → Prop) (n : node) : Prop :=
  Forall (fun l => P (sizeX l) (sizeY l)) (leaves n).

(** One split takes rooms of sizes [P] to rooms of sizes [P']: a room is
    cut across its height only if it is not more than 1.5 times as wide as
    high, across its width only if not more than 1.5 times as high as
    wide, and either part keeps [int(0.35 * size)] of the side cut. *)
Definition sizeStep (P P' : Z → Z → Prop) : Prop :=
  ∀ w h, P w h →
    6 <= w <= 249 ∧ 6 <= h <= 199 ∧
    (2 * w <= 3 * h → ∀ r, int35 h <= r <= h - int35 h →
                           P' w r ∧ P' w (h - r)) ∧
    (2 * h <= 3 * w → ∀ r, int35 w <= r <= w - int35 w →
                           P' r h ∧ P' (w - r) h).

(** The grid of a tree: [Wall] on the walls of the tree, and as
    [createEmptyWorld] made it elsewhere. *)
Definition gridOf (root : node) (array : grid) : Prop :=
  ∀ c, cellAt array c =
       if decide (c ∈ wallCells root) then Some Wall
       else cellAt createEmptyWorld c.

(** Every node of the tree is at least [k] wide and high. *)
Definition allSized (k : Z) (root : node) : Prop :=
  ∀ m, subnode m root → k <= sizeX m ∧ k <= sizeY m.

(** A joint that, if it lies on the top or bottom side of the rectangle
    of [n], is 15 cells or more from its left side, and if it lies on the
    left or right side, 15 cells or more from its top. *)
Definition farJoint (n : node) (c : coord) : Prop :=
  (xMin n + 15 <= c.1 ∨ yMin n < c.2 < yMax n) ∧
  (yMin n + 15 <= c.2 ∨ xMin n < c.1 < xMax n).

(** A cell that [addDoors] may clear: strictly between the ends of a
    wall of the tree, and the end of no wall. *)
Definition doorable (root : node) (c : coord) : Prop :=
  innerOfTree root c ∧ c ∉ wallEndsOf root.

(** [p] is a maximal usable run of [whole]: not empty, all its cells
    usable, and what comes just before it and just after it in [whole],
    if anything, is unusable. *)
Definition maxRun (unusable whole p : list coord) : Prop :=
  p ≠ [] ∧ Forall (λ c, c ∉ unusable) p ∧
  ∃ l1 l2, whole = l1 ++ p ++ l2 ∧
           (∀ x, last l1 = Some x → x ∈ unusable) ∧
           (∀ x, head l2 = Some x → x ∈ unusable).

(** ** Robots and world units *)

(** The middle cell of a base, as [addRobots] computes it. *)
Definition baseCentre (b : coord * coord) : coord :=
  ((b.2.1 - b.1.1) `div` 2 + b.1.1, (b.2.2 - b.1.2) `div` 2 + b.1.2).

(** The floats [2.1] and [0.1]. *)
Definition f2_1 : double := double_of_ratio (21, 10).
Definition f0_1 : double := double_of_ratio (1, 10).

(** An obstacle whose three sizes are whole hundredths: width and depth
    from 0.30 to 2.19, height from 0.50 to 1.29. *)
Definition obstacleOk (o : double * double * double) : Prop :=
  ∃ w h d, 30 <= w < 220 ∧ 50 <= h < 130 ∧ 30 <= d < 220 ∧
           o = (double_of_ratio (w, 100), double_of_ratio (h, 100),
                double_of_ratio (d, 100)).

(** ** Wall parts and wall blocks *)

#[global] Instance pyerr_eq_dec : EqDecision pyerr.
Proof. solve_decision. Defined.

#[global] Instance res_eq_dec {A} `{EqDecision A} : EqDecision (res A).
Proof. solve_decision. Defined.

(** The cell holds ["w"], as [generateWallParts] reads it. *)
Definition wallAt (array : grid) (c : coord) : Prop :=
  getCell array c = Ok Wall.

#[global] Instance wallAt_dec array c : Decision (wallAt array c).
Proof. unfold wallAt. apply _. Defined.

(** [p] is a maximal run of cells of [whole] that hold ["w"]. *)
Definition wallRun (array : grid) (whole p : list coord) : Prop :=
  p ≠ [] ∧ Forall (wallAt array) p ∧
  ∃ l1 l2, whole = l1 ++ p ++ l2 ∧
           (∀ x, last l1 = Some x → ¬ wallAt array x) ∧
           (∀ x, head l2 = Some x → ¬ wallAt array x).

(** A block that is one cell thick: its two positions are on one column
    or on one row, the first not after the second. *)
Definition thin (b : block) : Prop :=
  (b.1.1 = b.2.1 ∧ b.1.2 <= b.2.2) ∨ (b.1.2 = b.2.2 ∧ b.1.1 <= b.2.1).

(** No cell of [U] is followed in [part] by another cell of [U]. *)
Definition usedApart (U part : list coord) : Prop :=
  ∀ l1 a b l2, part = l1 ++ a :: b :: l2 → a ∈ U → b ∉ U.

(** The double nearest to [n / 10]. *)
Definition tenths (n : Z) : double := double_of_ratio (n, 10).

(** The call has returned or is still running: it has not raised. *)
Definition notRaised {A} (r : res A) : Prop :=
  match r with Raise _ => False | _ => True end.

(** ** Ways through the maze *)

(** Two cells side by side, or one above the other. *)
Definition adjacent (c c' : coord) : Prop :=
  (c.1 = c'.1 ∧ (c.2 = c'.2 + 1 ∨ c'.2 = c.2 + 1)) ∨
  (c.2 = c'.2 ∧ (c.1 = c'.1 + 1 ∨ c'.1 = c.1 + 1)).

(** A cell of the grid that holds no wall. *)
Definition free (array : grid) (c : coord) : Prop :=
  ∃ v, cellAt array c = Some v ∧ v ≠ Wall.

(** A way from a cell to a cell: free cells, each adjacent to the one
    before. *)
Inductive way (array : grid) : coord → coord → Prop :=
  | way_here c : free array c → way array c c
  | way_step c c' c'' :
      free array c → adjacent c c' → way array c' c'' → way array c c''.

(** The cell is on a side of the rectangle of [l], between its corners. *)
Definition beside (l : node) (c : coord) : Prop :=
  ((c.2 = yMin l ∨ c.2 = yMax l) ∧ xMin l < c.1 < xMax l) ∨
  ((c.1 = xMin l ∨ c.1 = xMax l) ∧ yMin l < c.2 < yMax l).

(** A node without children, and a cell strictly inside a room of the
    region of [n]. *)
Definition isLeaf (n : node) : Prop := left n = None ∧ right n = None.

Definition inRoomOf (n : node) (c : coord) : Prop :=
  ∃ l, l ∈ leaves n ∧ inside l c.

(** ** Doors *)

(** What [openDoor] clears in a part [p]: fifteen cells from an offset of
    [1..len-16], or every cell but the two ends. *)
Definition doorOf (p ps : list coord) : Prop :=
  (16 < len p ∧ ∃ r, 1 <= r <= len p - 16 ∧ ps = doorCells p r) ∨
  (len p <= 16 ∧ ps = interiorCells p).

(** A door in the wall [w]: 13 to 15 cells of [w] in a row that hold
    [Empty], with a cell that holds [Wall] just before and just after. *)
Definition doorIn (array : grid) (w door : list coord) : Prop :=
  13 <= len door <= 15 ∧
  Forall (λ c, cellAt array c = Some Empty) door ∧
  ∃ l1 a b l2, w = l1 ++ [a] ++ door ++ [b] ++ l2 ∧
               cellAt array a = Some Wall ∧ cellAt array b = Some Wall.

(** Every cell of a wall of the tree that holds [Empty] is in a door. *)
Definition doorsOk (root : node) (array : grid) : Prop :=
  ∀ m w c, subnode m root → wall m = Some w → c ∈ w →
           cellAt array c = Some Empty →
           ∃ door, c ∈ door ∧ doorIn array w door.

(** ** The flags of a room *)

(** The flags of a room as [node.__init__] sets them from its bounds. *)
Definition flagged (l : node) : Prop :=
  (outside l = true ↔
   xMin l = 0 ∨ yMin l = 0 ∨ xMax l = 249 ∨ yMax l = 200) ∧
  (basePossible l = true ↔ 22 < sizeX l ∧ 22 < sizeY l).

Definition roomsFlagged (n : node) : Prop := Forall flagged (leaves n).

(** * Proofs *)

(** ** Facts about the grid *)

Lemma py_index_in (n : nat) (i : Z) :
  0 <= i < Z.of_nat n → py_index n i = Some (Z.to_nat i).
Proof.
  intros H. unfold py_index.
  destruct (Z.ltb_spec i 0); [lia|].
  destruct (Z.leb_spec 0 i); [|lia].
  destruct (Z.ltb_spec i (Z.of_nat n)); [done|lia].
Qed.

Lemma py_nth_in {A} (l : list A) (i : Z) (a : A) :
  0 <= i → l !! Z.to_nat i = Some a → py_nth l i = Ok a.
Proof.
  intros Hi Hl. unfold py_nth.
  rewrite py_index_in; [by rewrite Hl|].
  apply lookup_lt_Some in Hl. lia.
Qed.

Lemma cellAt_Some (array : grid) (c : coord) (v : cell) :
  cellAt array c = Some v ↔
  0 <= c.1 ∧ 0 <= c.2 ∧
  ∃ row, array !! Z.to_nat c.2 = Some row ∧ row !! Z.to_nat c.1 = Some v.
Proof.
  unfold cellAt.
  destruct (Z.leb_spec 0 c.1), (Z.leb_spec 0 c.2); simpl;
    try (split; [done | lia]).
  destruct (array !! Z.to_nat c.2) as [row|] eqn:E; simpl.
  - split; [intros H1; eauto 6 | intros (_ & _ & row' & Hr & Hv); congruence].
  - split; [done | intros (_ & _ & row' & Hr & Hv); congruence].
Qed.

Lemma setCell_spec (array : grid) (p : coord) (v : cell) :
  inGrid array p →
  ∃ array', setCell array p v = Ok array' ∧
    map length array' = map length array ∧
    ∀ c, cellAt array' c = if decide (c = p) then Some v else cellAt array c.
Proof.
  intros [v0 Hv0]. apply cellAt_Some in Hv0 as (Hx & Hy & row & Hrow & Hc).
  unfold setCell.
  rewrite py_index_in by (apply lookup_lt_Some in Hrow; lia).
  rewrite Hrow.
  rewrite py_index_in by (apply lookup_lt_Some in Hc; lia).
  eexists; split; [done|]. split.
  { rewrite list_fmap_insert, length_insert.
    apply list_insert_id. by rewrite list_lookup_fmap, Hrow. }
  intros c. unfold cellAt.
  destruct (Z.leb_spec 0 c.1), (Z.leb_spec 0 c.2); simpl;
    try (case_decide; [subst; lia | done]).
  destruct (decide (Z.to_nat c.2 = Z.to_nat p.2)) as [Ey|Ny].
  - rewrite Ey, list_lookup_insert_eq by (by apply lookup_lt_Some in Hrow).
    simpl. rewrite Hrow. simpl.
    destruct (decide (Z.to_nat c.1 = Z.to_nat p.1)) as [Ex|Nx].
    + rewrite Ex, list_lookup_insert_eq by (by apply lookup_lt_Some in Hc).
      rewrite decide_True; [done|].
      destruct c, p; simpl in *; f_equal; lia.
    + rewrite list_lookup_insert_ne by done.
      rewrite decide_False; [done|]. intros ->. done.
  - rewrite list_lookup_insert_ne by done.
    rewrite decide_False; [done|]. intros ->. done.
Qed.

Lemma setCells_spec (v : cell) (ps : list coord) (array : grid) :
  Forall (inGrid array) ps →
  ∃ array', setCells v ps array = Ok array' ∧ filled v ps array array'.
Proof.
  revert array. induction ps as [|p ps IH]; intros array Hin.
  - exists array. split; [done|]. split; [done|].
    intros c. rewrite decide_False; [done|]. apply not_elem_of_nil.
  - apply Forall_cons_1 in Hin as [Hp Hps].
    destruct (setCell_spec array p v Hp) as (a1 & E1 & L1 & S1).
    destruct (IH a1) as (a2 & E2 & L2 & S2).
    { rewrite Forall_forall in Hps. apply Forall_forall. intros c Hc.
      unfold inGrid. rewrite S1. case_decide; [by eexists | by apply Hps]. }
    exists a2. split.
    + unfold setCells in *. simpl. rewrite E1. simpl. exact E2.
    + split; [congruence|]. intros c. rewrite S2, S1.
      destruct (decide (c ∈ ps)) as [Hc|Hc].
      * rewrite decide_True; [done|]. apply elem_of_cons. by right.
      * destruct (decide (c = p)) as [->|Hne].
        -- rewrite decide_True; [done|]. apply elem_of_cons. by left.
        -- rewrite decide_False; [done|].
           intros [?|?]%elem_of_cons; done.
Qed.

Lemma clearCells_spec (ps : list coord) (array : grid) :
  Forall (inGrid array) ps →
  ∃ array', clearCells ps array = Ok array' ∧ cleared ps array array'.
Proof. apply setCells_spec. Qed.

(** ** What [openDoor] writes *)

Lemma forR_clear_run (wall : list coord) (r : Z) (k : nat) :
  ∀ a array, 0 <= a + r → a + r + Z.of_nat k <= len wall →
    forR (fun array i =>
            if i + r <? len wall then
              let? p := py_nth wall (i + r) in setCell array p Empty
            else Ok array)
         (seqZ a (Z.of_nat k)) array
    = clearCells (take k (drop (Z.to_nat (a + r)) wall)) array.
Proof.
  unfold len. induction k as [|k IH]; intros a array H0 Hlen.
  - done.
  - rewrite seqZ_cons by lia.
    destruct (lookup_lt_is_Some_2 wall (Z.to_nat (a + r))) as [p Hp]; [lia|].
    rewrite (drop_S _ _ _ Hp). cbn [take forR clearCells].
    destruct (Z.ltb_spec (a + r) (Z.of_nat (length wall))); [|lia].
    rewrite (py_nth_in _ _ _ H0 Hp). cbn [res_bind].
    destruct (setCell array p Empty) as [a1| |]; cbn [res_bind]; try done.
    replace (Z.pred (Z.of_nat (S k))) with (Z.of_nat k) by lia.
    rewrite IH by lia.
    by replace (Z.to_nat (Z.succ a + r)) with (S (Z.to_nat (a + r))) by lia.
Qed.

Lemma forR_clear_interior (wall : list coord) (k : nat) :
  ∀ a array, 0 <= a → a + Z.of_nat k <= len wall →
    forR (fun array i => let? p := py_nth wall i in setCell array p Empty)
         (seqZ a (Z.of_nat k)) array
    = clearCells (take k (drop (Z.to_nat a) wall)) array.
Proof.
  unfold len. induction k as [|k IH]; intros a array H0 Hlen.
  - done.
  - rewrite seqZ_cons by lia.
    destruct (lookup_lt_is_Some_2 wall (Z.to_nat a)) as [p Hp]; [lia|].
    rewrite (drop_S _ _ _ Hp). cbn [take forR clearCells].
    rewrite (py_nth_in _ _ _ H0 Hp). cbn [res_bind].
    destruct (setCell array p Empty) as [a1| |]; cbn [res_bind]; try done.
    replace (Z.pred (Z.of_nat (S k))) with (Z.of_nat k) by lia.
    rewrite IH by lia.
    by replace (Z.to_nat (Z.succ a)) with (S (Z.to_nat a)) by lia.
Qed.

(** The two branches of [openDoor]: a wall of more than 16 cells gets the
    fifteen cells from a drawn offset of [1..len-16]; any other wall gets
    its interior cleared, and draws nothing. *)
Lemma openDoor_cases (wall : list coord) (array : grid) (s : rng) :
  (16 < len wall ∧
   ∃ r, 1 <= r <= len wall - 16 ∧
        openDoor wall array s
        = lift (clearCells (doorCells wall r) array) (rng_tail s)) ∨
  (len wall <= 16 ∧
   openDoor wall array s = lift (clearCells (interiorCells wall) array) s).
Proof.
  unfold openDoor. destruct (Z.ltb_spec 16 (len wall)) as [Hl|Hl].
  - left. split; [done|].
    exists (1 + s 0%nat `mod` (len wall - 16 - 1 + 1)). split.
    + pose proof (Z.mod_pos_bound (s 0%nat) (len wall - 16 - 1 + 1)). lia.
    + unfold bind, randint.
      destruct (Z.leb_spec 1 (len wall - 16)); [|lia].
      unfold range. change (15 - 0) with (Z.of_nat 15).
      rewrite forR_clear_run; [done| |].
      * pose proof (Z.mod_pos_bound (s 0%nat) (len wall - 16 - 1 + 1)). lia.
      * pose proof (Z.mod_pos_bound (s 0%nat) (len wall - 16 - 1 + 1)). lia.
  - right. split; [done|]. unfold range, interiorCells.
    destruct (decide (len wall <= 2)) as [Hs|Hs].
    + unfold len in *. replace (length wall - 2)%nat with 0%nat by lia.
      rewrite seqZ_nil by lia. done.
    + unfold len in *.
      replace (Z.of_nat (length wall) - 1 - 1)
        with (Z.of_nat (length wall - 2)) by lia.
      rewrite forR_clear_interior; [done|lia|unfold len; lia].
Qed.

Lemma doorCells_inner (wall : list coord) (r : Z) (c : coord) :
  1 <= r <= len wall - 16 → c ∈ doorCells wall r →
  ∃ k, (0 < k < length wall - 1)%nat ∧ wall !! k = Some c.
Proof.
  unfold len, doorCells. intros Hr (i & Hi & Hlt)%elem_of_take.
  rewrite lookup_drop in Hi. exists (Z.to_nat r + i)%nat. split; [lia|done].
Qed.

Lemma interiorCells_inner (wall : list coord) (c : coord) :
  c ∈ interiorCells wall →
  ∃ k, (0 < k < length wall - 1)%nat ∧ wall !! k = Some c.
Proof.
  unfold interiorCells. intros (i & Hi & Hlt)%elem_of_take.
  rewrite lookup_drop in Hi. exists (1 + i)%nat. split; [lia|done].
Qed.

Lemma doorCells_length (wall : list coord) (r : Z) :
  1 <= r <= len wall - 16 → length (doorCells wall r) = 15%nat.
Proof.
  unfold len, doorCells. intros Hr. rewrite length_take, length_drop. lia.
Qed.

Lemma interiorCells_length (wall : list coord) :
  length (interiorCells wall) = (length wall - 2)%nat.
Proof. unfold interiorCells. rewrite length_take, length_drop. lia. Qed.

Lemma carved_refl P array : carved P array array.
Proof. split; [done|]. intros c. by left. Qed.

Lemma carved_inGrid P array array' c :
  carved P array array' → inGrid array' c ↔ inGrid array c.
Proof.
  intros [_ H]. unfold inGrid. destruct (H c) as [->|(_ & Hin & ->)]; [done|].
  split; [done | by eexists].
Qed.

Lemma carved_trans P array1 array2 array3 :
  carved P array1 array2 → carved P array2 array3 → carved P array1 array3.
Proof.
  intros H12 H23. split; [destruct H12, H23; congruence|].
  intros c. destruct (proj2 H23 c) as [E|(HP & Hin & E)].
  - rewrite E. apply H12.
  - right. split; [done|]. split; [|done].
    by apply (carved_inGrid P array1 array2).
Qed.

Lemma carved_weaken (P Q : coord → Prop) array array' :
  (∀ c, P c → Q c) → carved P array array' → carved Q array array'.
Proof.
  intros HPQ [HL H]. split; [done|].
  intros c. destruct (H c) as [E|(HP & Hin & E)]; [by left|].
  right. eauto.
Qed.

Lemma carved_Empty P array array' c :
  carved P array array' → cellAt array c = Some Empty →
  cellAt array' c = Some Empty.
Proof. intros [_ H] E. destruct (H c) as [->|(_ & _ & ->)]; done. Qed.

Lemma cleared_carved ps array array' :
  Forall (inGrid array) ps → cleared ps array array' →
  carved (.∈ ps) array array'.
Proof.
  intros Hin [HL Hc]. split; [done|].
  intros c. rewrite (Hc c). case_decide; [|by left].
  right. split; [done|]. split; [|done].
  rewrite Forall_forall in Hin. by apply Hin.
Qed.

(** [openDoor] on a wall inside the grid never raises; it clears the
    cells [ps], all of them inner cells of the wall. *)
Lemma openDoor_spec (wall : list coord) (array : grid) (s : rng) :
  Forall (inGrid array) wall →
  ∃ ps array' s',
    openDoor wall array s = Ok (array', s') ∧
    cleared ps array array' ∧
    Forall (innerCell wall) ps ∧
    (16 < len wall → ∃ r, 1 <= r <= len wall - 16 ∧ ps = doorCells wall r) ∧
    (len wall <= 16 → ps = interiorCells wall).
Proof.
  intros Hin.
  destruct (openDoor_cases wall array s) as [(Hl & r & Hr & E)|(Hl & E)].
  - destruct (clearCells_spec (doorCells wall r) array) as (a' & Ec & Hc).
    { by apply Forall_take, Forall_drop. }
    exists (doorCells wall r), a', (rng_tail s). rewrite E. unfold lift.
    rewrite Ec. split; [done|]. split; [done|]. split.
    + apply Forall_forall. intros c Hc'. by eapply doorCells_inner.
    + split; [eauto | lia].
  - destruct (clearCells_spec (interiorCells wall) array) as (a' & Ec & Hc).
    { by apply Forall_take, Forall_drop. }
    exists (interiorCells wall), a', s. rewrite E. unfold lift.
    rewrite Ec. split; [done|]. split; [done|]. split.
    + apply Forall_forall. intros c Hc'. by eapply interiorCells_inner.
    + split; [lia | done].
Qed.

Lemma innerCell_elem_of wall c : innerCell wall c → c ∈ wall.
Proof. intros (k & _ & Hk). by eapply list_elem_of_lookup_2. Qed.

Lemma openDoor_carved (wall : list coord) (array : grid) (s : rng) :
  Forall (inGrid array) wall →
  ∃ array' s', openDoor wall array s = Ok (array', s') ∧
               carved (innerCell wall) array array'.
Proof.
  intros Hin.
  destruct (openDoor_spec wall array s Hin) as (ps & a' & s' & E & Hc & Hi & _).
  exists a', s'. split; [done|].
  eapply carved_weaken; [|apply (cleared_carved ps); [|done]].
  - intros c Hc'. rewrite Forall_forall in Hi. by apply Hi.
  - apply Forall_forall. intros c Hc'. rewrite Forall_forall in Hi, Hin.
    by apply Hin, innerCell_elem_of, Hi.
Qed.

(** A wall of three cells or more loses at least one cell. *)
Lemma openDoor_gap (wall : list coord) (array : grid) (s : rng) :
  Forall (inGrid array) wall → 3 <= len wall →
  ∃ array' s' c, openDoor wall array s = Ok (array', s') ∧
                 innerCell wall c ∧ cellAt array' c = Some Empty.
Proof.
  intros Hin H3.
  destruct (openDoor_spec wall array s Hin)
    as (ps & a' & s' & E & Hc & Hi & Hlong & Hshort).
  assert (∃ c, c ∈ ps) as [c Hcps].
  { destruct ps as [|c ps]; [|exists c; apply elem_of_cons; by left].
    exfalso. destruct (decide (16 < len wall)) as [Hl|Hl].
    - destruct (Hlong Hl) as (r & Hr & Eps).
      apply (f_equal length) in Eps. rewrite doorCells_length in Eps; done.
    - specialize (Hshort ltac:(lia)). apply (f_equal length) in Hshort.
      rewrite interiorCells_length in Hshort. unfold len in *.
      simpl in Hshort. lia. }
  exists a', s', c. split; [done|]. split.
  - rewrite Forall_forall in Hi. by apply Hi.
  - rewrite (proj2 Hc c). by rewrite decide_True.
Qed.

(** ** Wall parts *)

Lemma isRun_inner wall part c :
  isRun wall part → innerCell part c → innerCell wall c.
Proof.
  intros (_ & l1 & l2 & ->) (k & Hk & Hc).
  exists (length l1 + k)%nat. split.
  - rewrite !length_app. lia.
  - rewrite lookup_app_r by lia.
    replace (length l1 + k - length l1)%nat with k by lia.
    by apply lookup_app_l_Some.
Qed.

Lemma isRun_Forall (P : coord → Prop) wall part :
  isRun wall part → Forall P wall → Forall P part.
Proof.
  intros (_ & l1 & l2 & ->) H.
  apply Forall_app in H as [_ H]. by apply Forall_app in H as [H _].
Qed.

Lemma wallPartsLoop_runs (whole unusable : list coord) :
  ∀ rest acc cur pre,
    whole = pre ++ cur ++ rest → Forall (isRun whole) acc →
    Forall (isRun whole) (wallPartsLoop rest unusable acc cur).
Proof.
  induction rest as [|p rest IH]; intros acc cur pre Hw Hacc; simpl.
  - case_decide; [done|]. apply Forall_app. split; [done|].
    apply Forall_singleton. split; [done|]. by exists pre, [].
  - destruct (decide (p ∈ unusable)) as [Hp|Hp].
    + destruct (decide (cur = [])) as [->|Hcur].
      * apply (IH _ _ (pre ++ [p])); [|done]. rewrite Hw. simpl.
        by rewrite <- app_assoc.
      * apply (IH _ _ (pre ++ cur ++ [p])).
        -- rewrite Hw. simpl. by rewrite <- !app_assoc.
        -- apply Forall_app. split; [done|]. apply Forall_singleton.
           split; [done|]. by exists pre, (p :: rest).
    + apply (IH _ _ pre); [|done]. rewrite Hw. by rewrite <- app_assoc.
Qed.

Lemma usableParts_runs wall unusable :
  Forall (isRun wall) (usableParts wall unusable).
Proof. by apply (wallPartsLoop_runs wall unusable wall [] [] []). Qed.

Lemma py_nth_range {A} (l : list A) (i : Z) :
  0 <= i < len l → ∃ a, py_nth l i = Ok a ∧ a ∈ l.
Proof.
  unfold len. intros Hi.
  destruct (lookup_lt_is_Some_2 l (Z.to_nat i)) as [a Ha]; [lia|].
  exists a. split; [apply py_nth_in; [lia|done]|].
  by eapply list_elem_of_lookup_2.
Qed.

Lemma elem_of_range a b i : i ∈ range a b ↔ a <= i < b.
Proof. unfold range. rewrite elem_of_seqZ. lia. Qed.

Lemma largePartsOf_elem part wallParts :
  part ∈ largePartsOf wallParts ↔ 15 <= len part ∧ part ∈ wallParts.
Proof. unfold largePartsOf. by rewrite list_elem_of_filter. Qed.

(** The selection loop returns [-1] or a valid index into [wallParts]. *)
Lemma selectLoop_range (wallParts : list (list coord)) :
  (wallParts = [] ∧ (selectLoop wallParts).2 = -1) ∨
  (wallParts ≠ [] ∧ 0 <= (selectLoop wallParts).2 < len wallParts).
Proof.
  unfold selectLoop.
  set (f := fun '(longest, selected) i =>
              match py_nth wallParts i with
              | Ok part => if longest <? len part then (len wallParts, i)
                           else (longest, selected)
              | _ => (longest, selected)
              end).
  assert (Hinv : ∀ l st, (∀ i, i ∈ l → 0 <= i < len wallParts) →
           0 <= st.2 < len wallParts →
           0 <= (fold_left f l st).2 < len wallParts).
  { induction l as [|i l IH]; intros [lo sel] Hl Hst; [done|].
    simpl. apply IH.
    - intros j Hj. apply Hl, elem_of_cons. by right.
    - assert (0 <= i < len wallParts) by (apply Hl, elem_of_cons; by left).
      destruct (py_nth wallParts i); [case_match|..]; simpl; done. }
  destruct wallParts as [|part0 rest] eqn:E.
  - left. done.
  - right. split; [done|]. rewrite <- E in *.
    assert (Hr : range 0 (len wallParts)
                 = 0 :: seqZ 1 (len wallParts - 1)).
    { unfold range. rewrite seqZ_cons.
      - f_equal. f_equal. lia.
      - rewrite E. unfold len. simpl. lia. }
    rewrite Hr. cbn [fold_left]. apply Hinv.
    + intros i Hi%elem_of_seqZ. lia.
    + assert (f (-1, -1) 0 = (len wallParts, 0)) as ->.
      { unfold f. rewrite E. unfold py_nth. simpl.
        destruct (Z.ltb_spec (-1) (len part0)); [done|]. unfold len in *. lia. }
      simpl. rewrite E. unfold len. simpl. lia.
Qed.

Lemma forM_inv {A S} (I : S → Prop) (body : S → A → M S) (l : list A) :
  (∀ st a s, a ∈ l → I st → ∃ st' s', body st a s = Ok (st', s') ∧ I st') →
  ∀ st s, I st → ∃ st' s', forM body l st s = Ok (st', s') ∧ I st'.
Proof.
  induction l as [|a l IH]; intros Hbody st s Hst.
  - exists st, s. done.
  - destruct (Hbody st a s) as (st1 & s1 & E1 & H1);
      [apply elem_of_cons; by left | done |].
    destruct (IH (λ st a s Ha, Hbody st a s (proj2 (elem_of_cons _ _ _) (or_intror Ha)))
                st1 s1 H1) as (st2 & s2 & E2 & H2).
    exists st2, s2. split; [|done]. simpl. unfold bind. by rewrite E1.
Qed.

Lemma randint_spec a b s :
  a <= b → ∃ r, a <= r <= b ∧ randint a b s = Ok (r, rng_tail s).
Proof.
  intros H. unfold randint. destruct (Z.leb_spec a b); [|lia].
  eexists. split; [|done].
  pose proof (Z.mod_pos_bound (s 0%nat) (b - a + 1)). lia.
Qed.

(** ** What [addDoorToWall] does to the grid *)

Lemma addDoorToWall_spec (wall unusable : list coord) (array : grid) (s : rng) :
  Forall (inGrid array) wall →
  ∃ array' s',
    addDoorToWall wall unusable array s = Ok (array', s') ∧
    carved (innerCell wall) array array' ∧
    (gapEnsured wall unusable →
     ∃ c, innerCell wall c ∧ cellAt array' c = Some Empty).
Proof.
  intros Hin. unfold addDoorToWall, gapEnsured.
  pose proof (usableParts_runs wall unusable) as Hruns.
  set (parts := usableParts wall unusable) in *.
  set (large := largePartsOf parts).
  rewrite Forall_forall in Hruns.
  assert (Hopen : ∀ part a s0, part ∈ parts →
            carved (innerCell wall) array a →
            ∃ a' s', openDoor part a s0 = Ok (a', s') ∧
                     carved (innerCell wall) a a' ∧
                     (3 <= len part →
                      ∃ c, innerCell wall c ∧ cellAt a' c = Some Empty)).
  { intros part a s0 Hpart Ha.
    assert (Hpin : Forall (inGrid a) part).
    { apply (isRun_Forall _ wall); [by apply Hruns|].
      apply Forall_forall. intros c Hc. apply (carved_inGrid _ _ _ _ Ha).
      rewrite Forall_forall in Hin. by apply Hin. }
    destruct (openDoor_carved part a s0 Hpin) as (a' & s' & E & Hcv).
    exists a', s'. split; [done|]. split.
    { eapply carved_weaken; [|exact Hcv]. intros c.
      apply isRun_inner. by apply Hruns. }
    intros H3. destruct (openDoor_gap part a s0 Hpin H3)
      as (a2 & s2 & c & E2 & Hc & HE).
    rewrite E in E2. injection E2 as <- <-.
    exists c. split; [|done]. eapply isRun_inner; [|done]. by apply Hruns. }
  destruct (Z.ltb_spec 0 (len large)) as [Hl|Hl].
  - destruct (randint_spec 0 (len large - 1) s) as (w1 & Hw1 & Ew1); [lia|].
    unfold bind at 1. rewrite Ew1.
    destruct (py_nth_range large w1) as (part & Epart & Hpart); [lia|].
    unfold bind at 1. unfold lift at 1. rewrite Epart.
    apply largePartsOf_elem in Hpart as [H15 Hpart].
    destruct (Hopen part array (rng_tail s) Hpart (carved_refl _ _))
      as (a1 & s1 & E1 & Hc1 & Hgap1).
    unfold bind at 1. rewrite E1.
    destruct (forM_inv
      (fun a => carved (innerCell wall) array a ∧ carved (innerCell wall) a1 a)
      (fun array i =>
         let* c := randint 0 2 in
         if (c =? 0) && negb (i =? w1)
         then let* part := lift (py_nth large i) in openDoor part array
         else ret array)
      (range 0 (len large))) with (st := a1) (s := s1)
      as (a2 & s2 & E2 & Hc2 & Hc12);
      [|split; [done|apply carved_refl]|].
    { intros a i s0 Hi [Ha Ha1]. apply elem_of_range in Hi.
      destruct (randint_spec 0 2 s0) as (c & Hc & Ec); [lia|].
      unfold bind at 1. rewrite Ec.
      destruct ((c =? 0) && negb (i =? w1)).
      - destruct (py_nth_range large i) as (p & Ep & Hp); [lia|].
        unfold bind, lift. rewrite Ep.
        apply largePartsOf_elem in Hp as [_ Hp].
        destruct (Hopen p a (rng_tail s0) Hp Ha) as (a' & s' & E & Hc' & _).
        exists a', s'. split; [done|]. split; by eapply carved_trans.
      - eexists _, _. split; [done|]. done. }
    exists a2, s2. split; [done|]. split; [done|]. intros _.
    destruct Hgap1 as (c & Hc & HE); [lia|].
    exists c. split; [done|]. by eapply carved_Empty.
  - destruct (selectLoop_range parts) as [[Hnil Hsel]|[Hne Hsel]].
    + rewrite Hsel. simpl. exists array, s. split; [done|].
      split; [apply carved_refl|].
      intros [Hlarge|[Hparts _]]; [|done].
      exfalso. apply Hlarge. unfold large in *.
      destruct (largePartsOf parts); [done|]. unfold len in Hl. simpl in Hl. lia.
    + destruct (Z.eqb_spec (selectLoop parts).2 (-1)) as [?|_]; [lia|].
      destruct (py_nth_range parts (selectLoop parts).2)
        as (part & Epart & Hpart); [lia|].
      unfold bind, lift. rewrite Epart.
      destruct (Hopen part array s Hpart (carved_refl _ _))
        as (a1 & s1 & E1 & Hc1 & Hgap1).
      exists a1, s1. split; [done|]. split; [done|].
      intros [Hlarge|[_ H3]].
      * exfalso. apply Hlarge. fold large.
        destruct large; [done|]. unfold len in Hl. simpl in Hl. lia.
      * apply Hgap1. rewrite Forall_forall in H3. by apply H3.
Qed.

(** ** Trees *)

(** Induction on a node, with the hypothesis for both children. *)
Lemma node_induction (P : node → Prop) :
  (∀ sh w un wp bp bpos out c0 c1,
      (∀ c, c0 = Some c → P c) → (∀ c, c1 = Some c → P c) →
      P (Node sh w un wp bp bpos out c0 c1)) →
  ∀ n, P n.
Proof.
  intros H. fix IH 1. intros [sh w un wp bp bpos out c0 c1].
  apply H.
  - destruct c0 as [c|]; intros c' E; [|discriminate].
    injection E as <-. apply IH.
  - destruct c1 as [c|]; intros c' E; [|discriminate].
    injection E as <-. apply IH.
Qed.

Lemma wallsInGrid_left root c array :
  left root = Some c → wallsInGrid root array → wallsInGrid c array.
Proof. intros Hl H m w Hm. apply H. by eapply subnode_left. Qed.

Lemma wallsInGrid_right root c array :
  right root = Some c → wallsInGrid root array → wallsInGrid c array.
Proof. intros Hl H m w Hm. apply H. by eapply subnode_right. Qed.

Lemma wallsInGrid_carved P root array array' :
  carved P array array' → wallsInGrid root array → wallsInGrid root array'.
Proof.
  intros Hc H m w Hm Hw. specialize (H m w Hm Hw).
  rewrite Forall_forall in H. apply Forall_forall. intros c Hcw.
  apply (carved_inGrid _ _ _ _ Hc). by apply H.
Qed.

(** [addDoors] on a tree whose walls are inside the grid: it returns, it
    only clears inner cells of walls of the tree, and every wall for which
    a gap is ensured has an [Empty] inner cell at the end. *)
Lemma addDoors_spec (root : node) :
  ∀ array s, wallsInGrid root array →
  ∃ array' s',
    addDoors root array s = Ok (array', s') ∧
    carved (innerOfTree root) array array' ∧
    ∀ m w, subnode m root → wall m = Some w →
           gapEnsured w (unusableWall m) →
           ∃ c, innerCell w c ∧ cellAt array' c = Some Empty.
Proof.
  induction root as [sh w un wp bp bpos out c0 c1 IH0 IH1] using node_induction.
  intros array s Hin. set (root := Node sh w un wp bp bpos out c0 c1) in *.
  (* left child *)
  assert (∃ a1 s1,
    match c0 with Some c => addDoors c array | None => ret array end s
      = Ok (a1, s1) ∧
    carved (innerOfTree root) array a1 ∧
    ∀ m w, (∃ c, c0 = Some c ∧ subnode m c) → wall m = Some w →
           gapEnsured w (unusableWall m) →
           ∃ c, innerCell w c ∧ cellAt a1 c = Some Empty)
    as (a1 & s1 & E1 & C1 & G1).
  { destruct c0 as [c|].
    - destruct (IH0 c eq_refl array s) as (a1 & s1 & E & C & G).
      { by apply (wallsInGrid_left root). }
      exists a1, s1. split; [done|]. split.
      + eapply carved_weaken; [|exact C].
        intros p (m & w' & Hm & Hw & Hp). exists m, w'.
        split; [by eapply subnode_left|done].
      + intros m w' (c' & [= <-] & Hm). by apply G.
    - exists array, s. split; [done|]. split; [apply carved_refl|].
      intros m w' (c' & [=] & _). }
  (* right child *)
  assert (∃ a2 s2,
    match c1 with Some c => addDoors c a1 | None => ret a1 end s1
      = Ok (a2, s2) ∧
    carved (innerOfTree root) a1 a2 ∧
    ∀ m w, (∃ c, c1 = Some c ∧ subnode m c) → wall m = Some w →
           gapEnsured w (unusableWall m) →
           ∃ c, innerCell w c ∧ cellAt a2 c = Some Empty)
    as (a2 & s2 & E2 & C2 & G2).
  { destruct c1 as [c|].
    - destruct (IH1 c eq_refl a1 s1) as (a2 & s2 & E & C & G).
      { apply (wallsInGrid_carved _ _ _ _ C1). by apply (wallsInGrid_right root). }
      exists a2, s2. split; [done|]. split.
      + eapply carved_weaken; [|exact C].
        intros p (m & w' & Hm & Hw & Hp). exists m, w'.
        split; [by eapply subnode_right|done].
      + intros m w' (c' & [= <-] & Hm). by apply G.
    - exists a1, s1. split; [done|]. split; [apply carved_refl|].
      intros m w' (c' & [=] & _). }
  (* own wall *)
  assert (∃ a3 s3,
    match w with Some w => addDoorToWall w un a2 | None => ret a2 end s2
      = Ok (a3, s3) ∧
    carved (innerOfTree root) a2 a3 ∧
    ∀ w', w = Some w' → gapEnsured w' un →
          ∃ c, innerCell w' c ∧ cellAt a3 c = Some Empty)
    as (a3 & s3 & E3 & C3 & G3).
  { destruct w as [w'|].
    - destruct (addDoorToWall_spec w' un a2 s2) as (a3 & s3 & E & C & G).
      { assert (wallsInGrid root a2) as H2.
        { eapply wallsInGrid_carved; [exact C2|].
          eapply wallsInGrid_carved; [exact C1|done]. }
        apply (H2 root w'); [apply subnode_here|done]. }
      exists a3, s3. split; [done|]. split.
      + eapply carved_weaken; [|exact C]. intros p Hp.
        exists root, w'. split; [apply subnode_here|done].
      + intros w'' [= <-]. done.
    - exists a2, s2. split; [done|]. split; [apply carved_refl|]. done. }
  exists a3, s3. split.
  { simpl. unfold bind at 1. rewrite E1. unfold bind at 1. rewrite E2. done. }
  split.
  { eapply carved_trans; [|exact C3]. by eapply carved_trans. }
  intros m w' Hm Hw Hgap. inversion Hm as [|n c Hl Hc|n c Hr Hc]; subst.
  - simpl in Hw. by apply G3.
  - destruct (G1 m w') as (p & Hp & HE); [by exists c|done|done|].
    exists p. split; [done|].
    eapply carved_Empty; [exact C3|]. by eapply carved_Empty.
  - destruct (G2 m w') as (p & Hp & HE); [by exists c|done|done|].
    exists p. split; [done|]. by eapply carved_Empty.
Qed.

(** ** The grid of 250 by 200 cells *)

Lemma dims_row (array : grid) (j : nat) :
  dims array → (j < 200)%nat → ∃ row, array !! j = Some row ∧ length row = 250%nat.
Proof.
  unfold dims. intros Hd Hj.
  assert (map length array !! j = Some 250%nat) as H.
  { rewrite Hd. by apply lookup_replicate_2. }
  rewrite list_lookup_fmap in H.
  destruct (array !! j) as [row|]; [|done].
  exists row. split; [done|]. by injection H.
Qed.

Lemma dims_length (array : grid) : dims array → length array = 200%nat.
Proof.
  unfold dims. intros Hd. apply (f_equal length) in Hd.
  by rewrite length_map, length_replicate in Hd.
Qed.

Lemma dims_inGrid (array : grid) (c : coord) :
  dims array → inGrid array c ↔ (0 <= c.1 < 250 ∧ 0 <= c.2 < 200).
Proof.
  intros Hd. unfold inGrid. split.
  - intros [v Hv]. apply cellAt_Some in Hv as (Hx & Hy & row & Hrow & Hc).
    pose proof (lookup_lt_Some _ _ _ Hrow) as Hlt.
    rewrite (dims_length _ Hd) in Hlt.
    destruct (dims_row array (Z.to_nat c.2) Hd Hlt) as (row' & Hrow' & Hlen).
    assert (row' = row) as -> by congruence.
    apply lookup_lt_Some in Hc. lia.
  - intros [Hx Hy].
    destruct (dims_row array (Z.to_nat c.2) Hd) as (row & Hrow & Hlen); [lia|].
    destruct (lookup_lt_is_Some_2 row (Z.to_nat c.1)) as [v Hv]; [lia|].
    exists v. apply cellAt_Some. split; [lia|]. split; [lia|].
    exists row. done.
Qed.

Lemma dims_row0 (array : grid) :
  dims array → ∃ row0, py_nth array 0 = Ok row0 ∧ len row0 = 250.
Proof.
  intros Hd. destruct (dims_row array 0 Hd) as (row & Hrow & Hlen); [lia|].
  exists row. split; [by apply py_nth_in|]. unfold len. lia.
Qed.

Lemma dims_len (array : grid) : dims array → len array = 200.
Proof. intros Hd. unfold len. rewrite (dims_length _ Hd). done. Qed.

Lemma dims_createEmptyWorld : dims createEmptyWorld.
Proof. by vm_compute. Qed.

Lemma filled_dims v ps array array' :
  filled v ps array array' → dims array → dims array'.
Proof. unfold dims. intros [HL _] Hd. congruence. Qed.

Lemma carved_dims P array array' :
  carved P array array' → dims array → dims array'.
Proof. unfold dims. intros [HL _] Hd. congruence. Qed.

(** ** [int(n * 0.35)] on the sizes that occur *)

Lemma int35_bounds (n : Z) :
  0 <= n <= 249 → 35 * n - 200 < 100 * int35 n ∧ 100 * int35 n <= 35 * n.
Proof.
  intros Hn.
  assert (H : forallb (fun n => (35 * n - 200 <? 100 * int35 n) &&
                                (100 * int35 n <=? 35 * n))
                      (seqZ 0 250) = true) by (by vm_compute).
  rewrite forallb_forall in H. specialize (H n).
  rewrite <- list_elem_of_In, elem_of_seqZ in H.
  specialize (H ltac:(lia)). apply andb_prop in H as [H1 H2].
  apply Z.ltb_lt in H1. apply Z.leb_le in H2. done.
Qed.

(** ** Building the tree *)

Lemma node_init_spec (x0 x1 y0 y1 : Z) (array : grid) :
  dims array →
  ∃ n, node_init x0 x1 y0 y1 array = Ok n ∧
       shape n = ((x0, y0), (x1, y1)) ∧
       wall n = None ∧ left n = None ∧ right n = None ∧
       wallParts n = [] ∧ basePresent n = false ∧
       (basePossible n = true ↔ 22 < x1 - x0 ∧ 22 < y1 - y0) ∧
       (outside n = true ↔ x0 = 0 ∨ y0 = 0 ∨ x1 = 249 ∨ y1 = 200).
Proof.
  intros Hd. unfold node_init.
  destruct (dims_row0 array Hd) as (row0 & E0 & L0).
  destruct ((x0 =? 0) || (y0 =? 0)) eqn:E; cbn [res_bind].
  - eexists. split; [done|]. simpl. repeat split; try done; lia.
  - rewrite E0. cbn [res_bind]. rewrite L0, (dims_len _ Hd).
    eexists. split; [done|]. simpl. repeat split; try done; lia.
Qed.

Lemma elem_of_rowWall n r c :
  c ∈ rowWall n r ↔ c.2 = r ∧ xMin n <= c.1 <= xMax n.
Proof.
  unfold rowWall. rewrite list_elem_of_fmap. split.
  - intros (x & -> & Hx%elem_of_range). simpl. lia.
  - intros [Hr Hx]. exists c.1. split; [destruct c; simpl in *; congruence|].
    apply elem_of_range. lia.
Qed.

Lemma elem_of_colWall n r c :
  c ∈ colWall n r ↔ c.1 = r ∧ yMin n <= c.2 <= yMax n.
Proof.
  unfold colWall. rewrite list_elem_of_fmap. split.
  - intros (y & -> & Hy%elem_of_range). simpl. lia.
  - intros [Hr Hy]. exists c.2. split; [destruct c; simpl in *; congruence|].
    apply elem_of_range. lia.
Qed.

(** A new leaf over a proper rectangle of the grid is well formed. *)
Lemma leaf_wf (n : node) :
  wall n = None → left n = None → right n = None → wallParts n = [] →
  rectOk n → wf n.
Proof. destruct n; simpl. intros -> -> -> -> H. done. Qed.

Lemma splitRow_spec (n : node) (r : Z) (array : grid) :
  dims array → rectOk n → xMin n + 2 <= xMax n → yMin n < r < yMax n →
  ∃ n' c0 c1 array',
    splitRow n r array = Ok (n', array', wallEnds (rowWall n r)) ∧
    n' = Node (shape n) (Some (rowWall n r)) (unusableWall n) (wallParts n)
              (basePresent n) (basePossible n) (outside n) (Some c0) (Some c1) ∧
    shape c0 = ((xMin n, yMin n), (xMax n, r)) ∧
    shape c1 = ((xMin n, r), (xMax n, yMax n)) ∧
    wf c0 ∧ wf c1 ∧ grown 0 0 c0 ∧ grown 0 0 c1 ∧ wf n' ∧
    filled Wall (rowWall n r) array array'.
Proof.
  intros Hd Hrect Hx2 Hr. pose proof Hrect as (Hx & Hx1 & Hy & Hy1 & Hbp).
  unfold splitRow.
  destruct (node_init_spec (xMin n) (xMax n) (yMin n) r array Hd)
    as (c0 & E0 & S0 & W0 & L0 & R0 & P0 & _ & B0 & _).
  destruct (node_init_spec (xMin n) (xMax n) r (yMax n) array Hd)
    as (c1 & E1 & S1 & W1 & L1 & R1 & P1 & _ & B1 & _).
  rewrite E0, E1. cbn [res_bind]. fold (rowWall n r).
  destruct (setCells_spec Wall (rowWall n r) array) as (a' & Ea & Fa).
  { apply Forall_forall. intros c [Hcr Hc]%elem_of_rowWall.
    apply dims_inGrid; [done|]. lia. }
  rewrite Ea. cbn [res_bind].
  assert (wf c0) as Hw0.
  { apply leaf_wf; [done..|]. unfold rectOk, xMin, xMax, yMin, yMax.
    rewrite S0. simpl. repeat split; try lia; apply B0 in H; lia. }
  assert (wf c1) as Hw1.
  { apply leaf_wf; [done..|]. unfold rectOk, xMin, xMax, yMin, yMax.
    rewrite S1. simpl. repeat split; try lia; apply B1 in H; lia. }
  eexists _, c0, c1, a'. split; [done|]. split; [done|].
  split; [done|]. split; [done|]. split; [done|]. split; [done|].
  split.
  { cbn [grown]. unfold xMin, xMax, yMin, yMax. rewrite S0. simpl.
    unfold xMin, xMax, yMin, yMax in *. repeat split; try done; lia. }
  split.
  { cbn [grown]. unfold xMin, xMax, yMin, yMax. rewrite S1. simpl.
    unfold xMin, xMax, yMin, yMax in *. repeat split; try done; lia. }
  split; [|done].
  destruct n as [sh w un wp bp bpos out l rt].
  split; [exact Hrect|]. split; [exact Hx2|]. split; [unfold xMin, xMax, yMin, yMax in *; simpl in *; lia|].
  split; [|done]. left. exists r. done.
Qed.

Lemma splitCol_spec (n : node) (r : Z) (array : grid) :
  dims array → rectOk n → yMin n + 2 <= yMax n → xMin n < r < xMax n →
  ∃ n' c0 c1 array',
    splitCol n r array = Ok (n', array', wallEnds (colWall n r)) ∧
    n' = Node (shape n) (Some (colWall n r)) (unusableWall n) (wallParts n)
              (basePresent n) (basePossible n) (outside n) (Some c0) (Some c1) ∧
    shape c0 = ((xMin n, yMin n), (r, yMax n)) ∧
    shape c1 = ((r, yMin n), (xMax n, yMax n)) ∧
    wf c0 ∧ wf c1 ∧ grown 0 0 c0 ∧ grown 0 0 c1 ∧ wf n' ∧
    filled Wall (colWall n r) array array'.
Proof.
  intros Hd Hrect Hy2 Hr. pose proof Hrect as (Hx & Hx1 & Hy & Hy1 & Hbp).
  unfold splitCol.
  destruct (node_init_spec (xMin n) r (yMin n) (yMax n) array Hd)
    as (c0 & E0 & S0 & W0 & L0 & R0 & P0 & _ & B0 & _).
  destruct (node_init_spec r (xMax n) (yMin n) (yMax n) array Hd)
    as (c1 & E1 & S1 & W1 & L1 & R1 & P1 & _ & B1 & _).
  rewrite E0, E1. cbn [res_bind]. fold (colWall n r).
  destruct (setCells_spec Wall (colWall n r) array) as (a' & Ea & Fa).
  { apply Forall_forall. intros c [Hcr Hc]%elem_of_colWall.
    apply dims_inGrid; [done|]. lia. }
  rewrite Ea. cbn [res_bind].
  assert (wf c0) as Hw0.
  { apply leaf_wf; [done..|]. unfold rectOk, xMin, xMax, yMin, yMax.
    rewrite S0. simpl. repeat split; try lia; apply B0 in H; lia. }
  assert (wf c1) as Hw1.
  { apply leaf_wf; [done..|]. unfold rectOk, xMin, xMax, yMin, yMax.
    rewrite S1. simpl. repeat split; try lia; apply B1 in H; lia. }
  eexists _, c0, c1, a'. split; [done|]. split; [done|].
  split; [done|]. split; [done|]. split; [done|]. split; [done|].
  split.
  { cbn [grown]. unfold xMin, xMax, yMin, yMax. rewrite S0. simpl.
    unfold xMin, xMax, yMin, yMax in *. repeat split; try done; lia. }
  split.
  { cbn [grown]. unfold xMin, xMax, yMin, yMax. rewrite S1. simpl.
    unfold xMin, xMax, yMin, yMax in *. repeat split; try done; lia. }
  split; [|done].
  destruct n as [sh w un wp bp bpos out l rt].
  split; [exact Hrect|]. split; [unfold xMin, xMax, yMin, yMax in *; simpl in *; lia|]. split; [exact Hy2|].
  split; [|done]. right. exists r. done.
Qed.

Lemma walled_refl array : walled array array.
Proof. split; [done|]. intros c. by left. Qed.

Lemma walled_trans a1 a2 a3 : walled a1 a2 → walled a2 a3 → walled a1 a3.
Proof.
  intros [L1 H1] [L2 H2]. split; [congruence|]. intros c.
  destruct (H2 c) as [E|E]; rewrite E; [apply H1 | by right].
Qed.

Lemma filled_walled ps array array' :
  filled Wall ps array array' → walled array array'.
Proof.
  intros [L H]. split; [done|]. intros c. rewrite (H c).
  case_decide; [by right | by left].
Qed.

Lemma walled_dims array array' : walled array array' → dims array → dims array'.
Proof. unfold dims. intros [L _] Hd. congruence. Qed.

Lemma splitAt_shape n n' c0 c0' c1 c1' w :
  shape n' = shape n → shape c0' = shape c0 → shape c1' = shape c1 →
  splitAt n c0 c1 w → splitAt n' c0' c1' w.
Proof.
  unfold splitAt, rowWall, colWall, xMin, xMax, yMin, yMax.
  intros -> -> ->. done.
Qed.

Lemma rectOk_shape n n' :
  shape n' = shape n → basePossible n' = basePossible n →
  rectOk n → rectOk n'.
Proof. unfold rectOk, xMin, xMax, yMin, yMax. intros -> ->. done. Qed.

(** [splitNode] on a node at least six cells wide and high: it returns,
    both new leaves are at least [m'] wide and high. *)
Lemma splitNode_spec (n : node) (array : grid) (s : rng) (m m' : Z) :
  dims array → rectOk n → 6 <= m →
  m <= xMax n - xMin n → m <= yMax n - yMin n →
  100 * m' <= 35 * m - 100 →
  ∃ n' array' ends s' w,
    splitNode n array s = Ok (n', array', ends, s') ∧
    wf n' ∧ grown 1 m' n' ∧ shape n' = shape n ∧
    basePossible n' = basePossible n ∧
    wall n' = Some w ∧ filled Wall w array array'.
Proof.
  intros Hd Hrect Hm Hsx Hsy Hm'.
  pose proof Hrect as (Hx & Hx1 & Hy & Hy1 & Hbp).
  destruct (int35_bounds (xMax n - xMin n)) as [Bx1 Bx2]; [lia|].
  destruct (int35_bounds (yMax n - yMin n)) as [By1 By2]; [lia|].
  unfold splitNode.
  destruct (randint_spec 0 1 s) as (d0 & Hd0 & Ed0); [lia|].
  unfold bind at 1. rewrite Ed0.
  set (d1 := if 3 * (yMax n - yMin n) <? 2 * (xMax n - xMin n) then 1 else d0).
  set (d := if 3 * (xMax n - xMin n) <? 2 * (yMax n - yMin n) then 0 else d1).
  assert (d = 0 ∨ d = 1) as [Ed|Ed].
  { unfold d, d1. repeat case_match; lia. }
  - rewrite Ed. change (0 =? 0) with true. cbn [fst snd].
    destruct (randint_spec (int35 (yMax n - yMin n) + yMin n)
                (yMax n - int35 (yMax n - yMin n)) (rng_tail s))
      as (r & Hr & Er); [lia|].
    unfold bind. rewrite Er.
    destruct (splitRow_spec n r array Hd Hrect)
      as (n' & c0 & c1 & a' & E & -> & S0 & S1 & W0 & W1 & G0 & G1 & Wn & F);
      [lia|lia|].
    unfold lift. rewrite E.
    eexists _, _, _, _, _. split; [done|]. split; [done|]. split.
    { exists c0, c1. split; [done|]. split; [done|].
      destruct G0 as (? & ? & ? & _), G1 as (? & ? & ? & _).
      cbn [grown]. unfold xMin, xMax, yMin, yMax in *. rewrite S0, S1. simpl.
      repeat split; try done; lia. }
    done.
  - rewrite Ed. change (1 =? 0) with false. cbn [fst snd].
    destruct (randint_spec (int35 (xMax n - xMin n) + xMin n)
                (xMax n - int35 (xMax n - xMin n)) (rng_tail s))
      as (r & Hr & Er); [lia|].
    unfold bind. rewrite Er.
    destruct (splitCol_spec n r array Hd Hrect)
      as (n' & c0 & c1 & a' & E & -> & S0 & S1 & W0 & W1 & G0 & G1 & Wn & F);
      [lia|lia|].
    unfold lift. rewrite E.
    eexists _, _, _, _, _. split; [done|]. split; [done|]. split.
    { exists c0, c1. split; [done|]. split; [done|].
      destruct G0 as (? & ? & ? & _), G1 as (? & ? & ? & _).
      cbn [grown]. unfold xMin, xMax, yMin, yMax in *. rewrite S0, S1. simpl.
      repeat split; try done; lia. }
    done.
Qed.

Lemma wf_rectOk n : wf n → rectOk n.
Proof. destruct n. simpl. by intros [H _]. Qed.

(** One round of [splitDepth] on a complete tree of depth [k]: it
    returns, the tree is complete of depth [k + 1] and well formed, and
    the array has only gained walls. *)
Lemma splitDepth_spec (k : nat) :
  ∀ n array s m m',
    dims array → wf n → grown k m n → 6 <= m →
    100 * m' <= 35 * m - 100 →
    ∃ n' array' ends s',
      splitDepth n array s = Ok (n', array', ends, s') ∧
      wf n' ∧ grown (S k) m' n' ∧ shape n' = shape n ∧
      basePossible n' = basePossible n ∧ walled array array'.
Proof.
  induction k as [|k IH]; intros n array s m m' Hd Hwf Hg Hm Hm'.
  - destruct Hg as (Hl & Hr & Hw & Hsx & Hsy).
    destruct (splitNode_spec n array s m m' Hd (wf_rectOk _ Hwf) Hm Hsx Hsy Hm')
      as (n' & a' & ends & s' & w & E & Wn & Gn & Sn & Bn & Ww & F).
    exists n', a', ends, s'.
    destruct n as [sh w0 un wp bp bpos out l r]. simpl in Hl, Hr. subst l r.
    split; [exact E|]. split; [done|]. split; [done|]. split; [done|].
    split; [done|]. by eapply filled_walled.
  - destruct Hg as (c0 & c1 & Hl & Hr & G0 & G1).
    destruct n as [sh w0 un wp bp bpos out l r]. simpl in Hl, Hr. subst l r.
    destruct Hwf as [Hrect Hwf].
    destruct w0 as [w0|]; [|done].
    destruct Hwf as (Hx2 & Hy2 & Hsplit & W0 & W1).
    destruct (IH c0 array s m m' Hd W0 G0 Hm Hm')
      as (c0' & a1 & e0 & s1 & E0 & W0' & G0' & S0 & B0 & Wa1).
    destruct (IH c1 a1 s1 m m' (walled_dims _ _ Wa1 Hd) W1 G1 Hm Hm')
      as (c1' & a2 & e1 & s2 & E1 & W1' & G1' & S1 & B1 & Wa2).
    eexists _, a2, _, s2. split.
    { cbn [splitDepth]. unfold bind at 1. rewrite E0.
      unfold bind at 1. rewrite E1. done. }
    split.
    { split; [exact Hrect|]. split; [exact Hx2|]. split; [exact Hy2|].
      split; [|done]. by eapply splitAt_shape. }
    split; [by exists c0', c1'|]. split; [done|]. split; [done|].
    by eapply walled_trans.
Qed.

(** ** Geometry of a well-formed tree *)

Lemma wf_children n :
  wf n →
  (left n = None ∧ right n = None ∧ wall n = None ∧ wallParts n = []) ∨
  (∃ c0 c1 w, left n = Some c0 ∧ right n = Some c1 ∧ wall n = Some w ∧
              xMin n + 2 <= xMax n ∧ yMin n + 2 <= yMax n ∧
              splitAt n c0 c1 w ∧ wf c0 ∧ wf c1).
Proof.
  destruct n as [sh [w|] un wp bp bpos out [c0|] [c1|]]; simpl;
    intros [Hr H]; try done.
  - right. exists c0, c1, w. destruct H as (? & ? & ? & ? & ?). done.
  - left. done.
Qed.

Lemma splitAt_within n c0 c1 w c :
  splitAt n c0 c1 w → within c0 c ∨ within c1 c → within n c.
Proof.
  unfold splitAt, within, xMin, xMax, yMin, yMax.
  intros [(r & Hr & _ & S0 & S1)|(r & Hr & _ & S0 & S1)];
    rewrite S0, S1; simpl; lia.
Qed.

Lemma splitAt_inside n c0 c1 w c :
  splitAt n c0 c1 w → inside c0 c ∨ inside c1 c → inside n c.
Proof.
  unfold splitAt, inside, xMin, xMax, yMin, yMax.
  intros [(r & Hr & _ & S0 & S1)|(r & Hr & _ & S0 & S1)];
    rewrite S0, S1; simpl; lia.
Qed.

(** The two halves of a node have no inner cell in common. *)
Lemma splitAt_apart n c0 c1 w c :
  splitAt n c0 c1 w → inside c0 c → within c1 c → False.
Proof.
  unfold splitAt, inside, within, xMin, xMax, yMin, yMax.
  intros [(r & Hr & _ & S0 & S1)|(r & Hr & _ & S0 & S1)];
    rewrite S0, S1; simpl; lia.
Qed.

Lemma splitAt_apart' n c0 c1 w c :
  splitAt n c0 c1 w → within c0 c → inside c1 c → False.
Proof.
  unfold splitAt, inside, within, xMin, xMax, yMin, yMax.
  intros [(r & Hr & _ & S0 & S1)|(r & Hr & _ & S0 & S1)];
    rewrite S0, S1; simpl; lia.
Qed.

Lemma wf_subnode m root : subnode m root → wf root → wf m.
Proof.
  induction 1 as [|n c Hl Hm IH|n c Hr Hm IH]; intros Hwf; [done|..].
  - apply IH. destruct (wf_children n Hwf) as [(E & _)|(c0 & c1 & w & E & _ & _ & _ & _ & _ & W0 & _)];
      congruence.
  - apply IH. destruct (wf_children n Hwf) as [(_ & E & _)|(c0 & c1 & w & _ & E & _ & _ & _ & _ & _ & W1)];
      congruence.
Qed.

Lemma subnode_within m root c :
  subnode m root → wf root → within m c → within root c.
Proof.
  induction 1 as [|n c' Hl Hm IH|n c' Hr Hm IH]; intros Hwf Hc; [done|..].
  - destruct (wf_children n Hwf)
      as [(E & _)|(c0 & c1 & w & E0 & E1 & _ & _ & _ & Hs & W0 & W1)];
      [congruence|].
    assert (c' = c0) as -> by congruence.
    eapply splitAt_within; [done|]. left. by apply IH.
  - destruct (wf_children n Hwf)
      as [(_ & E & _)|(c0 & c1 & w & E0 & E1 & _ & _ & _ & Hs & W0 & W1)];
      [congruence|].
    assert (c' = c1) as -> by congruence.
    eapply splitAt_within; [done|]. right. by apply IH.
Qed.

Lemma subnode_inside m root c :
  subnode m root → wf root → inside m c → inside root c.
Proof.
  induction 1 as [|n c' Hl Hm IH|n c' Hr Hm IH]; intros Hwf Hc; [done|..].
  - destruct (wf_children n Hwf)
      as [(E & _)|(c0 & c1 & w & E0 & E1 & _ & _ & _ & Hs & W0 & W1)];
      [congruence|].
    assert (c' = c0) as -> by congruence.
    eapply splitAt_inside; [done|]. left. by apply IH.
  - destruct (wf_children n Hwf)
      as [(_ & E & _)|(c0 & c1 & w & E0 & E1 & _ & _ & _ & Hs & W0 & W1)];
      [congruence|].
    assert (c' = c1) as -> by congruence.
    eapply splitAt_inside; [done|]. right. by apply IH.
Qed.

Lemma rowWall_lookup n r k c :
  rowWall n r !! k = Some c ↔
  c = (xMin n + Z.of_nat k, r) ∧ Z.of_nat k < xMax n + 1 - xMin n.
Proof.
  unfold rowWall, range. rewrite list_lookup_fmap.
  destruct (seqZ (xMin n) (xMax n + 1 - xMin n) !! k) as [x|] eqn:E; simpl.
  - apply lookup_seqZ in E as [-> Hk]. split.
    + intros [= <-]. done.
    + intros [-> _]. done.
  - split; [done|]. intros [_ Hk].
    rewrite lookup_seqZ_lt in E by done. done.
Qed.

Lemma colWall_lookup n r k c :
  colWall n r !! k = Some c ↔
  c = (r, yMin n + Z.of_nat k) ∧ Z.of_nat k < yMax n + 1 - yMin n.
Proof.
  unfold colWall, range. rewrite list_lookup_fmap.
  destruct (seqZ (yMin n) (yMax n + 1 - yMin n) !! k) as [x|] eqn:E; simpl.
  - apply lookup_seqZ in E as [-> Hk]. split.
    + intros [= <-]. done.
    + intros [-> _]. done.
  - split; [done|]. intros [_ Hk].
    rewrite lookup_seqZ_lt in E by done. done.
Qed.

Lemma rowWall_length n r :
  xMin n <= xMax n → len (rowWall n r) = xMax n - xMin n + 1.
Proof.
  intros H. unfold len, rowWall, range. rewrite length_map, length_seqZ. lia.
Qed.

Lemma colWall_length n r :
  yMin n <= yMax n → len (colWall n r) = yMax n - yMin n + 1.
Proof.
  intros H. unfold len, colWall, range. rewrite length_map, length_seqZ. lia.
Qed.

(** The wall of a well-formed node: its cells are in the rectangle, the
    cells between its two ends are strictly inside, it has three cells or
    more and no cell twice. *)
Lemma wf_wall n w :
  wf n → wall n = Some w →
  (∀ c, c ∈ w → within n c) ∧
  (∀ k c, w !! k = Some c → (0 < k < length w - 1)%nat ↔ inside n c) ∧
  3 <= len w ∧ NoDup w.
Proof.
  intros Hwf Hw.
  destruct (wf_children n Hwf)
    as [(_ & _ & E & _)|(c0 & c1 & w' & _ & _ & E & Hx2 & Hy2 & Hs & _)];
    [congruence|].
  assert (w' = w) as -> by congruence.
  destruct Hs as [(r & Hr & -> & _)|(r & Hr & -> & _)].
  - pose proof (rowWall_length n r ltac:(lia)) as HL. unfold len in HL.
    split; [|split; [|split]].
    + intros c [Hc1 Hc2]%elem_of_rowWall. unfold within. lia.
    + intros k c [-> Hk]%rowWall_lookup. unfold inside. simpl. lia.
    + unfold len. lia.
    + unfold rowWall. apply NoDup_fmap_2; [intros x y [=]; done|].
      apply NoDup_seqZ.
  - pose proof (colWall_length n r ltac:(lia)) as HL. unfold len in HL.
    split; [|split; [|split]].
    + intros c [Hc1 Hc2]%elem_of_colWall. unfold within. lia.
    + intros k c [-> Hk]%colWall_lookup. unfold inside. simpl. lia.
    + unfold len. lia.
    + unfold colWall. apply NoDup_fmap_2; [intros x y [=]; done|].
      apply NoDup_seqZ.
Qed.

Lemma within_inGrid n array c :
  rectOk n → dims array → within n c → inGrid array c.
Proof.
  intros (? & ? & ? & ? & _) Hd Hc. apply dims_inGrid; [done|].
  unfold within in Hc. lia.
Qed.

Lemma wf_wallsInGrid root array :
  wf root → dims array → wallsInGrid root array.
Proof.
  intros Hwf Hd m w Hm Hw. apply Forall_forall. intros c Hc.
  pose proof (wf_subnode m root Hm Hwf) as Hwm.
  destruct (wf_wall m w Hwm Hw) as (Hin & _).
  apply (within_inGrid root); [by apply wf_rectOk|done|].
  eapply subnode_within; [done..|]. by apply Hin.
Qed.

Lemma innerOfTree_inside root c :
  wf root → innerOfTree root c → inside root c.
Proof.
  intros Hwf (m & w & Hm & Hw & k & Hk & Hc).
  pose proof (wf_subnode m root Hm Hwf) as Hwm.
  destruct (wf_wall m w Hwm Hw) as (_ & Hin & _).
  eapply subnode_inside; [done..|]. by apply (Hin k c Hc).
Qed.

Lemma inside_not_onBorder n c : rectOk n → inside n c → ¬ onBorder c.
Proof.
  unfold inside, onBorder. intros (? & ? & ? & ? & _) Hc [_ Hb]. lia.
Qed.

(** ** The outer ring *)

Lemma cellAt_createEmptyWorld (c : coord) :
  0 <= c.1 < 250 → 0 <= c.2 < 200 →
  cellAt createEmptyWorld c
  = Some (if (c.2 =? 0) || (c.2 =? 199) || (c.1 =? 0) || (c.1 =? 249)
          then Wall else Empty).
Proof.
  intros Hx Hy. unfold cellAt.
  destruct (Z.leb_spec 0 c.1), (Z.leb_spec 0 c.2); try lia. cbn [andb].
  unfold createEmptyWorld, range.
  change (map ?f ?l) with (f <$> l).
  rewrite list_lookup_fmap, lookup_seqZ_lt by lia. cbn [fmap option_fmap option_map mbind option_bind].
  rewrite list_lookup_fmap, lookup_seqZ_lt by lia. cbn [fmap option_fmap option_map].
  by rewrite !Z2Nat.id, !Z.add_0_l by lia.
Qed.

Lemma borderOk_createEmptyWorld : borderOk createEmptyWorld.
Proof.
  intros c [Hin Hb]. rewrite cellAt_createEmptyWorld by lia.
  destruct Hb as [E | [E | [E | E]]]; rewrite E;
    by destruct (c.1 =? 0), (c.1 =? 249), (c.2 =? 0), (c.2 =? 199).
Qed.

Lemma walled_borderOk array array' :
  walled array array' → borderOk array → borderOk array'.
Proof.
  intros [_ H] Hb c Hc. destruct (H c) as [-> | ->]; [by apply Hb | done].
Qed.

(** A change confined to cells strictly inside a rectangle of the grid
    leaves the outer ring alone. *)
Lemma carved_borderOk n array array' :
  rectOk n → carved (inside n) array array' → borderOk array →
  borderOk array'.
Proof.
  intros Hr [_ H] Hb c Hc. destruct (H c) as [-> | (Hin & _)]; [by apply Hb|].
  by destruct (inside_not_onBorder n c Hr Hin).
Qed.

(** ** [generateWorld] *)

Lemma splitRounds_spec (s : rng) :
  ∃ root array s',
    splitRounds s = Ok ((root, array), s') ∧
    wf root ∧ grown 4 1 root ∧ shape root = ((0, 0), (249, 199)) ∧
    dims array ∧ walled createEmptyWorld array.
Proof.
  unfold splitRounds.
  pose proof dims_createEmptyWorld as Hd.
  destruct (dims_row0 _ Hd) as (row0 & E0 & L0).
  unfold bind at 1. unfold lift at 1. rewrite E0, L0, (dims_len _ Hd).
  destruct (node_init_spec 0 (250 - 1) 0 (200 - 1) createEmptyWorld Hd)
    as (root & Er & Sr & Wr & Lr & Rr & Pr & _ & Br & _).
  unfold bind at 1. unfold lift at 1. rewrite Er.
  assert (wf root) as Hwf.
  { apply leaf_wf; [done..|]. unfold rectOk, xMin, xMax, yMin, yMax.
    rewrite Sr. simpl. repeat split; try lia; apply Br in H; lia. }
  assert (grown 0 199 root) as Hg.
  { cbn [grown]. unfold xMin, xMax, yMin, yMax. rewrite Sr. simpl.
    repeat split; try done; lia. }
  replace (range 0 4) with [0; 1; 2; 3] by done. cbn [forM].
  destruct (splitDepth_spec 0 root createEmptyWorld s 199 68 Hd Hwf Hg)
    as (n1 & a1 & e1 & s1 & E1 & W1 & G1 & S1 & _ & A1); [lia..|].
  unfold bind at 1. unfold bind at 1. rewrite E1. unfold ret at 1.
  pose proof (walled_dims _ _ A1 Hd) as Hd1.
  destruct (splitDepth_spec 1 n1 a1 s1 68 22 Hd1 W1 G1)
    as (n2 & a2 & e2 & s2 & E2 & W2 & G2 & S2 & _ & A2); [lia..|].
  unfold bind at 1. unfold bind at 1. rewrite E2. unfold ret at 1.
  pose proof (walled_dims _ _ A2 Hd1) as Hd2.
  destruct (splitDepth_spec 2 n2 a2 s2 22 6 Hd2 W2 G2)
    as (n3 & a3 & e3 & s3 & E3 & W3 & G3 & S3 & _ & A3); [lia..|].
  unfold bind at 1. unfold bind at 1. rewrite E3. unfold ret at 1.
  pose proof (walled_dims _ _ A3 Hd2) as Hd3.
  destruct (splitDepth_spec 3 n3 a3 s3 6 1 Hd3 W3 G3)
    as (n4 & a4 & e4 & s4 & E4 & W4 & G4 & S4 & _ & A4); [lia..|].
  unfold bind at 1. unfold bind at 1. rewrite E4. unfold ret.
  exists n4, a4, s4. split; [done|]. split; [done|]. split; [done|].
  split; [by rewrite S4, S3, S2, S1, Sr|]. split; [by eapply walled_dims|].
  eapply walled_trans; [|exact A4]. eapply walled_trans; [|exact A3].
  by eapply walled_trans.
Qed.

Lemma bind_assoc {A B C} (c : M A) (f : A → M B) (g : B → M C) (s : rng) :
  bind (bind c f) g s = bind c (fun x => bind (f x) g) s.
Proof. unfold bind. destruct (c s) as [[a s']| |]; done. Qed.

Lemma bind_ext {A B} (c : M A) (f g : A → M B) (s : rng) :
  (∀ a s', f a s' = g a s') → bind c f s = bind c g s.
Proof. intros H. unfold bind. destruct (c s) as [[a s']| |]; [apply H|done..]. Qed.

(** [generateWorld] is the four split rounds, then the doors. *)
Lemma generateWorld_rounds (s : rng) :
  generateWorld s =
  bind splitRounds
       (fun '(root, array) =>
          let* array := addDoors root array in ret (array, root)) s.
Proof.
  unfold generateWorld, splitRounds. rewrite bind_assoc.
  apply bind_ext. intros row0 s0. rewrite bind_assoc. done.
Qed.

(** [addDoors] on a well-formed tree over the full grid. *)
Lemma addDoors_wf (root : node) (array : grid) (s : rng) :
  wf root → dims array →
  ∃ array' s',
    addDoors root array s = Ok (array', s') ∧
    carved (inside root) array array' ∧ dims array'.
Proof.
  intros Hwf Hd.
  destruct (addDoors_spec root array s (wf_wallsInGrid _ _ Hwf Hd))
    as (a' & s' & E & C & _).
  exists a', s'. split; [done|].
  assert (carved (inside root) array a') as C'.
  { eapply carved_weaken; [|exact C]. intros c. by apply innerOfTree_inside. }
  split; [done|]. by eapply carved_dims.
Qed.

(** [generateWorld] always returns: a well-formed complete tree of depth
    four and a grid of 250 by 200 whose outer ring is [Wall]. *)
Lemma generateWorld_spec (s : rng) :
  ∃ array root s',
    generateWorld s = Ok ((array, root), s') ∧
    wf root ∧ grown 4 1 root ∧ shape root = ((0, 0), (249, 199)) ∧
    dims array ∧ borderOk array.
Proof.
  destruct (splitRounds_spec s) as (root & a & s1 & E & Hwf & Hg & Hs & Hd & Hw).
  destruct (addDoors_wf root a s1 Hwf Hd) as (a' & s2 & E' & C & Hd').
  exists a', root, s2. rewrite generateWorld_rounds.
  unfold bind at 1. rewrite E. unfold bind at 1. rewrite E'.
  split; [done|]. split; [done|]. split; [done|]. split; [done|].
  split; [done|].
  eapply carved_borderOk; [by apply wf_rectOk | exact C |].
  eapply walled_borderOk; [exact Hw|]. apply borderOk_createEmptyWorld.
Qed.

(** ** Marking a base *)

Lemma setCells_app v ps qs array :
  setCells v (ps ++ qs) array
  = let? a := setCells v ps array in setCells v qs a.
Proof.
  unfold setCells. revert array. induction ps as [|p ps IH]; intros array.
  - done.
  - simpl. destruct (setCell array p v); simpl; [apply IH|done..].
Qed.

Lemma setCells_dims v ps array array' :
  dims array → (∀ c, c ∈ ps → 0 <= c.1 < 250 ∧ 0 <= c.2 < 200) →
  setCells v ps array = Ok array' → dims array'.
Proof.
  intros Hd Hps E.
  destruct (setCells_spec v ps array) as (a' & E' & F).
  { apply Forall_forall. intros c Hc. apply dims_inGrid; [done|]. by apply Hps. }
  rewrite E in E'. injection E' as <-. by eapply filled_dims.
Qed.

Lemma markBase_col (x : Z) (ys : list Z) :
  ∀ array, dims array → 0 < x < 249 → (∀ y, y ∈ ys → 0 < y < 200) →
    forR (fun array y =>
            let? ok :=
              if 0 <? x then
                let? row0 := py_nth array 0 in
                Ok ((x <? len row0 - 1) && (0 <? y) && (y <? len array))
              else Ok false in
            if ok : bool then setCell array (x, y) Base else Ok array)
         ys array
    = setCells Base ((fun y => (x, y)) <$> ys) array.
Proof.
  induction ys as [|y ys IH]; intros array Hd Hx Hys; [done|].
  cbn [forR fmap list_fmap setCells].
  destruct (dims_row0 array Hd) as (row0 & E0 & L0).
  destruct (Z.ltb_spec 0 x); [|lia].
  rewrite E0. cbn [res_bind]. rewrite L0, (dims_len _ Hd).
  assert (0 < y < 200) as Hy by (apply Hys, elem_of_cons; by left).
  destruct (Z.ltb_spec x (250 - 1)); [|lia].
  destruct (Z.ltb_spec 0 y); [|lia].
  destruct (Z.ltb_spec y 200); [|lia]. cbn [andb].
  destruct (setCell_spec array (x, y) Base) as (a1 & E1 & L1 & _).
  { apply dims_inGrid; [done|]. simpl. lia. }
  rewrite E1. cbn [res_bind]. apply IH; [|done|].
  - unfold dims in *. congruence.
  - intros y' Hy'. apply Hys, elem_of_cons. by right.
Qed.

Lemma markBase_spec (base : coord * coord) (array : grid) :
  dims array →
  0 < base.1.1 → base.2.1 < 249 → 0 < base.1.2 → base.2.2 < 199 →
  ∃ array', markBase base array = Ok array' ∧
            filled Base (squareCells base) array array'.
Proof.
  intros Hd Hx0 Hx1 Hy0 Hy1. unfold markBase, squareCells.
  set (ys := range base.1.2 (base.2.2 + 1)).
  assert (Hys : ∀ y, y ∈ ys → 0 < y < 200).
  { intros y Hy%elem_of_range. lia. }
  assert (Hxs : ∀ x, x ∈ range base.1.1 (base.2.1 + 1) → 0 < x < 249).
  { intros x Hx%elem_of_range. lia. }
  assert (Hcells : ∀ xs, (∀ x, x ∈ xs → 0 < x < 249) →
            ∀ c, c ∈ xs ≫= (λ x, (λ y, (x, y)) <$> ys) →
                 0 <= c.1 < 250 ∧ 0 <= c.2 < 200).
  { intros xs Hxs' c (x & Hc & Hx)%list_elem_of_bind.
    apply list_elem_of_fmap in Hc as (y & -> & Hy). simpl.
    specialize (Hxs' x Hx). specialize (Hys y Hy). lia. }
  assert (Heq : ∀ xs array, dims array → (∀ x, x ∈ xs → 0 < x < 249) →
    forR (fun array x =>
            forR (fun array y =>
                    let? ok :=
                      if 0 <? x then
                        let? row0 := py_nth array 0 in
                        Ok ((x <? len row0 - 1) && (0 <? y) && (y <? len array))
                      else Ok false in
                    if ok : bool then setCell array (x, y) Base else Ok array)
                 ys array)
         xs array
    = setCells Base (xs ≫= (λ x, (λ y, (x, y)) <$> ys)) array).
  { induction xs as [|x xs IH]; intros a Ha Hxs'; [done|].
    cbn [forR]. rewrite bind_cons, setCells_app.
    rewrite markBase_col; [|done|apply Hxs', elem_of_cons; by left|done].
    destruct (setCells Base ((λ y, (x, y)) <$> ys) a) as [a1| |] eqn:E1;
      cbn [res_bind]; [|done..].
    apply IH.
    - eapply (setCells_dims Base _ a); [done| |exact E1].
      intros c (y & -> & Hy)%list_elem_of_fmap. simpl.
      specialize (Hys y Hy).
      assert (0 < x < 249) by (apply Hxs', elem_of_cons; by left). lia.
    - intros x' Hx'. apply Hxs', elem_of_cons. by right. }
  rewrite Heq by done.
  apply setCells_spec. apply Forall_forall. intros c Hc.
  apply dims_inGrid; [done|]. by apply (Hcells _ Hxs).
Qed.

Lemma length_bind_const {A B} (f : A → list B) (k : nat) (l : list A) :
  (∀ x, x ∈ l → length (f x) = k) → length (l ≫= f) = (k * length l)%nat.
Proof.
  induction l as [|x l IH]; intros H; [simpl; lia|].
  rewrite bind_cons, length_app, IH.
  - rewrite H by (apply elem_of_cons; by left). simpl. lia.
  - intros y Hy. apply H, elem_of_cons. by right.
Qed.

(** A base of corners [(x, y)] and [(x + 20, y + 20)] is visited as 441
    distinct cells. *)
Lemma squareCells_square (x y : Z) :
  length (squareCells ((x, y), (x + 20, y + 20))) = 441%nat ∧
  NoDup (squareCells ((x, y), (x + 20, y + 20))) ∧
  ∀ c, c ∈ squareCells ((x, y), (x + 20, y + 20)) ↔
       x <= c.1 <= x + 20 ∧ y <= c.2 <= y + 20.
Proof.
  unfold squareCells. cbn [fst snd]. split; [|split].
  - rewrite (length_bind_const _ 21).
    + unfold range. rewrite length_seqZ. lia.
    + intros x' _. unfold range. rewrite length_fmap, length_seqZ. lia.
  - apply NoDup_bind.
    + intros x1 x2 c _ _ (y1 & -> & _)%list_elem_of_fmap
        (y2 & [= -> _] & _)%list_elem_of_fmap. done.
    + intros x' _. apply NoDup_fmap_2; [intros y1 y2 [=]; done|].
      apply NoDup_seqZ.
    + apply NoDup_seqZ.
  - intros c. rewrite list_elem_of_bind. split.
    + intros (x' & (y' & -> & Hy%elem_of_range)%list_elem_of_fmap
                 & Hx%elem_of_range). simpl. lia.
    + intros [Hx Hy]. exists c.1. split; [|apply elem_of_range; lia].
      apply list_elem_of_fmap. exists c.2.
      split; [by destruct c|apply elem_of_range; lia].
Qed.

(** ** Inverting a successful computation *)

Lemma bind_Ok {A B} (c : M A) (k : A → M B) (s : rng) (b : B) (s2 : rng) :
  bind c k s = Ok (b, s2) → ∃ a s1, c s = Ok (a, s1) ∧ k a s1 = Ok (b, s2).
Proof. unfold bind. destruct (c s) as [[a s1]| |]; [eauto|done..]. Qed.

Lemma lift_Ok {A} (c : res A) (s : rng) (a : A) (s' : rng) :
  lift c s = Ok (a, s') → c = Ok a ∧ s' = s.
Proof. unfold lift. destruct c; [|done..]. by intros [= -> ->]. Qed.

Lemma randint_Ok (a b : Z) (s : rng) (r : Z) (s' : rng) :
  randint a b s = Ok (r, s') → a <= r <= b ∧ s' = rng_tail s.
Proof.
  unfold randint. destruct (Z.leb_spec a b); [|done]. intros [= <- <-].
  pose proof (Z.mod_pos_bound (s 0%nat) (b - a + 1)). split; [lia|done].
Qed.

Lemma py_nth_Ok {A} (l : list A) (i : Z) (a : A) : py_nth l i = Ok a → a ∈ l.
Proof.
  unfold py_nth. destruct (py_index (length l) i) as [j|]; [|done].
  destruct (l !! j) as [a'|] eqn:E; [|done]. intros [= <-].
  by eapply list_elem_of_lookup_2.
Qed.

(** ** Descending to a leaf *)

Lemma leaves_subnode (leaf : node) :
  ∀ n, leaf ∈ leaves n → subnode leaf n.
Proof.
  intros n. induction n as [sh w un wp bp bpos out c0 c1 IH0 IH1]
    using node_induction.
  destruct c0 as [c0|], c1 as [c1|]; cbn [leaves]; intros H;
    try (apply list_elem_of_singleton in H as ->; apply subnode_here).
  apply elem_of_app in H as [H|H].
  - eapply subnode_left; [done|]. by apply IH0.
  - eapply subnode_right; [done|]. by apply IH1.
Qed.

Lemma descend_spec (n : node) :
  ∀ s, ∃ path leaf s', descend n s = Ok ((path, leaf), s') ∧ leaf ∈ leaves n.
Proof.
  induction n as [sh w un wp bp bpos out c0 c1 IH0 IH1] using node_induction.
  intros s.
  destruct c0 as [c0|], c1 as [c1|]; cbn [descend leaves];
    try (eexists _, _, _; split; [done|]; by apply list_elem_of_singleton).
  destruct (randint_spec 0 1 s) as (r & Hr & Er); [lia|].
  unfold bind at 1. rewrite Er.
  destruct (Z.eqb_spec r 0) as [->|Hne].
  - destruct (IH0 c0 eq_refl (rng_tail s)) as (path & leaf & s' & E & Hl).
    unfold bind. rewrite E. eexists _, _, _. split; [done|].
    apply elem_of_app. by left.
  - destruct (IH1 c1 eq_refl (rng_tail s)) as (path & leaf & s' & E & Hl).
    unfold bind. rewrite E. eexists _, _, _. split; [done|].
    apply elem_of_app. by right.
Qed.

Lemma quadNode_subnode (root : node) (q : Z * Z) (cur : node) :
  quadNode root q = Some cur → subnode cur root.
Proof.
  unfold quadNode, quadStep.
  destruct root as [sh w un wp bp bpos out [c0|] [c1|]];
    try (intros [= <-]; apply subnode_here).
  destruct (py_nth [c0; c1] q.1) as [cur1| |] eqn:E1; cbn [res_bind]; [|done..].
  assert (subnode cur1 (Node sh w un wp bp bpos out (Some c0) (Some c1))) as H1.
  { apply py_nth_Ok in E1. apply elem_of_cons in E1 as [->|E1].
    - eapply subnode_left; [done|apply subnode_here].
    - apply list_elem_of_singleton in E1 as ->.
      eapply subnode_right; [done|apply subnode_here]. }
  destruct cur1 as [sh' w' un' wp' bp' bpos' out' [d0|] [d1|]];
    try (intros [= <-]; exact H1).
  destruct (py_nth [d0; d1] q.2) as [cur2| |] eqn:E2; cbn [res_bind]; [|done..].
  intros [= <-].
  apply py_nth_Ok in E2. apply elem_of_cons in E2 as [->|E2].
  - clear -H1. induction H1 as [|n c Hl Hm IH|n c Hr Hm IH].
    + eapply subnode_left; [done|apply subnode_here].
    + eapply subnode_left; [exact Hl|exact IH].
    + eapply subnode_right; [exact Hr|exact IH].
  - apply list_elem_of_singleton in E2 as ->.
    clear -H1. induction H1 as [|n c Hl Hm IH|n c Hr Hm IH].
    + eapply subnode_right; [done|apply subnode_here].
    + eapply subnode_left; [exact Hl|exact IH].
    + eapply subnode_right; [exact Hr|exact IH].
Qed.

Lemma quadStep_total (root : node) (q : Z * Z) :
  q ∈ allQuads → ∃ path cur, quadStep root q = Ok (path, cur).
Proof.
  intros Hq. unfold quadStep.
  destruct root as [sh w un wp bp bpos out [c0|] [c1|]]; try by eexists _, _.
  assert (∃ cur1, py_nth [c0; c1] q.1 = Ok cur1) as [cur1 ->].
  { unfold allQuads in Hq.
    repeat (apply elem_of_cons in Hq as [-> | Hq]);
      try (by apply not_elem_of_nil in Hq); by eexists. }
  cbn [res_bind].
  destruct cur1 as [sh' w' un' wp' bp' bpos' out' [d0|] [d1|]];
    try by eexists _, _.
  assert (∃ cur2, py_nth [d0; d1] q.2 = Ok cur2) as [cur2 ->].
  { unfold allQuads in Hq.
    repeat (apply elem_of_cons in Hq as [-> | Hq]);
      try (by apply not_elem_of_nil in Hq); by eexists. }
  by eexists _, _.
Qed.

Lemma unmark_setBaseAt (path : list Z) :
  ∀ n, unmark (setBaseAt path n) = unmark n.
Proof.
  induction path as [|k path IH]; intros [sh w un wp bp bpos out c0 c1].
  - done.
  - cbn [setBaseAt]. destruct c0 as [c0|], c1 as [c1|]; try done.
    destruct (py_index 2 k) as [[|j]|]; cbn [unmark]; by rewrite ?IH.
Qed.

(** ** The retry loop of [addBase] *)

(** When the loop returns, the quadrant is one of those offered, the
    tree is unchanged but for base marks, and the base was placed in an
    eligible leaf of that quadrant. *)
Lemma addBaseLoop_Ok (fuel : nat) (root : node) (quadrants : list (Z * Z)) :
  ∀ s root' base used s',
    addBaseLoop fuel root quadrants s = Ok ((root', base, used), s') →
    used ∈ quadrants ∧ unmark root' = unmark root ∧
    ∃ leaf, leaf ∈ quadLeaves root used ∧ eligible leaf = true ∧
            (rectOk leaf → baseIn leaf base).
Proof.
  induction fuel as [|fuel IH]; intros s root' base used s' E; [done|].
  cbn [addBaseLoop] in E.
  apply bind_Ok in E as (rQuad & s1 & E1 & E).
  apply bind_Ok in E as (quad & s2 & E2 & E).
  apply lift_Ok in E2 as [E2 ->].
  apply bind_Ok in E as ([path1 cur] & s3 & E3 & E).
  apply lift_Ok in E3 as [E3 ->].
  apply bind_Ok in E as ([path2 leaf] & s4 & E4 & E).
  destruct (eligible leaf) eqn:Hel; [|by eapply IH].
  apply bind_Ok in E as (xPos & s5 & E5 & E).
  apply bind_Ok in E as (yPos & s6 & E6 & E).
  injection E as <- <- <- <-.
  apply randint_Ok in E5 as [Hx _]. apply randint_Ok in E6 as [Hy _].
  split; [by eapply py_nth_Ok|]. split; [apply unmark_setBaseAt|].
  exists leaf. split.
  { unfold quadLeaves, quadNode. rewrite E3.
    destruct (descend_spec cur s1) as (p & l & s'' & E & Hl).
    rewrite E4 in E. by injection E as <- <- <-. }
  split; [done|]. intros (Hx0 & Hx1 & Hy0 & Hy1 & Hbp).
  apply andb_prop in Hel as [Hel _]. apply andb_prop in Hel as [_ Hp].
  specialize (Hbp Hp). unfold baseIn. cbn [fst snd].
  pose proof (Z.div_pos (xMax leaf - 21 - (xMin leaf + 1)) 3).
  pose proof (Z.div_pos (yMax leaf - 21 - (yMin leaf + 1)) 3).
  split; [done|]. lia.
Qed.

(** When no leaf within reach is eligible, the loop is still running
    whatever fuel it is given. *)
Lemma addBaseLoop_Spin (root : node) (quadrants : list (Z * Z)) :
  quadrants ≠ [] → (∀ q, q ∈ quadrants → q ∈ allQuads) →
  noEligible root quadrants →
  ∀ fuel s, addBaseLoop fuel root quadrants s = Spin.
Proof.
  intros Hne Hval Hno. induction fuel as [|fuel IH]; intros s; [done|].
  cbn [addBaseLoop].
  destruct (randint_spec 0 (len quadrants - 1) s) as (rQuad & Hr & Er).
  { destruct quadrants; [done|]. unfold len. simpl. lia. }
  unfold bind at 1. rewrite Er.
  destruct (py_nth_range quadrants rQuad) as (quad & Eq & Hq); [lia|].
  unfold bind at 1. unfold lift at 1. rewrite Eq.
  destruct (quadStep_total root quad (Hval _ Hq)) as (path1 & cur & Es).
  unfold bind at 1. unfold lift at 1. rewrite Es.
  destruct (descend_spec cur (rng_tail s)) as (path2 & leaf & s' & Ed & Hl).
  unfold bind at 1. rewrite Ed.
  rewrite (Hno quad leaf Hq); [apply IH|].
  unfold quadLeaves, quadNode. by rewrite Es.
Qed.

(** ** Trees that differ in base marks only *)

Lemma unmark_shape n : shape (unmark n) = shape n.
Proof. by destruct n. Qed.

Lemma unmark_eq_shape n n' : unmark n = unmark n' → shape n = shape n'.
Proof. intros H. by rewrite <- (unmark_shape n), H, unmark_shape. Qed.

Lemma unmark_eq_inside n n' c : unmark n = unmark n' → inside n c → inside n' c.
Proof.
  intros H%unmark_eq_shape. unfold inside, xMin, xMax, yMin, yMax.
  by rewrite H.
Qed.

Lemma rectOk_unmark n : rectOk (unmark n) ↔ rectOk n.
Proof. by destruct n. Qed.

Lemma wf_unmark n : wf (unmark n) ↔ wf n.
Proof.
  induction n as [sh w un wp bp bpos out c0 c1 IH0 IH1] using node_induction.
  destruct w as [w|], c0 as [c0|], c1 as [c1|]; cbn [unmark wf];
    unfold rectOk, xMin, xMax, yMin, yMax; cbn [shape basePossible];
    try done.
  specialize (IH0 c0 eq_refl). specialize (IH1 c1 eq_refl).
  assert (∀ b, splitAt (Node sh (Some w) un wp b bpos out
                          (Some (unmark c0)) (Some (unmark c1)))
                       (unmark c0) (unmark c1) w ↔
               splitAt (Node sh (Some w) un wp bp bpos out (Some c0) (Some c1))
                       c0 c1 w) as Hs.
  { intros b. split; apply splitAt_shape; by rewrite ?unmark_shape. }
  rewrite IH0, IH1.
  split; intros (Hr & Hx & Hy & Hsp & W0 & W1);
    (split; [done|]; split; [done|]; split; [done|]; split; [|done]);
    by apply (Hs false).
Qed.

Lemma wf_unmark_eq n n' : unmark n' = unmark n → wf n → wf n'.
Proof. intros H Hwf. apply wf_unmark. rewrite H. by apply wf_unmark. Qed.

Lemma grown_unmark k m : ∀ n, grown k m (unmark n) ↔ grown k m n.
Proof.
  induction k as [|k IH]; intros [sh w un wp bp bpos out c0 c1].
  - cbn [grown unmark left right wall]. unfold xMin, xMax, yMin, yMax.
    cbn [shape]. destruct c0, c1; split;
      intros (? & ? & ? & ? & ?); repeat split; try done.
  - cbn [grown unmark left right]. split.
    + intros (d0 & d1 & E0 & E1 & G0 & G1).
      destruct c0 as [c0|]; [|done]. destruct c1 as [c1|]; [|done].
      injection E0 as <-. injection E1 as <-.
      exists c0, c1. split; [done|]. split; [done|]. split; by apply IH.
    + intros (d0 & d1 & -> & -> & G0 & G1).
      exists (unmark d0), (unmark d1). split; [done|]. split; [done|].
      split; by apply IH.
Qed.

Lemma py_nth_fmap {A B} (f : A → B) (l : list A) (i : Z) :
  py_nth (f <$> l) i
  = match py_nth l i with Ok a => Ok (f a) | Raise e => Raise e | Spin => Spin end.
Proof.
  unfold py_nth. rewrite length_fmap.
  destruct (py_index (length l) i) as [j|]; [|done].
  rewrite list_lookup_fmap. by destruct (l !! j).
Qed.

Lemma quadNode_unmark root q :
  quadNode (unmark root) q = unmark <$> quadNode root q.
Proof.
  unfold quadNode, quadStep.
  destruct root as [sh w un wp bp bpos out [c0|] [c1|]]; try done.
  cbn [unmark].
  change [unmark c0; unmark c1] with (unmark <$> [c0; c1]).
  rewrite py_nth_fmap.
  destruct (py_nth [c0; c1] q.1) as [cur| |]; cbn [res_bind]; try done.
  destruct cur as [sh' w' un' wp' bp' bpos' out' [d0|] [d1|]]; try done.
  cbn [unmark].
  change [unmark d0; unmark d1] with (unmark <$> [d0; d1]).
  rewrite py_nth_fmap.
  by destruct (py_nth [d0; d1] q.2).
Qed.

Lemma quadNode_unmark_eq root root' q n' :
  unmark root' = unmark root → quadNode root' q = Some n' →
  ∃ n, quadNode root q = Some n ∧ unmark n = unmark n'.
Proof.
  intros Hu Hq.
  assert (quadNode (unmark root) q = Some (unmark n')) as H.
  { rewrite <- Hu, quadNode_unmark, Hq. done. }
  rewrite quadNode_unmark in H.
  destruct (quadNode root q) as [n|]; [|done].
  exists n. split; [done|]. by injection H.
Qed.

Lemma subnode_trans a b c : subnode a b → subnode b c → subnode a c.
Proof.
  intros Hab Hbc. induction Hbc as [|n c' Hl Hm IH|n c' Hr Hm IH]; [done|..].
  - eapply subnode_left; [done|]. by apply IH.
  - eapply subnode_right; [done|]. by apply IH.
Qed.

(** A leaf of a quadrant is a node of the tree, inside the quadrant. *)
Lemma quadLeaves_spec root q leaf :
  leaf ∈ quadLeaves root q →
  ∃ n, quadNode root q = Some n ∧ subnode leaf n ∧ subnode leaf root.
Proof.
  unfold quadLeaves. destruct (quadNode root q) as [n|] eqn:E.
  - intros Hl%leaves_subnode. exists n. split; [done|]. split; [done|].
    eapply subnode_trans; [done|]. by eapply quadNode_subnode.
  - by intros ?%not_elem_of_nil.
Qed.

(** ** [addBase] and [createBases] *)

Lemma baseIn_offBorder leaf base :
  rectOk leaf → baseIn leaf base → baseOffBorder base.
Proof.
  unfold baseIn, baseOffBorder. intros (? & ? & ? & ? & _) (E & ? & ? & ? & ?).
  rewrite E. simpl. lia.
Qed.

Lemma baseIn_inside leaf base : baseIn leaf base → baseInside leaf base.
Proof.
  intros (E & ? & ? & ? & ?) c Hc.
  destruct base as [[x y] b2]. cbn [fst snd] in *. subst b2.
  apply squareCells_square in Hc. unfold inside. lia.
Qed.

Lemma addBase_spec fuel root array quadrants s base array' used root' s' :
  dims array → wf root →
  addBase fuel root array quadrants s = Ok ((base, array', used, root'), s') →
  used ∈ quadrants ∧ unmark root' = unmark root ∧
  (∃ leaf, leaf ∈ quadLeaves root used ∧ eligible leaf = true ∧
           rectOk leaf ∧ baseIn leaf base) ∧
  filled Base (squareCells base) array array'.
Proof.
  intros Hd Hwf E. unfold addBase in E.
  apply bind_Ok in E as ([[r1 b1] u1] & s1 & E1 & E).
  apply bind_Ok in E as (a1 & s2 & E2 & E).
  apply lift_Ok in E2 as [E2 ->]. injection E as -> -> -> -> ->.
  destruct (addBaseLoop_Ok _ _ _ _ _ _ _ _ E1) as (Hu & Hm & leaf & Hl & He & Hb).
  assert (rectOk leaf) as Hrect.
  { destruct (quadLeaves_spec _ _ _ Hl) as (n & _ & _ & Hs).
    apply wf_rectOk. by eapply wf_subnode. }
  specialize (Hb Hrect).
  split; [done|]. split; [done|]. split; [by exists leaf|].
  destruct (baseIn_offBorder _ _ Hrect Hb) as (? & ? & ? & ?).
  destruct (markBase_spec base array Hd) as (a' & Ea & Fa); [lia..|].
  rewrite Ea in E2. by injection E2 as <-.
Qed.

Lemma elem_of_removeFirst {A} `{EqDecision A} (x y : A) (l : list A) :
  NoDup l → x ∈ removeFirst y l → x ≠ y ∧ x ∈ l.
Proof.
  induction l as [|z l IH]; intros Hnd Hx; cbn [removeFirst] in Hx.
  - by apply not_elem_of_nil in Hx.
  - apply NoDup_cons in Hnd as [Hz Hnd].
    destruct (decide (y = z)) as [->|Hne].
    + split; [|apply elem_of_cons; by right]. by intros ->.
    + apply elem_of_cons in Hx as [->|Hx].
      * split; [done|]. apply elem_of_cons. by left.
      * destruct (IH Hnd Hx). split; [done|]. apply elem_of_cons. by right.
Qed.


Lemma createBasesStep_spec fuel array root quads bases s array' root' quads' bases' s' :
  dims array → wf root →
  createBasesStep fuel (array, root, quads, bases) s
    = Ok ((array', root', quads', bases'), s') →
  ∃ base used leaf,
    bases' = bases ++ [base] ∧ used ∈ quads ∧
    quads' = removeFirst used quads ∧ unmark root' = unmark root ∧
    leaf ∈ quadLeaves root used ∧ rectOk leaf ∧ baseIn leaf base ∧
    filled Base (squareCells base) array array'.
Proof.
  intros Hd Hwf E. unfold createBasesStep in E.
  apply bind_Ok in E as ([[[base a1] used] r1] & s1 & E1 & E).
  injection E as <- <- <- <- <-.
  destruct (addBase_spec _ _ _ _ _ _ _ _ _ _ Hd Hwf E1)
    as (Hu & Hm & (leaf & Hl & _ & Hr & Hb) & F).
  exists base, used, leaf. rewrite decide_True by done. done.
Qed.

(** A completed [createBases]: three bases, each in an eligible leaf of
    a quadrant still on offer, marked one after the other. *)
Lemma createBases_spec fuel array root s array' bases root' s' :
  dims array → wf root →
  createBases fuel array root s = Ok ((array', bases, root'), s') →
  ∃ b1 b2 b3 q1 q2 q3 l1 l2 l3 r1 r2 a1 a2,
    bases = [b1; b2; b3] ∧
    q1 ∈ allQuads ∧ q2 ∈ removeFirst q1 allQuads ∧
    q3 ∈ removeFirst q2 (removeFirst q1 allQuads) ∧
    unmark r1 = unmark root ∧ unmark r2 = unmark root ∧
    unmark root' = unmark root ∧
    l1 ∈ quadLeaves root q1 ∧ l2 ∈ quadLeaves r1 q2 ∧
    l3 ∈ quadLeaves r2 q3 ∧
    rectOk l1 ∧ rectOk l2 ∧ rectOk l3 ∧
    baseIn l1 b1 ∧ baseIn l2 b2 ∧ baseIn l3 b3 ∧
    filled Base (squareCells b1) array a1 ∧
    filled Base (squareCells b2) a1 a2 ∧
    filled Base (squareCells b3) a2 array'.
Proof.
  intros Hd Hwf E. unfold createBases in E.
  apply bind_Ok in E as ([[[a3 r3] qs3] bs3] & s3 & E & Eret).
  injection Eret as <- <- <- <-.
  replace (range 0 3) with [0; 1; 2] in E by done. cbn [forM] in E.
  apply bind_Ok in E as ([[[a1 r1] qs1] bs1] & s1 & E1 & E).
  apply bind_Ok in E as ([[[a2 r2] qs2] bs2] & s2 & E2 & E).
  apply bind_Ok in E as ([[[a3' r3'] qs3'] bs3'] & s3' & E3 & E).
  injection E as -> -> -> -> ->.
  destruct (createBasesStep_spec _ _ _ _ _ _ _ _ _ _ _ Hd Hwf E1)
    as (b1 & q1 & l1 & -> & Hq1 & -> & Hu1 & Hl1 & Hr1 & Hb1 & F1).
  pose proof (filled_dims _ _ _ _ F1 Hd) as Hd1.
  pose proof (wf_unmark_eq _ _ Hu1 Hwf) as Hwf1.
  destruct (createBasesStep_spec _ _ _ _ _ _ _ _ _ _ _ Hd1 Hwf1 E2)
    as (b2 & q2 & l2 & -> & Hq2 & -> & Hu2 & Hl2 & Hr2 & Hb2 & F2).
  pose proof (filled_dims _ _ _ _ F2 Hd1) as Hd2.
  pose proof (wf_unmark_eq _ _ Hu2 Hwf1) as Hwf2.
  destruct (createBasesStep_spec _ _ _ _ _ _ _ _ _ _ _ Hd2 Hwf2 E3)
    as (b3 & q3 & l3 & -> & Hq3 & -> & Hu3 & Hl3 & Hr3 & Hb3 & F3).
  exists b1, b2, b3, q1, q2, q3, l1, l2, l3, r1, r2, a1, a2.
  split; [done|]. split; [done|]. split; [done|]. split; [done|].
  split; [done|]. split; [congruence|]. split; [congruence|]. done.
Qed.

(** ** The four quadrants *)

Lemma inside_within n c : inside n c → within n c.
Proof. unfold inside, within. lia. Qed.

Lemma halves_apart n c0 c1 w c :
  splitAt n c0 c1 w → inside c0 c → inside c1 c → False.
Proof. intros Hs H0 H1%inside_within. by eapply splitAt_apart. Qed.

Lemma splitAt_inside_l n c0 c1 w c : splitAt n c0 c1 w → inside c0 c → inside n c.
Proof. intros Hs H. eapply splitAt_inside; [done|by left]. Qed.

Lemma splitAt_inside_r n c0 c1 w c : splitAt n c0 c1 w → inside c1 c → inside n c.
Proof. intros Hs H. eapply splitAt_inside; [done|by right]. Qed.

(** In a well-formed tree of depth two or more, the nodes reached by two
    different pairs of choices have no inner cell in common. *)
Lemma quadNode_apart root k m q q' n n' c :
  wf root → grown (S (S k)) m root →
  q ∈ allQuads → q' ∈ allQuads → q ≠ q' →
  quadNode root q = Some n → quadNode root q' = Some n' →
  inside n c → inside n' c → False.
Proof.
  intros Hwf (c0 & c1 & Hl & Hr & G0 & G1) Hq Hq' Hne.
  destruct G0 as (d00 & d01 & Hl0 & Hr0 & _).
  destruct G1 as (d10 & d11 & Hl1 & Hr1 & _).
  destruct (wf_children root Hwf)
    as [(E & _)|(c0' & c1' & w & E0 & E1 & _ & _ & _ & Hs & W0 & W1)];
    [congruence|].
  assert (c0' = c0) as -> by congruence.
  assert (c1' = c1) as -> by congruence.
  destruct (wf_children c0 W0)
    as [(E & _)|(e0 & e1 & w0 & F0 & F1 & _ & _ & _ & Hs0 & _)];
    [congruence|].
  assert (e0 = d00) as -> by congruence.
  assert (e1 = d01) as -> by congruence.
  destruct (wf_children c1 W1)
    as [(E & _)|(e0 & e1 & w1 & F0' & F1' & _ & _ & _ & Hs1 & _)];
    [congruence|].
  assert (e0 = d10) as -> by congruence.
  assert (e1 = d11) as -> by congruence.
  destruct root as [sh rw un wp bp bpos out l r]. cbn [left right] in Hl, Hr.
  subst l r.
  destruct c0 as [sh0 rw0 un0 wp0 bp0 bpos0 out0 l0 r0].
  cbn [left right] in Hl0, Hr0. subst l0 r0.
  destruct c1 as [sh1 rw1 un1 wp1 bp1 bpos1 out1 l1 r1].
  cbn [left right] in Hl1, Hr1. subst l1 r1.
  unfold allQuads in Hq, Hq'.
  repeat (apply elem_of_cons in Hq as [-> | Hq]);
    try (by apply not_elem_of_nil in Hq);
    repeat (apply elem_of_cons in Hq' as [-> | Hq']);
    try (by apply not_elem_of_nil in Hq');
    try done;
    intros [= <-] [= <-] Hn Hn';
    eauto 6 using halves_apart, splitAt_inside_l, splitAt_inside_r.
Qed.

(** ** Cells that hold a base *)





(** What [setCell] can change, whatever the position. *)
Lemma setCell_only (array : grid) (p : coord) (v : cell) (array' : grid) :
  setCell array p v = Ok array' →
  map length array' = map length array ∧
  ∀ c, cellAt array' c = cellAt array c ∨ cellAt array' c = Some v.
Proof.
  unfold setCell.
  destruct (py_index (length array) p.2) as [j|]; [|done].
  destruct (array !! j) as [row|] eqn:Hrow; [|done].
  destruct (py_index (length row) p.1) as [i|]; [|done].
  intros [= <-]. split.
  { rewrite list_fmap_insert, length_insert.
    apply list_insert_id. by rewrite list_lookup_fmap, Hrow. }
  intros c. unfold cellAt.
  destruct ((0 <=? c.1) && (0 <=? c.2)); [|by left].
  destruct (decide (Z.to_nat c.2 = j)) as [<-|Hj].
  - rewrite list_lookup_insert_eq by (by apply lookup_lt_Some in Hrow).
    rewrite Hrow. cbn [mbind option_bind].
    destruct (decide (Z.to_nat c.1 = i)) as [<-|Hi].
    + destruct (decide (Z.to_nat c.1 < length row)%nat).
      * right. by apply list_lookup_insert_eq.
      * left. by rewrite list_insert_ge by lia.
    + left. by apply list_lookup_insert_ne.
  - left. by rewrite list_lookup_insert_ne.
Qed.

Lemma setCells_walled (ps : list coord) :
  ∀ array array', setCells Wall ps array = Ok array' → walled array array'.
Proof.
  induction ps as [|p ps IH]; intros array array' E.
  - injection E as <-. apply walled_refl.
  - unfold setCells in E. cbn [forR] in E.
    destruct (setCell array p Wall) as [a1| |] eqn:E1; [|done..].
    cbn [res_bind] in E. eapply walled_trans; [|by apply IH].
    by apply setCell_only in E1.
Qed.

(** [splitNode] only ever writes [Wall], whatever node and array it is
    given. *)
Lemma splitNode_walled n array s n' array' ends s' :
  splitNode n array s = Ok ((n', array', ends), s') → walled array array'.
Proof.
  unfold splitNode. intros E.
  apply bind_Ok in E as (d & s1 & _ & E).
  apply bind_Ok in E as (r & s2 & _ & E).
  apply lift_Ok in E as [E _].
  destruct (_ =? 0) in E.
  - unfold splitRow in E.
    destruct (node_init _ _ _ r array); [|done..]. cbn [res_bind] in E.
    destruct (node_init _ _ r _ array); [|done..]. cbn [res_bind] in E.
    destruct (setCells Wall _ array) as [a'| |] eqn:Ea; [|done..].
    injection E as <- <- <-. by eapply setCells_walled.
  - unfold splitCol in E.
    destruct (node_init _ r _ _ array); [|done..]. cbn [res_bind] in E.
    destruct (node_init r _ _ _ array); [|done..]. cbn [res_bind] in E.
    destruct (setCells Wall _ array) as [a'| |] eqn:Ea; [|done..].
    injection E as <- <- <-. by eapply setCells_walled.
Qed.

Lemma splitDepth_walled n :
  ∀ array s n' array' ends s',
    splitDepth n array s = Ok ((n', array', ends), s') → walled array array'.
Proof.
  induction n as [sh w un wp bp bpos out c0 c1 IH0 IH1] using node_induction.
  intros array s n' array' ends s' E.
  destruct c0 as [c0|], c1 as [c1|]; cbn [splitDepth] in E;
    try (by eapply splitNode_walled).
  apply bind_Ok in E as ([[c0' a1] e0] & s1 & E0 & E).
  apply bind_Ok in E as ([[c1' a2] e1] & s2 & E1 & E).
  injection E as <- <- <- <-.
  eapply walled_trans; [by eapply IH0 | by eapply IH1].
Qed.

Lemma baseInside_borderOk leaf base array array' :
  rectOk leaf → baseInside leaf base →
  filled Base (squareCells base) array array' →
  borderOk array → borderOk array'.
Proof.
  intros Hr Hb [_ F] Hbo c Hc. rewrite (F c).
  destruct (decide (c ∈ squareCells base)) as [Hin|Hin]; [|by apply Hbo].
  by destruct (inside_not_onBorder leaf c Hr (Hb c Hin)).
Qed.

(** ** Removing used cells from a part while iterating over it *)

Lemma removeFirst_head {A} `{EqDecision A} (x : A) (l : list A) :
  removeFirst x (x :: l) = l.
Proof. cbn [removeFirst]. by rewrite decide_True. Qed.

Lemma removeFirst_last {A} `{EqDecision A} (x : A) (l : list A) :
  x ∉ l → removeFirst x (l ++ [x]) = l.
Proof.
  induction l as [|y l IH]; intros Hx; cbn [removeFirst app].
  - by rewrite decide_True.
  - apply not_elem_of_cons in Hx as [Hne Hx].
    rewrite decide_False by done. by rewrite IH.
Qed.

Lemma removeUsedLoop_done (fuel i : nat) (part usedPos : list coord) :
  (length part <= i)%nat → removeUsedLoop fuel i part usedPos = part.
Proof.
  intros H. destruct fuel; [done|]. cbn [removeUsedLoop].
  by rewrite lookup_ge_None_2.
Qed.

(** The scan from index [i] when no cell from there on is used, the
    last one left aside: the result is the part or the part without its
    last cell, and none of its cells from [i] on is used. *)
Lemma removeUsedLoop_scan (usedPos : list coord) (fuel : nat) :
  ∀ i part,
    NoDup part → (length part - i <= fuel)%nat →
    (∀ k c, (i <= k)%nat → (S k < length part)%nat →
            part !! k = Some c → c ∉ usedPos) →
    ∃ l2, part = removeUsedLoop fuel i part usedPos ++ l2 ∧
          ∀ k c, (i <= k)%nat →
                 removeUsedLoop fuel i part usedPos !! k = Some c →
                 c ∉ usedPos.
Proof.
  induction fuel as [|fuel IH]; intros i part Hnd Hf Hmid.
  - exists []. rewrite app_nil_r. split; [done|].
    intros k c Hk Hc. cbn [removeUsedLoop] in Hc.
    apply lookup_lt_Some in Hc. lia.
  - cbn [removeUsedLoop]. destruct (part !! i) as [bit|] eqn:Ei.
    + destruct (decide (bit ∈ usedPos)) as [Hu|Hu].
      * assert (S i = length part) as Hlast.
        { apply lookup_lt_Some in Ei as Hlt.
          destruct (decide (S i < length part)%nat) as [Hlt'|]; [|lia].
          by destruct (Hmid i bit ltac:(lia) Hlt' Ei). }
        assert (part = take i part ++ [bit]) as Hp.
        { rewrite <- (take_drop i part) at 1. f_equal.
          rewrite (drop_S _ _ _ Ei). rewrite drop_ge by lia. done. }
        assert (removeFirst bit part = take i part) as Hr.
        { rewrite Hp at 1. apply removeFirst_last.
          rewrite Hp in Hnd. apply NoDup_app in Hnd as (_ & Hd & _).
          intros Hin. apply (Hd bit Hin). apply list_elem_of_singleton. done. }
        rewrite Hr, removeUsedLoop_done by (rewrite length_take; lia).
        exists [bit]. split; [done|].
        intros k c Hk Hc. apply lookup_lt_Some in Hc.
        rewrite length_take in Hc. lia.
      * destruct (IH (S i) part Hnd ltac:(lia)) as (l2 & Hl2 & Hun).
        { intros k c Hk. apply Hmid. lia. }
        exists l2. split; [done|]. intros k c Hk Hc.
        destruct (decide (k = i)) as [->|Hne]; [|apply (Hun k c); [lia|done]].
        assert (part !! i = Some c) as Hc'.
        { rewrite Hl2. by apply lookup_app_l_Some. }
        congruence.
    + exists []. rewrite app_nil_r. split; [done|].
      intros k c Hk Hc. apply lookup_lt_Some in Hc.
      apply lookup_ge_None in Ei. lia.
Qed.

(** The loop on a part whose cells other than the first and the last are
    unused, and that is not a pair of two used cells: what is left is a
    stretch of the part, none of its cells used. *)
Lemma removeUsed_spec (part usedPos : list coord) :
  NoDup part →
  (∀ k c, (0 < k)%nat → (S k < length part)%nat →
          part !! k = Some c → c ∉ usedPos) →
  ¬ (∃ a b, part = [a; b] ∧ a ∈ usedPos ∧ b ∈ usedPos) →
  ∃ l1 l2, part = l1 ++ removeUsed part usedPos ++ l2 ∧
           ∀ c, c ∈ removeUsed part usedPos → c ∉ usedPos.
Proof.
  intros Hnd Hmid Hpair. unfold removeUsed.
  destruct part as [|a t].
  { exists [], []. split; [done|]. intros c Hc. cbn in Hc.
    by apply not_elem_of_nil in Hc. }
  cbn [length removeUsedLoop lookup list_lookup].
  destruct (decide (a ∈ usedPos)) as [Ha|Ha].
  - rewrite removeFirst_head.
    apply NoDup_cons in Hnd as [Hat Hnd].
    destruct (removeUsedLoop_scan usedPos (length t) 1 t Hnd ltac:(lia))
      as (l2 & Hl2 & Hun).
    { intros k c Hk Hlt Hc. apply (Hmid (S k) c); [lia|simpl; lia|done]. }
    exists [a], l2. split; [simpl; by rewrite <- Hl2|].
    intros c (k & Hk)%list_elem_of_lookup_1.
    destruct k as [|k]; [|apply (Hun (S k) c); [lia|done]].
    assert (t !! 0%nat = Some c) as Ht.
    { rewrite Hl2. by apply lookup_app_l_Some. }
    destruct t as [|b t']; [done|]. injection Ht as ->.
    destruct t' as [|b' t''].
    + intros Hc. apply Hpair. by exists a, c.
    + apply (Hmid 1%nat c); [lia|simpl; lia|done].
  - destruct (removeUsedLoop_scan usedPos (length t) 1 (a :: t) Hnd)
      as (l2 & Hl2 & Hun); [simpl; lia| |].
    { intros k c Hk Hlt Hc. apply (Hmid k c); [lia|done|done]. }
    exists [], l2. split; [done|].
    intros c (k & Hk)%list_elem_of_lookup_1.
    destruct k as [|k]; [|apply (Hun (S k) c); [lia|done]].
    assert ((a :: t) !! 0%nat = Some c) as Ht.
    { rewrite Hl2. by apply lookup_app_l_Some. }
    injection Ht as <-. done.
Qed.

(** ** Straight runs and their spans *)

Lemma isRun_trans w p q : isRun w p → isRun p q → isRun w q.
Proof.
  intros (_ & l1 & l2 & ->) (Hq & m1 & m2 & ->). split; [done|].
  exists (l1 ++ m1), (m2 ++ l2). by rewrite <- !app_assoc.
Qed.

Lemma isRun_elem_of w p c : isRun w p → c ∈ p → c ∈ w.
Proof.
  intros (_ & l1 & l2 & ->) Hc. apply elem_of_app. right.
  apply elem_of_app. by left.
Qed.

Lemma isRun_NoDup w p : isRun w p → NoDup w → NoDup p.
Proof.
  intros (_ & l1 & l2 & ->) H. apply NoDup_app in H as (_ & _ & H).
  by apply NoDup_app in H as (H & _).
Qed.

Lemma isRun_lookup w p k c :
  isRun w p → p !! k = Some c →
  ∃ l1 l2, w = l1 ++ p ++ l2 ∧ w !! (length l1 + k)%nat = Some c.
Proof.
  intros (_ & l1 & l2 & ->) Hk. exists l1, l2. split; [done|].
  rewrite lookup_app_r by lia.
  replace (length l1 + k - length l1)%nat with k by lia.
  by apply lookup_app_l_Some.
Qed.

Lemma isRow_run x y w l1 p l2 :
  isRow x y w → w = l1 ++ p ++ l2 → isRow (x + len l1) y p.
Proof.
  intros Hw -> k c.
  assert (∀ c', p !! k = Some c' → c' = (x + len l1 + Z.of_nat k, y)) as H.
  { intros c' Hc.
    assert ((l1 ++ p ++ l2) !! (length l1 + k)%nat = Some c') as Hc'.
    { rewrite lookup_app_r by lia.
      replace (length l1 + k - length l1)%nat with k by lia.
      by apply lookup_app_l_Some. }
    apply Hw in Hc' as [_ ->]. unfold len. f_equal. lia. }
  split.
  - intros Hc. split; [by apply lookup_lt_Some in Hc|by apply H].
  - intros [Hk ->]. destruct (lookup_lt_is_Some_2 p k Hk) as [c' Hc'].
    by rewrite Hc', (H c' Hc').
Qed.

Lemma isCol_run x y w l1 p l2 :
  isCol x y w → w = l1 ++ p ++ l2 → isCol x (y + len l1) p.
Proof.
  intros Hw -> k c.
  assert (∀ c', p !! k = Some c' → c' = (x, y + len l1 + Z.of_nat k)) as H.
  { intros c' Hc.
    assert ((l1 ++ p ++ l2) !! (length l1 + k)%nat = Some c') as Hc'.
    { rewrite lookup_app_r by lia.
      replace (length l1 + k - length l1)%nat with k by lia.
      by apply lookup_app_l_Some. }
    apply Hw in Hc' as [_ ->]. unfold len. f_equal. lia. }
  split.
  - intros Hc. split; [by apply lookup_lt_Some in Hc|by apply H].
  - intros [Hk ->]. destruct (lookup_lt_is_Some_2 p k Hk) as [c' Hc'].
    by rewrite Hc', (H c' Hc').
Qed.

Lemma straight_run w p : straight w → isRun w p → straight p.
Proof.
  intros [(x & y & H)|(x & y & H)] (_ & l1 & l2 & E).
  - left. eexists _, _. by eapply isRow_run.
  - right. eexists _, _. by eapply isCol_run.
Qed.

Lemma rowWall_isRow n r : xMin n <= xMax n → isRow (xMin n) r (rowWall n r).
Proof.
  intros H k c. rewrite rowWall_lookup.
  pose proof (rowWall_length n r H) as HL. unfold len in HL.
  split; intros [? ?]; split; try done; lia.
Qed.

Lemma colWall_isCol n r : yMin n <= yMax n → isCol r (yMin n) (colWall n r).
Proof.
  intros H k c. rewrite colWall_lookup.
  pose proof (colWall_length n r H) as HL. unfold len in HL.
  split; intros [? ?]; split; try done; lia.
Qed.

Lemma wf_wall_straight n w : wf n → wall n = Some w → straight w.
Proof.
  intros Hwf Hw.
  destruct (wf_children n Hwf)
    as [(_ & _ & E & _)|(c0 & c1 & w' & _ & _ & E & Hx2 & Hy2 & Hs & _)];
    [congruence|].
  assert (w' = w) as -> by congruence.
  destruct Hs as [(r & Hr & -> & _)|(r & Hr & -> & _)].
  - left. eexists _, _. apply rowWall_isRow. lia.
  - right. eexists _, _. apply colWall_isCol. lia.
Qed.

(** The block made of the first and last cell of a straight run spans
    the cells of the run and no other. *)
Lemma straight_span (p : list coord) :
  straight p → p ≠ [] →
  ∃ a b t, p = a :: t ∧ last p = Some b ∧ ∀ c, inSpan (a, b) c ↔ c ∈ p.
Proof.
  intros Hs Hne. destruct p as [|a t]; [done|].
  destruct (last (a :: t)) as [b|] eqn:El.
  2:{ rewrite last_lookup in El. apply lookup_ge_None in El. simpl in El. lia. }
  exists a, b, t. split; [done|]. split; [done|].
  rewrite last_lookup in El. cbn [length Nat.pred] in El.
  intros c. rewrite list_elem_of_lookup. unfold inSpan. cbn [fst snd].
  destruct Hs as [(x & y & H)|(x & y & H)].
  - assert (a = (x + Z.of_nat 0, y)) as -> by (by apply (H 0%nat a)).
    apply H in El as [_ ->]. cbn [fst snd]. split.
    + intros [Hx Hy]. exists (Z.to_nat (c.1 - x)). apply H. split.
      * simpl. lia.
      * destruct c as [cx cy]. cbn [fst snd] in *. f_equal; lia.
    + intros (k & [Hk ->]%H). simpl in Hk. cbn [fst snd]. lia.
  - assert (a = (x, y + Z.of_nat 0)) as -> by (by apply (H 0%nat a)).
    apply H in El as [_ ->]. cbn [fst snd]. split.
    + intros [Hx Hy]. exists (Z.to_nat (c.2 - y)). apply H. split.
      * simpl. lia.
      * destruct c as [cx cy]. cbn [fst snd] in *. f_equal; lia.
    + intros (k & [Hk ->]%H). simpl in Hk. cbn [fst snd]. lia.
Qed.

Lemma spanApart_sym b b' : spanApart b b' → spanApart b' b.
Proof. intros H c H1 H2. by apply (H c). Qed.

Lemma allApart_app l1 l2 :
  allApart l1 → allApart l2 →
  (∀ b b', b ∈ l1 → b' ∈ l2 → spanApart b b') →
  allApart (l1 ++ l2).
Proof.
  induction l1 as [|b l1 IH]; intros H1 H2 Hx; [done|].
  destruct H1 as [Hb H1]. cbn [app allApart]. split.
  - apply Forall_app. split; [done|]. apply Forall_forall. intros b' Hb'.
    apply Hx; [apply elem_of_cons; by left|done].
  - apply IH; [done..|]. intros b1 b2 Hb1. apply Hx, elem_of_cons. by right.
Qed.

Lemma allApart_blocksApart walls : allApart walls → blocksApart walls.
Proof.
  induction walls as [|b walls IH].
  - intros _ i j b1 b2 Hi. done.
  - intros [Hb Ha] i j b1 b2 Hi Hj Hne.
    rewrite Forall_forall in Hb.
    destruct i as [|i], j as [|j]; cbn in Hi, Hj.
    + done.
    + injection Hi as <-. apply Hb. by eapply list_elem_of_lookup_2.
    + injection Hj as <-. apply spanApart_sym, Hb.
      by eapply list_elem_of_lookup_2.
    + apply (IH Ha i j); [done..|]. congruence.
Qed.

(** ** The wall parts read from the grid *)

Lemma res_bind_Ok {A B} (c : res A) (k : A → res B) (b : B) :
  res_bind c k = Ok b → ∃ a, c = Ok a ∧ k a = Ok b.
Proof. destruct c; [eauto|done..]. Qed.

Lemma wallRunsLoop_spec (w : list coord) (array : grid) :
  ∀ rest acc cur pre parts,
    w = pre ++ rest → (∃ l, pre = l ++ cur) →
    Forall (isRun w) acc → sublist (concat acc ++ cur) pre →
    wallRunsLoop rest array acc cur = Ok parts →
    partsFrom w parts.
Proof.
  induction rest as [|p rest IH]; intros acc cur pre parts Hw (l & Hl) Hacc Hsub E;
    cbn [wallRunsLoop] in E.
  - injection E as <-. rewrite app_nil_r in Hw. subst w.
    destruct (decide (cur = [])) as [->|Hne].
    + split; [done|]. by rewrite app_nil_r in Hsub.
    + split.
      * apply Forall_app. split; [done|]. apply Forall_singleton.
        split; [done|]. exists l, []. by rewrite app_nil_r.
      * rewrite concat_app. cbn [concat]. by rewrite app_nil_r.
  - apply res_bind_Ok in E as (v & _ & E).
    destruct (decide (v = Wall)) as [->|Hv].
    + apply (IH acc (cur ++ [p]) (pre ++ [p]) parts); [| |done| |done].
      * by rewrite <- app_assoc.
      * exists l. rewrite Hl. by rewrite <- app_assoc.
      * rewrite app_assoc. by apply sublist_app.
    + destruct (decide (cur = [])) as [->|Hne].
      * apply (IH acc [] (pre ++ [p]) parts); [| |done| |done].
        -- by rewrite <- app_assoc.
        -- exists (pre ++ [p]). by rewrite app_nil_r.
        -- rewrite app_nil_r in *. by apply sublist_inserts_r.
      * apply (IH (acc ++ [cur]) [] (pre ++ [p]) parts); [| | | |done].
        -- by rewrite <- app_assoc.
        -- exists (pre ++ [p]). by rewrite app_nil_r.
        -- apply Forall_app. split; [done|]. apply Forall_singleton.
           split; [done|]. exists l, (p :: rest). by rewrite Hw, Hl, <- app_assoc.
        -- rewrite concat_app. cbn [concat]. rewrite !app_nil_r.
           by apply sublist_inserts_r.
Qed.

Lemma partsOk_node sh w un wp bp bpos out c0 c1 :
  (∀ w', w = Some w' → partsFrom w' wp) →
  (∀ c, c0 = Some c → partsOk c) → (∀ c, c1 = Some c → partsOk c) →
  partsOk (Node sh w un wp bp bpos out c0 c1).
Proof.
  intros Hown H0 H1 m w' Hm Hw.
  inversion Hm as [|n c Hl Hc|n c Hr Hc]; subst.
  - by apply Hown.
  - cbn in Hl. by eapply H0.
  - cbn in Hr. by eapply H1.
Qed.

(** [generateWallParts] keeps the tree and gives every wall its parts. *)
Lemma generateWallParts_spec (array : grid) (n : node) :
  ∀ n', generateWallParts n array = Ok n' →
        shape n' = shape n ∧ (wf n → wf n') ∧ partsOk n'.
Proof.
  induction n as [sh w un wp bp bpos out c0 c1 IH0 IH1] using node_induction.
  intros n' E. cbn [generateWallParts] in E.
  apply res_bind_Ok in E as (c0' & E0 & E).
  apply res_bind_Ok in E as (c1' & E1 & E).
  assert (match c0, c0' with
          | Some c, Some c' => shape c' = shape c ∧ (wf c → wf c') ∧ partsOk c'
          | None, None => True
          | _, _ => False
          end) as H0.
  { destruct c0 as [c|].
    - apply res_bind_Ok in E0 as (c' & Ec & [= <-]). by apply IH0.
    - by injection E0 as <-. }
  assert (match c1, c1' with
          | Some c, Some c' => shape c' = shape c ∧ (wf c → wf c') ∧ partsOk c'
          | None, None => True
          | _, _ => False
          end) as H1.
  { destruct c1 as [c|].
    - apply res_bind_Ok in E1 as (c' & Ec & [= <-]). by apply IH1.
    - by injection E1 as <-. }
  clear E0 E1 IH0 IH1.
  destruct w as [w|].
  - apply res_bind_Ok in E as (parts & Ep & [= <-]).
    split; [done|]. split.
    + destruct c0 as [c0|], c0' as [d0|]; try done;
        destruct c1 as [c1|], c1' as [d1|]; try done;
        cbn [wf]; try (by intros [_ []]).
      destruct H0 as (S0 & W0 & _), H1 as (S1 & W1 & _).
      intros (Hr & Hx & Hy & Hs & Hw0 & Hw1).
      split; [exact Hr|]. split; [exact Hx|]. split; [exact Hy|].
      split; [by eapply splitAt_shape|]. split; [by apply W0|by apply W1].
    + apply partsOk_node.
      * intros w' [= <-].
        apply (wallRunsLoop_spec w array w [] [] [] parts);
          [done | by exists [] | done | done | done].
      * intros c ->. destruct c0; [|done]. apply H0.
      * intros c ->. destruct c1; [|done]. apply H1.
  - injection E as <-. split; [done|]. split.
    + destruct c0 as [c0|], c0' as [d0|]; try done;
        destruct c1 as [c1|], c1' as [d1|]; try done;
        cbn [wf]; by intros [_ ?].
    + apply partsOk_node.
      * done.
      * intros c ->. destruct c0; [|done]. apply H0.
      * intros c ->. destruct c1; [|done]. apply H1.
Qed.

(** ** The blocks of one wall *)

Lemma partsFrom_NoDup w parts : partsFrom w parts → NoDup w → NoDup (concat parts).
Proof. intros [_ Hs] Hnd. by eapply sublist_NoDup. Qed.

Lemma blocksOfParts_cons part parts wd U :
  blocksOfParts (part :: parts) (wd, U)
  = blocksOfParts parts
      (match removeUsed part U, last (removeUsed part U) with
       | p :: _, Some q => wd ++ [(p, q)]
       | _, _ => wd
       end, U ++ removeUsed part U).
Proof.
  unfold blocksOfParts. cbn [fold_left].
  by destruct (removeUsed part U).
Qed.

Lemma blocksOfParts_spec (w : list coord) :
  NoDup w → straight w → 3 <= len w →
  ∀ parts wd U,
    Forall (isRun w) parts → NoDup (concat parts) →
    (∀ c, c ∈ U → c ∈ concat parts → head w = Some c ∨ last w = Some c) →
    ∃ blocks added,
      blocksOfParts parts (wd, U) = (wd ++ blocks, U ++ added) ∧
      (∀ c, c ∈ added → c ∈ concat parts) ∧
      Forall (fun b => ∀ c, inSpan b c → c ∈ added ∧ c ∉ U) blocks ∧
      allApart blocks.
Proof.
  intros Hnd Hst H3. induction parts as [|p parts IH]; intros wd U Hruns Hcat Hends.
  - exists [], []. by rewrite !app_nil_r.
  - apply Forall_cons_1 in Hruns as [Hp Hruns].
    cbn [concat] in Hcat. apply NoDup_app in Hcat as (Hpnd & Hdis & Hrest).
    rewrite blocksOfParts_cons.
    destruct (removeUsed_spec p U Hpnd) as (l1 & l2 & Hsplit & Hun).
    { intros k c Hk Hlt Hc Hu.
      destruct (isRun_lookup w p k c Hp Hc) as (m1 & m2 & Ew & Hwk).
      assert (length w = length m1 + length p + length m2)%nat as HL
        by (rewrite Ew, !length_app; lia).
      destruct (Hends c Hu) as [Hh|Hl].
      - cbn [concat]. apply elem_of_app. left. by eapply list_elem_of_lookup_2.
      - rewrite head_lookup in Hh.
        pose proof (NoDup_lookup _ _ _ _ Hnd Hh Hwk). lia.
      - rewrite last_lookup in Hl.
        pose proof (NoDup_lookup _ _ _ _ Hnd Hl Hwk). lia. }
    { intros (a & b & -> & Ha & Hb).
      destruct (isRun_lookup w [a; b] 0 a Hp eq_refl) as (m1 & m2 & Ew & Hwa).
      assert (w !! (length m1 + 1)%nat = Some b) as Hwb.
      { rewrite Ew, lookup_app_r by lia.
        by replace (length m1 + 1 - length m1)%nat with 1%nat by lia. }
      assert (length w = length m1 + 2 + length m2)%nat as HL
        by (rewrite Ew, !length_app; simpl; lia).
      unfold len in H3.
      assert (∀ c k, c ∈ [a; b] → c ∈ U → w !! k = Some c →
                     k = 0%nat ∨ k = (length w - 1)%nat) as Hk.
      { intros c k Hc Hu Hwk. destruct (Hends c Hu) as [Hh|Hl].
        - cbn [concat]. apply elem_of_app. by left.
        - left. rewrite head_lookup in Hh.
          by apply (NoDup_lookup _ _ _ _ Hnd Hwk Hh).
        - right. rewrite last_lookup in Hl.
          replace (Nat.pred (length w)) with (length w - 1)%nat in Hl by lia.
          by apply (NoDup_lookup _ _ _ _ Hnd Hwk Hl). }
      destruct (Hk a _ ltac:(apply elem_of_cons; by left) Ha Hwa);
        destruct (Hk b _ ltac:(apply elem_of_cons; right;
                               apply elem_of_cons; by left) Hb Hwb); lia. }
    set (p' := removeUsed p U) in *.
    assert (∀ c, c ∈ p' → c ∈ p) as Hsubp.
    { intros c Hc. rewrite Hsplit. apply elem_of_app. right.
      apply elem_of_app. by left. }
    destruct (IH (match p', last p' with
                  | a :: _, Some q => wd ++ [(a, q)]
                  | _, _ => wd
                  end) (U ++ p') Hruns Hrest)
      as (blocks & added & E & Hadd & Hblocks & Hap).
    { intros c [Hu|Hc']%elem_of_app Hc.
      - apply Hends; [done|]. cbn [concat]. apply elem_of_app. by right.
      - by destruct (Hdis c (Hsubp c Hc')). }
    rewrite E. destruct (decide (p' = [])) as [Hnil|Hne].
    + rewrite Hnil in *. cbn [last]. rewrite app_nil_r in *.
      exists blocks, added. split; [done|]. split.
      { intros c Hc. cbn [concat]. apply elem_of_app. right. by apply Hadd. }
      split; [|done]. done.
    + assert (isRun w p') as Hrun'.
      { eapply isRun_trans; [exact Hp|]. split; [done|]. by exists l1, l2. }
      destruct (straight_span p' (straight_run _ _ Hst Hrun') Hne)
        as (a & b & t & Ep & El & Hspan).
      rewrite Ep in *. rewrite El.
      exists ((a, b) :: blocks), ((a :: t) ++ added).
      split; [by rewrite <- !app_assoc|]. split.
      { intros c [Hc|Hc]%elem_of_app; cbn [concat]; apply elem_of_app.
        - left. by apply Hsubp.
        - right. by apply Hadd. }
      rewrite Forall_forall in Hblocks. split.
      { apply Forall_cons. split.
        - intros c Hc%Hspan. split; [apply elem_of_app; by left|by apply Hun].
        - apply Forall_forall. intros b' Hb' c Hc.
          destruct (Hblocks b' Hb' c Hc) as [Hin Hout]. split.
          + apply elem_of_app. by right.
          + intros Hu. apply Hout. apply elem_of_app. by left. }
      split; [|done]. apply Forall_forall. intros b' Hb' c Hc%Hspan Hc'.
      destruct (Hblocks b' Hb' c Hc') as [_ Hout]. apply Hout.
      apply elem_of_app. by right.
Qed.

(** ** The blocks of the whole tree *)

Lemma splitAt_wall_not_inside n c0 c1 w c :
  splitAt n c0 c1 w → c ∈ w → ¬ inside c0 c ∧ ¬ inside c1 c.
Proof.
  unfold splitAt, inside.
  intros [(r & Hr & -> & S0 & S1)|(r & Hr & -> & S0 & S1)].
  - intros [Hc _]%elem_of_rowWall. unfold xMin, xMax, yMin, yMax.
    rewrite S0, S1. simpl. lia.
  - intros [Hc _]%elem_of_colWall. unfold xMin, xMax, yMin, yMax.
    rewrite S0, S1. simpl. lia.
Qed.

Lemma partsOk_left n c : left n = Some c → partsOk n → partsOk c.
Proof. intros Hl H m w Hm. apply H. by eapply subnode_left. Qed.

Lemma partsOk_right n c : right n = Some c → partsOk n → partsOk c.
Proof. intros Hr H m w Hm. apply H. by eapply subnode_right. Qed.

(** [createAllWallBlocks] on a well-formed tree with its wall parts,
    started with used cells none of which is strictly inside the
    rectangle: the cells it adds are in the rectangle, the span of every
    block is made of added cells that were not used before, and no two
    blocks share a cell. *)
Lemma createAllWallBlocks_spec (n : node) :
  wf n → partsOk n →
  ∀ U, (∀ c, c ∈ U → ¬ inside n c) →
  ∃ blocks added,
    createAllWallBlocks n U = (blocks, U ++ added) ∧
    (∀ c, c ∈ added → within n c) ∧
    Forall (fun b => ∀ c, inSpan b c → c ∈ added ∧ c ∉ U) blocks ∧
    allApart blocks.
Proof.
  induction n as [sh w un wp bp bpos out c0 c1 IH0 IH1] using node_induction.
  intros Hwf Hparts U HU.
  set (n := Node sh w un wp bp bpos out c0 c1) in *.
  destruct (wf_children n Hwf)
    as [(Hl & Hr & Hw & Hwp)|(d0 & d1 & w' & Hl & Hr & Hw & Hx2 & Hy2 & Hs & W0 & W1)].
  - cbn in Hl, Hr, Hw, Hwp. subst c0 c1 w wp.
    exists [], []. rewrite app_nil_r. split; [done|].
    split; [intros c Hc; by apply not_elem_of_nil in Hc|].
    split; [by apply Forall_nil|done].
  - cbn in Hl, Hr, Hw. subst c0 c1 w.
    destruct (wf_wall n w' Hwf eq_refl) as (Hin & Hinner & H3 & Hnd).
    pose proof (wf_wall_straight n w' Hwf eq_refl) as Hst.
    destruct (Hparts n w' (subnode_here n) eq_refl) as [Hruns Hsub].
    destruct (blocksOfParts_spec w' Hnd Hst H3 wp [] U Hruns)
      as (bo & ao & Eo & Hao & Hbo & Hapo).
    { by eapply sublist_NoDup. }
    { intros c Hu Hc.
      assert (c ∈ w') as Hcw.
      { by eapply elem_of_sublist. }
      apply list_elem_of_lookup_1 in Hcw as (k & Hk).
      pose proof (lookup_lt_Some _ _ _ Hk) as Hlt.
      destruct (decide (0 < k < length w' - 1)%nat) as [Hmid|Hmid].
      - by destruct (HU c Hu (proj1 (Hinner k c Hk) Hmid)).
      - destruct (decide (k = 0%nat)) as [->|Hk0].
        + left. by rewrite head_lookup.
        + right. rewrite last_lookup.
          by replace (Nat.pred (length w')) with k by lia. }
    assert (∀ c, c ∈ ao → c ∈ w') as Haow.
    { intros c Hc. eapply elem_of_sublist; [|exact Hsub]. by apply Hao. }
    destruct (IH0 d0 eq_refl W0 (partsOk_left n d0 eq_refl Hparts) (U ++ ao))
      as (b0 & a0 & E0 & Ha0 & Hb0 & Hap0).
    { intros c [Hc|Hc]%elem_of_app Hi.
      - apply (HU c Hc). by eapply splitAt_inside_l.
      - by destruct (splitAt_wall_not_inside n d0 d1 w' c Hs (Haow c Hc)). }
    destruct (IH1 d1 eq_refl W1 (partsOk_right n d1 eq_refl Hparts)
                ((U ++ ao) ++ a0))
      as (b1 & a1 & E1 & Ha1 & Hb1 & Hap1).
    { intros c [[Hc|Hc]%elem_of_app|Hc]%elem_of_app Hi.
      - apply (HU c Hc). by eapply splitAt_inside_r.
      - by destruct (splitAt_wall_not_inside n d0 d1 w' c Hs (Haow c Hc)).
      - by apply (splitAt_apart' n d0 d1 w' c Hs (Ha0 c Hc)). }
    exists ((bo ++ b0) ++ b1), (ao ++ a0 ++ a1).
    rewrite Forall_forall in Hbo, Hb0, Hb1.
    split.
    { unfold n. cbn [createAllWallBlocks]. rewrite Eo. cbn [app].
      rewrite E0, E1. by rewrite <- !app_assoc. }
    split.
    { intros c [Hc|[Hc|Hc]%elem_of_app]%elem_of_app.
      - by apply Hin, Haow.
      - eapply splitAt_within; [done|]. left. by apply Ha0.
      - eapply splitAt_within; [done|]. right. by apply Ha1. }
    split.
    { apply Forall_forall.
      intros b [[Hb|Hb]%elem_of_app|Hb]%elem_of_app c Hc.
      - destruct (Hbo b Hb c Hc). split; [|done]. apply elem_of_app. by left.
      - destruct (Hb0 b Hb c Hc) as [Hi Ho]. split.
        + apply elem_of_app. right. apply elem_of_app. by left.
        + intros Hu. apply Ho, elem_of_app. by left.
      - destruct (Hb1 b Hb c Hc) as [Hi Ho]. split.
        + apply elem_of_app. right. apply elem_of_app. by right.
        + intros Hu. apply Ho, elem_of_app. left. apply elem_of_app. by left. }
    apply allApart_app; [apply allApart_app|..]; try done.
    + intros b b' Hb Hb' c Hc Hc'.
      destruct (Hbo b Hb c Hc) as [Hi _].
      destruct (Hb0 b' Hb' c Hc') as [_ Ho]. apply Ho, elem_of_app. by right.
    + intros b b' [Hb|Hb]%elem_of_app Hb' c Hc Hc';
        destruct (Hb1 b' Hb' c Hc') as [_ Ho]; apply Ho.
      * destruct (Hbo b Hb c Hc) as [Hi _].
        apply elem_of_app. left. apply elem_of_app. by right.
      * destruct (Hb0 b Hb c Hc) as [Hi _]. apply elem_of_app. by right.
Qed.

(** ** The edge of the grid *)

Lemma fold_left_Forall {A B} (P : A → Prop) (f : list A → B → list A)
    (l : list B) :
  (∀ acc x, Forall P acc → Forall P (f acc x)) →
  ∀ init, Forall P init → Forall P (fold_left f l init).
Proof.
  intros Hf. induction l as [|x l IH]; intros init Hi; [done|].
  cbn [fold_left]. apply IH. by apply Hf.
Qed.

Lemma generateEdges_spec (array : grid) (used : list coord) :
  dims array → generateEdges array = Ok used →
  ∀ c, c ∈ used → c.1 = 0 ∨ c.1 = 249 ∨ c.2 = 0 ∨ c.2 = 199.
Proof.
  intros Hd E. unfold generateEdges in E.
  destruct (dims_row0 array Hd) as (row0 & E0 & L0).
  rewrite E0 in E. cbn [res_bind] in E.
  set (r1 := range 0 (len array)) in E. set (r2 := range 0 (len row0)) in E.
  clearbody r1 r2. rewrite L0, (dims_len _ Hd) in E.
  injection E as <-. apply Forall_forall.
  apply fold_left_Forall.
  - intros acc i Hacc. cbn [fold_left].
    repeat case_decide; try done;
      repeat (apply Forall_app; split; [|apply Forall_singleton; simpl; lia]);
      done.
  - apply fold_left_Forall; [|done].
    intros acc i Hacc. apply Forall_app. split; [done|].
    repeat constructor; simpl; lia.
Qed.

(** * The claims *)

(** ** Door cutting *)

(** C2, the code at a failing input: a wall of nine cells with a joint at
    its sixth cell has a usable part of five cells and one of three, none
    of them large; the selection loop ends on the part of three cells, and
    the door is cut there. *)
Theorem short_wall_selection_not_longest :
  map length (usableParts (column 5 1 9) [(5, 6)]) = [5; 3]%nat ∧
  largePartsOf (usableParts (column 5 1 9) [(5, 6)]) = [] ∧
  selectLoop (usableParts (column 5 1 9) [(5, 6)]) = (2, 1) ∧
  py_nth (usableParts (column 5 1 9) [(5, 6)]) 1 = Ok (column 5 7 3) ∧
  match setCells Wall (column 5 1 9) createEmptyWorld with
  | Ok g0 =>
      match addDoorToWall (column 5 1 9) [(5, 6)] g0 zeroRng with
      | Ok (g', _) =>
          filter (fun c => cellAt g' c = Some Empty) (column 5 1 9) = [(5, 8)]
      | _ => False
      end
  | _ => False
  end.
Proof.
  split; [by vm_compute|]. split; [by vm_compute|].
  split; [by vm_compute|]. split; [by vm_compute|].
  vm_compute. done.
Qed.

Lemma runs_NoDup (wall : list coord) (n k : nat) :
  NoDup wall → NoDup (take n (drop k wall)).
Proof.
  intros H. eapply sublist_NoDup; [exact H|].
  etrans; [apply sublist_take | apply sublist_drop].
Qed.

(** C3, as amended: on a large part inside the grid [openDoor] returns.
    If the part has more than 16 cells, a start offset of [1..len-16] is
    drawn and the 15 consecutive cells from there, all within the part
    and none of them an end of it, are set to [Empty].  If it has 15 or
    16 cells, nothing is drawn and the cells between its two ends, 13 or
    14 of them, are set to [Empty]. *)
Theorem openDoor_large_part (part : list coord) (array : grid) (s : rng) :
  Forall (inGrid array) part → NoDup part → 15 <= len part →
  ∃ ps array' s',
    openDoor part array s = Ok (array', s') ∧
    cleared ps array array' ∧ NoDup ps ∧ Forall (innerCell part) ps ∧
    ((16 < len part ∧ length ps = 15%nat ∧ s' = rng_tail s ∧
      ∃ r, 1 <= r <= len part - 16 ∧ ps = doorCells part r) ∨
     (len part <= 16 ∧ len ps = len part - 2 ∧ s' = s ∧
      ps = interiorCells part)).
Proof.
  intros Hin Hnd H15.
  destruct (openDoor_cases part array s) as [(Hl & r & Hr & E)|(Hl & E)].
  - destruct (clearCells_spec (doorCells part r) array) as (a' & Ec & Hc).
    { by apply Forall_take, Forall_drop. }
    exists (doorCells part r), a', (rng_tail s). rewrite E. unfold lift.
    rewrite Ec. split; [done|]. split; [done|].
    split; [by apply runs_NoDup|]. split.
    { apply Forall_forall. intros c Hc'. by eapply doorCells_inner. }
    left. split; [done|]. split; [by apply doorCells_length|].
    split; [done|]. by exists r.
  - destruct (clearCells_spec (interiorCells part) array) as (a' & Ec & Hc).
    { by apply Forall_take, Forall_drop. }
    exists (interiorCells part), a', s. rewrite E. unfold lift.
    rewrite Ec. split; [done|]. split; [done|].
    split; [by apply runs_NoDup|]. split.
    { apply Forall_forall. intros c Hc'. by eapply interiorCells_inner. }
    right. split; [done|]. split; [|done].
    unfold len in *. rewrite interiorCells_length. lia.
Qed.

Lemma column_5_1_20 :
  Forall (inGrid createEmptyWorld) (column 5 1 20) ∧ NoDup (column 5 1 20)
  ∧ 15 <= len (column 5 1 20).
Proof.
  split; [|split].
  - apply Forall_forall. intros c Hc. unfold column in Hc.
    apply list_elem_of_fmap in Hc as (y & -> & Hy%elem_of_range).
    assert (Hy' : y ∈ range 1 21) by (apply elem_of_range; lia).
    clear Hy. revert y Hy'. apply Forall_forall.
    repeat constructor; eexists; vm_compute; reflexivity.
  - apply (bool_decide_unpack _). by vm_compute.
  - by vm_compute.
Qed.

Lemma openDoor_large_part_witness :
  ∃ ps array' s',
    openDoor (column 5 1 20) createEmptyWorld zeroRng = Ok (array', s') ∧
    cleared ps createEmptyWorld array' ∧ NoDup ps ∧
    Forall (innerCell (column 5 1 20)) ps ∧
    ((16 < len (column 5 1 20) ∧ length ps = 15%nat ∧ s' = rng_tail zeroRng ∧
      ∃ r, 1 <= r <= len (column 5 1 20) - 16 ∧ ps = doorCells (column 5 1 20) r) ∨
     (len (column 5 1 20) <= 16 ∧ len ps = len (column 5 1 20) - 2 ∧
      s' = zeroRng ∧ ps = interiorCells (column 5 1 20))).
Proof.
  apply (openDoor_large_part (column 5 1 20) createEmptyWorld zeroRng);
    apply column_5_1_20.
Defined.

(** C3, the claim as stated fails: a part of 15 cells is large, yet
    [addDoorToWall] hands it to [openDoor], which clears its 13 inner
    cells and not 15. *)
Lemma large_part_of_15_loses_13 :
  largePartsOf (usableParts (column 5 1 15) []) = [column 5 1 15] ∧
  len (column 5 1 15) = 15 ∧
  match setCells Wall (column 5 1 15) createEmptyWorld with
  | Ok g0 =>
      match addDoorToWall (column 5 1 15) [] g0 zeroRng with
      | Ok (g', _) => countCells Empty g' (column 5 1 15) = 13%nat ∧
                      countCells Wall g' (column 5 1 15) = 2%nat
      | _ => False
      end
  | _ => False
  end.
Proof.
  split; [by vm_compute|]. split; [by vm_compute|].
  vm_compute. done.
Qed.

(** C10: for a wall whose positions are inside the grid, [openDoor]
    returns; a cell that changed is a position of the wall and is now
    [Empty]; the cells written are positions strictly between the first
    and the last of the list, so when no position occurs twice the first
    and last positions keep their content. *)
Theorem openDoor_frame (wall : list coord) (array : grid) (s : rng) :
  Forall (inGrid array) wall →
  ∃ array' s',
    openDoor wall array s = Ok (array', s') ∧
    (∀ c, cellAt array' c ≠ cellAt array c →
          c ∈ wall ∧ cellAt array' c = Some Empty) ∧
    (∃ ps, cleared ps array array' ∧ Forall (innerCell wall) ps) ∧
    (NoDup wall → ∀ c, head wall = Some c ∨ last wall = Some c →
                       cellAt array' c = cellAt array c).
Proof.
  intros Hin.
  destruct (openDoor_spec wall array s Hin) as (ps & a' & s' & E & Hc & Hi & _).
  exists a', s'. split; [done|]. rewrite Forall_forall in Hi. split; [|split].
  - intros c Hne. rewrite (proj2 Hc c) in Hne |- *.
    destruct (decide (c ∈ ps)) as [Hcp|Hcp]; [|done].
    split; [|done]. by apply innerCell_elem_of, Hi.
  - exists ps. split; [done|]. by apply Forall_forall.
  - intros Hnd c Hends. rewrite (proj2 Hc c).
    destruct (decide (c ∈ ps)) as [Hcp|Hcp]; [|done]. exfalso.
    destruct (Hi c Hcp) as (k & Hk & Hwk).
    destruct Hends as [Hh|Hl].
    + rewrite head_lookup in Hh.
      pose proof (NoDup_lookup _ _ _ _ Hnd Hh Hwk). lia.
    + rewrite last_lookup in Hl.
      pose proof (NoDup_lookup _ _ _ _ Hnd Hl Hwk). lia.
Qed.

Lemma openDoor_frame_witness :
  ∃ array' s',
    openDoor (column 5 1 20) createEmptyWorld zeroRng = Ok (array', s') ∧
    (∀ c, cellAt array' c ≠ cellAt createEmptyWorld c →
          c ∈ column 5 1 20 ∧ cellAt array' c = Some Empty) ∧
    (∃ ps, cleared ps createEmptyWorld array' ∧
           Forall (innerCell (column 5 1 20)) ps) ∧
    (NoDup (column 5 1 20) →
     ∀ c, head (column 5 1 20) = Some c ∨ last (column 5 1 20) = Some c →
          cellAt array' c = cellAt createEmptyWorld c).
Proof.
  apply (openDoor_frame (column 5 1 20) createEmptyWorld zeroRng).
  apply column_5_1_20.
Defined.

(** ** Nodes *)

(** C5, the code at a failing input: a node whose rectangle reaches row
    199, the bottom edge of the grid, and no other edge, is built with
    [outside = False]; such a leaf is in the tree of the run on
    [demoRng]. *)
Theorem node_on_bottom_edge_not_outside :
  (∃ n, node_init 50 100 76 199 createEmptyWorld = Ok n ∧
        shape n = ((50, 76), (100, 199)) ∧ outside n = false) ∧
  match generateWorld demoRng with
  | Ok ((_, root), _) =>
      (λ leaf, (shape leaf, outside leaf)) <$> leaves root !! 10%nat
      = Some (((50, 76), (100, 199)), false)
  | _ => False
  end.
Proof.
  split.
  - eexists. split; [by vm_compute|]. split; by vm_compute.
  - vm_compute. done.
Qed.

(** ** Base placement *)

Lemma demo_addBase_returns :
  match generateWorld demoRng with
  | Ok ((g, root), s) =>
      match addBase 30 root g allQuads s with
      | Ok _ => True
      | _ => False
      end
  | _ => False
  end.
Proof. vm_compute. done. Qed.

(** C7, as amended: on a well-formed tree and the 250 by 200 grid, a base
    placed by [addBase] is the axis-aligned square given by its top-left
    corner [(x, y)] and its bottom-right corner [(x + 20, y + 20)], both
    included: 21 cells on each axis, 441 distinct cells, and
    exactly these cells are set to [Base]. *)
Theorem addBase_marks_21_by_21
    fuel root array quadrants s base array' used root' s' :
  dims array → wf root →
  addBase fuel root array quadrants s = Ok ((base, array', used, root'), s') →
  base.2 = (base.1.1 + 20, base.1.2 + 20) ∧
  (∀ c, c ∈ squareCells base ↔
        base.1.1 <= c.1 <= base.1.1 + 20 ∧ base.1.2 <= c.2 <= base.1.2 + 20) ∧
  length (squareCells base) = 441%nat ∧ NoDup (squareCells base) ∧
  (∀ c, cellAt array' c
        = if decide (c ∈ squareCells base) then Some Base else cellAt array c).
Proof.
  intros Hd Hwf E.
  destruct (addBase_spec _ _ _ _ _ _ _ _ _ _ Hd Hwf E)
    as (_ & _ & (leaf & _ & _ & _ & Hb) & [_ F]).
  destruct Hb as (Eb & _). destruct base as [[x y] b2]. cbn [fst snd] in *.
  subst b2. destruct (squareCells_square x y) as (HL & Hnd & Hc).
  done.
Qed.

Lemma addBase_marks_21_by_21_witness :
  match generateWorld demoRng with
  | Ok ((g, root), s) =>
      match addBase 30 root g allQuads s with
      | Ok ((base, g', _, _), _) =>
          base.2 = (base.1.1 + 20, base.1.2 + 20) ∧
          (∀ c, c ∈ squareCells base ↔
                base.1.1 <= c.1 <= base.1.1 + 20 ∧
                base.1.2 <= c.2 <= base.1.2 + 20) ∧
          length (squareCells base) = 441%nat ∧ NoDup (squareCells base) ∧
          (∀ c, cellAt g' c
                = if decide (c ∈ squareCells base) then Some Base
                  else cellAt g c)
      | _ => False
      end
  | _ => False
  end.
Proof.
  pose proof demo_addBase_returns as H.
  destruct (generateWorld_spec demoRng)
    as (g & root & s & E & Hwf & _ & _ & Hd & _).
  rewrite E in H |- *.
  destruct (addBase 30 root g allQuads s)
    as [[[[[base g'] used] root'] s']| |] eqn:E2; [|done..].
  exact (addBase_marks_21_by_21 _ _ _ _ _ _ _ _ _ _ Hd Hwf E2).
Defined.

(** C7, the claim as stated fails: the first base of the run on [demoRng]
    has corners 20 apart and covers 21 cells on each axis; 441 cells of
    the grid hold [Base] afterwards, not 400. *)
Lemma base_of_demo_run_has_441_cells :
  match generateWorld demoRng with
  | Ok ((g, root), s) =>
      match addBase 30 root g allQuads s with
      | Ok ((base, g', _, _), _) =>
          base = ((17, 161), (37, 181)) ∧
          len (range base.1.1 (base.2.1 + 1)) = 21 ∧
          countInGrid Base g = 0%nat ∧ countInGrid Base g' = 441%nat
      | _ => False
      end
  | _ => False
  end.
Proof. vm_compute. done. Qed.

Lemma twoQuadTree_noEligible : noEligible twoQuadTree [(1, 0); (1, 1)].
Proof.
  intros q leaf Hq Hl.
  repeat (apply elem_of_cons in Hq as [-> | Hq]);
    try (by apply not_elem_of_nil in Hq);
    vm_compute in Hl;
    repeat (apply elem_of_cons in Hl as [-> | Hl]);
    try (by apply not_elem_of_nil in Hl); done.
Qed.

Lemma rightQuads_valid : ∀ q, q ∈ [(1, 0); (1, 1)] → q ∈ allQuads.
Proof.
  intros q Hq. unfold allQuads.
  repeat (apply elem_of_cons in Hq as [-> | Hq]);
    try (by apply not_elem_of_nil in Hq);
    apply (bool_decide_unpack _); by vm_compute.
Qed.

Lemma addBase_Spin fuel root array quadrants s :
  quadrants ≠ [] → (∀ q, q ∈ quadrants → q ∈ allQuads) →
  noEligible root quadrants →
  addBase fuel root array quadrants s = Spin.
Proof.
  intros Hne Hval Hno. unfold addBase, bind.
  by rewrite (addBaseLoop_Spin root quadrants Hne Hval Hno).
Qed.

(** C9, as amended: [addBase] has no error for a missing eligible
    location and no exhaustive search.  When no leaf that can be reached through
    the quadrants on offer is eligible, its retry loop is still running
    after any number of turns, for every random source: the call never
    returns and never raises. *)
Theorem addBase_retries_forever
    (root : node) (quadrants : list (Z * Z)) (fuel : nat) (array : grid)
    (s : rng) :
  quadrants ≠ [] → (∀ q, q ∈ quadrants → q ∈ allQuads) →
  noEligible root quadrants →
  addBase fuel root array quadrants s = Spin.
Proof. apply addBase_Spin. Qed.

Lemma addBase_retries_forever_witness :
  addBase 1000 twoQuadTree createEmptyWorld [(1, 0); (1, 1)] demoRng = Spin.
Proof.
  apply (addBase_retries_forever twoQuadTree [(1, 0); (1, 1)] 1000
           createEmptyWorld demoRng).
  - done.
  - exact rightQuads_valid.
  - exact twoQuadTree_noEligible.
Defined.

(** C9, the claim as stated fails: on a tree whose only eligible leaves
    are in two quadrants, the third call of [addBase], with the other two
    quadrants left, neither returns nor raises, whatever the fuel, the
    array and the random source; and [createBases] on that tree is still
    running after 200 turns of its third call. *)
Lemma third_base_call_never_ends :
  ¬ (∃ fuel array s, addBase fuel twoQuadTree array [(1, 0); (1, 1)] s ≠ Spin) ∧
  createBases 200 createEmptyWorld twoQuadTree demoRng = Spin.
Proof.
  split.
  - intros (fuel & array & s & H). apply H.
    apply addBase_Spin;
      [done | exact rightQuads_valid | exact twoQuadTree_noEligible].
  - by vm_compute.
Qed.

Lemma allQuads_NoDup : NoDup allQuads.
Proof. apply (bool_decide_unpack _). by vm_compute. Qed.

(** The base placed in a leaf of the quadrant [q] of a tree that differs
    from [root] in base marks only lies strictly inside the node that
    [q] reaches in [root]. *)
Lemma base_in_quadrant root r q leaf base :
  wf root → unmark r = unmark root →
  leaf ∈ quadLeaves r q → baseIn leaf base →
  ∃ n, quadNode root q = Some n ∧ baseInside n base.
Proof.
  intros Hwf Hu Hl Hb.
  pose proof (wf_unmark_eq _ _ Hu Hwf) as Hwr.
  destruct (quadLeaves_spec _ _ _ Hl) as (n' & Hq & Hs & _).
  destruct (quadNode_unmark_eq _ _ _ _ Hu Hq) as (n & Hqn & Hun).
  exists n. split; [done|]. intros c Hc.
  apply (unmark_eq_inside n' n); [done|].
  eapply subnode_inside; [exact Hs| |exact (baseIn_inside leaf base Hb c Hc)].
  eapply wf_subnode; [|exact Hwr]. by eapply quadNode_subnode.
Qed.


Lemma demo_createBases_returns :
  match generateWorld demoRng with
  | Ok ((g, root), s) =>
      match createBases 30 g root s with
      | Ok _ => True
      | _ => False
      end
  | _ => False
  end.
Proof. vm_compute. done. Qed.


(** ** The outer ring *)

Lemma createBases_borderOk fuel array root s array' bases root' s' :
  dims array → wf root → borderOk array →
  createBases fuel array root s = Ok ((array', bases, root'), s') →
  borderOk array'.
Proof.
  intros Hd Hwf Hb Ec.
  destruct (createBases_spec _ _ _ _ _ _ _ _ Hd Hwf Ec)
    as (b1 & b2 & b3 & q1 & q2 & q3 & l1 & l2 & l3 & r1 & r2 & a1 & a2 &
        _ & _ & _ & _ & _ & _ & _ & _ & _ & _ &
        Hr1 & Hr2 & Hr3 & Hb1 & Hb2 & Hb3 & F1 & F2 & F3).
  eapply (baseInside_borderOk l3 b3); [done|by apply baseIn_inside|exact F3|].
  eapply (baseInside_borderOk l2 b2); [done|by apply baseIn_inside|exact F2|].
  eapply (baseInside_borderOk l1 b1); [done|by apply baseIn_inside|exact F1|].
  done.
Qed.

(** C8: the outer ring of the grid holds [Wall] at every stage.  It does
    in the new grid; every [splitNode] and every round of [splitDepth]
    keeps it so, whatever they are given; so do [addDoors] and every
    [addBase] on a well-formed tree; and in every run the grid after the
    four split rounds, the grid after the doors and the grid after the
    bases all have their outer ring [Wall]. *)
Theorem border_always_wall :
  borderOk createEmptyWorld ∧
  (∀ n array s n' array' ends s',
      borderOk array →
      splitNode n array s = Ok ((n', array', ends), s') → borderOk array') ∧
  (∀ n array s n' array' ends s',
      borderOk array →
      splitDepth n array s = Ok ((n', array', ends), s') → borderOk array') ∧
  (∀ root array s,
      wf root → dims array → borderOk array →
      ∃ array' s', addDoors root array s = Ok (array', s') ∧ borderOk array') ∧
  (∀ fuel root array quadrants s base array' used root' s',
      wf root → dims array → borderOk array →
      addBase fuel root array quadrants s = Ok ((base, array', used, root'), s') →
      borderOk array') ∧
  (∀ s, ∃ root array s1 array' s2,
      splitRounds s = Ok ((root, array), s1) ∧ borderOk array ∧
      addDoors root array s1 = Ok (array', s2) ∧ borderOk array' ∧
      generateWorld s = Ok ((array', root), s2) ∧
      ∀ fuel array'' bases root' s3,
        createBases fuel array' root s2 = Ok ((array'', bases, root'), s3) →
        borderOk array'').
Proof.
  split; [exact borderOk_createEmptyWorld|].
  split.
  { intros n array s n' array' ends s' Hb E.
    eapply walled_borderOk; [|exact Hb]. by eapply splitNode_walled. }
  split.
  { intros n array s n' array' ends s' Hb E.
    eapply walled_borderOk; [|exact Hb]. by eapply splitDepth_walled. }
  split.
  { intros root array s Hwf Hd Hb.
    destruct (addDoors_wf root array s Hwf Hd) as (a' & s' & E & C & _).
    exists a', s'. split; [done|].
    eapply carved_borderOk; [by apply wf_rectOk|exact C|exact Hb]. }
  split.
  { intros fuel root array quadrants s base array' used root' s' Hwf Hd Hb E.
    destruct (addBase_spec _ _ _ _ _ _ _ _ _ _ Hd Hwf E)
      as (_ & _ & (leaf & _ & _ & Hr & Hbi) & F).
    eapply (baseInside_borderOk leaf base);
      [done|by apply baseIn_inside|exact F|exact Hb]. }
  intros s.
  destruct (splitRounds_spec s) as (root & a & s1 & E1 & Hwf & _ & _ & Hd & Hw).
  destruct (addDoors_wf root a s1 Hwf Hd) as (a' & s2 & E2 & C & Hd').
  assert (borderOk a) as Hba.
  { eapply walled_borderOk; [exact Hw|]. apply borderOk_createEmptyWorld. }
  assert (borderOk a') as Hba'.
  { eapply carved_borderOk; [by apply wf_rectOk|exact C|exact Hba]. }
  exists root, a, s1, a', s2.
  split; [done|]. split; [done|]. split; [done|]. split; [done|].
  split.
  { rewrite generateWorld_rounds. unfold bind at 1. rewrite E1.
    unfold bind at 1. by rewrite E2. }
  intros fuel a'' bases root' s3 Ec.
  by eapply createBases_borderOk.
Qed.

(** ** Wall blocks *)

(** The removal loop looks at every other cell once it has removed one:
    of three cells of which the first two are used, the second stays. *)
Example removeUsed_skips_the_next :
  removeUsed [(1, 1); (2, 1); (3, 1)] [(1, 1); (2, 1)] = [(2, 1); (3, 1)].
Proof. reflexivity. Qed.

Lemma demo_mainGenerate_returns :
  match mainGenerate 30 demoRng with
  | Ok ((_, _, _, walls), _) => length walls = 34%nat
  | _ => False
  end.
Proof. vm_compute. done. Qed.

(** C4: in every generation run that reaches the wall blocks, no grid
    cell lies within the span of two different blocks of the list.  (The
    removal loop of [createAllWallBlocks] skips the cell after each one it
    removes; on the trees of a run the only used cells on a wall are its
    two ends, and the loop removes both.) *)
Theorem wall_blocks_disjoint
    (fuel : nat) (s : rng) world root bases walls s' :
  mainGenerate fuel s = Ok ((world, root, bases, walls), s') →
  blocksApart walls.
Proof.
  intros E. unfold mainGenerate in E.
  apply bind_Ok in E as ([world1 root1] & s1 & Eg & E).
  apply bind_Ok in E as ([[world2 bases2] root2] & s2 & Ec & E).
  apply bind_Ok in E as (root3 & s3 & Ep & E).
  apply lift_Ok in Ep as [Ep ->].
  apply bind_Ok in E as (used & s4 & Ee & E).
  apply lift_Ok in Ee as [Ee ->].
  destruct (createAllWallBlocks root3 used) as [walls' used'] eqn:Ew.
  injection E as -> -> -> -> ->.
  destruct (generateWorld_spec s)
    as (a & r & s0 & Eg' & Hwf & _ & Hsh & Hd & _).
  rewrite Eg in Eg'. injection Eg' as <- <- <-.
  destruct (createBases_spec _ _ _ _ _ _ _ _ Hd Hwf Ec)
    as (b1 & b2 & b3 & q1 & q2 & q3 & l1 & l2 & l3 & r1 & r2 & a1 & a2 &
        _ & _ & _ & _ & _ & _ & Hu & _ & _ & _ & _ & _ & _ & _ & _ & _ &
        F1 & F2 & F3).
  assert (dims world) as Hd2.
  { eapply filled_dims; [exact F3|]. eapply filled_dims; [exact F2|].
    by eapply filled_dims. }
  pose proof (wf_unmark_eq _ _ Hu Hwf) as Hwf2.
  destruct (generateWallParts_spec world root2 root Ep) as (Hsh3 & Hwf3 & Hpo).
  specialize (Hwf3 Hwf2).
  assert (shape root = ((0, 0), (249, 199))) as Hshape.
  { rewrite Hsh3, (unmark_eq_shape _ _ Hu). done. }
  destruct (createAllWallBlocks_spec root Hwf3 Hpo used)
    as (blocks & added & Ew' & _ & _ & Hap).
  { intros c Hc. apply (generateEdges_spec world used Hd2 Ee) in Hc.
    unfold inside, xMin, xMax, yMin, yMax. rewrite Hshape. simpl. lia. }
  rewrite Ew in Ew'. injection Ew' as -> _.
  by apply allApart_blocksApart.
Qed.

Lemma wall_blocks_disjoint_witness :
  match mainGenerate 30 demoRng with
  | Ok ((_, _, _, walls), _) => blocksApart walls
  | _ => False
  end.
Proof.
  pose proof demo_mainGenerate_returns as H.
  destruct (mainGenerate 30 demoRng)
    as [[[[[world root] bases] walls] s']| |] eqn:E; [|done..].
  exact (wall_blocks_disjoint 30 demoRng _ _ _ _ _ E).
Defined.

(** * Rooms, joints and doors of a generated world *)

(** ** Exact values of [int(n * 0.35)] at the sizes where rooms are cut *)

Lemma int35_steps (n : Z) :
  0 <= n <= 249 →
  (6 <= n → 1 <= int35 n) ∧ (46 <= n → 16 <= int35 n) ∧
  (58 <= n → 20 <= int35 n) ∧ (69 <= n → 24 <= int35 n) ∧
  (87 <= n → 30 <= int35 n) ∧ (133 <= n → 46 <= int35 n) ∧
  (199 <= n → 69 <= int35 n) ∧ (249 <= n → 87 <= int35 n) ∧
  2 * int35 n <= n.
Proof.
  intros Hn.
  assert (H : forallb (fun n =>
      implb (6 <=? n) (1 <=? int35 n) && implb (46 <=? n) (16 <=? int35 n) &&
      implb (58 <=? n) (20 <=? int35 n) && implb (69 <=? n) (24 <=? int35 n) &&
      implb (87 <=? n) (30 <=? int35 n) && implb (133 <=? n) (46 <=? int35 n) &&
      implb (199 <=? n) (69 <=? int35 n) && implb (249 <=? n) (87 <=? int35 n) &&
      (2 * int35 n <=? n)) (seqZ 0 250) = true) by (by vm_compute).
  rewrite forallb_forall in H. specialize (H n).
  rewrite <- list_elem_of_In, elem_of_seqZ in H.
  specialize (H ltac:(lia)).
  repeat (apply andb_prop in H as [H ?]).
  repeat match goal with
         | H : implb (?a <=? ?b) _ = true |- _ =>
             destruct (Z.leb_spec a b); simpl in H
         end;
  repeat match goal with
         | H : (_ <=? _) = true |- _ => apply Z.leb_le in H
         end; repeat split; intros; try lia.
Qed.

Lemma int35_tops (n : Z) :
  0 <= n <= 249 →
  n - int35 n <= 162 ∧ (n <= 199 → n - int35 n <= 130) ∧
  (n <= 162 → n - int35 n <= 106) ∧ (n <= 130 → n - int35 n <= 85).
Proof.
  intros Hn.
  assert (H : forallb (fun n =>
      (n - int35 n <=? 162) && implb (n <=? 199) (n - int35 n <=? 130) &&
      implb (n <=? 162) (n - int35 n <=? 106) &&
      implb (n <=? 130) (n - int35 n <=? 85)) (seqZ 0 250) = true)
    by (by vm_compute).
  rewrite forallb_forall in H. specialize (H n).
  rewrite <- list_elem_of_In, elem_of_seqZ in H.
  specialize (H ltac:(lia)).
  repeat (apply andb_prop in H as [H ?]).
  repeat match goal with
         | H : implb (?a <=? ?b) _ = true |- _ =>
             destruct (Z.leb_spec a b); simpl in H
         end;
  repeat match goal with
         | H : (_ <=? _) = true |- _ => apply Z.leb_le in H
         end; repeat split; intros; try lia.
Qed.

(** Keeps of a bound on [int35] only what the sizes at hand give. *)
Ltac use_steps :=
  repeat match goal with
         | H : _ <= _ → _ |- _ =>
             first [ specialize (H ltac:(lia)) | clear H ]
         end.

(** One round of splits takes the room sizes of round [k] to those of
    round [k + 1]. *)
Lemma roomSizes_step (k : nat) :
  (k < 4)%nat → sizeStep (roomSizes k) (roomSizes (S k)).
Proof.
  intros Hk w h HP.
  assert (6 <= w <= 249 ∧ 6 <= h <= 199) as [Hw Hh].
  { destruct k as [|[|[|[|k]]]]; cbn [roomSizes] in HP; lia. }
  split; [done|]. split; [done|].
  pose proof (int35_steps w ltac:(lia))
    as (W1 & W2 & W3 & W4 & W5 & W6 & W7 & W8 & W9).
  pose proof (int35_steps h ltac:(lia))
    as (H1 & H2 & H3 & H4 & H5 & H6 & H7 & H8 & H9).
  pose proof (int35_tops w ltac:(lia)) as (W10 & W11 & W12 & W13).
  pose proof (int35_tops h ltac:(lia)) as (H10 & H11 & H12 & H13).
  generalize dependent (int35 w). generalize dependent (int35 h).
  intros ih H1 H2 H3 H4 H5 H6 H7 H8 H9 H10 H11 H12 H13
         iw W1 W2 W3 W4 W5 W6 W7 W8 W9 W10 W11 W12 W13.
  destruct k as [|[|[|[|k]]]]; [| | | |lia];
    cbn [roomSizes] in HP; cbn [roomSizes];
    destruct HP as [[? ?]|[? ?]] || destruct HP as [? ?];
    split; intros Hd r Hr; use_steps; lia.
Qed.

(** ** One split, in full *)

Lemma node_init_unusable (x0 x1 y0 y1 : Z) (array : grid) (n : node) :
  node_init x0 x1 y0 y1 array = Ok n → unusableWall n = [].
Proof.
  unfold node_init.
  destruct ((x0 =? 0) || (y0 =? 0)); cbn [res_bind].
  - by intros [= <-].
  - destruct (py_nth array 0); cbn [res_bind]; [|done..]. by intros [= <-].
Qed.

Lemma splitRow_fresh (n : node) (r : Z) (array : grid) n' a e c0 c1 :
  splitRow n r array = Ok (n', a, e) →
  left n' = Some c0 → right n' = Some c1 →
  unusableWall c0 = [] ∧ unusableWall c1 = [].
Proof.
  unfold splitRow.
  destruct (node_init (xMin n) (xMax n) (yMin n) r array) as [l| |] eqn:E0;
    cbn [res_bind]; [|done..].
  destruct (node_init (xMin n) (xMax n) r (yMax n) array) as [rt| |] eqn:E1;
    cbn [res_bind]; [|done..].
  destruct (setCells Wall _ array); cbn [res_bind]; [|done..].
  intros [= <- _ _]. simpl. intros [= <-] [= <-].
  split; by eapply node_init_unusable.
Qed.

Lemma splitCol_fresh (n : node) (r : Z) (array : grid) n' a e c0 c1 :
  splitCol n r array = Ok (n', a, e) →
  left n' = Some c0 → right n' = Some c1 →
  unusableWall c0 = [] ∧ unusableWall c1 = [].
Proof.
  unfold splitCol.
  destruct (node_init (xMin n) r (yMin n) (yMax n) array) as [l| |] eqn:E0;
    cbn [res_bind]; [|done..].
  destruct (node_init r (xMax n) (yMin n) (yMax n) array) as [rt| |] eqn:E1;
    cbn [res_bind]; [|done..].
  destruct (setCells Wall _ array); cbn [res_bind]; [|done..].
  intros [= <- _ _]. simpl. intros [= <-] [= <-].
  split; by eapply node_init_unusable.
Qed.

(** [splitNode] on a room at least six cells wide and high: what it
    returns, which way it cuts and where. *)
Lemma splitNode_full (n : node) (array : grid) (s : rng) :
  dims array → rectOk n → 6 <= sizeX n → 6 <= sizeY n →
  ∃ r c0 c1 array' s' w,
    splitNode n array s =
      Ok (Node (shape n) (Some w) (unusableWall n) (wallParts n)
               (basePresent n) (basePossible n) (outside n)
               (Some c0) (Some c1),
          array', wallEnds w, s') ∧
    wf c0 ∧ wf c1 ∧ fresh c0 ∧ fresh c1 ∧
    filled Wall w array array' ∧
    ((2 * sizeX n <= 3 * sizeY n ∧
      int35 (sizeY n) + yMin n <= r <= yMax n - int35 (sizeY n) ∧
      yMin n < r < yMax n ∧ w = rowWall n r ∧
      shape c0 = ((xMin n, yMin n), (xMax n, r)) ∧
      shape c1 = ((xMin n, r), (xMax n, yMax n))) ∨
     (2 * sizeY n <= 3 * sizeX n ∧
      int35 (sizeX n) + xMin n <= r <= xMax n - int35 (sizeX n) ∧
      xMin n < r < xMax n ∧ w = colWall n r ∧
      shape c0 = ((xMin n, yMin n), (r, yMax n)) ∧
      shape c1 = ((r, yMin n), (xMax n, yMax n)))).
Proof.
  unfold sizeX, sizeY. intros Hd Hrect Hsx Hsy.
  pose proof Hrect as (Hx & Hx1 & Hy & Hy1 & Hbp).
  destruct (int35_steps (xMax n - xMin n)) as (Bx1 & _ & _ & _ & _ & _ & _ & _ & Bx2);
    [lia|].
  destruct (int35_steps (yMax n - yMin n)) as (By1 & _ & _ & _ & _ & _ & _ & _ & By2);
    [lia|].
  unfold splitNode.
  destruct (randint_spec 0 1 s) as (d0 & Hd0 & Ed0); [lia|].
  unfold bind at 1. rewrite Ed0.
  set (d1 := if 3 * (yMax n - yMin n) <? 2 * (xMax n - xMin n) then 1 else d0).
  set (d := if 3 * (xMax n - xMin n) <? 2 * (yMax n - yMin n) then 0 else d1).
  assert ((d = 0 ∧ 2 * (xMax n - xMin n) <= 3 * (yMax n - yMin n)) ∨
          (d = 1 ∧ 2 * (yMax n - yMin n) <= 3 * (xMax n - xMin n)))
    as [[Ed Hdir]|[Ed Hdir]].
  { unfold d, d1. repeat case_match; lia. }
  - rewrite Ed. change (0 =? 0) with true. cbn [fst snd].
    destruct (randint_spec (int35 (yMax n - yMin n) + yMin n)
                (yMax n - int35 (yMax n - yMin n)) (rng_tail s))
      as (r & Hr & Er); [lia|].
    unfold bind. rewrite Er.
    destruct (splitRow_spec n r array Hd Hrect)
      as (n' & c0 & c1 & a' & E & En & S0 & S1 & W0 & W1 & G0 & G1 & Wn & F);
      [lia|lia|].
    unfold lift. rewrite E.
    destruct (splitRow_fresh n r array n' a' _ c0 c1 E) as [U0 U1];
      [by rewrite En..|].
    exists r, c0, c1, a', (rng_tail (rng_tail s)), (rowWall n r).
    split; [by rewrite En|]. split; [done|]. split; [done|].
    destruct G0 as (? & ? & ? & _), G1 as (? & ? & ? & _).
    split; [done|]. split; [done|]. split; [done|].
    left. repeat split; try done; lia.
  - rewrite Ed. change (1 =? 0) with false. cbn [fst snd].
    destruct (randint_spec (int35 (xMax n - xMin n) + xMin n)
                (xMax n - int35 (xMax n - xMin n)) (rng_tail s))
      as (r & Hr & Er); [lia|].
    unfold bind. rewrite Er.
    destruct (splitCol_spec n r array Hd Hrect)
      as (n' & c0 & c1 & a' & E & En & S0 & S1 & W0 & W1 & G0 & G1 & Wn & F);
      [lia|lia|].
    unfold lift. rewrite E.
    destruct (splitCol_fresh n r array n' a' _ c0 c1 E) as [U0 U1];
      [by rewrite En..|].
    exists r, c0, c1, a', (rng_tail (rng_tail s)), (colWall n r).
    split; [by rewrite En|]. split; [done|]. split; [done|].
    destruct G0 as (? & ? & ? & _), G1 as (? & ? & ? & _).
    split; [done|]. split; [done|]. split; [done|].
    right. repeat split; try done; lia.
Qed.

(** ** One round of splits, in full *)

Lemma filled_app v ps qs a1 a2 a3 :
  filled v ps a1 a2 → filled v qs a2 a3 → filled v (ps ++ qs) a1 a3.
Proof.
  intros [L1 H1] [L2 H2]. split; [congruence|]. intros c.
  rewrite H2, H1. repeat case_decide; try done;
    rewrite elem_of_app in *; tauto.
Qed.

Lemma filled_nil v a : filled v [] a a.
Proof.
  split; [done|]. intros c. case_decide as H; [|done].
  by apply elem_of_nil in H.
Qed.

Lemma fresh_wallEndsOf c : fresh c → wallEndsOf c = [].
Proof. destruct c. unfold fresh. simpl. by intros (-> & -> & -> & _). Qed.

Lemma fresh_wallCells c : fresh c → wallCells c = [].
Proof. destruct c. unfold fresh. simpl. by intros (-> & -> & -> & _). Qed.

Lemma fresh_leaves c : fresh c → leaves c = [c].
Proof. destruct c. unfold fresh. simpl. by intros (_ & -> & -> & _). Qed.

Lemma fresh_jointsOk c : fresh c → jointsOk c.
Proof.
  destruct c. unfold fresh, jointsOk, jointsBelow. simpl.
  by intros (_ & -> & -> & ->).
Qed.

Lemma jointsOk_here n :
  jointsOk n → ∀ c, c ∈ unusableWall n ↔ c ∈ jointsBelow n.
Proof. destruct n. by intros [H _]. Qed.

(** One round of [splitDepth] on a complete tree of depth [k] whose rooms
    have sizes [P]: it returns; the rooms of the new tree have sizes [P'];
    every node lists the joints below it; the end points handed up are
    those of the new walls; and the array has [Wall] on the new walls and
    is unchanged elsewhere. *)
Lemma splitDepth_full (P P' : Z → Z → Prop) (k : nat) :
  sizeStep P P' →
  ∀ n array s,
    dims array → wf n → grown k 0 n → jointsOk n → roomsSized P n →
    ∃ n' array' ends s' new,
      splitDepth n array s = Ok (n', array', ends, s') ∧
      wf n' ∧ grown (S k) 0 n' ∧ shape n' = shape n ∧
      basePossible n' = basePossible n ∧
      jointsOk n' ∧ roomsSized P' n' ∧
      (∀ c, c ∈ wallEndsOf n' ↔ c ∈ wallEndsOf n ∨ c ∈ ends) ∧
      (∀ c, c ∈ wallCells n' ↔ c ∈ wallCells n ∨ c ∈ new) ∧
      filled Wall new array array'.
Proof.
  intros Hstep. induction k as [|k IH]; intros n array s Hd Hwf Hg Hj Hs.
  - destruct Hg as (Hl & Hr & Hw & _ & _).
    assert (leaves n = [n]) as El.
    { destruct n; simpl in *. by subst. }
    unfold roomsSized in Hs. rewrite El in Hs.
    apply Forall_cons_1 in Hs as [Hs _].
    destruct (Hstep _ _ Hs) as (Hsx & Hsy & Hrow & Hcol).
    destruct (splitNode_full n array s Hd (wf_rectOk _ Hwf))
      as (r & c0 & c1 & a' & s' & w & E & W0 & W1 & F0 & F1 & Fw & Hcase);
      [lia..|].
    assert (splitDepth n array s = splitNode n array s) as Esd.
    { destruct n; simpl in *. by subst. }
    set (n' := Node (shape n) (Some w) (unusableWall n) (wallParts n)
                    (basePresent n) (basePossible n) (outside n)
                    (Some c0) (Some c1)) in *.
    assert (rectOk n') as Hrect'.
    { apply (rectOk_shape n n'); [done|done|by apply wf_rectOk]. }
    exists n', a', (wallEnds w), s', w.
    split; [by rewrite Esd|].
    assert (wf n' ∧ roomsSized P' n') as [Hwf' Hs'].
    { subst n'. unfold roomsSized. cbn [leaves].
      rewrite (fresh_leaves _ F0), (fresh_leaves _ F1). cbn [app].
      unfold sizeX, sizeY, xMin, xMax, yMin, yMax in *.
      destruct Hcase as [(Hdir & Hr1 & Hr2 & -> & S0 & S1)
                        |(Hdir & Hr1 & Hr2 & -> & S0 & S1)].
      - split.
        + split; [exact Hrect'|].
          unfold xMin, xMax, yMin, yMax. cbn [shape].
          split; [lia|]. split; [lia|]. split; [|done].
          left. exists r. unfold xMin, xMax, yMin, yMax. cbn [shape].
          done.
        + destruct (Hrow Hdir (r - (shape n).1.2)) as [Q0 Q1]; [lia|].
          repeat constructor; cbv beta;
            unfold sizeX, sizeY, xMin, xMax, yMin, yMax;
            rewrite ?S0, ?S1; cbn [fst snd]; [done|].
          by replace ((shape n).2.2 - r)
            with ((shape n).2.2 - (shape n).1.2 - (r - (shape n).1.2)) by lia.
      - split.
        + split; [exact Hrect'|].
          unfold xMin, xMax, yMin, yMax. cbn [shape].
          split; [lia|]. split; [lia|]. split; [|done].
          right. exists r. unfold xMin, xMax, yMin, yMax. cbn [shape].
          done.
        + destruct (Hcol Hdir (r - (shape n).1.1)) as [Q0 Q1]; [lia|].
          repeat constructor; cbv beta;
            unfold sizeX, sizeY, xMin, xMax, yMin, yMax;
            rewrite ?S0, ?S1; cbn [fst snd]; [done|].
          by replace ((shape n).2.1 - r)
            with ((shape n).2.1 - (shape n).1.1 - (r - (shape n).1.1)) by lia. }
    split; [done|].
    split.
    { subst n'. exists c0, c1. split; [done|]. split; [done|].
      destruct F0 as (? & ? & ? & _), F1 as (? & ? & ? & _).
      pose proof (wf_rectOk _ W0) as R0. pose proof (wf_rectOk _ W1) as R1.
      unfold rectOk in R0, R1.
      cbn [grown]. repeat split; try done; lia. }
    split; [done|]. split; [done|].
    split.
    { subst n'. split.
      - intros c. rewrite (jointsOk_here _ Hj).
        unfold jointsBelow. rewrite Hl, Hr. cbn [left right].
        by rewrite (fresh_wallEndsOf _ F0), (fresh_wallEndsOf _ F1).
      - split; by apply fresh_jointsOk. }
    split; [done|].
    assert (wallEndsOf n = [] ∧ wallCells n = []) as [En Ec].
    { destruct n; simpl in *. by subst. }
    split.
    { subst n'. intros c. cbn [wallEndsOf].
      rewrite (fresh_wallEndsOf _ F0), (fresh_wallEndsOf _ F1), En.
      rewrite !app_nil_r. rewrite elem_of_nil. tauto. }
    split; [|done].
    subst n'. intros c. cbn [wallCells].
    rewrite (fresh_wallCells _ F0), (fresh_wallCells _ F1), Ec.
    rewrite !app_nil_r. rewrite elem_of_nil. tauto.
  - destruct Hg as (c0 & c1 & Hl & Hr & G0 & G1).
    destruct n as [sh w0 un wp bp bpos out l r]. simpl in Hl, Hr. subst l r.
    destruct Hwf as [Hrect Hwf].
    destruct w0 as [w0|]; [|done].
    destruct Hwf as (Hx2 & Hy2 & Hsplit & W0 & W1).
    destruct Hj as (Hjn & J0 & J1).
    unfold roomsSized in Hs. cbn [leaves] in Hs.
    apply Forall_app in Hs as [Hs0 Hs1].
    destruct (IH c0 array s Hd W0 G0 J0 Hs0)
      as (c0' & a1 & e0 & s1 & new0 & E0 & W0' & G0' & S0 & B0 & J0' & Z0
          & En0 & Ec0 & F0).
    destruct (IH c1 a1 s1 (filled_dims _ _ _ _ F0 Hd) W1 G1 J1 Hs1)
      as (c1' & a2 & e1 & s2 & new1 & E1 & W1' & G1' & S1 & B1 & J1' & Z1
          & En1 & Ec1 & F1).
    eexists _, a2, _, s2, (new0 ++ new1). split.
    { cbn [splitDepth]. unfold bind at 1. rewrite E0.
      unfold bind at 1. rewrite E1. done. }
    split.
    { split; [exact Hrect|]. split; [exact Hx2|]. split; [exact Hy2|].
      split; [|done]. by eapply splitAt_shape. }
    split; [by exists c0', c1'|]. split; [done|]. split; [done|].
    split.
    { split; [|done]. intros c. unfold jointsBelow in *.
      cbn [unusableWall left right] in *.
      rewrite !elem_of_app, Hjn, !elem_of_app, En0, En1. tauto. }
    split.
    { unfold roomsSized. cbn [leaves]. apply Forall_app. done. }
    split.
    { intros c. cbn [wallEndsOf]. rewrite !elem_of_app, En0, En1. tauto. }
    split; [|by eapply filled_app].
    intros c. cbn [wallCells]. rewrite !elem_of_app, Ec0, Ec1. tauto.
Qed.

(** ** The four rounds *)

(** The four split rounds always return: a well-formed complete tree of
    depth four over the whole grid, every node listing the joints below
    it, rooms of the sizes of round four, and a grid that holds [Wall] on
    the walls of the tree and is as [createEmptyWorld] made it elsewhere. *)
Lemma splitRounds_full (s : rng) :
  ∃ root array s',
    splitRounds s = Ok ((root, array), s') ∧
    wf root ∧ grown 4 0 root ∧ shape root = ((0, 0), (249, 199)) ∧
    jointsOk root ∧ roomsSized (roomSizes 4) root ∧
    dims array ∧ gridOf root array.
Proof.
  unfold splitRounds.
  pose proof dims_createEmptyWorld as Hd.
  destruct (dims_row0 _ Hd) as (row0 & E0 & L0).
  unfold bind at 1. unfold lift at 1. rewrite E0, L0, (dims_len _ Hd).
  destruct (node_init_spec 0 (250 - 1) 0 (200 - 1) createEmptyWorld Hd)
    as (root & Er & Sr & Wr & Lr & Rr & Pr & _ & Br & _).
  unfold bind at 1. unfold lift at 1. rewrite Er.
  pose proof (node_init_unusable _ _ _ _ _ _ Er) as Ur.
  assert (fresh root) as Fr.
  { split; [exact Wr|]. split; [exact Lr|]. split; [exact Rr|exact Ur]. }
  assert (wf root) as Hwf.
  { apply leaf_wf; [done..|]. unfold rectOk, xMin, xMax, yMin, yMax.
    rewrite Sr. simpl. repeat split; try lia; apply Br in H; lia. }
  assert (grown 0 0 root) as Hg.
  { cbn [grown]. unfold xMin, xMax, yMin, yMax. rewrite Sr. simpl.
    repeat split; try done; lia. }
  assert (roomsSized (roomSizes 0) root) as Hs.
  { unfold roomsSized. rewrite (fresh_leaves _ Fr).
    repeat constructor; cbv beta;
      unfold sizeX, sizeY, xMin, xMax, yMin, yMax; rewrite Sr; done. }
  replace (range 0 4) with [0; 1; 2; 3] by done. cbn [forM].
  destruct (splitDepth_full _ _ 0 (roomSizes_step 0 ltac:(lia))
              root createEmptyWorld s Hd Hwf Hg (fresh_jointsOk _ Fr) Hs)
    as (n1 & a1 & e1 & s1 & new1 & E1 & W1 & G1 & S1 & _ & J1 & Z1 & _ & C1 & F1).
  unfold bind at 1. unfold bind at 1. rewrite E1. unfold ret at 1.
  pose proof (filled_dims _ _ _ _ F1 Hd) as Hd1.
  destruct (splitDepth_full _ _ 1 (roomSizes_step 1 ltac:(lia))
              n1 a1 s1 Hd1 W1 G1 J1 Z1)
    as (n2 & a2 & e2 & s2 & new2 & E2 & W2 & G2 & S2 & _ & J2 & Z2 & _ & C2 & F2).
  unfold bind at 1. unfold bind at 1. rewrite E2. unfold ret at 1.
  pose proof (filled_dims _ _ _ _ F2 Hd1) as Hd2.
  destruct (splitDepth_full _ _ 2 (roomSizes_step 2 ltac:(lia))
              n2 a2 s2 Hd2 W2 G2 J2 Z2)
    as (n3 & a3 & e3 & s3 & new3 & E3 & W3 & G3 & S3 & _ & J3 & Z3 & _ & C3 & F3).
  unfold bind at 1. unfold bind at 1. rewrite E3. unfold ret at 1.
  pose proof (filled_dims _ _ _ _ F3 Hd2) as Hd3.
  destruct (splitDepth_full _ _ 3 (roomSizes_step 3 ltac:(lia))
              n3 a3 s3 Hd3 W3 G3 J3 Z3)
    as (n4 & a4 & e4 & s4 & new4 & E4 & W4 & G4 & S4 & _ & J4 & Z4 & _ & C4 & F4).
  unfold bind at 1. unfold bind at 1. rewrite E4. unfold ret.
  exists n4, a4, s4. split; [done|]. split; [done|]. split; [done|].
  split; [by rewrite S4, S3, S2, S1, Sr|]. split; [done|]. split; [done|].
  split; [by eapply filled_dims|].
  pose proof (filled_app _ _ _ _ _ _ (filled_app _ _ _ _ _ _
                (filled_app _ _ _ _ _ _ F1 F2) F3) F4) as [_ F].
  intros c. rewrite (F c).
  assert (c ∈ ((new1 ++ new2) ++ new3) ++ new4 ↔ c ∈ wallCells n4) as Hc.
  { rewrite C4, C3, C2, C1, (fresh_wallCells _ Fr), !elem_of_app, elem_of_nil.
    tauto. }
  repeat case_decide; tauto.
Qed.

(** ** The usable parts of a wall *)

Lemma wallPartsLoop_concat (unusable : list coord) :
  ∀ rest acc cur,
    concat (wallPartsLoop rest unusable acc cur)
    = concat acc ++ cur ++ filter (λ p, p ∉ unusable) rest.
Proof.
  induction rest as [|p rest IH]; intros acc cur; simpl.
  - case_decide as Hc.
    + subst. by rewrite app_nil_r.
    + rewrite concat_app. simpl. by rewrite !app_nil_r.
  - destruct (decide (p ∈ unusable)) as [Hp|Hp].
    + rewrite filter_cons_False by (intros H; by apply H).
      destruct (decide (cur = [])) as [->|Hcur]; rewrite IH; [done|].
      rewrite concat_app. simpl. by rewrite !app_nil_r, <- app_assoc.
    + rewrite filter_cons_True by done. rewrite IH.
      by rewrite <- !app_assoc.
Qed.

Lemma wallPartsLoop_acc (unusable : list coord) :
  ∀ rest acc cur,
    wallPartsLoop rest unusable acc cur
    = acc ++ wallPartsLoop rest unusable [] cur.
Proof.
  induction rest as [|p rest IH]; intros acc cur; simpl.
  - case_decide; [by rewrite app_nil_r | done].
  - destruct (decide (p ∈ unusable)); [|apply IH].
    destruct (decide (cur = [])); [apply IH|].
    rewrite IH. rewrite (IH ([] ++ [cur])). by rewrite <- app_assoc.
Qed.

Lemma wallPartsLoop_cur (unusable : list coord) :
  ∀ rest cur, cur ≠ [] →
    ∃ t parts, wallPartsLoop rest unusable [] cur = (cur ++ t) :: parts.
Proof.
  induction rest as [|p rest IH]; intros cur Hcur; simpl.
  - rewrite decide_False by done. exists [], []. by rewrite app_nil_r.
  - destruct (decide (p ∈ unusable)).
    + rewrite decide_False by done. rewrite wallPartsLoop_acc.
      exists [], (wallPartsLoop rest unusable [] []). by rewrite app_nil_r.
    + destruct (IH (cur ++ [p])) as (t & parts & E).
      { by destruct cur. }
      exists (p :: t), parts. rewrite E. by rewrite <- app_assoc.
Qed.

Lemma wallPartsLoop_usable (unusable : list coord) :
  ∀ l1 l2 cur, Forall (λ p, p ∉ unusable) l1 →
    wallPartsLoop (l1 ++ l2) unusable [] cur
    = wallPartsLoop l2 unusable [] (cur ++ l1).
Proof.
  induction l1 as [|p l1 IH]; intros l2 cur H; simpl.
  - by rewrite app_nil_r.
  - apply Forall_cons_1 in H as [Hp H].
    rewrite decide_False by done. rewrite IH by done.
    by rewrite <- app_assoc.
Qed.

(** A wall whose first [k] cells are usable has a first part of [k]
    cells or more. *)
Lemma usableParts_first (k : nat) (wall unusable : list coord) :
  (0 < k <= length wall)%nat →
  Forall (λ p, p ∉ unusable) (take k wall) →
  ∃ p parts, usableParts wall unusable = p :: parts ∧ (k <= length p)%nat.
Proof.
  intros Hk H. unfold usableParts.
  assert (wallPartsLoop wall unusable [] []
          = wallPartsLoop (drop k wall) unusable [] (take k wall)) as ->.
  { rewrite <- (take_drop k wall) at 1.
    by rewrite wallPartsLoop_usable. }
  destruct (wallPartsLoop_cur unusable (drop k wall) (take k wall))
    as (t & parts & E).
  { destruct wall; [simpl in Hk; lia|]. destruct k; [lia|done]. }
  exists (take k wall ++ t), parts. split; [done|].
  rewrite length_app, length_take. clear - Hk. lia.
Qed.

Lemma usableParts_large (wall unusable : list coord) :
  (15 <= length wall)%nat →
  Forall (λ p, p ∉ unusable) (take 15 wall) →
  largePartsOf (usableParts wall unusable) ≠ [].
Proof.
  intros Hl H.
  destruct (usableParts_first 15 wall unusable) as (p & parts & E & Hp);
    [split; [apply Nat.lt_0_succ|exact Hl]|done|].
  rewrite E. unfold largePartsOf. rewrite filter_cons_True.
  - done.
  - unfold len. apply Nat2Z.inj_le in Hp. exact Hp.
Qed.

(** ** Where the joints are *)

Lemma wallEnds_elem (w : list coord) (c : coord) :
  c ∈ wallEnds w ↔ head w = Some c ∨ last w = Some c.
Proof.
  unfold wallEnds. destruct w as [|p w].
  - simpl. rewrite elem_of_nil. intuition discriminate.
  - destruct (last (p :: w)) as [q|] eqn:E.
    + rewrite elem_of_cons, list_elem_of_singleton. simpl.
      split; [intros [-> | ->]; tauto | intros [[= ->]|[= ->]]; tauto].
    + by apply last_None in E.
Qed.

Lemma wallEnds_rowWall n r c :
  xMin n <= xMax n →
  c ∈ wallEnds (rowWall n r) ↔ c = (xMin n, r) ∨ c = (xMax n, r).
Proof.
  intros H. rewrite wallEnds_elem, head_lookup, last_lookup, !rowWall_lookup.
  pose proof (rowWall_length n r H) as HL. unfold len in HL.
  replace (Z.of_nat (Init.Nat.pred (length (rowWall n r))))
    with (xMax n - xMin n) by lia.
  replace (xMin n + Z.of_nat 0) with (xMin n) by lia.
  replace (xMin n + (xMax n - xMin n)) with (xMax n) by lia.
  split; (intros [[-> _]| [-> _]]; [by left | by right]) || idtac.
  intros [->| ->]; [left|right]; (split; [done|lia]).
Qed.

Lemma wallEnds_colWall n r c :
  yMin n <= yMax n →
  c ∈ wallEnds (colWall n r) ↔ c = (r, yMin n) ∨ c = (r, yMax n).
Proof.
  intros H. rewrite wallEnds_elem, head_lookup, last_lookup, !colWall_lookup.
  pose proof (colWall_length n r H) as HL. unfold len in HL.
  replace (Z.of_nat (Init.Nat.pred (length (colWall n r))))
    with (yMax n - yMin n) by lia.
  replace (yMin n + Z.of_nat 0) with (yMin n) by lia.
  replace (yMin n + (yMax n - yMin n)) with (yMax n) by lia.
  split; (intros [[-> _]| [-> _]]; [by left | by right]) || idtac.
  intros [->| ->]; [left|right]; (split; [done|lia]).
Qed.

Lemma allSized_left k n c : left n = Some c → allSized k n → allSized k c.
Proof. intros Hl H m Hm. apply H. by eapply subnode_left. Qed.

Lemma allSized_right k n c : right n = Some c → allSized k n → allSized k c.
Proof. intros Hl H m Hm. apply H. by eapply subnode_right. Qed.

(** In a tree whose nodes are all 15 cells or more wide and high, the
    end points of the walls lie in the rectangle of the root, and those
    on its sides are far from its top left corner. *)
Lemma wallEndsOf_far (n : node) :
  wf n → allSized 15 n →
  ∀ c, c ∈ wallEndsOf n → within n c ∧ farJoint n c.
Proof.
  induction n as [sh w un wp bp bpos out c0 c1 IH0 IH1] using node_induction.
  intros Hwf Hs c Hc.
  destruct (wf_children _ Hwf)
    as [(El & Er & Ew & _)
       |(d0 & d1 & w' & El & Er & Ew & Hx2 & Hy2 & Hsp & W0 & W1)].
  - simpl in El, Er, Ew. subst. simpl in Hc. by apply elem_of_nil in Hc.
  - simpl in El, Er, Ew. subst c0 c1 w.
    assert (allSized 15 d0) as Hs0
      by (eapply allSized_left; [|exact Hs]; done).
    assert (allSized 15 d1) as Hs1
      by (eapply allSized_right; [|exact Hs]; done).
    destruct (Hs0 d0 (subnode_here _)) as [Zx0 Zy0].
    destruct (Hs1 d1 (subnode_here _)) as [Zx1 Zy1].
    specialize (IH0 d0 eq_refl W0 Hs0 c). specialize (IH1 d1 eq_refl W1 Hs1 c).
    cbn [wallEndsOf] in Hc. rewrite !elem_of_app in Hc.
    destruct Hsp as [(r & Hr & Ew' & S0 & S1)|(r & Hr & Ew' & S0 & S1)].
    + rewrite Ew', wallEnds_rowWall in Hc by lia.
      unfold within, farJoint, sizeX, sizeY, xMin, xMax, yMin, yMax in *.
      rewrite S0 in Zx0, Zy0, IH0. rewrite S1 in Zx1, Zy1, IH1.
      cbn [shape fst snd] in *.
      destruct Hc as [[-> | ->]|[Hc|Hc]]; cbn [fst snd].
      * lia.
      * lia.
      * specialize (IH0 Hc). lia.
      * specialize (IH1 Hc). lia.
    + rewrite Ew', wallEnds_colWall in Hc by lia.
      unfold within, farJoint, sizeX, sizeY, xMin, xMax, yMin, yMax in *.
      rewrite S0 in Zx0, Zy0, IH0. rewrite S1 in Zx1, Zy1, IH1.
      cbn [shape fst snd] in *.
      destruct Hc as [[-> | ->]|[Hc|Hc]]; cbn [fst snd].
      * lia.
      * lia.
      * specialize (IH0 Hc). lia.
      * specialize (IH1 Hc). lia.
Qed.

(** No joint below a node lies among the first 15 cells of its wall. *)
Lemma joints_off_start (m : node) (w : list coord) (c : coord) :
  wf m → allSized 15 m → wall m = Some w →
  c ∈ jointsBelow m → c ∉ take 15 w.
Proof.
  intros Hwf Hs Hw Hc Ht.
  destruct (wf_children _ Hwf)
    as [(El & Er & Ew & _)
       |(d0 & d1 & w' & El & Er & Ew & Hx2 & Hy2 & Hsp & W0 & W1)];
    [congruence|].
  assert (w' = w) as -> by congruence.
  unfold jointsBelow in Hc. rewrite El, Er, elem_of_app in Hc.
  apply elem_of_take in Ht as (k & Hk & Hk15).
  pose proof (wallEndsOf_far d0 W0 (allSized_left _ _ _ El Hs) c) as F0.
  pose proof (wallEndsOf_far d1 W1 (allSized_right _ _ _ Er Hs) c) as F1.
  unfold within, farJoint, xMin, xMax, yMin, yMax in *.
  destruct Hsp as [(r & Hr & -> & S0 & S1)|(r & Hr & -> & S0 & S1)].
  - apply rowWall_lookup in Hk as [-> _]. unfold xMin in *.
    rewrite S0 in F0. rewrite S1 in F1. cbn [fst snd] in F0, F1.
    destruct Hc as [Hc|Hc]; [specialize (F0 Hc)|specialize (F1 Hc)]; lia.
  - apply colWall_lookup in Hk as [-> _]. unfold yMin in *.
    rewrite S0 in F0. rewrite S1 in F1. cbn [fst snd] in F0, F1.
    destruct Hc as [Hc|Hc]; [specialize (F0 Hc)|specialize (F1 Hc)]; lia.
Qed.

(** ** From the rooms to every node *)

Lemma roomsSized_allSized (P : Z → Z → Prop) (k : Z) (n : node) :
  (∀ w h, P w h → k <= w ∧ k <= h) →
  wf n → roomsSized P n → allSized k n.
Proof.
  intros HP.
  induction n as [sh w un wp bp bpos out c0 c1 IH0 IH1] using node_induction.
  intros Hwf Hs.
  destruct (wf_children _ Hwf)
    as [(El & Er & Ew & _)
       |(d0 & d1 & w' & El & Er & Ew & Hx2 & Hy2 & Hsp & W0 & W1)].
  - simpl in El, Er, Ew. subst. unfold roomsSized in Hs. cbn [leaves] in Hs.
    apply Forall_cons_1 in Hs as [Hs _]. apply HP in Hs.
    intros m Hm. inversion Hm; subst; [done|simpl in *; done..].
  - simpl in El, Er, Ew. subst c0 c1 w.
    unfold roomsSized in Hs. cbn [leaves] in Hs.
    apply Forall_app in Hs as [Hs0 Hs1].
    specialize (IH0 d0 eq_refl W0 Hs0). specialize (IH1 d1 eq_refl W1 Hs1).
    intros m Hm. inversion Hm as [|? c Hl Hc|? c Hr Hc]; subst.
    + destruct (IH0 d0 (subnode_here _)) as [Zx0 Zy0].
      destruct (IH1 d1 (subnode_here _)) as [Zx1 Zy1].
      destruct Hsp as [(r & Hr & _ & S0 & S1)|(r & Hr & _ & S0 & S1)];
        unfold sizeX, sizeY, xMin, xMax, yMin, yMax in *;
        rewrite S0 in Zx0, Zy0; rewrite S1 in Zx1, Zy1;
        cbn [fst snd shape] in *; lia.
    + simpl in Hl. injection Hl as <-. by apply IH0.
    + simpl in Hr. injection Hr as <-. by apply IH1.
Qed.

Lemma allSized_subnode k m root :
  subnode m root → allSized k root → allSized k m.
Proof. intros Hm H m' Hm'. apply H. by eapply subnode_trans. Qed.

Lemma jointsOk_subnode m root : subnode m root → jointsOk root → jointsOk m.
Proof.
  induction 1 as [|n c Hl Hc IH|n c Hr Hc IH]; [done|..]; intros Hj;
    apply IH; destruct n; simpl in *; subst; tauto.
Qed.

Lemma grown_leaves k m n : grown k m n → length (leaves n) = (2 ^ k)%nat.
Proof.
  revert n. induction k as [|k IH]; intros n.
  - intros (Hl & Hr & _). destruct n; simpl in *. by subst.
  - intros (c0 & c1 & Hl & Hr & G0 & G1). destruct n; simpl in *. subst.
    rewrite length_app, (IH _ G0), (IH _ G1). lia.
Qed.

(** ** A generated world *)

(** [generateWorld] always returns, and is the four rounds followed by
    [addDoors]. *)
Lemma generateWorld_full (s : rng) :
  ∃ root array0 s0 array s',
    generateWorld s = Ok ((array, root), s') ∧
    addDoors root array0 s0 = Ok (array, s') ∧
    wf root ∧ grown 4 0 root ∧ shape root = ((0, 0), (249, 199)) ∧
    jointsOk root ∧ roomsSized (roomSizes 4) root ∧ allSized 16 root ∧
    dims array0 ∧ gridOf root array0.
Proof.
  destruct (splitRounds_full s)
    as (root & a & s1 & E & Hwf & Hg & Hs & Hj & Hz & Hd & Hgrid).
  destruct (addDoors_wf root a s1 Hwf Hd) as (a' & s2 & E' & _ & _).
  exists root, a, s1, a', s2. rewrite generateWorld_rounds.
  unfold bind at 1. rewrite E. unfold bind at 1. rewrite E'.
  repeat (split; [done|]). split; [|done].
  eapply roomsSized_allSized; [|done..].
  intros w h. cbn [roomSizes]. lia.
Qed.

Lemma wall_length_sized (k : Z) (m : node) (w : list coord) :
  wf m → wall m = Some w → k <= sizeX m → k <= sizeY m → k + 1 <= len w.
Proof.
  intros Hwf Hw Hx Hy.
  destruct (wf_children _ Hwf)
    as [(El & Er & Ew & _)
       |(d0 & d1 & w' & El & Er & Ew & Hx2 & Hy2 & Hsp & W0 & W1)];
    [congruence|].
  assert (w' = w) as -> by congruence.
  unfold sizeX, sizeY in *.
  destruct Hsp as [(r & Hr & -> & _)|(r & Hr & -> & _)].
  - rewrite rowWall_length by lia. lia.
  - rewrite colWall_length by lia. lia.
Qed.

(** In a tree of a generated world every wall has a large usable part. *)
Lemma joints_leave_large (root m : node) (w : list coord) :
  wf root → jointsOk root → allSized 16 root →
  subnode m root → wall m = Some w →
  largePartsOf (usableParts w (unusableWall m)) ≠ [].
Proof.
  intros Hwf Hj Hs Hm Hw.
  pose proof (wf_subnode _ _ Hm Hwf) as Hwfm.
  pose proof (jointsOk_subnode _ _ Hm Hj) as Hjm.
  pose proof (allSized_subnode _ _ _ Hm Hs) as Hsm.
  destruct (Hsm m (subnode_here _)) as [Zx Zy].
  pose proof (wall_length_sized 16 m w Hwfm Hw Zx Zy) as HL.
  apply usableParts_large.
  - unfold len in HL. apply Nat2Z.inj_le. lia.
  - apply Forall_forall. intros c Hc Hu.
    apply (jointsOk_here _ Hjm) in Hu.
    eapply (joints_off_start m w c); [done| |done..].
    intros m' Hm'. destruct (Hsm m' Hm'). lia.
Qed.

(** ** What the doors leave alone *)

Lemma elem_of_concat {A} (ls : list (list A)) (l : list A) (x : A) :
  l ∈ ls → x ∈ l → x ∈ concat ls.
Proof.
  induction ls as [|l' ls IH]; [by intros ?%elem_of_nil|].
  intros [->|H]%elem_of_cons Hx; simpl; apply elem_of_app; [by left|].
  right. by apply IH.
Qed.

Lemma usableParts_elem (wall unusable part : list coord) (c : coord) :
  part ∈ usableParts wall unusable → c ∈ part → c ∈ wall ∧ c ∉ unusable.
Proof.
  intros Hp Hc.
  assert (c ∈ concat (usableParts wall unusable)) as H.
  { by eapply elem_of_concat. }
  unfold usableParts in H. rewrite wallPartsLoop_concat in H. simpl in H.
  by apply list_elem_of_filter in H as [? ?].
Qed.

(** [addDoorToWall] clears only cells that are strictly between the ends
    of a usable part. *)
Lemma addDoorToWall_carved (Q : coord → Prop) (wall unusable : list coord)
    (array : grid) (s : rng) :
  Forall (inGrid array) wall →
  (∀ part c, part ∈ usableParts wall unusable → innerCell part c → Q c) →
  ∃ array' s',
    addDoorToWall wall unusable array s = Ok (array', s') ∧
    carved Q array array'.
Proof.
  intros Hin HQ. unfold addDoorToWall.
  pose proof (usableParts_runs wall unusable) as Hruns.
  set (parts := usableParts wall unusable) in *.
  set (large := largePartsOf parts).
  rewrite Forall_forall in Hruns.
  assert (Hopen : ∀ part a s0, part ∈ parts →
            carved Q array a →
            ∃ a' s', openDoor part a s0 = Ok (a', s') ∧ carved Q a a').
  { intros part a s0 Hpart Ha.
    assert (Hpin : Forall (inGrid a) part).
    { apply (isRun_Forall _ wall); [by apply Hruns|].
      apply Forall_forall. intros c Hc. apply (carved_inGrid _ _ _ _ Ha).
      rewrite Forall_forall in Hin. by apply Hin. }
    destruct (openDoor_carved part a s0 Hpin) as (a' & s' & E & Hcv).
    exists a', s'. split; [done|].
    eapply carved_weaken; [|exact Hcv]. intros c. by apply HQ. }
  destruct (Z.ltb_spec 0 (len large)) as [Hl|Hl].
  - destruct (randint_spec 0 (len large - 1) s) as (w1 & Hw1 & Ew1); [lia|].
    unfold bind at 1. rewrite Ew1.
    destruct (py_nth_range large w1) as (part & Epart & Hpart); [lia|].
    unfold bind at 1. unfold lift at 1. rewrite Epart.
    apply largePartsOf_elem in Hpart as [H15 Hpart].
    destruct (Hopen part array (rng_tail s) Hpart (carved_refl _ _))
      as (a1 & s1 & E1 & Hc1).
    unfold bind at 1. rewrite E1.
    destruct (forM_inv
      (fun a => carved Q array a)
      (fun array i =>
         let* c := randint 0 2 in
         if (c =? 0) && negb (i =? w1)
         then let* part := lift (py_nth large i) in openDoor part array
         else ret array)
      (range 0 (len large))) with (st := a1) (s := s1)
      as (a2 & s2 & E2 & Hc2); [|done|].
    { intros a i s0 Hi Ha. apply elem_of_range in Hi.
      destruct (randint_spec 0 2 s0) as (c & Hc & Ec); [lia|].
      unfold bind at 1. rewrite Ec.
      destruct ((c =? 0) && negb (i =? w1)).
      - destruct (py_nth_range large i) as (p & Ep & Hp); [lia|].
        unfold bind, lift. rewrite Ep.
        apply largePartsOf_elem in Hp as [_ Hp].
        destruct (Hopen p a (rng_tail s0) Hp Ha) as (a' & s' & E & Hc').
        exists a', s'. split; [done|]. by eapply carved_trans.
      - eexists _, _. split; [done|]. done. }
    exists a2, s2. split; [done|]. done.
  - destruct (selectLoop_range parts) as [[Hnil Hsel]|[Hne Hsel]].
    + rewrite Hsel. simpl. exists array, s. split; [done|]. apply carved_refl.
    + destruct (Z.eqb_spec (selectLoop parts).2 (-1)) as [?|_]; [lia|].
      destruct (py_nth_range parts (selectLoop parts).2)
        as (part & Epart & Hpart); [lia|].
      unfold bind, lift. rewrite Epart.
      destruct (Hopen part array s Hpart (carved_refl _ _))
        as (a1 & s1 & E1 & Hc1).
      exists a1, s1. split; [done|]. done.
Qed.

Lemma wallEnds_sub (w : list coord) (c : coord) : c ∈ wallEnds w → c ∈ w.
Proof.
  intros [H|H]%wallEnds_elem.
  - rewrite head_lookup in H. by eapply list_elem_of_lookup_2.
  - rewrite last_lookup in H. by eapply list_elem_of_lookup_2.
Qed.

Lemma innerCell_not_end (w : list coord) (c : coord) :
  NoDup w → innerCell w c → c ∉ wallEnds w.
Proof.
  intros Hnd (k & Hk & Hc) [H|H]%wallEnds_elem.
  - rewrite head_lookup in H.
    pose proof (NoDup_lookup _ _ _ _ Hnd Hc H). lia.
  - rewrite last_lookup in H.
    pose proof (NoDup_lookup _ _ _ _ Hnd Hc H). lia.
Qed.

(** The cells and the end points of the walls of a well-formed tree lie
    in the rectangle of its root. *)
Lemma wallCells_within (n : node) :
  wf n → ∀ c, c ∈ wallCells n → within n c.
Proof.
  induction n as [sh w un wp bp bpos out c0 c1 IH0 IH1] using node_induction.
  intros Hwf c Hc.
  destruct (wf_children _ Hwf)
    as [(El & Er & Ew & _)
       |(d0 & d1 & w' & El & Er & Ew & Hx2 & Hy2 & Hsp & W0 & W1)].
  - simpl in El, Er, Ew. subst. simpl in Hc. by apply elem_of_nil in Hc.
  - simpl in El, Er, Ew. subst c0 c1 w.
    cbn [wallCells] in Hc. rewrite !elem_of_app in Hc.
    destruct Hc as [Hc|[Hc|Hc]].
    + by apply (wf_wall _ w' Hwf eq_refl).
    + eapply splitAt_within; [done|]. left. by apply IH0.
    + eapply splitAt_within; [done|]. right. by apply IH1.
Qed.

Lemma wallEndsOf_wallCells (n : node) :
  ∀ c, c ∈ wallEndsOf n → c ∈ wallCells n.
Proof.
  induction n as [sh w un wp bp bpos out c0 c1 IH0 IH1] using node_induction.
  intros c. cbn [wallEndsOf wallCells]. rewrite !elem_of_app.
  intros [Hc|[Hc|Hc]].
  - left. destruct w; [by apply wallEnds_sub|by apply elem_of_nil in Hc].
  - right. left. destruct c0; [by eapply IH0|by apply elem_of_nil in Hc].
  - right. right. destruct c1; [by eapply IH1|by apply elem_of_nil in Hc].
Qed.

(** [addDoors] on a well-formed tree that lists its joints: it returns,
    and clears only inner cells of walls that are the end of no wall. *)
Lemma addDoors_doorable (root : node) :
  ∀ array s, wf root → jointsOk root → dims array →
  ∃ array' s',
    addDoors root array s = Ok (array', s') ∧
    carved (doorable root) array array'.
Proof.
  induction root as [sh w un wp bp bpos out c0 c1 IH0 IH1] using node_induction.
  intros array s Hwf Hj Hd.
  destruct (wf_children _ Hwf)
    as [(El & Er & Ew & _)
       |(d0 & d1 & w' & El & Er & Ew & Hx2 & Hy2 & Hsp & W0 & W1)].
  - simpl in El, Er, Ew. subst. exists array, s. split; [done|].
    apply carved_refl.
  - simpl in El, Er, Ew. subst c0 c1 w.
    set (root := Node sh (Some w') un wp bp bpos out (Some d0) (Some d1)) in *.
    pose proof (wf_wall root w' Hwf eq_refl) as (Hww & Hwi & Hw3 & Hnd).
    assert (∀ c, c ∈ wallEnds w' → ¬ inside root c) as Hends.
    { intros c Hc Hi. pose proof Hc as [H|H]%wallEnds_elem.
      - rewrite head_lookup in H. apply (Hwi _ _ H) in Hi. lia.
      - rewrite last_lookup in H. apply (Hwi _ _ H) in Hi. lia. }
    destruct Hj as (Hjn & J0 & J1).
    destruct (IH0 d0 eq_refl array s W0 J0 Hd) as (a1 & s1 & E1 & C1).
    destruct (IH1 d1 eq_refl a1 s1 W1 J1 (carved_dims _ _ _ C1 Hd))
      as (a2 & s2 & E2 & C2).
    assert (carved (doorable root) array a1) as C1'.
    { eapply carved_weaken; [|exact C1]. intros c [Hi He].
      pose proof (innerOfTree_inside _ _ W0 Hi) as Hin.
      split.
      - destruct Hi as (m & wm & Hm & Hwm & Hc). exists m, wm.
        split; [by eapply subnode_left|done].
      - cbn [root wallEndsOf]. rewrite !elem_of_app. intros [H|[H|H]].
        + apply (Hends c H). eapply splitAt_inside; [done|]. by left.
        + done.
        + apply wallEndsOf_wallCells, (wallCells_within _ W1) in H.
          by eapply splitAt_apart. }
    assert (carved (doorable root) a1 a2) as C2'.
    { eapply carved_weaken; [|exact C2]. intros c [Hi He].
      pose proof (innerOfTree_inside _ _ W1 Hi) as Hin.
      split.
      - destruct Hi as (m & wm & Hm & Hwm & Hc). exists m, wm.
        split; [by eapply subnode_right|done].
      - cbn [root wallEndsOf]. rewrite !elem_of_app. intros [H|[H|H]].
        + apply (Hends c H). eapply splitAt_inside; [done|]. by right.
        + apply wallEndsOf_wallCells, (wallCells_within _ W0) in H.
          by eapply splitAt_apart'.
        + done. }
    pose proof (carved_dims _ _ _ (carved_trans _ _ _ _ C1' C2') Hd) as Hd2.
    destruct (addDoorToWall_carved (doorable root) w' un a2 s2)
      as (a3 & s3 & E3 & C3).
    { apply Forall_forall. intros c Hc.
      apply (within_inGrid root); [by apply wf_rectOk|done|by apply Hww]. }
    { intros part c Hpart Hc.
      pose proof (usableParts_runs w' un) as Hruns.
      rewrite Forall_forall in Hruns.
      pose proof (isRun_inner _ _ _ (Hruns _ Hpart) Hc) as Hcw.
      split.
      - exists root, w'. split; [apply subnode_here|done].
      - cbn [root wallEndsOf]. rewrite elem_of_app.
        intros [H|H].
        + by apply (innerCell_not_end w' c).
        + apply (usableParts_elem _ _ _ c) in Hpart as [_ Hu];
            [|by apply innerCell_elem_of].
          apply Hu, Hjn. done. }
    exists a3, s3. split.
    { cbn [addDoors root]. unfold bind at 1. rewrite E1.
      unfold bind at 1. rewrite E2. done. }
    eapply carved_trans; [|exact C3]. by eapply carved_trans.
Qed.

(** ** Rooms *)

Lemma leaves_no_left (n : node) :
  wf n → ∀ l, l ∈ leaves n → left l = None.
Proof.
  induction n as [sh w un wp bp bpos out c0 c1 IH0 IH1] using node_induction.
  intros Hwf l Hl.
  destruct (wf_children _ Hwf)
    as [(El & Er & Ew & _)
       |(d0 & d1 & w' & El & Er & Ew & Hx2 & Hy2 & Hsp & W0 & W1)].
  - simpl in El, Er, Ew. subst. cbn [leaves] in Hl.
    by apply list_elem_of_singleton in Hl as ->.
  - simpl in El, Er, Ew. subst c0 c1 w. cbn [leaves] in Hl.
    apply elem_of_app in Hl as [Hl|Hl]; [by eapply IH0|by eapply IH1].
Qed.

(** No cell strictly inside a room lies on a wall of the tree. *)
Lemma room_off_walls (n : node) :
  wf n → ∀ m c, subnode m n → left m = None → inside m c →
  c ∉ wallCells n.
Proof.
  induction n as [sh w un wp bp bpos out c0 c1 IH0 IH1] using node_induction.
  intros Hwf m c Hm Hl Hi.
  destruct (wf_children _ Hwf)
    as [(El & Er & Ew & _)
       |(d0 & d1 & w' & El & Er & Ew & Hx2 & Hy2 & Hsp & W0 & W1)].
  - simpl in El, Er, Ew. subst. cbn [wallCells]. apply not_elem_of_nil.
  - simpl in El, Er, Ew. subst c0 c1 w.
    cbn [wallCells]. rewrite !elem_of_app.
    inversion Hm as [|? d Hld Hd|? d Hrd Hd]; subst.
    + simpl in Hl. done.
    + simpl in Hld. injection Hld as <-.
      pose proof (subnode_inside _ _ _ Hd W0 Hi) as Hi0.
      intros [H|[H|H]].
      * destruct (splitAt_wall_not_inside _ _ _ _ _ Hsp H). done.
      * by apply (IH0 d0 eq_refl W0 m c).
      * apply (wallCells_within _ W1) in H. by eapply splitAt_apart.
    + simpl in Hrd. injection Hrd as <-.
      pose proof (subnode_inside _ _ _ Hd W1 Hi) as Hi1.
      intros [H|[H|H]].
      * destruct (splitAt_wall_not_inside _ _ _ _ _ Hsp H). done.
      * apply (wallCells_within _ W0) in H. by eapply splitAt_apart'.
      * by apply (IH1 d1 eq_refl W1 m c).
Qed.

(** After the rounds and any clearing, a cell inside the grid that is on
    no wall of the tree is [Empty]. *)
Lemma off_walls_empty (P : coord → Prop) root array0 array :
  shape root = ((0, 0), (249, 199)) → gridOf root array0 →
  carved P array0 array →
  ∀ c, inside root c → c ∉ wallCells root → cellAt array c = Some Empty.
Proof.
  intros Hs Hg [_ Hc] c Hi Hw.
  assert (cellAt array0 c = Some Empty) as E0.
  { rewrite (Hg c), decide_False by done.
    unfold inside, xMin, xMax, yMin, yMax in Hi. rewrite Hs in Hi.
    cbn [fst snd] in Hi.
    rewrite cellAt_createEmptyWorld by lia.
    destruct (Z.eqb_spec c.2 0), (Z.eqb_spec c.2 199), (Z.eqb_spec c.1 0),
      (Z.eqb_spec c.1 249); try lia. done. }
  destruct (Hc c) as [->|(_ & _ & ->)]; done.
Qed.

(** ** Every generated world *)

(** X1: for every random stream [generateWorld] returns (no random range
    is empty, no index out of range); the tree it returns is well formed
    and has exactly 16 rooms, each between 16 and 162 cells wide and
    between 20 and 130 cells high (measured as [xMax - xMin] and
    [yMax - yMin], wall line to wall line). *)
Theorem generateWorld_rooms (s : rng) :
  ∃ array root s',
    generateWorld s = Ok ((array, root), s') ∧
    wf root ∧ length (leaves root) = 16%nat ∧
    Forall (fun room => 16 <= sizeX room <= 162 ∧ 20 <= sizeY room <= 130)
           (leaves root).
Proof.
  destruct (generateWorld_full s)
    as (root & a0 & s0 & a & s' & E & _ & Hwf & Hg & _ & _ & Hz & _).
  exists a, root, s'. split; [done|]. split; [done|].
  split; [exact (grown_leaves _ _ _ Hg)|]. exact Hz.
Qed.

(** X2: in the tree that [generateWorld] returns, the [unusableWall] list
    of every node holds exactly the end points of the walls of the nodes
    below it (what [setWall] and [adjustWall] pass up the parent chain),
    and nothing else. *)
Theorem generateWorld_joints (s : rng) :
  ∃ array root s',
    generateWorld s = Ok ((array, root), s') ∧
    ∀ m, subnode m root →
         ∀ c, c ∈ unusableWall m ↔ c ∈ jointsBelow m.
Proof.
  destruct (generateWorld_full s)
    as (root & a0 & s0 & a & s' & E & _ & _ & _ & _ & Hj & _).
  exists a, root, s'. split; [done|]. intros m Hm.
  apply jointsOk_here. by eapply jointsOk_subnode.
Qed.

(** X3: in the grid that [generateWorld] returns, both end cells of every
    wall of the tree still hold [Wall]: no door is cut where a wall
    meets another wall or the outer ring. *)
Theorem generateWorld_joints_solid (s : rng) :
  ∃ array root s',
    generateWorld s = Ok ((array, root), s') ∧
    ∀ m w c, subnode m root → wall m = Some w → c ∈ wallEnds w →
             cellAt array c = Some Wall.
Proof.
  destruct (generateWorld_full s)
    as (root & a0 & s0 & a & s' & E & Ed & Hwf & _ & _ & Hj & _ & _ & Hd & Hg).
  exists a, root, s'. split; [done|]. intros m w c Hm Hw Hc.
  destruct (addDoors_doorable root a0 s0 Hwf Hj Hd) as (a1 & s1 & E1 & [_ C]).
  rewrite Ed in E1. injection E1 as <- <-.
  assert (c ∈ wallEndsOf root) as He.
  { clear - Hm Hw Hc. induction Hm as [|n d Hl Hd IH|n d Hr Hd IH].
    - destruct m; simpl in *. subst. apply elem_of_app. by left.
    - destruct n; simpl in *. subst. rewrite !elem_of_app. tauto.
    - destruct n; simpl in *. subst. rewrite !elem_of_app. tauto. }
  destruct (C c) as [->|([_ Hn] & _)]; [|done].
  rewrite (Hg c), decide_True; [done|]. by apply wallEndsOf_wallCells.
Qed.

(** X4: in every generated world each wall of the tree has a usable part
    of 15 cells or more (its first), so [addDoorToWall] never takes its
    branch for short walls; and at the end each wall has a cell strictly
    between its ends that holds [Empty]. *)
Theorem generateWorld_doors (s : rng) :
  ∃ array root s',
    generateWorld s = Ok ((array, root), s') ∧
    ∀ m w, subnode m root → wall m = Some w →
           largePartsOf (usableParts w (unusableWall m)) ≠ [] ∧
           ∃ c, innerCell w c ∧ cellAt array c = Some Empty.
Proof.
  destruct (generateWorld_full s)
    as (root & a0 & s0 & a & s' & E & Ed & Hwf & _ & _ & Hj & _ & Hz & Hd & _).
  exists a, root, s'. split; [done|]. intros m w Hm Hw.
  pose proof (joints_leave_large root m w Hwf Hj Hz Hm Hw) as Hl.
  split; [done|].
  destruct (addDoors_spec root a0 s0 (wf_wallsInGrid _ _ Hwf Hd))
    as (a1 & s1 & E1 & _ & G).
  rewrite Ed in E1. injection E1 as <- <-.
  apply (G m w Hm Hw). by left.
Qed.

(** After the doors, a cell holds [Wall] only on the outer ring or on a
    wall of the tree. *)
Lemma carved_walls (P : coord → Prop) root array0 array :
  gridOf root array0 → carved P array0 array →
  ∀ c, cellAt array c = Some Wall → onBorder c ∨ c ∈ wallCells root.
Proof.
  intros Hg [_ C] c Hc.
  destruct (C c) as [Ec|(_ & _ & Ec)]; [|congruence].
  rewrite Ec, (Hg c) in Hc. case_decide as Hw; [by right|]. left.
  assert (inGrid createEmptyWorld c) as Hin by (by eexists).
  apply (dims_inGrid _ _ dims_createEmptyWorld) in Hin.
  rewrite cellAt_createEmptyWorld in Hc by lia.
  split; [lia|].
  destruct (Z.eqb_spec c.2 0), (Z.eqb_spec c.2 199), (Z.eqb_spec c.1 0),
    (Z.eqb_spec c.1 249); try lia. done.
Qed.

(** X5: in the grid that [generateWorld] returns every cell strictly
    inside a room is [Empty], and a cell holds [Wall] only if it is on
    the outer ring or on a wall of the tree. *)
Theorem generateWorld_grid (s : rng) :
  ∃ array root s',
    generateWorld s = Ok ((array, root), s') ∧
    (∀ room c, room ∈ leaves root → inside room c →
               cellAt array c = Some Empty) ∧
    (∀ c, cellAt array c = Some Wall → onBorder c ∨ c ∈ wallCells root).
Proof.
  destruct (generateWorld_full s)
    as (root & a0 & s0 & a & s' & E & Ed & Hwf & _ & Hs & Hj & _ & _ & Hd & Hg).
  exists a, root, s'. split; [done|].
  destruct (addDoors_doorable root a0 s0 Hwf Hj Hd) as (a1 & s1 & E1 & C).
  rewrite Ed in E1. injection E1 as <- <-.
  split.
  - intros room c Hr Hi.
    pose proof (leaves_subnode _ _ Hr) as Hm.
    apply (off_walls_empty _ root a0 a Hs Hg C).
    + by eapply subnode_inside.
    + eapply room_off_walls; [done|exact Hm| |done].
      by eapply leaves_no_left.
  - by apply (carved_walls _ root a0 a Hg C).
Qed.

(** ** Bases and walls *)

Lemma wallCells_unmark (n : node) : wallCells (unmark n) = wallCells n.
Proof.
  induction n as [sh w un wp bp bpos out c0 c1 IH0 IH1] using node_induction.
  cbn [unmark wallCells]. f_equal. f_equal.
  - destruct c0; [by apply IH0|done].
  - destruct c1; [by apply IH1|done].
Qed.

(** A cell strictly inside a room of a quadrant of a tree that differs
    from [root] in base marks only is inside the rectangle of [root] and
    on none of its walls. *)
Lemma quadLeaf_off_walls root r q l c :
  wf root → unmark r = unmark root →
  l ∈ quadLeaves r q → inside l c →
  inside root c ∧ c ∉ wallCells root.
Proof.
  intros Hwf Hu Hl Hi.
  pose proof (wf_unmark_eq _ _ Hu Hwf) as Hwr.
  unfold quadLeaves in Hl. destruct (quadNode r q) as [n|] eqn:E;
    [|by apply elem_of_nil in Hl].
  pose proof (quadNode_subnode _ _ _ E) as Hn.
  pose proof (wf_subnode _ _ Hn Hwr) as Hwn.
  pose proof (subnode_trans _ _ _ (leaves_subnode _ _ Hl) Hn) as Hlr.
  split.
  - apply (unmark_eq_inside r root); [done|]. by eapply subnode_inside.
  - rewrite <- wallCells_unmark, <- Hu, wallCells_unmark.
    eapply room_off_walls; [done|exact Hlr| |done].
    by eapply leaves_no_left.
Qed.

(** The bases are laid on rooms: on cells that were [Empty], so that no
    [Wall] cell is lost; the tree keeps its shape and its walls. *)
Lemma bases_on_empty (P : coord → Prop) fuel root array0 array s1
    array' bases root' s2 :
  wf root → shape root = ((0, 0), (249, 199)) → dims array0 →
  gridOf root array0 → carved P array0 array →
  createBases fuel array root s1 = Ok ((array', bases, root'), s2) →
  unmark root' = unmark root ∧ dims array' ∧
  (∀ b c, b ∈ bases → c ∈ squareCells b → cellAt array c = Some Empty) ∧
  (∀ c, cellAt array' c = Some Wall ↔ cellAt array c = Some Wall).
Proof.
  intros Hwf Hs Hd Hg C Ec.
  pose proof (carved_dims _ _ _ C Hd) as Hda.
  destruct (createBases_spec _ _ _ _ _ _ _ _ Hda Hwf Ec)
    as (b1 & b2 & b3 & q1 & q2 & q3 & l1 & l2 & l3 & r1 & r2 & a1 & a2 &
        -> & Hq1 & Hq2 & Hq3 & Hu1 & Hu2 & Hu & Hl1 & Hl2 & Hl3 &
        Hr1 & Hr2 & Hr3 & Hb1 & Hb2 & Hb3 & F1 & F2 & F3).
  assert (Hfree : ∀ r l q b c, unmark r = unmark root →
            l ∈ quadLeaves r q → baseIn l b → c ∈ squareCells b →
            cellAt array c = Some Empty).
  { intros r l q b c Hur Hl Hb Hc.
    destruct (quadLeaf_off_walls root r q l c Hwf Hur Hl) as [Hi Hw].
    { by apply (baseIn_inside l b Hb). }
    by apply (off_walls_empty _ root array0 array Hs Hg C). }
  pose proof (λ c, Hfree root l1 q1 b1 c eq_refl Hl1 Hb1) as H1.
  pose proof (λ c, Hfree r1 l2 q2 b2 c Hu1 Hl2 Hb2) as H2.
  pose proof (λ c, Hfree r2 l3 q3 b3 c Hu2 Hl3 Hb3) as H3.
  split; [done|]. split.
  { eapply filled_dims; [exact F3|]. eapply filled_dims; [exact F2|].
    by eapply filled_dims. }
  split.
  - intros b c Hb Hc. rewrite !elem_of_cons in Hb.
    destruct Hb as [->|[->|[->|[]%elem_of_nil]]]; auto.
  - intros c. rewrite (proj2 F3 c), (proj2 F2 c), (proj2 F1 c).
    destruct (decide (c ∈ squareCells b3)) as [Hc|_];
      [rewrite (H3 c Hc); split; done|].
    destruct (decide (c ∈ squareCells b2)) as [Hc|_];
      [rewrite (H2 c Hc); split; done|].
    destruct (decide (c ∈ squareCells b1)) as [Hc|_];
      [rewrite (H1 c Hc); split; done|].
    done.
Qed.

(** X6: in a generation run the three bases of [createBases] are laid on
    cells that were all [Empty] (no wall and no door cell is inside a
    base), and [createBases] changes no [Wall] cell: the grid holds
    [Wall] after it exactly where it did before. *)
Theorem createBases_keeps_walls
    (s : rng) (fuel : nat) array root s1 array' bases root' s2 :
  generateWorld s = Ok ((array, root), s1) →
  createBases fuel array root s1 = Ok ((array', bases, root'), s2) →
  (∀ b c, b ∈ bases → c ∈ squareCells b → cellAt array c = Some Empty) ∧
  (∀ c, cellAt array' c = Some Wall ↔ cellAt array c = Some Wall).
Proof.
  intros Eg Ec.
  destruct (generateWorld_full s)
    as (r & a0 & s0 & a & s' & E & Ed & Hwf & _ & Hs & Hj & _ & _ & Hd & Hg).
  rewrite Eg in E. injection E as <- <- <-.
  destruct (addDoors_doorable root a0 s0 Hwf Hj Hd) as (a1 & s1' & E1 & C).
  rewrite Ed in E1. injection E1 as <- <-.
  by destruct (bases_on_empty _ _ _ _ _ _ _ _ _ _ Hwf Hs Hd Hg C Ec)
    as (_ & _ & H1 & H2).
Qed.

Lemma createBases_keeps_walls_witness :
  match generateWorld demoRng with
  | Ok ((array, root), s1) =>
      match createBases 30 array root s1 with
      | Ok ((array', bases, root'), s2) =>
          (∀ b c, b ∈ bases → c ∈ squareCells b →
                  cellAt array c = Some Empty) ∧
          (∀ c, cellAt array' c = Some Wall ↔ cellAt array c = Some Wall)
      | _ => False
      end
  | _ => False
  end.
Proof.
  pose proof demo_createBases_returns as H.
  destruct (generateWorld demoRng) as [[[array root] s1]| |] eqn:Eg;
    [|done..].
  destruct (createBases 30 array root s1)
    as [[[[array' bases] root'] s2]| |] eqn:Ec; [|done..].
  exact (createBases_keeps_walls demoRng 30 _ _ _ _ _ _ _ Eg Ec).
Defined.

(** ** The parts of a wall are its maximal usable runs *)

Lemma wallPartsLoop_max (whole unusable : list coord) :
  ∀ rest acc cur pre,
    whole = pre ++ cur ++ rest →
    Forall (λ c, c ∉ unusable) cur →
    (∀ x, last pre = Some x → x ∈ unusable) →
    Forall (maxRun unusable whole) acc →
    Forall (maxRun unusable whole) (wallPartsLoop rest unusable acc cur).
Proof.
  induction rest as [|p rest IH]; intros acc cur pre Hw Hcur Hpre Hacc; simpl.
  - case_decide as Hc; [done|]. apply Forall_app. split; [done|].
    apply Forall_singleton. split; [done|]. split; [done|].
    exists pre, []. split; [done|]. split; [done|]. by intros x [=].
  - destruct (decide (p ∈ unusable)) as [Hp|Hp].
    + destruct (decide (cur = [])) as [->|Hc].
      * apply (IH _ _ (pre ++ [p])); [|done| |done].
        -- rewrite Hw. simpl. by rewrite <- app_assoc.
        -- intros x. rewrite last_snoc. by intros [= <-].
      * apply (IH _ _ (pre ++ cur ++ [p])); [|done| |].
        -- rewrite Hw. simpl. by rewrite <- !app_assoc.
        -- intros x. rewrite !app_assoc, last_snoc. by intros [= <-].
        -- apply Forall_app. split; [done|]. apply Forall_singleton.
           split; [done|]. split; [done|].
           exists pre, (p :: rest). split; [done|]. split; [done|].
           simpl. by intros x [= <-].
    + apply (IH _ _ pre);
        [|apply Forall_app; split; [done|by apply Forall_singleton]|done..].
      rewrite Hw. by rewrite <- app_assoc.
Qed.

(** X7: the wall parts that [addDoorToWall] builds (lines 266-288) are
    exactly the maximal runs of usable cells of the wall, in order: put
    end to end they are the wall without its unusable cells, none is
    empty, none holds an unusable cell, and each is bounded on either
    side by an unusable cell or by the end of the wall. *)
Theorem usableParts_partition (wall unusable : list coord) :
  concat (usableParts wall unusable) = filter (λ c, c ∉ unusable) wall ∧
  Forall (maxRun unusable wall) (usableParts wall unusable).
Proof.
  split.
  - unfold usableParts. by rewrite wallPartsLoop_concat.
  - by apply (wallPartsLoop_max wall unusable wall [] [] []).
Qed.

(** ** Robots *)

(** [addRobots] never raises: it returns the middle cells of the first
    two bases, or of the bases there are. *)
Lemma addRobots_spec (bases : list (coord * coord)) :
  addRobots bases = Ok (map baseCentre (take 2 bases)).
Proof.
  unfold addRobots. replace (range 0 2) with [0; 1] by done.
  destruct bases as [|b1 [|b2 rest]]; cbn [forR].
  - done.
  - change (0 <? len [b1]) with true. cbn [res_bind].
    change (py_nth [b1] 0) with (Ok b1). cbn [res_bind].
    change (1 <? len [b1]) with false. done.
  - assert ((0 <? len (b1 :: b2 :: rest)) = true) as ->.
    { apply Z.ltb_lt. unfold len. simpl. lia. }
    change (py_nth (b1 :: b2 :: rest) 0) with (Ok b1). cbn [res_bind].
    assert ((1 <? len (b1 :: b2 :: rest)) = true) as ->.
    { apply Z.ltb_lt. unfold len. simpl. lia. }
    assert (py_nth (b1 :: b2 :: rest) 1 = Ok b2) as ->.
    { by apply py_nth_in. }
    done.
Qed.

(** X8: in a generation run [addRobots] returns two robots, the first on
    the middle cell of the first base and the second on the middle cell
    of the second base (ten cells right of and below the corner of the
    base); both cells hold [Base] in the grid, and the two robots are on
    different cells. *)
Theorem addRobots_on_bases
    (s : rng) (fuel : nat) array root s1 array' bases root' s2 :
  generateWorld s = Ok ((array, root), s1) →
  createBases fuel array root s1 = Ok ((array', bases, root'), s2) →
  ∃ b1 b2 b3,
    bases = [b1; b2; b3] ∧
    addRobots bases
    = Ok [(b1.1.1 + 10, b1.1.2 + 10); (b2.1.1 + 10, b2.1.2 + 10)] ∧
    cellAt array' (b1.1.1 + 10, b1.1.2 + 10) = Some Base ∧
    cellAt array' (b2.1.1 + 10, b2.1.2 + 10) = Some Base ∧
    (b1.1.1 + 10, b1.1.2 + 10) ≠ (b2.1.1 + 10, b2.1.2 + 10).
Proof.
  intros Eg Ec.
  destruct (generateWorld_spec s) as (a & r & s' & Eg' & Hwf & Hg & _ & Hd & _).
  rewrite Eg in Eg'. injection Eg' as <- <- <-.
  destruct (createBases_spec _ _ _ _ _ _ _ _ Hd Hwf Ec)
    as (b1 & b2 & b3 & q1 & q2 & q3 & l1 & l2 & l3 & r1 & r2 & a1 & a2 &
        -> & Hq1 & Hq2 & Hq3 & Hu1 & Hu2 & _ & Hl1 & Hl2 & Hl3 &
        Hr1 & Hr2 & Hr3 & Hb1 & Hb2 & Hb3 & F1 & F2 & F3).
  exists b1, b2, b3. split; [done|].
  destruct b1 as [[x1 y1] e1], b2 as [[x2 y2] e2], b3 as [[x3 y3] e3].
  pose proof Hb1 as (E1 & _). pose proof Hb2 as (E2 & _).
  pose proof Hb3 as (E3 & _).
  cbn [fst snd] in *. subst e1 e2 e3.
  assert (Hmid : ∀ x y, (x + 10, y + 10) ∈ squareCells ((x, y), (x + 20, y + 20))).
  { intros x y. apply squareCells_square. simpl. lia. }
  split.
  { rewrite addRobots_spec. unfold baseCentre. cbn [take map fst snd].
    replace (x1 + 20 - x1) with 20 by lia. replace (y1 + 20 - y1) with 20 by lia.
    replace (x2 + 20 - x2) with 20 by lia. replace (y2 + 20 - y2) with 20 by lia.
    change (20 `div` 2) with 10.
    by rewrite !(Z.add_comm 10). }
  assert (Hnb : cellAt a2 (x2 + 10, y2 + 10) = Some Base).
  { rewrite (proj2 F2 _). by rewrite decide_True by apply Hmid. }
  assert (Hna : cellAt a1 (x1 + 10, y1 + 10) = Some Base).
  { rewrite (proj2 F1 _). by rewrite decide_True by apply Hmid. }
  split.
  { rewrite (proj2 F3 _), (proj2 F2 _), Hna. by repeat case_decide. }
  split.
  { rewrite (proj2 F3 _), Hnb. by case_decide. }
  pose proof allQuads_NoDup as Hnd.
  apply (elem_of_removeFirst _ _ _ Hnd) in Hq2 as [H21 Hq2].
  destruct (base_in_quadrant root root q1 l1 _ Hwf eq_refl Hl1 Hb1)
    as (n1 & Hn1 & Hi1).
  destruct (base_in_quadrant root r1 q2 l2 _ Hwf Hu1 Hl2 Hb2)
    as (n2 & Hn2 & Hi2).
  intros [= Ex Ey].
  apply (quadNode_apart root 2 1 q1 q2 n1 n2 (x1 + 10, y1 + 10));
    [done..| |].
  - apply Hi1, Hmid.
  - apply Hi2. rewrite Ex, Ey. apply Hmid.
Qed.

Lemma addRobots_on_bases_witness :
  match generateWorld demoRng with
  | Ok ((array, root), s1) =>
      match createBases 30 array root s1 with
      | Ok ((array', bases, root'), s2) =>
          ∃ b1 b2 b3,
            bases = [b1; b2; b3] ∧
            addRobots bases
            = Ok [(b1.1.1 + 10, b1.1.2 + 10); (b2.1.1 + 10, b2.1.2 + 10)] ∧
            cellAt array' (b1.1.1 + 10, b1.1.2 + 10) = Some Base ∧
            cellAt array' (b2.1.1 + 10, b2.1.2 + 10) = Some Base ∧
            (b1.1.1 + 10, b1.1.2 + 10) ≠ (b2.1.1 + 10, b2.1.2 + 10)
      | _ => False
      end
  | _ => False
  end.
Proof.
  pose proof demo_createBases_returns as H.
  destruct (generateWorld demoRng) as [[[array root] s1]| |] eqn:Eg;
    [|done..].
  destruct (createBases 30 array root s1)
    as [[[[array' bases] root'] s2]| |] eqn:Ec; [|done..].
  exact (addRobots_on_bases demoRng 30 _ _ _ _ _ _ _ Eg Ec).
Defined.

(** ** Bases and robots in world units *)

(** Twenty-one cells are [2.1] world units, whatever the corner. *)
Lemma scale_of_base (x : Z) :
  0 <= x <= 249 →
  float_of_decimal
    (ddiv (dadd (dsub (Decimal (x + 20)) (Decimal x)) (Decimal 1))
          (Decimal 10)) = f2_1.
Proof.
  intros Hx.
  assert (H : forallb (fun x => bool_decide (float_of_decimal
      (ddiv (dadd (dsub (Decimal (x + 20)) (Decimal x)) (Decimal 1))
            (Decimal 10)) = f2_1)) (seqZ 0 250) = true) by (by vm_compute).
  rewrite forallb_forall in H. specialize (H x).
  rewrite <- list_elem_of_In, elem_of_seqZ in H.
  specialize (H ltac:(lia)). by apply bool_decide_eq_true in H.
Qed.

(** The middle of a base, computed from its two corners, is the middle
    computed from its middle cell taken twice. *)
Lemma middle_of_base (x : Z) :
  0 <= x <= 249 →
  dadd (Decimal (x + 10))
       (ddiv (dsub (Decimal (x + 10)) (Decimal (x + 10))) (Decimal 2))
  = dadd (Decimal x) (ddiv (dsub (Decimal (x + 20)) (Decimal x)) (Decimal 2)).
Proof.
  intros Hx.
  assert (H : forallb (fun x => bool_decide (
      dadd (Decimal (x + 10))
           (ddiv (dsub (Decimal (x + 10)) (Decimal (x + 10))) (Decimal 2))
      = dadd (Decimal x)
             (ddiv (dsub (Decimal (x + 20)) (Decimal x)) (Decimal 2))))
      (seqZ 0 250) = true) by (by vm_compute).
  rewrite forallb_forall in H. specialize (H x).
  rewrite <- list_elem_of_In, elem_of_seqZ in H.
  specialize (H ltac:(lia)). by apply bool_decide_eq_true in H.
Qed.

Lemma base_block (x y : Z) :
  0 <= x <= 249 → 0 <= y <= 249 →
  (transformFromBounds (x, y) (x + 20, y + 20)).2 = (f2_1, f2_1) ∧
  (transformFromBounds (x + 10, y + 10) (x + 10, y + 10)).1
  = (transformFromBounds (x, y) (x + 20, y + 20)).1.
Proof.
  intros Hx Hy. unfold transformFromBounds. cbn [fst snd]. split.
  - by rewrite (scale_of_base x Hx), (scale_of_base y Hy).
  - by rewrite (middle_of_base x Hx), (middle_of_base y Hy).
Qed.

(** X9: in a generation run, every base block that [createBaseBlocks]
    makes is 2.1 by 2.1 world units (the 21 by 21 cells of a base), and
    the world positions that [convertRobotsToWorld] gives the two robots
    are exactly the centres of the first two base blocks. *)
Theorem bases_and_robots_in_world
    (s : rng) (fuel : nat) array root s1 array' bases root' s2 robots :
  generateWorld s = Ok ((array, root), s1) →
  createBases fuel array root s1 = Ok ((array', bases, root'), s2) →
  addRobots bases = Ok robots →
  Forall (fun blk => blk.2 = (f2_1, f2_1)) (createBaseBlocks bases) ∧
  convertRobotsToWorld robots = map fst (take 2 (createBaseBlocks bases)).
Proof.
  intros Eg Ec Er.
  destruct (generateWorld_spec s) as (a & r & s' & Eg' & Hwf & Hg & _ & Hd & _).
  rewrite Eg in Eg'. injection Eg' as <- <- <-.
  destruct (createBases_spec _ _ _ _ _ _ _ _ Hd Hwf Ec)
    as (b1 & b2 & b3 & q1 & q2 & q3 & l1 & l2 & l3 & r1 & r2 & a1 & a2 &
        -> & Hq1 & Hq2 & Hq3 & Hu1 & Hu2 & _ & Hl1 & Hl2 & Hl3 &
        Hr1 & Hr2 & Hr3 & Hb1 & Hb2 & Hb3 & F1 & F2 & F3).
  pose proof (baseIn_offBorder _ _ Hr1 Hb1) as O1.
  pose proof (baseIn_offBorder _ _ Hr2 Hb2) as O2.
  pose proof (baseIn_offBorder _ _ Hr3 Hb3) as O3.
  rewrite addRobots_spec in Er. injection Er as <-.
  destruct b1 as [[x1 y1] e1], b2 as [[x2 y2] e2], b3 as [[x3 y3] e3].
  destruct Hb1 as (E1 & _), Hb2 as (E2 & _), Hb3 as (E3 & _).
  unfold baseOffBorder in O1, O2, O3.
  cbn [fst snd] in *. subst e1 e2 e3. cbn [fst snd] in *.
  destruct (base_block x1 y1) as [S1 P1]; [lia..|].
  destruct (base_block x2 y2) as [S2 P2]; [lia..|].
  destruct (base_block x3 y3) as [S3 P3]; [lia..|].
  split.
  - unfold createBaseBlocks. cbn [map fst snd]. by repeat constructor.
  - unfold convertRobotsToWorld, createBaseBlocks, baseCentre.
    cbn [take map fst snd].
    replace (x1 + 20 - x1) with 20 by lia. replace (y1 + 20 - y1) with 20 by lia.
    replace (x2 + 20 - x2) with 20 by lia. replace (y2 + 20 - y2) with 20 by lia.
    change (20 `div` 2) with 10. rewrite !(Z.add_comm 10).
    by rewrite P1, P2.
Qed.

Lemma bases_and_robots_in_world_witness :
  match generateWorld demoRng with
  | Ok ((array, root), s1) =>
      match createBases 30 array root s1 with
      | Ok ((array', bases, root'), s2) =>
          match addRobots bases with
          | Ok robots =>
              Forall (fun blk => blk.2 = (f2_1, f2_1))
                     (createBaseBlocks bases) ∧
              convertRobotsToWorld robots
              = map fst (take 2 (createBaseBlocks bases))
          | _ => False
          end
      | _ => False
      end
  | _ => False
  end.
Proof.
  pose proof demo_createBases_returns as H.
  destruct (generateWorld demoRng) as [[[array root] s1]| |] eqn:Eg;
    [|done..].
  destruct (createBases 30 array root s1)
    as [[[[array' bases] root'] s2]| |] eqn:Ec; [|done..].
  destruct (addRobots bases) as [robots| |] eqn:Er;
    [|by rewrite addRobots_spec in Er..].
  exact (bases_and_robots_in_world demoRng 30 _ _ _ _ _ _ _ _ Eg Ec Er).
Defined.

(** ** Obstacles *)

Lemma randrange_spec a b s :
  a < b → ∃ r, a <= r < b ∧ randrange a b s = Ok (r, rng_tail s).
Proof.
  intros H. unfold randrange. destruct (Z.ltb_spec a b); [|lia].
  eexists. split; [|done].
  pose proof (Z.mod_pos_bound (s 0%nat) (b - a)). lia.
Qed.

(** Dividing the float of a whole number of hundredths by [100.0] gives
    the double nearest to the fraction. *)
Lemma hundredths (n : Z) :
  30 <= n < 220 → fdiv (float_of_int n) f100 = double_of_ratio (n, 100).
Proof.
  intros Hn.
  assert (H : forallb (fun n => bool_decide
      (fdiv (float_of_int n) f100 = double_of_ratio (n, 100)))
      (seqZ 30 190) = true) by (by vm_compute).
  rewrite forallb_forall in H. specialize (H n).
  rewrite <- list_elem_of_In, elem_of_seqZ in H.
  specialize (H ltac:(lia)). by apply bool_decide_eq_true in H.
Qed.

Lemma addObstacle_spec (s : rng) :
  ∃ o, addObstacle s = Ok (o, rng_tail (rng_tail (rng_tail s))) ∧
       obstacleOk o.
Proof.
  unfold addObstacle.
  destruct (randrange_spec 50 130 s) as (h & Hh & Eh); [lia|].
  unfold bind at 1. rewrite Eh.
  destruct (randrange_spec 30 220 (rng_tail s)) as (w & Hw & Ew); [lia|].
  unfold bind at 1. rewrite Ew.
  destruct (randrange_spec 30 220 (rng_tail (rng_tail s)))
    as (d & Hd & Ed); [lia|].
  unfold bind at 1. rewrite Ed. unfold ret.
  eexists. split; [done|]. exists w, h, d.
  rewrite !hundredths by lia. done.
Qed.

Lemma obstacles_loop (l : list Z) :
  ∀ acc s, Forall obstacleOk acc →
    ∃ obstacles s',
      forM (fun obstacles (_ : Z) =>
              let* newObstacle := addObstacle in
              ret (obstacles ++ [newObstacle])) l acc s
      = Ok (obstacles, s') ∧
      Forall obstacleOk obstacles ∧
      length obstacles = (length acc + length l)%nat ∧
      ∀ n, s' n = s (n + 3 * length l)%nat.
Proof.
  induction l as [|i l IH]; intros acc s Hacc.
  - exists acc, s. split; [done|]. split; [done|]. split; [simpl; lia|].
    intros n. f_equal. simpl. lia.
  - destruct (addObstacle_spec s) as (o & Eo & Ho).
    destruct (IH (acc ++ [o]) (rng_tail (rng_tail (rng_tail s))))
      as (obs & s' & E & Hobs & Hlen & Hs).
    { apply Forall_app. split; [done|]. by apply Forall_singleton. }
    exists obs, s'. split.
    { cbn [forM]. unfold bind at 1. unfold bind at 1. rewrite Eo.
      unfold ret at 1. exact E. }
    split; [done|]. split.
    { rewrite Hlen, length_app. simpl. lia. }
    intros n. rewrite Hs. unfold rng_tail. f_equal. simpl. lia.
Qed.

(** X10: [generateObstacles] always returns (no random range is empty):
    between four and seven obstacles, each with a width and a depth that
    are the doubles nearest to a whole number of hundredths from 0.30 to
    2.19 and a height from 0.50 to 1.29; it takes one draw for the number
    of obstacles and three for each obstacle. *)
Theorem generateObstacles_spec (s : rng) :
  ∃ obstacles s',
    generateObstacles s = Ok (obstacles, s') ∧
    4 <= len obstacles <= 7 ∧
    Forall obstacleOk obstacles ∧
    ∀ n, s' n = s (n + 1 + 3 * length obstacles)%nat.
Proof.
  unfold generateObstacles.
  destruct (randrange_spec 4 8 s) as (num & Hnum & En); [lia|].
  unfold bind at 1. rewrite En.
  destruct (obstacles_loop (range 0 num) [] (rng_tail s))
    as (obs & s' & E & Hobs & Hlen & Hs); [done|].
  exists obs, s'. split; [done|].
  assert (length obs = Z.to_nat num) as Hl.
  { rewrite Hlen. unfold range. rewrite length_seqZ. simpl. lia. }
  split; [unfold len; lia|]. split; [done|].
  intros n. rewrite Hs. unfold rng_tail, range. rewrite length_seqZ.
  f_equal. lia.
Qed.

(** ** The edge of the grid *)

Lemma fold_left_snoc_elem {A B} (f : B → list A) (l : list B) :
  ∀ init c,
    c ∈ fold_left (fun ps i => ps ++ f i) l init ↔
    c ∈ init ∨ ∃ i, i ∈ l ∧ c ∈ f i.
Proof.
  induction l as [|i l IH]; intros init c; cbn [fold_left].
  - split; [by left|]. intros [H|(i & []%elem_of_nil & _)]. done.
  - rewrite IH, elem_of_app. split.
    + intros [[H|H]|(j & Hj & H)]; [by left|right..].
      * exists i. split; [apply elem_of_cons; by left|done].
      * exists j. split; [apply elem_of_cons; by right|done].
    + intros [H|(j & [->|Hj]%elem_of_cons & H)]; [by left; left|by left; right|].
      right. by exists j.
Qed.

Lemma fold_left_add_elem {A} `{EqDecision A} (l : list A) :
  ∀ init c,
    c ∈ fold_left (fun ps x => if decide (x ∈ ps) then ps else ps ++ [x])
                  l init ↔
    c ∈ init ∨ c ∈ l.
Proof.
  induction l as [|x l IH]; intros init c; cbn [fold_left].
  - rewrite elem_of_nil. tauto.
  - rewrite IH, elem_of_cons. case_decide as Hx.
    + split; [tauto|]. intros [H|[->|H]]; tauto.
    + rewrite elem_of_app, list_elem_of_singleton. tauto.
Qed.

Lemma fold_left_add_NoDup {A} `{EqDecision A} (l : list A) :
  ∀ init, NoDup init →
    NoDup (fold_left (fun ps x => if decide (x ∈ ps) then ps else ps ++ [x])
                     l init).
Proof.
  induction l as [|x l IH]; intros init Hnd; cbn [fold_left]; [done|].
  apply IH. case_decide as Hx; [done|].
  apply NoDup_app. split; [done|]. split; [|apply NoDup_singleton].
  intros y Hy ->%list_elem_of_singleton. done.
Qed.

Lemma fold_left_nested {A B C} (f : A → C → A) (g : B → list C) (l : list B) :
  ∀ init,
    fold_left (fun acc i => fold_left f (g i) acc) l init
    = fold_left f (l ≫= g) init.
Proof.
  induction l as [|i l IH]; intros init; [done|].
  cbn [fold_left]. rewrite IH. change ((i :: l) ≫= g) with (g i ++ (l ≫= g)).
  by rewrite fold_left_app.
Qed.

Lemma fold_left_same {A B} (f g : A → B → A) (l : list B) :
  (∀ a x, f a x = g a x) → ∀ init, fold_left f l init = fold_left g l init.
Proof.
  intros H. induction l as [|x l IH]; intros init; [done|].
  cbn [fold_left]. by rewrite H, IH.
Qed.

Lemma edge_rows_NoDup (w : Z) (l : list Z) :
  0 ≠ w - 1 → NoDup l →
  NoDup (fold_left (fun ps i => ps ++ [(0, i); (w - 1, i)]) l []).
Proof.
  intros Hw Hl.
  assert (∀ init, NoDup init → (∀ c, c ∈ init → c.2 ∉ l) →
            NoDup (fold_left (fun ps i => ps ++ [(0, i); (w - 1, i)]) l init))
    as H; [|apply H; [apply NoDup_nil_2|by intros c ?%elem_of_nil]].
  induction Hl as [|i l Hi Hl IH]; intros init Hnd Hfresh; [done|].
  cbn [fold_left]. apply IH.
  - apply NoDup_app. split; [done|]. split.
    + intros c Hc [->|[->|[]%elem_of_nil]%elem_of_cons]%elem_of_cons;
        apply (Hfresh _ Hc); apply elem_of_cons; by left.
    + apply NoDup_cons. split; [|apply NoDup_singleton].
      intros [= E]%list_elem_of_singleton. done.
  - intros c [Hc|Hc]%elem_of_app Hin.
    + apply (Hfresh c Hc). apply elem_of_cons. by right.
    + apply elem_of_cons in Hc as [->|Hc]; [by apply Hi|].
      apply elem_of_cons in Hc as [->|Hc]; [by apply Hi|].
      by apply elem_of_nil in Hc.
Qed.

(** X11: [generateEdges] raises [IndexError] on an array with no row; on
    any other array it returns the positions of the first and last
    column for every row and of the first and last row for every column
    (whatever the rows after the first hold), and no other; no position
    comes twice when the first row has two cells or more. *)
Theorem generateEdges_exact (row0 : list cell) (rest : grid) :
  generateEdges [] = Raise IndexError ∧
  ∃ used,
    generateEdges (row0 :: rest) = Ok used ∧
    (∀ c, c ∈ used ↔
          ((c.1 = 0 ∨ c.1 = len row0 - 1) ∧ 0 <= c.2 < len (row0 :: rest)) ∨
          ((c.2 = 0 ∨ c.2 = len (row0 :: rest) - 1) ∧ 0 <= c.1 < len row0)) ∧
    (2 <= len row0 → NoDup used).
Proof.
  split; [done|]. unfold generateEdges.
  change (py_nth (row0 :: rest) 0) with (Ok row0). cbn [res_bind].
  set (h := len (row0 :: rest)). set (w := len row0).
  eexists. split; [done|].
  rewrite (fold_left_same _
             (fun acc i =>
                fold_left (fun positions p =>
                             if decide (p ∈ positions) then positions
                             else positions ++ [p])
                          [(i, 0); (i, h - 1)] acc)) by done.
  rewrite (fold_left_nested
             (fun positions p => if decide (p ∈ positions) then positions
                                 else positions ++ [p])
             (fun i => [(i, 0); (i, h - 1)])).
  split.
  - intros c. rewrite fold_left_add_elem, fold_left_snoc_elem.
    rewrite elem_of_nil, list_elem_of_bind.
    split.
    + intros [[[]|(i & Hi%elem_of_range & Hc)]|(i & Hc & Hi%elem_of_range)].
      * left.
        apply elem_of_cons in Hc as [->|[->|[]%elem_of_nil]%elem_of_cons];
          simpl; lia.
      * right.
        apply elem_of_cons in Hc as [->|[->|[]%elem_of_nil]%elem_of_cons];
          simpl; lia.
    + intros [[Hx Hy]|[Hy Hx]].
      * left. right. exists c.2. split; [by apply elem_of_range|].
        destruct c as [cx cy]. simpl in *.
        destruct Hx as [->| ->]; [apply elem_of_cons; by left|].
        apply elem_of_cons. right. apply elem_of_cons. by left.
      * right. exists c.1. split; [|by apply elem_of_range].
        destruct c as [cx cy]. simpl in *.
        destruct Hy as [->| ->]; [apply elem_of_cons; by left|].
        apply elem_of_cons. right. apply elem_of_cons. by left.
  - intros Hw. apply fold_left_add_NoDup, edge_rows_NoDup; [lia|].
    apply NoDup_seqZ.
Qed.

(** ** The wall parts of [generateWallParts] *)

Lemma wallRunsLoop_concat (array : grid) :
  ∀ rest acc cur parts,
    wallRunsLoop rest array acc cur = Ok parts →
    concat parts = concat acc ++ cur ++ filter (wallAt array) rest.
Proof.
  induction rest as [|p rest IH]; intros acc cur parts E;
    cbn [wallRunsLoop] in E.
  - injection E as <-. case_decide as Hc.
    + subst. by rewrite app_nil_r.
    + rewrite concat_app. simpl. by rewrite !app_nil_r.
  - apply res_bind_Ok in E as (v & Ev & E).
    destruct (decide (v = Wall)) as [->|Hv].
    + rewrite filter_cons_True by done. rewrite (IH _ _ _ E).
      by rewrite <- !app_assoc.
    + rewrite filter_cons_False by (unfold wallAt; congruence).
      destruct (decide (cur = [])) as [->|Hc]; rewrite (IH _ _ _ E); [done|].
      rewrite concat_app. simpl. by rewrite !app_nil_r, <- app_assoc.
Qed.

Lemma wallRunsLoop_max (array : grid) (whole : list coord) :
  ∀ rest acc cur pre parts,
    whole = pre ++ cur ++ rest →
    Forall (wallAt array) cur →
    (∀ x, last pre = Some x → ¬ wallAt array x) →
    Forall (wallRun array whole) acc →
    wallRunsLoop rest array acc cur = Ok parts →
    Forall (wallRun array whole) parts.
Proof.
  induction rest as [|p rest IH]; intros acc cur pre parts Hw Hcur Hpre Hacc E;
    cbn [wallRunsLoop] in E.
  - injection E as <-. case_decide as Hc; [done|].
    apply Forall_app. split; [done|].
    apply Forall_singleton. split; [done|]. split; [done|].
    exists pre, []. split; [done|]. split; [done|]. by intros x [=].
  - apply res_bind_Ok in E as (v & Ev & E).
    destruct (decide (v = Wall)) as [->|Hv].
    + apply (IH _ _ pre _) in E; [done| | |done..].
      * rewrite Hw. by rewrite <- app_assoc.
      * apply Forall_app. split; [done|]. by apply Forall_singleton.
    + assert (¬ wallAt array p) as Hp by (unfold wallAt; congruence).
      destruct (decide (cur = [])) as [->|Hc].
      * apply (IH _ _ (pre ++ [p]) _) in E; [done| |done| |done].
        -- rewrite Hw. simpl. by rewrite <- app_assoc.
        -- intros x. rewrite last_snoc. by intros [= <-].
      * apply (IH _ _ (pre ++ cur ++ [p]) _) in E; [done| |done| |].
        -- rewrite Hw. simpl. by rewrite <- !app_assoc.
        -- intros x. rewrite !app_assoc, last_snoc. by intros [= <-].
        -- apply Forall_app. split; [done|]. apply Forall_singleton.
           split; [done|]. split; [done|].
           exists pre, (p :: rest). split; [done|]. split; [done|].
           simpl. by intros x [= <-].
Qed.

(** [generateWallParts] keeps the walls and sets the [wallParts] of every
    node with a wall to what its loop gives on that wall. *)
Lemma generateWallParts_each (array : grid) (n n' : node) :
  generateWallParts n array = Ok n' →
  wallCells n' = wallCells n ∧
  ∀ m w, subnode m n' → wall m = Some w →
         wallRunsLoop w array [] [] = Ok (wallParts m).
Proof.
  revert n'.
  induction n as [sh w un wp bp bpos out c0 c1 IH0 IH1] using node_induction.
  intros n' E. cbn [generateWallParts] in E.
  apply res_bind_Ok in E as (c0' & E0 & E).
  apply res_bind_Ok in E as (c1' & E1 & E).
  assert (match c0, c0' with
          | Some c, Some c' =>
              wallCells c' = wallCells c ∧
              ∀ m w, subnode m c' → wall m = Some w →
                     wallRunsLoop w array [] [] = Ok (wallParts m)
          | None, None => True
          | _, _ => False
          end) as H0.
  { destruct c0 as [c|].
    - apply res_bind_Ok in E0 as (c' & Ec & [= <-]). by apply IH0.
    - by injection E0 as <-. }
  assert (match c1, c1' with
          | Some c, Some c' =>
              wallCells c' = wallCells c ∧
              ∀ m w, subnode m c' → wall m = Some w →
                     wallRunsLoop w array [] [] = Ok (wallParts m)
          | None, None => True
          | _, _ => False
          end) as H1.
  { destruct c1 as [c|].
    - apply res_bind_Ok in E1 as (c' & Ec & [= <-]). by apply IH1.
    - by injection E1 as <-. }
  clear E0 E1 IH0 IH1.
  assert (∃ wp', n' = Node sh w un wp' bp bpos out c0' c1' ∧
                 ∀ w', w = Some w' →
                       wallRunsLoop w' array [] [] = Ok wp')
    as (wp' & -> & Hown).
  { destruct w as [w|].
    - apply res_bind_Ok in E as (parts & Ep & [= <-]).
      exists parts. split; [done|]. by intros w' [= <-].
    - injection E as <-. by exists wp. }
  split.
  - cbn [wallCells]. f_equal. f_equal.
    + destruct c0, c0'; try done. apply H0.
    + destruct c1, c1'; try done. apply H1.
  - intros m w' Hm Hw. inversion Hm as [|? c Hl Hc|? c Hr Hc]; subst.
    + by apply Hown.
    + simpl in Hl. subst c0'. destruct c0; [|done]. by apply H0.
    + simpl in Hr. subst c1'. destruct c1; [|done]. by apply H1.
Qed.

(** X12: when [generateWallParts] returns, the tree has the walls it had,
    and the [wallParts] of every node with a wall are exactly the maximal
    runs of cells of the wall that hold ["w"], in order: put end to end
    they are the cells of the wall that hold ["w"]. *)
Theorem generateWallParts_exact (array : grid) (n n' : node) :
  generateWallParts n array = Ok n' →
  wallCells n' = wallCells n ∧
  ∀ m w, subnode m n' → wall m = Some w →
         concat (wallParts m) = filter (wallAt array) w ∧
         Forall (wallRun array w) (wallParts m).
Proof.
  intros E. destruct (generateWallParts_each _ _ _ E) as [Hc Hp].
  split; [done|]. intros m w Hm Hw. specialize (Hp m w Hm Hw). split.
  - by rewrite (wallRunsLoop_concat _ _ _ _ _ Hp).
  - by apply (wallRunsLoop_max array w w [] [] [] _).
Qed.

Lemma generateWallParts_exact_witness :
  match generateWallParts plainTree createEmptyWorld with
  | Ok n' =>
      wallCells n' = wallCells plainTree ∧
      ∀ m w, subnode m n' → wall m = Some w →
             concat (wallParts m) = filter (wallAt createEmptyWorld) w ∧
             Forall (wallRun createEmptyWorld w) (wallParts m)
  | _ => False
  end.
Proof.
  destruct (generateWallParts plainTree createEmptyWorld) as [n'| |] eqn:E.
  - exact (generateWallParts_exact _ _ _ E).
  - by vm_compute in E.
  - by vm_compute in E.
Defined.

(** ** The removal loop of [createAllWallBlocks] *)

Lemma removeFirst_keeps {A} `{EqDecision A} (x y : A) (l : list A) :
  x ∈ l → x ≠ y → x ∈ removeFirst y l.
Proof.
  induction l as [|z l IH]; intros Hx Hne; [done|]. cbn [removeFirst].
  apply elem_of_cons in Hx as [->|Hx].
  - rewrite decide_False by congruence. apply elem_of_cons. by left.
  - case_decide; [done|]. apply elem_of_cons. right. by apply IH.
Qed.

Lemma removeFirst_sublist {A} `{EqDecision A} (y : A) (l : list A) :
  sublist (removeFirst y l) l.
Proof.
  induction l as [|z l IH]; [done|]. cbn [removeFirst]. case_decide.
  - by apply sublist_cons.
  - by apply sublist_skip.
Qed.

Lemma removeFirst_app_used {A} `{EqDecision A} (y : A) (kept rest : list A) :
  y ∉ kept → removeFirst y (kept ++ y :: rest) = kept ++ rest.
Proof.
  induction kept as [|z kept IH]; intros Hy; cbn [app removeFirst].
  - by rewrite decide_True.
  - apply not_elem_of_cons in Hy as [Hne Hy].
    rewrite decide_False by done. by rewrite IH.
Qed.

Lemma removeUsedLoop_keeps (U : list coord) (fuel : nat) :
  ∀ i part c, c ∈ part → c ∈ removeUsedLoop fuel i part U ∨ c ∈ U.
Proof.
  induction fuel as [|fuel IH]; intros i part c Hc; [by left|].
  cbn [removeUsedLoop]. destruct (part !! i) as [bit|]; [|by left].
  case_decide as Hb; [|by apply IH].
  destruct (decide (c = bit)) as [->|Hne]; [by right|].
  apply IH. by apply removeFirst_keeps.
Qed.

Lemma removeUsedLoop_sublist (U : list coord) (fuel : nat) :
  ∀ i part, sublist (removeUsedLoop fuel i part U) part.
Proof.
  induction fuel as [|fuel IH]; intros i part; [done|].
  cbn [removeUsedLoop]. destruct (part !! i) as [bit|]; [|done].
  case_decide as Hb; [|by apply IH].
  etrans; [apply IH|]. apply removeFirst_sublist.
Qed.

Lemma usedApart_tail U a rest : usedApart U (a :: rest) → usedApart U rest.
Proof. intros H l1 x y l2 E. apply (H (a :: l1) x y l2). by rewrite E. Qed.

(** The loop at index [length kept], the cells before it being unused:
    one turn. *)
Lemma removeUsedLoop_turn (U : list coord) (fuel : nat) kept bit rest :
  Forall (λ c, c ∉ U) kept →
  removeUsedLoop (S fuel) (length kept) (kept ++ bit :: rest) U
  = if decide (bit ∈ U)
    then removeUsedLoop fuel (S (length kept)) (kept ++ rest) U
    else removeUsedLoop fuel (length (kept ++ [bit])) ((kept ++ [bit]) ++ rest) U.
Proof.
  intros Hk. cbn [removeUsedLoop].
  rewrite lookup_app_r, Nat.sub_diag by lia. cbn [lookup list_lookup].
  case_decide as Hb.
  - rewrite removeFirst_app_used; [done|].
    intros Hin. rewrite Forall_forall in Hk. by apply (Hk bit).
  - rewrite <- app_assoc. f_equal. rewrite length_app. simpl. lia.
Qed.

Lemma removeUsedLoop_filter (U : list coord) (fuel : nat) :
  ∀ kept rest,
    (length rest <= fuel)%nat → Forall (λ c, c ∉ U) kept → usedApart U rest →
    removeUsedLoop fuel (length kept) (kept ++ rest) U
    = kept ++ filter (λ c, c ∉ U) rest.
Proof.
  induction fuel as [|fuel IH]; intros kept rest Hlen Hk Hr.
  - destruct rest; [done|]. simpl in Hlen. lia.
  - destruct rest as [|bit rest].
    { cbn [removeUsedLoop].
      by rewrite lookup_ge_None_2 by (rewrite length_app; simpl; lia). }
    rewrite removeUsedLoop_turn by done. simpl in Hlen. case_decide as Hb.
    + rewrite filter_cons_False by (by intros H; apply H).
      destruct rest as [|b rest].
      { rewrite app_nil_r, removeUsedLoop_done by lia.
        by rewrite filter_nil, app_nil_r. }
      assert (b ∉ U) as Hbn by (by apply (Hr [] bit b rest)).
      rewrite filter_cons_True by done.
      replace (S (length kept)) with (length (kept ++ [b]))
        by (rewrite length_app; simpl; lia).
      replace (kept ++ b :: rest) with ((kept ++ [b]) ++ rest)
        by (by rewrite <- app_assoc).
      rewrite IH.
      * by rewrite <- app_assoc.
      * simpl in Hlen. lia.
      * apply Forall_app. split; [done|]. by apply Forall_singleton.
      * by apply usedApart_tail, usedApart_tail in Hr.
    + rewrite filter_cons_True by done. rewrite IH.
      * by rewrite <- app_assoc.
      * lia.
      * apply Forall_app. split; [done|]. by apply Forall_singleton.
      * by apply usedApart_tail in Hr.
Qed.

Lemma removeFirst_before {A} `{EqDecision A} (y c : A) :
  ∀ (l : list A) (k i : nat),
    NoDup l → l !! k = Some c → l !! i = Some y → (k < i)%nat →
    removeFirst y l !! k = Some c.
Proof.
  induction l as [|z l IH]; intros k i Hnd Hk Hi Hlt; [done|].
  apply NoDup_cons in Hnd as [Hz Hnd]. cbn [removeFirst].
  destruct i as [|i]; [lia|]. simpl in Hi.
  rewrite decide_False.
  2:{ intros ->. apply Hz. by eapply list_elem_of_lookup_2. }
  destruct k as [|k]; [done|]. simpl in Hk. simpl.
  apply (IH k i); [done..|lia].
Qed.

(** A cell the index has passed stays in the part. *)
Lemma removeUsedLoop_behind (U : list coord) (fuel : nat) :
  ∀ i part c k,
    NoDup part → part !! k = Some c → (k < i)%nat →
    c ∈ removeUsedLoop fuel i part U.
Proof.
  induction fuel as [|fuel IH]; intros i part c k Hnd Hk Hlt.
  { by eapply list_elem_of_lookup_2. }
  cbn [removeUsedLoop]. destruct (part !! i) as [bit|] eqn:Ei.
  2:{ by eapply list_elem_of_lookup_2. }
  case_decide as Hb.
  - apply (IH _ _ _ k).
    + eapply sublist_NoDup; [done|apply removeFirst_sublist].
    + by apply (removeFirst_before bit c part k i).
    + lia.
  - apply (IH _ _ _ k); [done..|lia].
Qed.

Lemma removeUsedLoop_unused (U : list coord) :
  ∀ l1 fuel kept rest,
    Forall (λ c, c ∉ U) kept → Forall (λ c, c ∉ U) l1 →
    removeUsedLoop (length l1 + fuel) (length kept) (kept ++ l1 ++ rest) U
    = removeUsedLoop fuel (length (kept ++ l1)) ((kept ++ l1) ++ rest) U.
Proof.
  induction l1 as [|x l1 IH]; intros fuel kept rest Hk Hl.
  { by rewrite !app_nil_r. }
  apply Forall_cons in Hl as [Hx Hl].
  cbn [length app Nat.add]. rewrite removeUsedLoop_turn by done.
  rewrite decide_False by done. rewrite IH.
  - by replace ((kept ++ [x]) ++ l1) with (kept ++ x :: l1)
      by (by rewrite <- app_assoc).
  - apply Forall_app. split; [done|]. by apply Forall_singleton.
  - done.
Qed.

(** X13: the loop that takes the used cells out of a wall part
    ([for bit in part: if bit in usedPos: part.remove(bit)]) leaves the
    cells of the part in their order and never takes out a cell that is
    not used.  It takes out every used cell when no used cell of the part
    is followed by another used cell; in a part without repeated cells,
    when the first used cell is followed by a used cell, that second one
    is left in. *)
Theorem removeUsed_exact (part usedPos : list coord) :
  sublist (removeUsed part usedPos) part ∧
  (∀ c, c ∈ part → c ∉ usedPos → c ∈ removeUsed part usedPos) ∧
  (usedApart usedPos part →
   removeUsed part usedPos = filter (λ c, c ∉ usedPos) part) ∧
  (NoDup part →
   ∀ l1 a b l2, part = l1 ++ a :: b :: l2 →
                Forall (λ c, c ∉ usedPos) l1 → a ∈ usedPos → b ∈ usedPos →
                b ∈ removeUsed part usedPos).
Proof.
  unfold removeUsed. split; [apply removeUsedLoop_sublist|]. split.
  { intros c Hc Hn.
    by destruct (removeUsedLoop_keeps usedPos (length part) 0 part c Hc). }
  split.
  { intros H. by apply (removeUsedLoop_filter usedPos (length part) [] part). }
  intros Hnd l1 a b l2 -> Hl Ha Hb.
  rewrite length_app. cbn [length].
  pose proof (removeUsedLoop_unused usedPos l1 (S (S (length l2))) []
                (a :: b :: l2) (Forall_nil_2 _) Hl) as E.
  cbn [app length] in E. rewrite E. clear E.
  rewrite removeUsedLoop_turn by done. rewrite decide_True by done.
  apply (removeUsedLoop_behind _ _ _ _ _ (length l1)); [|by apply list_lookup_middle|lia].
  apply NoDup_app in Hnd as (H1 & H2 & H3). apply NoDup_cons in H3 as [_ H3].
  apply NoDup_app. split; [done|]. split; [|done].
  intros x Hx Hx'. apply (H2 x Hx). apply elem_of_cons. by right.
Qed.

(** ** What the wall blocks cover *)

Lemma py_nth_lookup {A} (l : list A) (i : Z) (a : A) :
  0 <= i → py_nth l i = Ok a ↔ l !! Z.to_nat i = Some a.
Proof.
  intros Hi. split; [|by apply py_nth_in]. unfold py_nth, py_index.
  destruct (Z.ltb_spec i 0); [lia|].
  destruct (_ && _); [|done].
  destruct (l !! Z.to_nat i); [|done]. by intros [= ->].
Qed.

Lemma getCell_cellAt (array : grid) (c : coord) (v : cell) :
  0 <= c.1 → 0 <= c.2 → getCell array c = Ok v ↔ cellAt array c = Some v.
Proof.
  intros Hx Hy. rewrite cellAt_Some. unfold getCell. split.
  - intros (row & Er & Ec)%res_bind_Ok.
    apply py_nth_lookup in Er; [|done]. apply py_nth_lookup in Ec; [|done].
    eauto.
  - intros (_ & _ & row & Er & Ec). rewrite (py_nth_in _ _ _ Hy Er).
    by apply py_nth_in.
Qed.

Lemma elem_of_wallCells (n : node) (c : coord) :
  c ∈ wallCells n → ∃ m w, subnode m n ∧ wall m = Some w ∧ c ∈ w.
Proof.
  induction n as [sh w un wp bp bpos out c0 c1 IH0 IH1] using node_induction.
  cbn [wallCells]. rewrite !elem_of_app. intros [Hc|[Hc|Hc]].
  - destruct w as [w|]; [|by apply elem_of_nil in Hc].
    eexists _, w. split; [apply subnode_here|]. done.
  - destruct c0 as [d|]; [|by apply elem_of_nil in Hc].
    destruct (IH0 d eq_refl Hc) as (m & w' & Hm & Hw & Hcw).
    exists m, w'. split; [|done]. by eapply subnode_left.
  - destruct c1 as [d|]; [|by apply elem_of_nil in Hc].
    destruct (IH1 d eq_refl Hc) as (m & w' & Hm & Hw & Hcw).
    exists m, w'. split; [|done]. by eapply subnode_right.
Qed.

Lemma straight_thin (p : list coord) a t b :
  straight p → p = a :: t → last p = Some b → thin (a, b).
Proof.
  intros Hs -> El. rewrite last_lookup in El. cbn [length Nat.pred] in El.
  unfold thin. cbn [fst snd].
  destruct Hs as [(x & y & H)|(x & y & H)].
  - assert (a = (x + Z.of_nat 0, y)) as -> by (by apply (H 0%nat a)).
    apply H in El as [_ ->]. cbn [fst snd]. right. lia.
  - assert (a = (x, y + Z.of_nat 0)) as -> by (by apply (H 0%nat a)).
    apply H in El as [_ ->]. cbn [fst snd]. left. lia.
Qed.

(** What is left of a part of the wall [w], when only the ends of [w]
    can be used, is one run of [w]. *)
Lemma removeUsed_run (w p U : list coord) :
  NoDup w → 3 <= len w → isRun w p →
  (∀ c, c ∈ U → c ∈ p → head w = Some c ∨ last w = Some c) →
  removeUsed p U ≠ [] → isRun w (removeUsed p U).
Proof.
  intros Hnd H3 Hp Hends Hne.
  destruct (removeUsed_spec p U (isRun_NoDup _ _ Hp Hnd)) as (l1 & l2 & Hsplit & _).
  { intros k c Hk Hlt Hc Hu.
    destruct (isRun_lookup w p k c Hp Hc) as (m1 & m2 & Ew & Hwk).
    assert (length w = length m1 + length p + length m2)%nat as HL
      by (rewrite Ew, !length_app; lia).
    destruct (Hends c Hu) as [Hh|Hl].
    - by eapply list_elem_of_lookup_2.
    - rewrite head_lookup in Hh.
      pose proof (NoDup_lookup _ _ _ _ Hnd Hh Hwk). lia.
    - rewrite last_lookup in Hl.
      pose proof (NoDup_lookup _ _ _ _ Hnd Hl Hwk). lia. }
  { intros (a & b & -> & Ha & Hb).
    destruct (isRun_lookup w [a; b] 0 a Hp eq_refl) as (m1 & m2 & Ew & Hwa).
    assert (w !! (length m1 + 1)%nat = Some b) as Hwb.
    { rewrite Ew, lookup_app_r by lia.
      by replace (length m1 + 1 - length m1)%nat with 1%nat by lia. }
    assert (length w = length m1 + 2 + length m2)%nat as HL
      by (rewrite Ew, !length_app; simpl; lia).
    unfold len in H3.
    assert (∀ c k, c ∈ [a; b] → c ∈ U → w !! k = Some c →
                   k = 0%nat ∨ k = (length w - 1)%nat) as Hk.
    { intros c k Hc Hu Hwk. destruct (Hends c Hu Hc) as [Hh|Hl].
      - left. rewrite head_lookup in Hh.
        by apply (NoDup_lookup _ _ _ _ Hnd Hwk Hh).
      - right. rewrite last_lookup in Hl.
        replace (Nat.pred (length w)) with (length w - 1)%nat in Hl by lia.
        by apply (NoDup_lookup _ _ _ _ Hnd Hwk Hl). }
    destruct (Hk a _ ltac:(apply elem_of_cons; by left) Ha Hwa);
      destruct (Hk b _ ltac:(apply elem_of_cons; right;
                             apply elem_of_cons; by left) Hb Hwb); lia. }
  eapply isRun_trans; [exact Hp|]. split; [done|]. by exists l1, l2.
Qed.

(** The blocks of the parts of one wall: every cell of a part is used
    before or added now, and the cells added are those of the parts that
    the spans of the new blocks hold; every block is one cell thick. *)
Lemma blocksOfParts_cover (w : list coord) :
  NoDup w → straight w → 3 <= len w →
  ∀ parts wd U,
    Forall (isRun w) parts → NoDup (concat parts) →
    (∀ c, c ∈ U → c ∈ concat parts → head w = Some c ∨ last w = Some c) →
    ∃ blocks added,
      blocksOfParts parts (wd, U) = (wd ++ blocks, U ++ added) ∧
      (∀ c, c ∈ concat parts → c ∈ U ∨ c ∈ added) ∧
      (∀ c, c ∈ added → c ∈ concat parts) ∧
      (∀ c, c ∈ added ↔ ∃ b, b ∈ blocks ∧ inSpan b c) ∧
      Forall thin blocks.
Proof.
  intros Hnd Hst H3.
  induction parts as [|p parts IH]; intros wd U Hruns Hcat Hends.
  { exists [], []. rewrite !app_nil_r. split; [done|].
    split; [by intros c Hc%elem_of_nil|]. split; [done|]. split; [|done].
    intros c. split; [by intros Hc%elem_of_nil|].
    by intros (b & Hb%elem_of_nil & _). }
  apply Forall_cons_1 in Hruns as [Hp Hruns].
  cbn [concat] in Hcat. apply NoDup_app in Hcat as (Hpnd & Hdis & Hrest).
  rewrite blocksOfParts_cons.
  pose proof (removeUsed_run w p U Hnd H3 Hp) as Hrun.
  pose proof (removeUsedLoop_keeps U (length p) 0 p) as Hkeep.
  pose proof (removeUsedLoop_sublist U (length p) 0 p) as Hsub.
  fold (removeUsed p U) in Hkeep, Hsub.
  set (p' := removeUsed p U) in *.
  assert (∀ c, c ∈ p' → c ∈ p) as Hsubp.
  { intros c Hc. by eapply elem_of_sublist. }
  destruct (IH (match p', last p' with
                | a :: _, Some q => wd ++ [(a, q)]
                | _, _ => wd
                end) (U ++ p') Hruns Hrest)
    as (blocks & added & E & Hcov & Hadd & Hspans & Hthin).
  { intros c [Hu|Hc']%elem_of_app Hc.
    - apply Hends; [done|]. cbn [concat]. apply elem_of_app. by right.
    - by destruct (Hdis c (Hsubp c Hc')). }
  rewrite E. destruct (decide (p' = [])) as [Hnil|Hne].
  - rewrite Hnil in *. cbn [last]. rewrite app_nil_r in *.
    exists blocks, added. split; [done|]. split.
    { intros c [Hc|Hc]%elem_of_app; [|by apply Hcov].
      destruct (Hkeep c Hc) as [[]%elem_of_nil|Hu]. by left. }
    split; [|done].
    intros c Hc. cbn [concat]. apply elem_of_app. right. by apply Hadd.
  - assert (isRun w p') as Hrun'.
    { apply Hrun; [|done]. intros c Hu Hc. apply Hends; [done|].
      cbn [concat]. apply elem_of_app. by left. }
    pose proof (straight_run _ _ Hst Hrun') as Hst'.
    destruct (straight_span p' Hst' Hne) as (a & b & t & Ep & El & Hspan).
    pose proof (straight_thin p' a t b Hst' Ep El) as Hth.
    rewrite Ep in *. rewrite El.
    exists ((a, b) :: blocks), ((a :: t) ++ added).
    split; [by rewrite <- !app_assoc|]. split.
    { intros c [Hc|Hc]%elem_of_app.
      - destruct (Hkeep c Hc) as [Hk|Hu]; [|by left].
        right. apply elem_of_app. by left.
      - destruct (Hcov c Hc) as [[Hu|Hk]%elem_of_app|Ha]; [by left|..];
          right; apply elem_of_app; [by left|by right]. }
    split.
    { intros c [Hc|Hc]%elem_of_app; cbn [concat]; apply elem_of_app.
      - left. by apply Hsubp.
      - right. by apply Hadd. }
    split; [|by apply Forall_cons].
    intros c. rewrite elem_of_app. split.
    + intros [Hc|Hc].
      * exists (a, b). split; [apply elem_of_cons; by left|by apply Hspan].
      * apply Hspans in Hc as (b' & Hb' & Hc). exists b'.
        split; [apply elem_of_cons; by right|done].
    + intros (b' & [->|Hb']%elem_of_cons & Hc).
      * left. by apply Hspan.
      * right. apply Hspans. by exists b'.
Qed.

(** The blocks of the whole tree, in the same way. *)
Lemma createAllWallBlocks_cover (n : node) :
  wf n → partsOk n →
  ∀ U, (∀ c, c ∈ U → ¬ inside n c) →
  ∃ blocks added,
    createAllWallBlocks n U = (blocks, U ++ added) ∧
    (∀ m c, subnode m n → c ∈ concat (wallParts m) → c ∈ U ∨ c ∈ added) ∧
    (∀ c, c ∈ added →
          within n c ∧ ∃ m, subnode m n ∧ c ∈ concat (wallParts m)) ∧
    (∀ c, c ∈ added ↔ ∃ b, b ∈ blocks ∧ inSpan b c) ∧
    Forall thin blocks.
Proof.
  induction n as [sh w un wp bp bpos out c0 c1 IH0 IH1] using node_induction.
  intros Hwf Hparts U HU.
  set (n := Node sh w un wp bp bpos out c0 c1) in *.
  destruct (wf_children n Hwf)
    as [(Hl & Hr & Hw & Hwp)|(d0 & d1 & w' & Hl & Hr & Hw & Hx2 & Hy2 & Hs & W0 & W1)].
  - cbn in Hl, Hr, Hw, Hwp. subst c0 c1 w wp.
    exists [], []. rewrite app_nil_r. split; [done|]. split.
    { intros m c Hm Hc. inversion Hm; subst; try done.
      by apply elem_of_nil in Hc. }
    split; [by intros c Hc%elem_of_nil|]. split; [|done].
    intros c. split; [by intros Hc%elem_of_nil|].
    by intros (b & Hb%elem_of_nil & _).
  - cbn in Hl, Hr, Hw. subst c0 c1 w.
    destruct (wf_wall n w' Hwf eq_refl) as (Hin & Hinner & H3 & Hnd).
    pose proof (wf_wall_straight n w' Hwf eq_refl) as Hst.
    destruct (Hparts n w' (subnode_here n) eq_refl) as [Hruns Hsub].
    destruct (blocksOfParts_cover w' Hnd Hst H3 wp [] U Hruns)
      as (bo & ao & Eo & Hco & Hao & Hso & Hto).
    { by eapply sublist_NoDup. }
    { intros c Hu Hc.
      assert (c ∈ w') as Hcw.
      { by eapply elem_of_sublist. }
      apply list_elem_of_lookup_1 in Hcw as (k & Hk).
      pose proof (lookup_lt_Some _ _ _ Hk) as Hlt.
      destruct (decide (0 < k < length w' - 1)%nat) as [Hmid|Hmid].
      - by destruct (HU c Hu (proj1 (Hinner k c Hk) Hmid)).
      - destruct (decide (k = 0%nat)) as [->|Hk0].
        + left. by rewrite head_lookup.
        + right. rewrite last_lookup.
          by replace (Nat.pred (length w')) with k by lia. }
    assert (∀ c, c ∈ ao → c ∈ w') as Haow.
    { intros c Hc. eapply elem_of_sublist; [|exact Hsub]. by apply Hao. }
    destruct (IH0 d0 eq_refl W0 (partsOk_left n d0 eq_refl Hparts) (U ++ ao))
      as (b0 & a0 & E0 & Hc0 & Ha0 & Hs0 & Ht0).
    { intros c [Hc|Hc]%elem_of_app Hi.
      - apply (HU c Hc). by eapply splitAt_inside_l.
      - by destruct (splitAt_wall_not_inside n d0 d1 w' c Hs (Haow c Hc)). }
    destruct (IH1 d1 eq_refl W1 (partsOk_right n d1 eq_refl Hparts)
                ((U ++ ao) ++ a0))
      as (b1 & a1 & E1 & Hc1 & Ha1 & Hs1 & Ht1).
    { intros c [[Hc|Hc]%elem_of_app|Hc]%elem_of_app Hi.
      - apply (HU c Hc). by eapply splitAt_inside_r.
      - by destruct (splitAt_wall_not_inside n d0 d1 w' c Hs (Haow c Hc)).
      - by apply (splitAt_apart' n d0 d1 w' c Hs (proj1 (Ha0 c Hc))). }
    exists ((bo ++ b0) ++ b1), (ao ++ a0 ++ a1).
    split.
    { unfold n. cbn [createAllWallBlocks]. rewrite Eo. cbn [app].
      rewrite E0, E1. by rewrite <- !app_assoc. }
    split.
    { intros m c Hm Hc. rewrite !elem_of_app.
      inversion Hm as [|? d Hd Hm'|? d Hd Hm']; subst.
      - destruct (Hco c Hc); auto.
      - cbn in Hd. injection Hd as <-.
        destruct (Hc0 m c Hm' Hc) as [[?|?]%elem_of_app|?]; auto.
      - cbn in Hd. injection Hd as <-.
        destruct (Hc1 m c Hm' Hc) as [[[?|?]%elem_of_app|?]%elem_of_app|?];
          auto. }
    split.
    { intros c [Hc|[Hc|Hc]%elem_of_app]%elem_of_app.
      - split; [by apply Hin, Haow|].
        exists n. split; [apply subnode_here|]. by apply Hao.
      - destruct (Ha0 c Hc) as (Hwi & m & Hm & Hcm). split.
        + eapply splitAt_within; [done|]. by left.
        + exists m. split; [|done]. by eapply subnode_left.
      - destruct (Ha1 c Hc) as (Hwi & m & Hm & Hcm). split.
        + eapply splitAt_within; [done|]. by right.
        + exists m. split; [|done]. by eapply subnode_right. }
    split.
    { intros c. rewrite !elem_of_app, Hso, Hs0, Hs1. split.
      - intros [(b & Hb & Hc)|[(b & Hb & Hc)|(b & Hb & Hc)]];
          exists b; (split; [|done]); rewrite !elem_of_app; auto.
      - intros (b & [[Hb|Hb]%elem_of_app|Hb]%elem_of_app & Hc); eauto. }
    apply Forall_app. split; [apply Forall_app; by split|done].
Qed.

(** X14: in a generation run the wall blocks and the outer ring cover the
    walls of the grid and nothing else: a cell of the final grid holds
    ["w"] exactly when it is on the outer ring or within the span of a
    wall block; and every wall block is one cell thick. *)
Theorem wall_blocks_cover
    (fuel : nat) (s : rng) world root bases walls s' :
  mainGenerate fuel s = Ok ((world, root, bases, walls), s') →
  (∀ c, cellAt world c = Some Wall ↔
        onBorder c ∨ ∃ b, b ∈ walls ∧ inSpan b c) ∧
  Forall thin walls.
Proof.
  intros E. unfold mainGenerate in E.
  apply bind_Ok in E as ([world1 root1] & s1 & Eg & E).
  apply bind_Ok in E as ([[world2 bases2] root2] & s2 & Ec & E).
  apply bind_Ok in E as (root3 & s3 & Ep & E).
  apply lift_Ok in Ep as [Ep ->].
  apply bind_Ok in E as (used & s4 & Ee & E).
  apply lift_Ok in Ee as [Ee ->].
  destruct (createAllWallBlocks root3 used) as [walls' used'] eqn:Ew.
  injection E as -> -> -> -> ->.
  destruct (generateWorld_full s)
    as (r & a0 & s0 & a & s5 & Eg' & Ed & Hwf & _ & Hs & Hj & _ & _ & Hd & Hg).
  rewrite Eg in Eg'. injection Eg' as <- <- <-.
  destruct (addDoors_doorable root1 a0 s0 Hwf Hj Hd) as (a1 & s6 & E1 & C).
  rewrite Ed in E1. injection E1 as <- <-.
  destruct (bases_on_empty _ _ _ _ _ _ _ _ _ _ Hwf Hs Hd Hg C Ec)
    as (Hu & Hd2 & _ & Hiff).
  destruct (generateWorld_spec s) as (a' & r' & s7 & Eg' & _ & _ & _ & _ & Hbo).
  rewrite Eg in Eg'. injection Eg' as <- <- <-.
  pose proof (wf_unmark_eq _ _ Hu Hwf) as Hwf2.
  destruct (generateWallParts_spec world root2 root Ep) as (Hsh3 & Hwf3 & Hpo).
  specialize (Hwf3 Hwf2).
  destruct (generateWallParts_each world root2 root Ep) as [Hcells Hloop].
  assert (shape root = ((0, 0), (249, 199))) as Hshape.
  { by rewrite Hsh3, (unmark_eq_shape _ _ Hu). }
  assert (wallCells root = wallCells root1) as Hcells'.
  { by rewrite Hcells, <- (wallCells_unmark root2), Hu, wallCells_unmark. }
  assert (∀ m w, subnode m root → wall m = Some w →
                 concat (wallParts m) = filter (wallAt world) w) as Hparts.
  { intros m w Hm Hw.
    by rewrite (wallRunsLoop_concat _ _ _ _ _ (Hloop m w Hm Hw)). }
  destruct (createAllWallBlocks_cover root Hwf3 Hpo used)
    as (blocks & added & Ew' & Hcov & Hadd & Hspan & Hthin).
  { intros c Hc. apply (generateEdges_spec world used Hd2 Ee) in Hc.
    unfold inside, xMin, xMax, yMin, yMax. rewrite Hshape. simpl. lia. }
  rewrite Ew in Ew'. injection Ew' as -> _.
  split; [|done]. intros c. split.
  - intros Hc.
    assert (inGrid world c) as Hin by (by eexists).
    apply (dims_inGrid _ _ Hd2) in Hin.
    pose proof (proj1 (Hiff c) Hc) as Hc1.
    destruct (carved_walls _ root1 a0 world1 Hg C c Hc1) as [Hb|Hw]; [by left|].
    rewrite <- Hcells' in Hw.
    apply elem_of_wallCells in Hw as (m & w & Hm & Hw & Hcw).
    assert (c ∈ concat (wallParts m)) as Hcp.
    { rewrite (Hparts m w Hm Hw). apply list_elem_of_filter. split; [|done].
      unfold wallAt. apply getCell_cellAt; [lia..|done]. }
    destruct (Hcov m c Hm Hcp) as [Hcu|Hca].
    + left. apply (generateEdges_spec world used Hd2 Ee) in Hcu.
      split; [lia|done].
    + right. by apply Hspan.
  - intros [Hb|Hb].
    + apply Hiff. by apply Hbo.
    + apply Hspan in Hb. destruct (Hadd c Hb) as (Hwi & m & Hm & Hcm).
      destruct (wall m) as [w|] eqn:Hw.
      * rewrite (Hparts m w Hm Hw) in Hcm.
        apply list_elem_of_filter in Hcm as [Hcm _]. unfold wallAt in Hcm.
        apply getCell_cellAt in Hcm; [done|..];
          unfold within, xMin, xMax, yMin, yMax in Hwi;
          rewrite Hshape in Hwi; simpl in Hwi; lia.
      * destruct (wf_children m (wf_subnode _ _ Hm Hwf3))
          as [(_ & _ & _ & Hwp)|(? & ? & ? & _ & _ & ? & _)]; [|congruence].
        rewrite Hwp in Hcm. by apply elem_of_nil in Hcm.
Qed.

Lemma wall_blocks_cover_witness :
  match mainGenerate 30 demoRng with
  | Ok ((world, _, _, walls), _) =>
      (∀ c, cellAt world c = Some Wall ↔
            onBorder c ∨ ∃ b, b ∈ walls ∧ inSpan b c) ∧
      Forall thin walls
  | _ => False
  end.
Proof.
  pose proof demo_mainGenerate_returns as H.
  destruct (mainGenerate 30 demoRng)
    as [[[[[world root] bases] walls] s']| |] eqn:E; [|done..].
  exact (wall_blocks_cover 30 demoRng _ _ _ _ _ E).
Defined.

(** ** The size of a box in world units *)

Lemma dsub_ints (e s : Z) :
  dsub (Decimal e) (Decimal s) = decimal_of_ratio (e - s, 1).
Proof.
  unfold dsub, rsub, ratio_of_decimal, ratio_of_pow, Decimal.
  cbn [coef dexp]. change (0 <=? 0) with true. cbn [fst snd].
  f_equal. f_equal; lia.
Qed.

Lemma scale_of_span (d : Z) :
  0 <= d <= 249 →
  float_of_decimal
    (ddiv (dadd (decimal_of_ratio (d, 1)) (Decimal 1)) (Decimal 10))
  = tenths (d + 1).
Proof.
  intros Hd.
  assert (H : forallb (fun d => bool_decide (float_of_decimal
      (ddiv (dadd (decimal_of_ratio (d, 1)) (Decimal 1)) (Decimal 10))
      = tenths (d + 1))) (seqZ 0 250) = true) by (by vm_compute).
  rewrite forallb_forall in H. specialize (H d).
  rewrite <- list_elem_of_In, elem_of_seqZ in H.
  specialize (H ltac:(lia)). by apply bool_decide_eq_true in H.
Qed.

(** X15: for a box of up to 250 cells a side, from [start] to [end], the
    scale that [transformFromBounds] returns is, in each direction, the
    double nearest to a tenth of the number of cells from [start] to
    [end], both included (the [Decimal] steps lose nothing). *)
Theorem transformFromBounds_scale (start end_ : coord) :
  0 <= end_.1 - start.1 <= 249 → 0 <= end_.2 - start.2 <= 249 →
  (transformFromBounds start end_).2
  = (tenths (end_.1 - start.1 + 1), tenths (end_.2 - start.2 + 1)).
Proof.
  intros Hx Hy. unfold transformFromBounds. cbn [fst snd].
  rewrite !dsub_ints. by rewrite (scale_of_span _ Hx), (scale_of_span _ Hy).
Qed.

Lemma transformFromBounds_scale_witness :
  (transformFromBounds (3, 4) (3, 20)).2 = (tenths 1, tenths 17).
Proof. apply (transformFromBounds_scale (3, 4) (3, 20)); simpl; lia. Defined.

(** ** No exception in the stages of a generation run *)

Lemma notRaised_bind {A B} (c : M A) (k : A → M B) (s : rng) :
  notRaised (c s) → (∀ a s1, c s = Ok (a, s1) → notRaised (k a s1)) →
  notRaised (bind c k s).
Proof.
  unfold bind. destruct (c s) as [[a s1]| |]; [|done..].
  intros _ H. by apply H.
Qed.

Lemma removeFirst_length {A} `{EqDecision A} (x : A) (l : list A) :
  x ∈ l → S (length (removeFirst x l)) = length l.
Proof.
  induction l as [|z l IH]; intros Hx; [by apply elem_of_nil in Hx|].
  cbn [removeFirst length]. case_decide as Hz; [done|].
  apply elem_of_cons in Hx as [->|Hx]; [done|].
  cbn [length]. by rewrite IH.
Qed.

(** The retry loop of [addBase] draws from ranges that are not empty and
    indexes where there is an item. *)
Lemma addBaseLoop_safe (root : node) (quadrants : list (Z * Z)) :
  wf root → quadrants ≠ [] → (∀ q, q ∈ quadrants → q ∈ allQuads) →
  ∀ fuel s, notRaised (addBaseLoop fuel root quadrants s).
Proof.
  intros Hwf Hne Hval. induction fuel as [|fuel IH]; intros s; [done|].
  cbn [addBaseLoop].
  destruct (randint_spec 0 (len quadrants - 1) s) as (rQuad & Hr & Er).
  { destruct quadrants; [done|]. unfold len. simpl. lia. }
  unfold bind at 1. rewrite Er.
  destruct (py_nth_range quadrants rQuad) as (quad & Eq & Hq); [lia|].
  unfold bind at 1. unfold lift at 1. rewrite Eq.
  destruct (quadStep_total root quad (Hval _ Hq)) as (path1 & cur & Es).
  unfold bind at 1. unfold lift at 1. rewrite Es.
  destruct (descend_spec cur (rng_tail s)) as (path2 & leaf & s' & Ed & Hl).
  unfold bind at 1. rewrite Ed.
  destruct (eligible leaf) eqn:He; [|apply IH].
  assert (rectOk leaf) as (Hx & _ & Hy & _ & Hsize).
  { apply wf_rectOk. eapply wf_subnode; [|exact Hwf].
    eapply subnode_trans; [by apply leaves_subnode|].
    apply quadNode_subnode with quad. unfold quadNode. by rewrite Es. }
  unfold eligible in He. apply andb_true_iff in He as [He _].
  apply andb_true_iff in He as [_ He]. destruct (Hsize He) as [Hw Hh].
  set (x3 := (xMax leaf - 21 - (xMin leaf + 1)) `div` 3).
  set (y3 := (yMax leaf - 21 - (yMin leaf + 1)) `div` 3).
  assert (0 <= 3 * x3 <= xMax leaf - 21 - (xMin leaf + 1)) as Hx3.
  { pose proof (Z.mul_div_le (xMax leaf - 21 - (xMin leaf + 1)) 3).
    pose proof (Z.div_pos (xMax leaf - 21 - (xMin leaf + 1)) 3).
    subst x3. lia. }
  assert (0 <= 3 * y3 <= yMax leaf - 21 - (yMin leaf + 1)) as Hy3.
  { pose proof (Z.mul_div_le (yMax leaf - 21 - (yMin leaf + 1)) 3).
    pose proof (Z.div_pos (yMax leaf - 21 - (yMin leaf + 1)) 3).
    subst y3. lia. }
  destruct (randint_spec (xMin leaf + 1 + x3) (xMax leaf - 21 - x3) s')
    as (xPos & _ & Ex); [lia|].
  unfold bind at 1. rewrite Ex.
  destruct (randint_spec (yMin leaf + 1 + y3) (yMax leaf - 21 - y3)
              (rng_tail s')) as (yPos & _ & Ey); [lia|].
  unfold bind at 1. rewrite Ey. done.
Qed.

Lemma addBase_safe fuel root array quadrants s :
  dims array → wf root → quadrants ≠ [] →
  (∀ q, q ∈ quadrants → q ∈ allQuads) →
  notRaised (addBase fuel root array quadrants s).
Proof.
  intros Hd Hwf Hne Hval. unfold addBase.
  apply notRaised_bind; [by apply addBaseLoop_safe|].
  intros [[r1 b1] u1] s1 E1.
  destruct (addBaseLoop_Ok _ _ _ _ _ _ _ _ E1) as (_ & _ & leaf & Hl & _ & Hb).
  assert (rectOk leaf) as Hrect.
  { destruct (quadLeaves_spec _ _ _ Hl) as (n & _ & _ & Hs).
    apply wf_rectOk. by eapply wf_subnode. }
  destruct (baseIn_offBorder _ _ Hrect (Hb Hrect)) as (? & ? & ? & ?).
  destruct (markBase_spec b1 array Hd) as (a' & Ea & _); [lia..|].
  unfold bind, lift. by rewrite Ea.
Qed.

Lemma createBasesStep_safe fuel array root quads bases s :
  dims array → wf root → quads ≠ [] → (∀ q, q ∈ quads → q ∈ allQuads) →
  notRaised (createBasesStep fuel (array, root, quads, bases) s).
Proof.
  intros Hd Hwf Hne Hval. unfold createBasesStep.
  apply notRaised_bind; [by apply addBase_safe|].
  by intros [[[base a1] used] r1] s1 _.
Qed.

(** [createBases] on a well-formed tree and a grid of the full size. *)
Lemma createBases_safe fuel array root s :
  dims array → wf root → notRaised (createBases fuel array root s).
Proof.
  intros Hd Hwf. unfold createBases.
  apply notRaised_bind; [|by intros [[[a3 r3] qs3] bs3] s3 _].
  replace (range 0 3) with [0; 1; 2] by done. cbn [forM].
  fold allQuads.
  assert (∀ (qs : list (Z * Z)) q, q ∈ qs → qs ≠ []) as Hne.
  { intros qs q Hq ->. by apply elem_of_nil in Hq. }
  assert (∀ q (qs : list (Z * Z)) n,
            q ∈ qs → length qs = S (S n) → removeFirst q qs ≠ []) as Hlen.
  { intros q qs n Hq HL Hnil. pose proof (removeFirst_length q qs Hq) as E.
    rewrite Hnil in E. simpl in E. lia. }
  apply notRaised_bind.
  { apply createBasesStep_safe; try done. }
  intros [[[a1 r1] qs1] bs1] s1 E1.
  destruct (createBasesStep_spec _ _ _ _ _ _ _ _ _ _ _ Hd Hwf E1)
    as (b1 & q1 & l1 & _ & Hq1 & -> & Hu1 & _ & _ & _ & F1).
  pose proof (filled_dims _ _ _ _ F1 Hd) as Hd1.
  pose proof (wf_unmark_eq _ _ Hu1 Hwf) as Hwf1.
  assert (∀ q, q ∈ removeFirst q1 allQuads → q ∈ allQuads) as Hv1.
  { intros q Hq. eapply elem_of_sublist; [done|apply removeFirst_sublist]. }
  apply notRaised_bind.
  { apply createBasesStep_safe; try done. by apply (Hlen q1 allQuads 2%nat). }
  intros [[[a2 r2] qs2] bs2] s2 E2.
  destruct (createBasesStep_spec _ _ _ _ _ _ _ _ _ _ _ Hd1 Hwf1 E2)
    as (b2 & q2 & l2 & _ & Hq2 & -> & Hu2 & _ & _ & _ & F2).
  pose proof (filled_dims _ _ _ _ F2 Hd1) as Hd2.
  pose proof (wf_unmark_eq _ _ Hu2 Hwf1) as Hwf2.
  apply notRaised_bind; [|done].
  apply createBasesStep_safe; try done.
  - apply (Hlen q2 _ 1%nat); [done|].
    pose proof (removeFirst_length q1 allQuads Hq1) as E.
    change (length allQuads) with 4%nat in E. lia.
  - intros q Hq. apply Hv1.
    eapply elem_of_sublist; [done|apply removeFirst_sublist].
Qed.

Lemma wallRunsLoop_total (array : grid) :
  ∀ cells acc cur,
    Forall (inGrid array) cells →
    ∃ parts, wallRunsLoop cells array acc cur = Ok parts.
Proof.
  induction cells as [|p cells IH]; intros acc cur Hin; [by eexists|].
  apply Forall_cons in Hin as [[v Hv] Hin]. cbn [wallRunsLoop].
  pose proof Hv as (Hx & Hy & _)%cellAt_Some.
  apply getCell_cellAt in Hv; [|done..]. rewrite Hv. cbn [res_bind].
  repeat case_decide; by apply IH.
Qed.

(** [generateWallParts] on a tree whose walls are in the grid. *)
Lemma generateWallParts_total (array : grid) (n : node) :
  wallsInGrid n array → ∃ n', generateWallParts n array = Ok n'.
Proof.
  induction n as [sh w un wp bp bpos out c0 c1 IH0 IH1] using node_induction.
  intros Hin. cbn [generateWallParts].
  assert (∃ c0', match c0 with
                 | Some c => let? c' := generateWallParts c array in Ok (Some c')
                 | None => Ok None
                 end = Ok c0') as [c0' ->].
  { destruct c0 as [c|]; [|by eexists].
    destruct (IH0 c eq_refl) as [c' ->]; [|by eexists].
    eapply wallsInGrid_left; [|exact Hin]. done. }
  assert (∃ c1', match c1 with
                 | Some c => let? c' := generateWallParts c array in Ok (Some c')
                 | None => Ok None
                 end = Ok c1') as [c1' ->].
  { destruct c1 as [c|]; [|by eexists].
    destruct (IH1 c eq_refl) as [c' ->]; [|by eexists].
    eapply wallsInGrid_right; [|exact Hin]. done. }
  cbn [res_bind]. destruct w as [w|]; [|by eexists].
  destruct (wallRunsLoop_total array w [] []) as [parts ->]; [|by eexists].
  by apply (Hin _ w (subnode_here _)).
Qed.

(** X16: the stages of a generation run that build the grid, the bases
    and the wall parts raise no exception, for any random stream: no
    random range is empty and no index is out of range.  [generateWorld]
    returns; [createBases] on its result never raises: it returns, or is
    still retrying the placement of a base; and on what [createBases]
    returns, [generateWallParts] and [generateEdges] return.  The call
    that writes the world file, which follows them in [mainGenerate()],
    is no part of this. *)
Theorem generation_stages_never_raise (fuel : nat) (s : rng) :
  ∃ array root s1,
    generateWorld s = Ok ((array, root), s1) ∧
    notRaised (createBases fuel array root s1) ∧
    ∀ array' bases root' s2,
      createBases fuel array root s1 = Ok ((array', bases, root'), s2) →
      ∃ root3 used, generateWallParts root' array' = Ok root3 ∧
                    generateEdges array' = Ok used.
Proof.
  destruct (generateWorld_spec s) as (a & r & s1 & Eg & Hwf & _ & _ & Hd & _).
  exists a, r, s1. split; [done|]. split; [by apply createBases_safe|].
  intros a2 bases r2 s2 Ec.
  destruct (createBases_spec _ _ _ _ _ _ _ _ Hd Hwf Ec)
    as (b1 & b2 & b3 & q1 & q2 & q3 & l1 & l2 & l3 & r1' & r2' & a1 & a2' &
        _ & _ & _ & _ & _ & _ & Hu & _ & _ & _ & _ & _ & _ & _ & _ & _ &
        F1 & F2 & F3).
  assert (dims a2) as Hd2.
  { eapply filled_dims; [exact F3|]. eapply filled_dims; [exact F2|].
    by eapply filled_dims. }
  pose proof (wf_unmark_eq _ _ Hu Hwf) as Hwf2.
  destruct (generateWallParts_total a2 r2 (wf_wallsInGrid _ _ Hwf2 Hd2))
    as [r3 Ep].
  destruct (dims_row0 a2 Hd2) as (row0 & E0 & _).
  exists r3. unfold generateEdges. rewrite E0. cbn [res_bind].
  by eexists.
Qed.

(** ** Every free cell can be reached from every other *)

Lemma way_free_l array c c' : way array c c' → free array c.
Proof. by destruct 1. Qed.

Lemma way_free_r array c c' : way array c c' → free array c'.
Proof. by induction 1. Qed.

Lemma way_trans array x y z : way array x y → way array y z → way array x z.
Proof.
  induction 1 as [c Hc|c c' c'' Hc Ha Hw IH]; [done|].
  intros Hz. eapply way_step; [done..|]. by apply IH.
Qed.

Lemma adjacent_sym c c' : adjacent c c' → adjacent c' c.
Proof. unfold adjacent. lia. Qed.

Lemma way_snoc array x y z :
  way array x y → adjacent y z → free array z → way array x z.
Proof.
  intros Hw Ha Hz. apply (way_trans _ _ y); [done|].
  eapply way_step; [by eapply way_free_r|done|]. by apply way_here.
Qed.

Lemma way_sym array x y : way array x y → way array y x.
Proof.
  induction 1 as [c Hc|c c' c'' Hc Ha Hw IH]; [by apply way_here|].
  eapply way_snoc; [done|by apply adjacent_sym|done].
Qed.

Lemma way_mono array array' x y :
  (∀ c, free array c → free array' c) → way array x y → way array' x y.
Proof.
  intros H. induction 1 as [c Hc|c c' c'' Hc Ha Hw IH].
  - apply way_here. by apply H.
  - eapply way_step; [by apply H|done..].
Qed.

Lemma way_row array y :
  ∀ (k : nat) x, (∀ i, 0 <= i <= Z.of_nat k → free array (x + i, y)) →
                 way array (x, y) (x + Z.of_nat k, y).
Proof.
  induction k as [|k IH]; intros x H.
  - replace (x + Z.of_nat 0) with x by lia. apply way_here.
    specialize (H 0 ltac:(lia)). by replace (x + 0) with x in H by lia.
  - apply (way_step _ _ (x + 1, y)).
    + specialize (H 0 ltac:(lia)). by replace (x + 0) with x in H by lia.
    + unfold adjacent. simpl. lia.
    + replace (x + Z.of_nat (S k)) with (x + 1 + Z.of_nat k) by lia.
      apply IH. intros i Hi. replace (x + 1 + i) with (x + (i + 1)) by lia.
      apply H. lia.
Qed.

Lemma way_col array x :
  ∀ (k : nat) y, (∀ i, 0 <= i <= Z.of_nat k → free array (x, y + i)) →
                 way array (x, y) (x, y + Z.of_nat k).
Proof.
  induction k as [|k IH]; intros y H.
  - replace (y + Z.of_nat 0) with y by lia. apply way_here.
    specialize (H 0 ltac:(lia)). by replace (y + 0) with y in H by lia.
  - apply (way_step _ _ (x, y + 1)).
    + specialize (H 0 ltac:(lia)). by replace (y + 0) with y in H by lia.
    + unfold adjacent. simpl. lia.
    + replace (y + Z.of_nat (S k)) with (y + 1 + Z.of_nat k) by lia.
      apply IH. intros i Hi. replace (y + 1 + i) with (y + (i + 1)) by lia.
      apply H. lia.
Qed.

Lemma way_along_row array y x x' :
  x <= x' → (∀ i, x <= i <= x' → free array (i, y)) →
  way array (x, y) (x', y).
Proof.
  intros Hle H. replace x' with (x + Z.of_nat (Z.to_nat (x' - x))) by lia.
  apply way_row. intros i Hi. apply H. lia.
Qed.

Lemma way_along_col array x y y' :
  y <= y' → (∀ i, y <= i <= y' → free array (x, i)) →
  way array (x, y) (x, y').
Proof.
  intros Hle H. replace y' with (y + Z.of_nat (Z.to_nat (y' - y))) by lia.
  apply way_col. intros i Hi. apply H. lia.
Qed.

(** Within a box of free cells there is a way from any cell to any
    other: along the row, then along the column. *)
Lemma way_box array (x0 x1 y0 y1 : Z) :
  (∀ c, x0 <= c.1 <= x1 → y0 <= c.2 <= y1 → free array c) →
  ∀ c c', x0 <= c.1 <= x1 → y0 <= c.2 <= y1 →
          x0 <= c'.1 <= x1 → y0 <= c'.2 <= y1 → way array c c'.
Proof.
  intros Hfree [x y] [x' y']. cbn [fst snd]. intros Hx Hy Hx' Hy'.
  apply (way_trans _ _ (x', y)).
  - destruct (Z.le_ge_cases x x') as [Hle|Hge].
    + apply way_along_row; [done|]. intros i Hi. apply Hfree; simpl; lia.
    + apply way_sym, way_along_row; [lia|].
      intros i Hi. apply Hfree; simpl; lia.
  - destruct (Z.le_ge_cases y y') as [Hle|Hge].
    + apply way_along_col; [done|]. intros i Hi. apply Hfree; simpl; lia.
    + apply way_sym, way_along_col; [lia|].
      intros i Hi. apply Hfree; simpl; lia.
Qed.

Lemma subnode_leaves (n root l : node) :
  subnode n root → wf root → l ∈ leaves n → l ∈ leaves root.
Proof.
  induction 1 as [|p c Hl Hm IH|p c Hr Hm IH]; intros Hwf Hin; [done|..].
  - destruct (wf_children p Hwf)
      as [(E & _)|(c0 & c1 & w & E0 & E1 & _ & _ & _ & _ & W0 & W1)];
      [congruence|].
    assert (c = c0) as -> by congruence.
    destruct p as [? ? ? ? ? ? ? [?|] [?|]]; try done.
    cbn in E0, E1. injection E0 as ->. injection E1 as ->.
    cbn [leaves]. apply elem_of_app. left. by apply IH.
  - destruct (wf_children p Hwf)
      as [(_ & E & _)|(c0 & c1 & w & E0 & E1 & _ & _ & _ & _ & W0 & W1)];
      [congruence|].
    assert (c = c1) as -> by congruence.
    destruct p as [? ? ? ? ? ? ? [?|] [?|]]; try done.
    cbn in E0, E1. injection E0 as ->. injection E1 as ->.
    cbn [leaves]. apply elem_of_app. right. by apply IH.
Qed.

Lemma subnode_wallEndsOf (n root : node) (c : coord) :
  subnode n root → c ∈ wallEndsOf n → c ∈ wallEndsOf root.
Proof.
  induction 1 as [|p d Hl Hm IH|p d Hr Hm IH]; intros Hc; [done|..].
  - destruct p; simpl in *. subst. rewrite !elem_of_app. auto.
  - destruct p; simpl in *. subst. rewrite !elem_of_app. auto.
Qed.

(** A cell strictly inside the rectangle of a node is on a wall of its
    tree or strictly inside one of its rooms. *)
Lemma inside_leaf (n : node) :
  wf n → ∀ c, inside n c → c ∉ wallCells n →
  ∃ l, l ∈ leaves n ∧ inside l c.
Proof.
  induction n as [sh w un wp bp bpos out c0 c1 IH0 IH1] using node_induction.
  intros Hwf c Hi Hw.
  destruct (wf_children _ Hwf)
    as [(El & Er & Ew & _)
       |(d0 & d1 & w' & El & Er & Ew & Hx2 & Hy2 & Hsp & W0 & W1)].
  - simpl in El, Er, Ew. subst. eexists. split; [|done].
    cbn [leaves]. by apply list_elem_of_singleton.
  - simpl in El, Er, Ew. subst. cbn [wallCells leaves] in *.
    rewrite !not_elem_of_app in Hw. destruct Hw as (Hw & Hw0 & Hw1).
    set (n := Node sh (Some w') un wp bp bpos out (Some d0) (Some d1)) in *.
    assert (inside d0 c ∨ inside d1 c) as [H0|H1].
    { destruct Hsp as [(r & Hr & Ew' & S0 & S1)|(r & Hr & Ew' & S0 & S1)].
      - rewrite Ew', elem_of_rowWall in Hw.
        unfold inside, xMin, xMax, yMin, yMax in *. rewrite S0, S1.
        cbn [shape fst snd] in *. lia.
      - rewrite Ew', elem_of_colWall in Hw.
        unfold inside, xMin, xMax, yMin, yMax in *. rewrite S0, S1.
        cbn [shape fst snd] in *. lia. }
    + destruct (IH0 d0 eq_refl W0 c H0 Hw0) as (l & Hl & Hil).
      exists l. split; [|done]. apply elem_of_app. by left.
    + destruct (IH1 d1 eq_refl W1 c H1 Hw1) as (l & Hl & Hil).
      exists l. split; [|done]. apply elem_of_app. by right.
Qed.

(** A cell on a side of the rectangle of a node, where no wall of its
    tree ends, is on a side of one of its rooms. *)
Lemma beside_leaf (n : node) :
  wf n → ∀ c, beside n c → c ∉ wallEndsOf n →
  ∃ l, l ∈ leaves n ∧ beside l c.
Proof.
  induction n as [sh w un wp bp bpos out c0 c1 IH0 IH1] using node_induction.
  intros Hwf c Hb He.
  destruct (wf_children _ Hwf)
    as [(El & Er & Ew & _)
       |(d0 & d1 & w' & El & Er & Ew & Hx2 & Hy2 & Hsp & W0 & W1)].
  - simpl in El, Er, Ew. subst. eexists. split; [|done].
    cbn [leaves]. by apply list_elem_of_singleton.
  - simpl in El, Er, Ew. subst. cbn [wallEndsOf leaves] in *.
    rewrite !not_elem_of_app in He. destruct He as (He & He0 & He1).
    set (n := Node sh (Some w') un wp bp bpos out (Some d0) (Some d1)) in *.
    assert (beside d0 c ∨ beside d1 c) as [H0|H1].
    { destruct Hsp as [(r & Hr & Ew' & S0 & S1)|(r & Hr & Ew' & S0 & S1)].
      - rewrite Ew', wallEnds_rowWall in He by lia.
        assert (¬ (c.1 = xMin n ∧ c.2 = r)) as N1.
        { intros [? ?]. apply He. left. destruct c. simpl in *. congruence. }
        assert (¬ (c.1 = xMax n ∧ c.2 = r)) as N2.
        { intros [? ?]. apply He. right. destruct c. simpl in *. congruence. }
        unfold beside, xMin, xMax, yMin, yMax in *. rewrite S0, S1.
        cbn [shape fst snd] in *. lia.
      - rewrite Ew', wallEnds_colWall in He by lia.
        assert (¬ (c.1 = r ∧ c.2 = yMin n)) as N1.
        { intros [? ?]. apply He. left. destruct c. simpl in *. congruence. }
        assert (¬ (c.1 = r ∧ c.2 = yMax n)) as N2.
        { intros [? ?]. apply He. right. destruct c. simpl in *. congruence. }
        unfold beside, xMin, xMax, yMin, yMax in *. rewrite S0, S1.
        cbn [shape fst snd] in *. lia. }
    + destruct (IH0 d0 eq_refl W0 c H0 He0) as (l & Hl & Hbl).
      exists l. split; [|done]. apply elem_of_app. by left.
    + destruct (IH1 d1 eq_refl W1 c H1 He1) as (l & Hl & Hbl).
      exists l. split; [|done]. apply elem_of_app. by right.
Qed.

Lemma beside_neighbour (l : node) (d : coord) :
  2 <= sizeX l → 2 <= sizeY l → beside l d →
  ∃ e, adjacent d e ∧ inside l e.
Proof.
  unfold sizeX, sizeY, beside, adjacent, inside. intros Hx Hy Hb.
  destruct (decide (d.2 = yMin l)); [exists (d.1, d.2 + 1); simpl; lia|].
  destruct (decide (d.2 = yMax l)); [exists (d.1, d.2 - 1); simpl; lia|].
  destruct (decide (d.1 = xMin l)); [exists (d.1 + 1, d.2); simpl; lia|].
  exists (d.1 - 1, d.2). simpl. lia.
Qed.

(** A cell of the wall of a node, strictly inside its rectangle, is on a
    side of either half. *)
Lemma wall_beside n c0 c1 w c :
  splitAt n c0 c1 w → c ∈ w → inside n c → beside c0 c ∧ beside c1 c.
Proof.
  unfold splitAt, beside, inside.
  intros [(r & Hr & -> & S0 & S1)|(r & Hr & -> & S0 & S1)].
  - intros [Hc _]%elem_of_rowWall. unfold xMin, xMax, yMin, yMax.
    rewrite S0, S1. unfold xMin, xMax, yMin, yMax in *. simpl. lia.
  - intros [Hc _]%elem_of_colWall. unfold xMin, xMax, yMin, yMax.
    rewrite S0, S1. unfold xMin, xMax, yMin, yMax in *. simpl. lia.
Qed.

Section ways.
Variable array : grid.
Variable root : node.
Hypothesis root_wf : wf root.
Hypothesis rooms_free :
  ∀ l c, l ∈ leaves root → inside l c → free array c.
Hypothesis rooms_wide :
  ∀ l, l ∈ leaves root → 2 <= sizeX l ∧ 2 <= sizeY l.
Hypothesis ends_solid : ∀ c, c ∈ wallEndsOf root → ¬ free array c.
Hypothesis doors :
  ∀ m w, subnode m root → wall m = Some w →
         ∃ d, innerCell w d ∧ free array d.

(** A free cell of a wall has a neighbour strictly inside a room of
    either half. *)
Lemma door_neighbours n c0 c1 w d :
  subnode n root → left n = Some c0 → right n = Some c1 →
  splitAt n c0 c1 w → d ∈ w → inside n d → free array d →
  (∃ l e, l ∈ leaves c0 ∧ adjacent d e ∧ inside l e) ∧
  (∃ l e, l ∈ leaves c1 ∧ adjacent d e ∧ inside l e).
Proof.
  intros Hn Hl Hr Hs Hd Hi Hf.
  pose proof (wf_subnode _ _ Hn root_wf) as Hwf.
  destruct (wf_children n Hwf)
    as [(E & _)|(d0 & d1 & w' & E0 & E1 & _ & _ & _ & _ & W0 & W1)];
    [congruence|].
  assert (d0 = c0) as -> by congruence.
  assert (d1 = c1) as -> by congruence.
  assert (subnode c0 root) as Hc0.
  { eapply subnode_trans; [|exact Hn]. eapply subnode_left; [done|].
    apply subnode_here. }
  assert (subnode c1 root) as Hc1.
  { eapply subnode_trans; [|exact Hn]. eapply subnode_right; [done|].
    apply subnode_here. }
  destruct (wall_beside n c0 c1 w d Hs Hd Hi) as [B0 B1].
  assert (d ∉ wallEndsOf root) as He by (intros He; by apply (ends_solid d)).
  split.
  - destruct (beside_leaf c0 W0 d B0) as (l & Hin & Hb).
    { intros H. apply He. by apply (subnode_wallEndsOf c0). }
    destruct (rooms_wide l (subnode_leaves _ _ _ Hc0 root_wf Hin)) as [? ?].
    destruct (beside_neighbour l d) as (e & Ha & Hie); [done..|].
    by exists l, e.
  - destruct (beside_leaf c1 W1 d B1) as (l & Hin & Hb).
    { intros H. apply He. by apply (subnode_wallEndsOf c1). }
    destruct (rooms_wide l (subnode_leaves _ _ _ Hc1 root_wf Hin)) as [? ?].
    destruct (beside_neighbour l d) as (e & Ha & Hie); [done..|].
    by exists l, e.
Qed.

(** From any cell inside a room of a node there is a way to any cell
    inside any room of that node. *)
Lemma rooms_joined (n : node) :
  subnode n root →
  ∀ l1 l2 c1 c2, l1 ∈ leaves n → l2 ∈ leaves n →
                 inside l1 c1 → inside l2 c2 → way array c1 c2.
Proof.
  induction n as [sh w un wp bp bpos out c0 c1 IH0 IH1] using node_induction.
  intros Hn l1 l2 p1 p2 Hl1 Hl2 Hi1 Hi2.
  pose proof (wf_subnode _ _ Hn root_wf) as Hwf.
  destruct (wf_children _ Hwf)
    as [(El & Er & Ew & _)
       |(d0 & d1 & w' & El & Er & Ew & Hx2 & Hy2 & Hsp & W0 & W1)].
  - simpl in El, Er, Ew. subst. cbn [leaves] in Hl1, Hl2.
    apply list_elem_of_singleton in Hl1 as ->.
    apply list_elem_of_singleton in Hl2 as ->.
    set (n := Node sh None un wp bp bpos out None None) in *.
    apply (way_box array (xMin n + 1) (xMax n - 1) (yMin n + 1) (yMax n - 1));
      unfold inside in *; try lia.
    intros c Hx Hy. apply (rooms_free n).
    + eapply subnode_leaves; [exact Hn|done|].
      cbn [leaves]. by apply list_elem_of_singleton.
    + unfold inside. lia.
  - simpl in El, Er, Ew. subst. cbn [leaves] in Hl1, Hl2.
    set (n := Node sh (Some w') un wp bp bpos out (Some d0) (Some d1)) in *.
    assert (subnode d0 root) as Hd0.
    { eapply subnode_trans; [|exact Hn]. eapply subnode_left; [done|].
      apply subnode_here. }
    assert (subnode d1 root) as Hd1.
    { eapply subnode_trans; [|exact Hn]. eapply subnode_right; [done|].
      apply subnode_here. }
    specialize (IH0 d0 eq_refl Hd0). specialize (IH1 d1 eq_refl Hd1).
    destruct (doors n w' Hn eq_refl) as (d & Hd & Hf).
    assert (inside n d ∧ d ∈ w') as [Hid Hdw].
    { destruct Hd as (k & Hk & Hlk).
      destruct (wf_wall n w' Hwf eq_refl) as (_ & Hinner & _).
      split; [by apply (Hinner k d Hlk)|by eapply list_elem_of_lookup_2]. }
    destruct (door_neighbours n d0 d1 w' d Hn eq_refl eq_refl Hsp Hdw Hid Hf)
      as [(la & ea & Hla & Haa & Hea) (lb & eb & Hlb & Hab & Heb)].
    assert (way array ea eb) as Hcross.
    { apply (way_step _ _ d).
      - apply (rooms_free la); [|done]. by apply (subnode_leaves d0).
      - by apply adjacent_sym.
      - apply (way_step _ _ eb); [done..|]. apply way_here.
        apply (rooms_free lb); [|done]. by apply (subnode_leaves d1). }
    apply elem_of_app in Hl1 as [Hl1|Hl1];
      apply elem_of_app in Hl2 as [Hl2|Hl2].
    + by apply (IH0 l1 l2).
    + apply (way_trans _ _ ea); [by apply (IH0 l1 la)|].
      apply (way_trans _ _ eb); [done|]. by apply (IH1 lb l2).
    + apply (way_trans _ _ eb); [by apply (IH1 l1 lb)|].
      apply (way_trans _ _ ea); [by apply way_sym|]. by apply (IH0 la l2).
    + by apply (IH1 l1 l2).
Qed.

(** From a free cell strictly inside the rectangle of the root there
    is a way to a cell strictly inside a room. *)
Lemma free_to_room (c : coord) :
  free array c → inside root c →
  ∃ l e, l ∈ leaves root ∧ inside l e ∧ way array c e.
Proof.
  intros Hf Hi. destruct (decide (c ∈ wallCells root)) as [Hw|Hw].
  - apply elem_of_wallCells in Hw as (m & w & Hm & Hw & Hcw).
    pose proof (wf_subnode _ _ Hm root_wf) as Hwf.
    destruct (wf_children m Hwf)
      as [(_ & _ & E & _)|(d0 & d1 & w' & E0 & E1 & Ew & _ & _ & Hsp & W0 & W1)];
      [congruence|].
    assert (w' = w) as -> by congruence.
    assert (inside m c) as Him.
    { destruct (wf_wall m w Hwf Hw) as (_ & Hinner & _ & _).
      apply list_elem_of_lookup_1 in Hcw as (k & Hk).
      apply (Hinner k c Hk).
      pose proof (lookup_lt_Some _ _ _ Hk) as Hlt.
      assert (c ∉ wallEnds w) as Hne.
      { intros He. apply (ends_solid c); [|done].
        apply (subnode_wallEndsOf m); [done|].
        destruct m; simpl in *. subst. apply elem_of_app. by left. }
      rewrite wallEnds_elem, head_lookup, last_lookup in Hne.
      destruct (decide (k = 0%nat)) as [->|?]; [tauto|].
      destruct (decide (k = Nat.pred (length w))) as [->|?]; [tauto|]. lia. }
    destruct (door_neighbours m d0 d1 w c Hm E0 E1 Hsp Hcw Him Hf)
      as [(l & e & Hl & Ha & He) _].
    assert (l ∈ leaves root) as Hlr.
    { apply (subnode_leaves d0); [|done..].
      eapply subnode_trans; [|exact Hm]. eapply subnode_left; [done|].
      apply subnode_here. }
    exists l, e. split; [done|]. split; [done|].
    apply (way_step _ _ e); [done..|]. apply way_here.
    by apply (rooms_free l).
  - destruct (inside_leaf root root_wf c Hi Hw) as (l & Hl & Hil).
    exists l, c. split; [done|]. split; [done|]. by apply way_here.
Qed.

Lemma all_joined (c c' : coord) :
  free array c → free array c' → inside root c → inside root c' →
  way array c c'.
Proof.
  intros Hf Hf' Hi Hi'.
  destruct (free_to_room c Hf Hi) as (l & e & Hl & He & Hw).
  destruct (free_to_room c' Hf' Hi') as (l' & e' & Hl' & He' & Hw').
  apply (way_trans _ _ e); [done|].
  apply (way_trans _ _ e'); [|by apply way_sym].
  by apply (rooms_joined root (subnode_here root) l l').
Qed.
End ways.

(** X17: the world of a generation run is in one piece: from every cell
    that holds no wall there is a way to every other such cell, going
    from cell to adjacent cell (left, right, up or down) over cells that
    hold no wall.  Every room and every door can be reached. *)
Theorem world_connected
    (fuel : nat) (s : rng) world root bases walls s' :
  mainGenerate fuel s = Ok ((world, root, bases, walls), s') →
  ∀ c c', free world c → free world c' → way world c c'.
Proof.
  intros E. unfold mainGenerate in E.
  apply bind_Ok in E as ([world1 root1] & s1 & Eg & E).
  apply bind_Ok in E as ([[world2 bases2] root2] & s2 & Ec & E).
  apply bind_Ok in E as (root3 & s3 & Ep & E).
  apply lift_Ok in Ep as [Ep ->].
  apply bind_Ok in E as (used & s4 & Ee & E).
  apply lift_Ok in Ee as [Ee ->].
  destruct (createAllWallBlocks root3 used) as [walls' used'] eqn:Ew.
  injection E as -> -> -> -> ->.
  destruct (generateWorld_full s)
    as (r & a0 & s0 & a & s5 & Eg' & Ed & Hwf & _ & Hs & Hj & _ & Hz & Hd & Hg).
  rewrite Eg in Eg'. injection Eg' as <- <- <-.
  destruct (addDoors_doorable root1 a0 s0 Hwf Hj Hd) as (a1 & s6 & E1 & C).
  rewrite Ed in E1. injection E1 as <- <-.
  pose proof (carved_dims _ _ _ C Hd) as Hd1.
  destruct (bases_on_empty _ _ _ _ _ _ _ _ _ _ Hwf Hs Hd Hg C Ec)
    as (_ & Hd2 & _ & Hiff).
  destruct (generateWorld_spec s) as (a' & r' & s7 & Eg' & _ & _ & _ & _ & Hbo).
  rewrite Eg in Eg'. injection Eg' as <- <- <-.
  assert (∀ c, free world c ↔ free world1 c) as Hfree.
  { intros c. split; intros (v & Hv & Hne).
    - assert (inGrid world1 c) as [v1 Hv1].
      { apply (dims_inGrid _ _ Hd1). apply (dims_inGrid _ _ Hd2). by eexists. }
      exists v1. split; [done|]. intros ->. apply Hiff in Hv1. congruence.
    - assert (inGrid world c) as [v2 Hv2].
      { apply (dims_inGrid _ _ Hd2). apply (dims_inGrid _ _ Hd1). by eexists. }
      exists v2. split; [done|]. intros ->. apply Hiff in Hv2. congruence. }
  assert (∀ c, free world1 c → inside root1 c) as Hinside.
  { intros c (v & Hv & Hne).
    assert (inGrid world1 c) as Hin by (by eexists).
    apply (dims_inGrid _ _ Hd1) in Hin.
    assert (¬ onBorder c) as Hnb.
    { intros Hb. rewrite (Hbo c Hb) in Hv. congruence. }
    unfold onBorder in Hnb. unfold inside, xMin, xMax, yMin, yMax.
    rewrite Hs. simpl. lia. }
  intros c c' Hc Hc'. apply Hfree in Hc, Hc'.
  apply (way_mono world1); [intros x; apply Hfree|].
  apply (all_joined world1 root1 Hwf); try by apply Hinside.
  - intros l x Hl Hi. exists Empty. split; [|done].
    pose proof (leaves_subnode _ _ Hl) as Hm.
    apply (off_walls_empty _ root1 a0 world1 Hs Hg C).
    + by eapply subnode_inside.
    + eapply room_off_walls; [done|exact Hm| |done].
      by eapply leaves_no_left.
  - intros l Hl. destruct (Hz l (leaves_subnode _ _ Hl)). lia.
  - intros x Hx (v & Hv & Hne). destruct C as [_ C].
    destruct (C x) as [Ex|([_ Hn] & _)]; [|done].
    rewrite Ex, (Hg x), decide_True in Hv by (by apply wallEndsOf_wallCells).
    congruence.
  - intros m w Hm Hw.
    pose proof (joints_leave_large root1 m w Hwf Hj Hz Hm Hw) as Hl.
    destruct (addDoors_spec root1 a0 s0 (wf_wallsInGrid _ _ Hwf Hd))
      as (a1 & s1' & E1 & _ & G).
    rewrite Ed in E1. injection E1 as <- <-.
    destruct (G m w Hm Hw) as (d & Hd' & Hdv); [by left|].
    exists d. split; [done|]. by exists Empty.
  - done.
  - done.
Qed.

Lemma world_connected_witness :
  match mainGenerate 30 demoRng with
  | Ok ((world, _, _, _), _) =>
      ∀ c c', free world c → free world c' → way world c c'
  | _ => False
  end.
Proof.
  pose proof demo_mainGenerate_returns as H.
  destruct (mainGenerate 30 demoRng)
    as [[[[[world root] bases] walls] s']| |] eqn:E; [|done..].
  exact (world_connected 30 demoRng _ _ _ _ _ E).
Defined.

(** ** The width of the doors *)

Lemma doorOf_split (p ps : list coord) :
  15 <= len p → doorOf p ps →
  13 <= len ps <= 15 ∧ ∃ l1 a b l2, p = l1 ++ [a] ++ ps ++ [b] ++ l2.
Proof.
  unfold doorOf, len. intros Hp [(Hl & r & Hr & ->)|(Hl & ->)].
  - unfold doorCells. set (k := Z.to_nat r).
    assert (1 <= k ∧ k + 16 <= length p)%nat as [Hk1 Hk2] by lia.
    destruct (lookup_lt_is_Some_2 p (k - 1)) as [a Ha]; [lia|].
    destruct (lookup_lt_is_Some_2 p (k + 15)) as [b Hb]; [lia|].
    split; [rewrite length_take, length_drop; lia|].
    exists (take (k - 1) p), a, b, (drop (k + 16) p).
    apply (eq_trans (eq_sym (take_drop (k - 1) p))). f_equal.
    rewrite (drop_S _ _ _ Ha). cbn [app]. f_equal.
    replace (S (k - 1)) with k by lia.
    apply (eq_trans (eq_sym (take_drop 15 (drop k p)))). f_equal.
    rewrite drop_drop, (drop_S _ _ _ Hb).
    by replace (S (k + 15)) with (k + 16)%nat by lia.
  - unfold interiorCells. destruct p as [|a p']; [simpl in *; lia|].
    cbn [drop length] in *. rewrite drop_0.
    replace (S (length p') - 2)%nat with (length p' - 1)%nat by lia.
    destruct (lookup_lt_is_Some_2 p' (length p' - 1)) as [b Hb]; [lia|].
    split; [rewrite length_take; lia|].
    exists [], a, b, []. cbn [app]. f_equal.
    apply (eq_trans (eq_sym (take_drop (length p' - 1) p'))). f_equal.
    rewrite (drop_S _ _ _ Hb). f_equal. apply drop_ge. lia.
Qed.

Lemma doorOf_sub (p ps : list coord) (c : coord) :
  doorOf p ps → c ∈ ps → c ∈ p.
Proof.
  intros [(_ & r & _ & ->)|(_ & ->)] Hc.
  - unfold doorCells in Hc.
    eapply elem_of_sublist; [|apply sublist_drop].
    eapply elem_of_sublist; [exact Hc|apply sublist_take].
  - unfold interiorCells in Hc.
    eapply elem_of_sublist; [|apply sublist_drop].
    eapply elem_of_sublist; [exact Hc|apply sublist_take].
Qed.

Lemma openDoor_Ok (p : list coord) (a : grid) (s : rng) a' s' :
  Forall (inGrid a) p → openDoor p a s = Ok (a', s') →
  ∃ ps, doorOf p ps ∧ cleared ps a a'.
Proof.
  intros Hin E.
  destruct (openDoor_spec p a s Hin) as (ps & a1 & s1 & E1 & Hc & _ & H16 & Hle).
  rewrite E in E1. injection E1 as <- <-. exists ps. split; [|done].
  unfold doorOf. destruct (Z.lt_ge_cases 16 (len p)).
  - left. split; [done|]. by apply H16.
  - right. split; [lia|]. apply Hle. lia.
Qed.

(** A loop whose invariant speaks of the items already handled. *)
Lemma forM_prefix {A S} (I : list A → S → Prop) (body : S → A → M S)
    (l : list A) :
  ∀ pre st s st' s',
    (∀ p a q st s st' s',
        pre ++ l = p ++ a :: q → I p st → body st a s = Ok (st', s') →
        I (p ++ [a]) st') →
    I pre st → forM body l st s = Ok (st', s') → I (pre ++ l) st'.
Proof.
  induction l as [|a l IH]; intros pre st s st' s' Hstep Hpre E.
  - injection E as <- <-. by rewrite app_nil_r.
  - cbn [forM] in E. apply bind_Ok in E as (st1 & s1 & E1 & E).
    replace (pre ++ a :: l) with ((pre ++ [a]) ++ l)
      by (by rewrite <- app_assoc).
    apply (IH _ st1 s1 _ s'); [|by apply (Hstep pre a l st s st1 s1)|done].
    intros p b q. rewrite <- app_assoc. apply Hstep.
Qed.

Lemma concat_apart {A} (ls : list (list A)) :
  NoDup (concat ls) →
  ∀ j j' p p' c, ls !! j = Some p → ls !! j' = Some p' → j ≠ j' →
                 c ∈ p → c ∈ p' → False.
Proof.
  induction ls as [|l ls IH]; intros Hnd j j' p p' c Hj Hj' Hne Hc Hc';
    [done|].
  cbn [concat] in Hnd. apply NoDup_app in Hnd as (_ & Hdis & Hrest).
  destruct j as [|j], j' as [|j']; simpl in Hj, Hj'; try done.
  - injection Hj as ->. apply (Hdis c Hc).
    apply (elem_of_concat ls p' c); [by eapply list_elem_of_lookup_2|done].
  - injection Hj' as ->. apply (Hdis c Hc').
    apply (elem_of_concat ls p c); [by eapply list_elem_of_lookup_2|done].
  - apply (IH Hrest j j' p p' c); try done. lia.
Qed.

Lemma concat_filter_sublist {A} (P : list A → Prop) `{∀ x, Decision (P x)}
    (ls : list (list A)) :
  sublist (concat (filter P ls)) (concat ls).
Proof.
  induction ls as [|l ls IH]; [done|]. rewrite filter_cons. cbn [concat].
  case_decide.
  - cbn [concat]. by apply sublist_app.
  - by apply sublist_inserts_l.
Qed.

Lemma concat_elem {A} (ls : list (list A)) (x : A) :
  x ∈ concat ls → ∃ l, l ∈ ls ∧ x ∈ l.
Proof.
  induction ls as [|l ls IH]; [by intros ?%elem_of_nil|].
  cbn [concat]. intros [H|H]%elem_of_app.
  - exists l. split; [apply elem_of_cons; by left|done].
  - destruct (IH H) as (l' & Hl & Hx). exists l'.
    split; [apply elem_of_cons; by right|done].
Qed.

Lemma range_split_elem (n : Z) (p q : list Z) (i : Z) :
  range 0 n = p ++ i :: q → 0 <= i < n ∧ i ∉ p.
Proof.
  intros E. split.
  - apply elem_of_range. rewrite E. apply elem_of_app. right.
    apply elem_of_cons. by left.
  - pose proof (NoDup_seqZ 0 (n - 0)) as Hnd. fold (range 0 n) in Hnd.
    rewrite E in Hnd. apply NoDup_app in Hnd as (_ & Hdis & _).
    intros Hi. apply (Hdis i Hi). apply elem_of_cons. by left.
Qed.

(** The doors that [addDoorToWall] cuts when there is a large part: one
    in each of some of the large parts, one at least, none twice in the
    same part. *)
Lemma addDoorToWall_cut (w un : list coord) (array : grid) (s : rng) a' s' :
  Forall (inGrid array) w →
  largePartsOf (usableParts w un) ≠ [] →
  addDoorToWall w un array s = Ok (a', s') →
  ∃ T : list (Z * list coord),
    NoDup (map fst T) ∧
    (∀ j ps, (j, ps) ∈ T →
             0 <= j ∧
             ∃ p, largePartsOf (usableParts w un) !! Z.to_nat j = Some p ∧
                  doorOf p ps) ∧
    cleared (concat (map snd T)) array a'.
Proof.
  intros Hin Hlarge E. unfold addDoorToWall in E.
  set (large := largePartsOf (usableParts w un)) in *.
  destruct (Z.ltb_spec 0 (len large)) as [Hl|Hl].
  2:{ destruct large; [done|]. unfold len in Hl. simpl in Hl. lia. }
  apply bind_Ok in E as (w1 & s1 & E1 & E). apply randint_Ok in E1 as [Hw1 ->].
  apply bind_Ok in E as (part & s2 & E2 & E). apply lift_Ok in E2 as [E2 ->].
  apply bind_Ok in E as (a1 & s3 & E3 & E).
  assert (Hsub : ∀ j p, large !! j = Some p → ∀ c, c ∈ p → c ∈ w).
  { intros j p Hp c Hc. apply list_elem_of_lookup_2 in Hp.
    apply largePartsOf_elem in Hp as [_ Hp].
    by apply (usableParts_elem w un p c). }
  set (I := fun (pre : list Z) (a : grid) =>
    ∃ T : list (Z * list coord),
      NoDup (map fst T) ∧
      (∀ j ps, (j, ps) ∈ T →
               (j = w1 ∨ j ∈ pre) ∧ 0 <= j ∧
               ∃ p, large !! Z.to_nat j = Some p ∧ doorOf p ps) ∧
      cleared (concat (map snd T)) array a).
  assert (Hgrid : ∀ pre a j p, I pre a → large !! j = Some p →
                               Forall (inGrid a) p).
  { intros pre a j p (T & _ & HT & Hcl) Hp. apply Forall_forall. intros c Hc.
    apply (carved_inGrid (.∈ concat (map snd T)) array a).
    - apply cleared_carved; [|done]. apply Forall_forall. intros x Hx.
      apply concat_elem in Hx as (ps & Hps & Hx).
      apply list_elem_of_fmap in Hps as ([j' ps'] & -> & Hin').
      destruct (HT _ _ Hin') as (_ & _ & p' & Hp' & Hd).
      rewrite Forall_forall in Hin. apply Hin.
      apply (Hsub _ _ Hp'). by apply (doorOf_sub p' ps').
    - rewrite Forall_forall in Hin. apply Hin. by apply (Hsub j p). }
  assert (I [] a1) as H1.
  { apply py_nth_lookup in E2; [|lia].
    assert (isRun w part) as Hrun.
    { pose proof (usableParts_runs w un) as Hruns.
      rewrite Forall_forall in Hruns. apply Hruns.
      apply list_elem_of_lookup_2 in E2.
      by apply largePartsOf_elem in E2 as [_ E2]. }
    destruct (openDoor_Ok part array _ _ _
                (isRun_Forall _ w part Hrun Hin) E3) as (ps & Hd & Hc).
    exists [(w1, ps)]. split; [apply NoDup_singleton|]. split.
    - intros j ps' [= -> ->]%list_elem_of_singleton.
      split; [by left|]. split; [lia|]. by exists part.
    - simpl. by rewrite app_nil_r. }
  assert (I ([] ++ range 0 (len large)) a') as (T & Hnd & HT & Hcl).
  { eapply (forM_prefix I); [|exact H1|exact E].
    clear E. intros p i q a s0 a2 s4 Er HI Eb. cbn [app] in Er.
    apply range_split_elem in Er as [Hi Hip].
    apply bind_Ok in Eb as (c & s5 & Ec & Eb).
    destruct ((c =? 0) && negb (i =? w1)) eqn:Hcond.
    - apply andb_true_iff in Hcond as [_ Hne].
      apply negb_true_iff, Z.eqb_neq in Hne.
      apply bind_Ok in Eb as (pi & s6 & Ep & Eb).
      apply lift_Ok in Ep as [Ep ->].
      apply py_nth_lookup in Ep; [|lia].
      destruct (openDoor_Ok pi a _ _ _ (Hgrid _ _ _ _ HI Ep) Eb)
        as (ps & Hd & Hc).
      destruct HI as (T & Hnd & HT & Hcl).
      exists (T ++ [(i, ps)]). split.
      { rewrite map_app. apply NoDup_app. split; [done|]. split.
        - intros j Hj [= ->]%list_elem_of_singleton.
          apply list_elem_of_fmap in Hj as ([j' ps'] & Ej & Hin').
          simpl in Ej. subst j'.
          destruct (HT _ _ Hin') as ([?|?] & _); done.
        - apply NoDup_singleton. }
      split.
      { intros j ps' [Hin'|[= -> ->]%list_elem_of_singleton]%elem_of_app.
        - destruct (HT _ _ Hin') as ([?|?] & ? & ?).
          + split; [by left|done].
          + split; [right; apply elem_of_app; by left|done].
        - split; [right; apply elem_of_app; right;
                  by apply list_elem_of_singleton|].
          split; [lia|]. by exists pi. }
      rewrite map_app, concat_app. simpl. rewrite app_nil_r.
      by eapply filled_app.
    - injection Eb as <- <-. destruct HI as (T & Hnd & HT & Hcl).
      exists T. split; [done|]. split; [|done].
      intros j ps Hin'. destruct (HT _ _ Hin') as ([?|?] & ? & ?).
      + split; [by left|done].
      + split; [right; apply elem_of_app; by left|done]. }
  exists T. split; [done|]. split; [|done].
  intros j ps Hin'. by destruct (HT _ _ Hin') as (_ & ? & ?).
Qed.

Lemma usableParts_NoDup (w un : list coord) :
  NoDup w → NoDup (concat (largePartsOf (usableParts w un))).
Proof.
  intros Hnd. eapply sublist_NoDup; [|apply concat_filter_sublist].
  unfold usableParts. rewrite wallPartsLoop_concat. simpl.
  by apply NoDup_filter.
Qed.

(** The doors cut in a wall that held [Wall] all along are doors of 13
    to 15 cells, each between two cells that still hold [Wall]. *)
Lemma cut_doors (w un : list coord) (array a' : grid)
    (T : list (Z * list coord)) :
  NoDup w → (∀ c, c ∈ w → cellAt array c = Some Wall) →
  NoDup (map fst T) →
  (∀ j ps, (j, ps) ∈ T →
           0 <= j ∧
           ∃ p, largePartsOf (usableParts w un) !! Z.to_nat j = Some p ∧
                doorOf p ps) →
  cleared (concat (map snd T)) array a' →
  ∀ c, c ∈ w → cellAt a' c = Some Empty →
       ∃ door, c ∈ door ∧ doorIn a' w door.
Proof.
  intros Hnd Hwall HndT HT [_ Hcl] c Hc He.
  rewrite (Hcl c) in He. case_decide as Hin.
  2:{ rewrite (Hwall c Hc) in He. discriminate. }
  apply concat_elem in Hin as (ps & Hps & Hcps).
  apply list_elem_of_fmap in Hps as ([j ps'] & Eps & HinT). simpl in Eps.
  subst ps'. destruct (HT _ _ HinT) as (Hj & p & Hp & Hd).
  pose proof (list_elem_of_lookup_2 _ _ _ Hp) as Hpl.
  apply largePartsOf_elem in Hpl as [H15 Hpu].
  pose proof (usableParts_runs w un) as Hruns. rewrite Forall_forall in Hruns.
  pose proof (Hruns p Hpu) as Hrun.
  pose proof (isRun_NoDup _ _ Hrun Hnd) as Hndp.
  destruct (doorOf_split p ps H15 Hd) as (Hlen & l1 & a & b & l2 & Ep).
  destruct Hrun as (_ & m1 & m2 & Ew).
  assert (∀ x, x ∈ p → x ∉ ps → cellAt a' x = Some Wall) as Hkeep.
  { intros x Hxp Hxps. rewrite (Hcl x), decide_False.
    - apply Hwall. rewrite Ew. rewrite !elem_of_app. auto.
    - intros Hx. apply concat_elem in Hx as (ps' & Hps' & Hx).
      apply list_elem_of_fmap in Hps' as ([j' ps''] & Eps & HinT').
      simpl in Eps. subst ps''.
      destruct (HT _ _ HinT') as (Hj' & p' & Hp' & Hd').
      destruct (decide (j' = j)) as [->|Hne].
      + assert (ps' = ps) as ->; [|done].
        clear - HndT HinT HinT'. induction T as [|[i q] T IH].
        { by apply elem_of_nil in HinT. }
        cbn [map fst] in HndT. apply NoDup_cons in HndT as [Hi HndT].
        apply elem_of_cons in HinT as [HinT|HinT];
          apply elem_of_cons in HinT' as [HinT'|HinT'].
        * congruence.
        * destruct Hi. apply list_elem_of_fmap. exists (j, ps').
          split; [simpl; congruence|done].
        * destruct Hi. apply list_elem_of_fmap. exists (j, ps).
          split; [simpl; congruence|done].
        * by apply IH.
      + apply (concat_apart _ (usableParts_NoDup w un Hnd)
                 (Z.to_nat j) (Z.to_nat j') p p' x); try done; [lia|].
        by apply (doorOf_sub p' ps'). }
  exists ps. split; [done|]. split; [done|]. split.
  - apply Forall_forall. intros x Hx. rewrite (Hcl x), decide_True; [done|].
    apply (elem_of_concat _ ps); [|done].
    apply list_elem_of_fmap. by exists (j, ps).
  - rewrite Ep in Hndp.
    apply NoDup_app in Hndp as (_ & _ & Hndp).
    apply NoDup_app in Hndp as (_ & Ha & Hndp).
    apply NoDup_app in Hndp as (_ & Hb & _).
    exists (m1 ++ l1), a, b, (l2 ++ m2). split.
    { rewrite Ew, Ep. by rewrite <- !app_assoc. }
    split.
    + apply Hkeep.
      * rewrite Ep. rewrite !elem_of_app, !list_elem_of_singleton. auto.
      * intros Hx. apply (Ha a); [by apply list_elem_of_singleton|].
        apply elem_of_app. by left.
    + apply Hkeep.
      * rewrite Ep. rewrite !elem_of_app, !list_elem_of_singleton. auto.
      * intros Hx. apply (Hb b Hx). apply elem_of_app. left.
        by apply list_elem_of_singleton.
Qed.

Lemma doorIn_ext (a1 a2 : grid) (w door : list coord) :
  (∀ x, x ∈ w → cellAt a2 x = cellAt a1 x) →
  doorIn a1 w door → doorIn a2 w door.
Proof.
  intros H (Hlen & Hall & l1 & a & b & l2 & Ew & Ha & Hb).
  split; [done|]. split.
  - apply Forall_forall. intros x Hx. rewrite Forall_forall in Hall.
    rewrite H; [by apply Hall|].
    rewrite Ew, !elem_of_app. auto.
  - exists l1, a, b, l2. split; [done|].
    rewrite !H; [done|..]; rewrite Ew, !elem_of_app, !list_elem_of_singleton;
      auto.
Qed.

Lemma wallCells_subnode (m n : node) (w : list coord) (c : coord) :
  subnode m n → wall m = Some w → c ∈ w → c ∈ wallCells n.
Proof.
  induction 1 as [|p d Hl Hm IH|p d Hr Hm IH]; intros Hw Hc.
  - destruct m; simpl in *. subst. apply elem_of_app. by left.
  - destruct p; simpl in *. subst. rewrite !elem_of_app. auto.
  - destruct p; simpl in *. subst. rewrite !elem_of_app. auto.
Qed.

(** A cell of a wall of the tree is an end of that wall or strictly
    inside the rectangle of its node. *)
Lemma wall_cell_cases (m : node) (w : list coord) (c : coord) :
  wf m → wall m = Some w → c ∈ w → c ∈ wallEnds w ∨ inside m c.
Proof.
  intros Hwf Hw Hc. destruct (wf_wall m w Hwf Hw) as (_ & Hinner & _ & _).
  apply list_elem_of_lookup_1 in Hc as (k & Hk).
  pose proof (lookup_lt_Some _ _ _ Hk) as Hlt.
  rewrite wallEnds_elem, head_lookup, last_lookup.
  destruct (decide (k = 0%nat)) as [->|?]; [by left; left|].
  destruct (decide (k = Nat.pred (length w))) as [->|?]; [by left; right|].
  right. apply (Hinner k c Hk). lia.
Qed.

(** When [addDoors] has run on a tree whose walls all held [Wall], every
    cell of a wall that holds [Empty] is in a door of 13 to 15 cells. *)
Lemma addDoors_doors (root : node) :
  ∀ array s array' s',
    wf root → jointsOk root → allSized 16 root → dims array →
    (∀ c, c ∈ wallCells root → cellAt array c = Some Wall) →
    addDoors root array s = Ok (array', s') →
    doorsOk root array'.
Proof.
  induction root as [sh w un wp bp bpos out c0 c1 IH0 IH1] using node_induction.
  intros array s array' s' Hwf Hj Hz Hd Hwall E.
  destruct (wf_children _ Hwf)
    as [(El & Er & Ew & _)
       |(d0 & d1 & w' & El & Er & Ew & Hx2 & Hy2 & Hsp & W0 & W1)].
  - simpl in El, Er, Ew. subst. intros m wm c Hm Hw.
    inversion Hm; subst; simpl in *; done.
  - simpl in El, Er, Ew. subst c0 c1 w.
    set (root := Node sh (Some w') un wp bp bpos out (Some d0) (Some d1)) in *.
    pose proof (wf_wall root w' Hwf eq_refl) as (Hww & Hwi & Hw3 & Hnd).
    pose proof (jointsOk_here _ Hj) as Hjn.
    destruct Hj as (_ & J0 & J1).
    pose proof (allSized_left _ root d0 eq_refl Hz) as Z0.
    pose proof (allSized_right _ root d1 eq_refl Hz) as Z1.
    cbn [addDoors root] in E.
    apply bind_Ok in E as (a1 & s1 & E1 & E).
    apply bind_Ok in E as (a2 & s2 & E2 & E3).
    destruct (addDoors_doorable d0 array s W0 J0 Hd) as (a1' & s1' & E1' & C1).
    rewrite E1 in E1'. injection E1' as <- <-.
    pose proof (carved_dims _ _ _ C1 Hd) as Hd1.
    destruct (addDoors_doorable d1 a1 s1 W1 J1 Hd1) as (a2' & s2' & E2' & C2).
    rewrite E2 in E2'. injection E2' as <- <-.
    pose proof (carved_dims _ _ _ C2 Hd1) as Hd2.
    assert (Forall (inGrid a2) w') as Hin2.
    { apply Forall_forall. intros c Hc.
      apply (within_inGrid root); [by apply wf_rectOk|done|by apply Hww]. }
    destruct (addDoorToWall_carved (λ c, c ∈ w' ∧ c ∉ un) w' un a2 s2 Hin2)
      as (a3 & s3 & E3' & C3).
    { intros part c Hpart Hc.
      pose proof (usableParts_runs w' un) as Hruns.
      rewrite Forall_forall in Hruns.
      apply (usableParts_elem w' un part c Hpart).
      by apply innerCell_elem_of. }
    rewrite E3 in E3'. injection E3' as <- <-.
    (* what each step leaves alone *)
    assert (∀ c, ¬ inside d0 c → cellAt a1 c = cellAt array c) as F1.
    { intros c Hc. destruct (proj2 C1 c) as [?|([Hi _] & _)]; [done|].
      destruct Hc. by apply (innerOfTree_inside _ _ W0). }
    assert (∀ c, ¬ inside d1 c → cellAt a2 c = cellAt a1 c) as F2.
    { intros c Hc. destruct (proj2 C2 c) as [?|([Hi _] & _)]; [done|].
      destruct Hc. by apply (innerOfTree_inside _ _ W1). }
    assert (∀ c, c ∈ wallCells d0 ∨ c ∈ wallCells d1 →
                 cellAt array' c = cellAt a2 c) as F3.
    { intros c Hc. destruct (proj2 C3 c) as [?|([Hcw Hcu] & _)]; [done|].
      assert (∃ d, (d = d0 ∨ d = d1) ∧ wf d ∧ c ∈ wallCells d)
        as (d & Hdd & Wd & Hcd) by (destruct Hc; eauto).
      apply elem_of_wallCells in Hcd as (m & wm & Hm & Hwm & Hcm).
      destruct (wall_cell_cases m wm c (wf_subnode _ _ Hm Wd) Hwm Hcm)
        as [He|Hi].
      - destruct Hcu. apply Hjn. unfold jointsBelow. cbn [root left right].
        apply elem_of_app.
        assert (c ∈ wallEndsOf d) as Hed.
        { apply (subnode_wallEndsOf m); [done|].
          destruct m; simpl in *. subst. apply elem_of_app. by left. }
        destruct Hdd as [-> | ->]; auto.
      - apply (subnode_inside _ _ _ Hm Wd) in Hi.
        destruct (splitAt_wall_not_inside root d0 d1 w' c Hsp Hcw).
        destruct Hdd as [-> | ->]; done. }
    intros m wm c Hm Hwm Hc He.
    inversion Hm as [|? d Hdl Hm'|? d Hdr Hm']; subst.
    + cbn [root wall] in Hwm. injection Hwm as <-.
      destruct (addDoorToWall_cut w' un a2 s2 _ _ Hin2
                  (joints_leave_large root root w' Hwf
                     (conj Hjn (conj J0 J1)) Hz (subnode_here _) eq_refl) E3)
        as (T & HndT & HT & Hcl).
      apply (cut_doors w' un a2 array' T); try done.
      intros x Hx.
      destruct (splitAt_wall_not_inside root d0 d1 w' x Hsp Hx).
      rewrite F2, F1 by done. apply Hwall.
      cbn [root wallCells]. apply elem_of_app. by left.
    + cbn [root left] in Hdl. injection Hdl as <-.
      assert (∀ x, x ∈ wm → cellAt array' x = cellAt a1 x) as Hsame.
      { intros x Hx.
        assert (x ∈ wallCells d0) as Hx0 by (by eapply wallCells_subnode).
        rewrite F3 by auto. apply F2. intros Hi.
        apply (splitAt_apart' root d0 d1 w' x Hsp); [|done].
        by apply (wallCells_within d0). }
      assert (doorsOk d0 a1) as D0.
      { apply (IH0 d0 eq_refl array s a1 s1); try done.
        intros x Hx. apply Hwall. cbn [root wallCells].
        rewrite !elem_of_app. auto. }
      rewrite Hsame in He by done.
      destruct (D0 m wm c Hm' Hwm Hc He) as (door & Hcd & Hdoor).
      exists door. split; [done|]. by apply (doorIn_ext a1).
    + cbn [root right] in Hdr. injection Hdr as <-.
      assert (∀ x, x ∈ wm → cellAt array' x = cellAt a2 x) as Hsame.
      { intros x Hx. apply F3. right. by eapply wallCells_subnode. }
      assert (doorsOk d1 a2) as D1.
      { apply (IH1 d1 eq_refl a1 s1 a2 s2); try done.
        intros x Hx. rewrite F1.
        - apply Hwall. cbn [root wallCells]. rewrite !elem_of_app. auto.
        - intros Hi. apply (splitAt_apart root d0 d1 w' x Hsp); [done|].
          by apply (wallCells_within d1). }
      rewrite Hsame in He by done.
      destruct (D1 m wm c Hm' Hwm Hc He) as (door & Hcd & Hdoor).
      exists door. split; [done|]. by apply (doorIn_ext a2).
Qed.

(** X18: in every generated world, a cell of a wall of the tree that is
    empty belongs to a door: 13 to 15 empty cells of that wall in a row,
    with a wall cell just before and just after.  No door is narrower
    than 13 cells or wider than 15. *)
Theorem generateWorld_door_widths (s : rng) :
  ∃ array root s',
    generateWorld s = Ok ((array, root), s') ∧
    ∀ m w c, subnode m root → wall m = Some w → c ∈ w →
             cellAt array c = Some Empty →
             ∃ door, c ∈ door ∧ doorIn array w door.
Proof.
  destruct (generateWorld_full s)
    as (root & a0 & s0 & a & s' & E & Ed & Hwf & _ & _ & Hj & _ & Hz & Hd & Hg).
  exists a, root, s'. split; [done|].
  apply (addDoors_doors root a0 s0 a s'); try done.
  intros c Hc. by rewrite (Hg c), decide_True.
Qed.


(** ** The rooms that take a base *)

Lemma setCell_lengths array c v array' :
  setCell array c v = Ok array' → map length array' = map length array.
Proof.
  unfold setCell. destruct (py_index _ c.2) as [j|]; [|done].
  destruct (array !! j) as [row|] eqn:Ej; [|done].
  destruct (py_index _ c.1) as [i|]; [|done]. intros [= <-].
  rewrite list_fmap_insert, length_insert.
  apply list_insert_id. by rewrite list_lookup_fmap, Ej.
Qed.

Lemma setCells_lengths v ps :
  ∀ array array', setCells v ps array = Ok array' →
                  map length array' = map length array.
Proof.
  unfold setCells. induction ps as [|p ps IH]; intros array array' E;
    cbn [forR] in E.
  - by injection E as <-.
  - apply res_bind_Ok in E as (a1 & E1 & E).
    rewrite (IH _ _ E). by eapply setCell_lengths.
Qed.

Lemma node_init_flagged x0 x1 y0 y1 array n :
  dims array → node_init x0 x1 y0 y1 array = Ok n →
  flagged n ∧ leaves n = [n].
Proof.
  intros Hd E.
  destruct (node_init_spec x0 x1 y0 y1 array Hd)
    as (n' & E' & S & _ & L & R & _ & _ & Hp & Ho).
  rewrite E in E'. injection E' as <-. split.
  - unfold flagged, sizeX, sizeY, xMin, xMax, yMin, yMax. rewrite S. done.
  - destruct n. simpl in L, R. by subst.
Qed.

Lemma splitRow_flagged n r array n' a e :
  dims array → splitRow n r array = Ok (n', a, e) →
  roomsFlagged n' ∧ dims a.
Proof.
  intros Hd. unfold splitRow.
  destruct (node_init (xMin n) (xMax n) (yMin n) r array) as [l| |] eqn:El;
    cbn [res_bind]; [|done..].
  destruct (node_init (xMin n) (xMax n) r (yMax n) array) as [rt| |] eqn:Er;
    cbn [res_bind]; [|done..].
  destruct (setCells Wall _ array) as [a1| |] eqn:Ea; cbn [res_bind];
    [|done..].
  intros [= <- <- _].
  destruct (node_init_flagged _ _ _ _ _ _ Hd El) as [Fl Ll].
  destruct (node_init_flagged _ _ _ _ _ _ Hd Er) as [Fr Lr].
  split.
  - unfold roomsFlagged. cbn [leaves]. rewrite Ll, Lr.
    apply Forall_cons. split; [done|]. by apply Forall_singleton.
  - unfold dims in *. by rewrite (setCells_lengths _ _ _ _ Ea).
Qed.

Lemma splitCol_flagged n r array n' a e :
  dims array → splitCol n r array = Ok (n', a, e) →
  roomsFlagged n' ∧ dims a.
Proof.
  intros Hd. unfold splitCol.
  destruct (node_init (xMin n) r (yMin n) (yMax n) array) as [l| |] eqn:El;
    cbn [res_bind]; [|done..].
  destruct (node_init r (xMax n) (yMin n) (yMax n) array) as [rt| |] eqn:Er;
    cbn [res_bind]; [|done..].
  destruct (setCells Wall _ array) as [a1| |] eqn:Ea; cbn [res_bind];
    [|done..].
  intros [= <- <- _].
  destruct (node_init_flagged _ _ _ _ _ _ Hd El) as [Fl Ll].
  destruct (node_init_flagged _ _ _ _ _ _ Hd Er) as [Fr Lr].
  split.
  - unfold roomsFlagged. cbn [leaves]. rewrite Ll, Lr.
    apply Forall_cons. split; [done|]. by apply Forall_singleton.
  - unfold dims in *. by rewrite (setCells_lengths _ _ _ _ Ea).
Qed.

Lemma splitNode_flagged n array s n' a e s' :
  dims array → splitNode n array s = Ok (n', a, e, s') →
  roomsFlagged n' ∧ dims a.
Proof.
  intros Hd E. unfold splitNode in E.
  apply bind_Ok in E as (d & s1 & _ & E).
  apply bind_Ok in E as (r & s2 & _ & E).
  apply lift_Ok in E as [E _].
  destruct (_ =? 0); [by eapply splitRow_flagged|by eapply splitCol_flagged].
Qed.

(** After [splitDepth] every room is one that [node.__init__] has just
    made. *)
Lemma splitDepth_flagged (n : node) :
  ∀ array s n' a e s',
    dims array → splitDepth n array s = Ok (n', a, e, s') →
    roomsFlagged n' ∧ dims a.
Proof.
  induction n as [sh w un wp bp bpos out c0 c1 IH0 IH1] using node_induction.
  intros array s n' a e s' Hd E.
  destruct c0 as [c0|], c1 as [c1|]; cbn [splitDepth] in E;
    try by eapply splitNode_flagged.
  apply bind_Ok in E as ([[c0' a1] e0] & s1 & E0 & E).
  apply bind_Ok in E as ([[c1' a2] e1] & s2 & E1 & E).
  injection E as <- <- _ _.
  destruct (IH0 c0 eq_refl _ _ _ _ _ _ Hd E0) as [F0 Hd1].
  destruct (IH1 c1 eq_refl _ _ _ _ _ _ Hd1 E1) as [F1 Hd2].
  split; [|done]. unfold roomsFlagged. cbn [leaves]. by apply Forall_app.
Qed.

Lemma generateWorld_flagged (s : rng) array root s' :
  generateWorld s = Ok ((array, root), s') → roomsFlagged root.
Proof.
  rewrite generateWorld_rounds. intros E.
  apply bind_Ok in E as ([root0 a0] & s0 & E0 & E).
  apply bind_Ok in E as (a1 & s1 & _ & E). injection E as _ <- _.
  unfold splitRounds in E0.
  apply bind_Ok in E0 as (row0 & s2 & _ & E0).
  apply bind_Ok in E0 as (r0 & s3 & _ & E0).
  replace (range 0 4) with [0; 1; 2; 3] in E0 by done. cbn [forM] in E0.
  pose proof dims_createEmptyWorld as Hd.
  apply bind_Ok in E0 as ([r1 b1] & t1 & E1 & E0).
  apply bind_Ok in E1 as ([[r1' b1'] e1] & t1' & E1 & [= <- <- <-]).
  destruct (splitDepth_flagged _ _ _ _ _ _ _ Hd E1) as [_ Hd1].
  apply bind_Ok in E0 as ([r2 b2] & t2 & E2 & E0).
  apply bind_Ok in E2 as ([[r2' b2'] e2] & t2' & E2 & [= <- <- <-]).
  destruct (splitDepth_flagged _ _ _ _ _ _ _ Hd1 E2) as [_ Hd2].
  apply bind_Ok in E0 as ([r3 b3] & t3 & E3 & E0).
  apply bind_Ok in E3 as ([[r3' b3'] e3] & t3' & E3 & [= <- <- <-]).
  destruct (splitDepth_flagged _ _ _ _ _ _ _ Hd2 E3) as [_ Hd3].
  apply bind_Ok in E0 as ([r4 b4] & t4 & E4 & E0).
  apply bind_Ok in E4 as ([[r4' b4'] e4] & t4' & E4 & [= <- <- <-]).
  destruct (splitDepth_flagged _ _ _ _ _ _ _ Hd3 E4) as [F4 _].
  by injection E0 as <- _ _.
Qed.

Lemma leaves_unmark (n : node) : leaves (unmark n) = map unmark (leaves n).
Proof.
  induction n as [sh w un wp bp bpos out c0 c1 IH0 IH1] using node_induction.
  destruct c0 as [c0|], c1 as [c1|]; cbn [unmark leaves map]; try done.
  by rewrite (IH0 c0 eq_refl), (IH1 c1 eq_refl), map_app.
Qed.

Lemma unmark_leaf (r root l : node) :
  unmark r = unmark root → l ∈ leaves r →
  ∃ l0, l0 ∈ leaves root ∧ unmark l0 = unmark l.
Proof.
  intros Hu Hl.
  assert (unmark l ∈ leaves (unmark r)) as H.
  { rewrite leaves_unmark. apply list_elem_of_fmap. by exists l. }
  rewrite Hu, leaves_unmark in H.
  apply list_elem_of_fmap in H as (l0 & E & Hl0). by exists l0.
Qed.

Lemma createBasesStep_room fuel array root quads bases s
    array' root' quads' bases' s' :
  dims array → wf root →
  createBasesStep fuel (array, root, quads, bases) s
    = Ok ((array', root', quads', bases'), s') →
  dims array' ∧ unmark root' = unmark root ∧
  ∃ base leaf,
    bases' = bases ++ [base] ∧ leaf ∈ leaves root ∧
    eligible leaf = true ∧ baseIn leaf base.
Proof.
  intros Hd Hwf E. unfold createBasesStep in E.
  apply bind_Ok in E as ([[[base a1] used] r1] & s1 & E1 & E).
  injection E as <- <- _ <- _.
  destruct (addBase_spec _ _ _ _ _ _ _ _ _ _ Hd Hwf E1)
    as (Hu & Hm & (leaf & Hl & He & Hr & Hb) & F).
  split; [by eapply filled_dims|]. split; [done|].
  exists base, leaf. split; [done|]. split; [|done].
  unfold quadLeaves in Hl. destruct (quadNode root used) as [n|] eqn:En.
  - apply (subnode_leaves n); [by eapply quadNode_subnode|done..].
  - by apply elem_of_nil in Hl.
Qed.

(** X19: in a generation run every base lies in a room of the tree
    (one cell or more away from its walls) that is more than 22 cells
    wide and high and touches the left, the top or the right edge of the
    map: a room that touches only the bottom edge never takes a base. *)
Theorem bases_in_edge_rooms
    (s : rng) (fuel : nat) array root s1 array' bases root' s2 :
  generateWorld s = Ok ((array, root), s1) →
  createBases fuel array root s1 = Ok ((array', bases, root'), s2) →
  ∀ b, b ∈ bases →
       ∃ room, room ∈ leaves root ∧ baseIn room b ∧
               (xMin room = 0 ∨ yMin room = 0 ∨ xMax room = 249) ∧
               22 < sizeX room ∧ 22 < sizeY room.
Proof.
  intros Eg Ec b Hb.
  pose proof (generateWorld_flagged _ _ _ _ Eg) as Hfl.
  destruct (generateWorld_spec s) as (a & r & s' & Eg' & Hwf & _ & _ & Hd & _).
  rewrite Eg in Eg'. injection Eg' as <- <- <-.
  assert (∃ r l, unmark r = unmark root ∧ l ∈ leaves r ∧
                 eligible l = true ∧ baseIn l b) as (r & l & Hu & Hl & He & Hin).
  { unfold createBases in Ec.
    apply bind_Ok in Ec as ([[[a3 r3] qs3] bs3] & s3 & E & Eret).
    injection Eret as <- <- <- <-.
    replace (range 0 3) with [0; 1; 2] in E by done. cbn [forM] in E.
    apply bind_Ok in E as ([[[a1 r1] qs1] bs1] & t1 & E1 & E).
    apply bind_Ok in E as ([[[a2 r2] qs2] bs2] & t2 & E2 & E).
    apply bind_Ok in E as ([[[a3' r3'] qs3'] bs3'] & t3 & E3 & E).
    injection E as -> -> -> -> ->.
    destruct (createBasesStep_room _ _ _ _ _ _ _ _ _ _ _ Hd Hwf E1)
      as (Hd1 & Hu1 & b1 & l1 & -> & Hl1 & He1 & Hb1).
    pose proof (wf_unmark_eq _ _ Hu1 Hwf) as Hwf1.
    destruct (createBasesStep_room _ _ _ _ _ _ _ _ _ _ _ Hd1 Hwf1 E2)
      as (Hd2 & Hu2 & b2 & l2 & -> & Hl2 & He2 & Hb2).
    pose proof (wf_unmark_eq _ _ Hu2 Hwf1) as Hwf2.
    destruct (createBasesStep_room _ _ _ _ _ _ _ _ _ _ _ Hd2 Hwf2 E3)
      as (Hd3 & Hu3 & b3 & l3 & -> & Hl3 & He3 & Hb3).
    cbn [app] in Hb. rewrite !elem_of_cons in Hb.
    destruct Hb as [->|[->|[->|[]%elem_of_nil]]].
    - by exists root, l1.
    - by exists r1, l2.
    - exists r2, l3. split; [congruence|done]. }
  destruct (unmark_leaf r root l Hu Hl) as (room & Hroom & Eroom).
  pose proof (unmark_eq_shape _ _ Eroom) as Hsh.
  exists room. split; [done|].
  unfold roomsFlagged in Hfl. rewrite Forall_forall in Hfl.
  destruct (Hfl room Hroom) as [Hout Hposs].
  pose proof (wf_rectOk _ (wf_subnode _ _ (leaves_subnode _ _ Hroom) Hwf))
    as (_ & _ & _ & Hy & _).
  assert (outside room = outside l ∧ basePossible room = basePossible l)
    as [Eo Ep].
  { destruct room, l. simpl in Eroom. injection Eroom as _ _ _ _ Hp Ho _ _.
    simpl. by split. }
  unfold eligible in He. apply andb_true_iff in He as [He He3].
  apply andb_true_iff in He as [_ He2].
  rewrite <- Eo in He3. rewrite <- Ep in He2.
  apply Hout in He3. apply Hposs in He2.
  split; [|split; [lia|done]].
  unfold baseIn, xMin, xMax, yMin, yMax in *. by rewrite Hsh.
Qed.

Lemma bases_in_edge_rooms_witness :
  match generateWorld demoRng with
  | Ok ((array, root), s1) =>
      match createBases 30 array root s1 with
      | Ok ((array', bases, root'), s2) =>
          ∀ b, b ∈ bases →
               ∃ room, room ∈ leaves root ∧ baseIn room b ∧
                       (xMin room = 0 ∨ yMin room = 0 ∨ xMax room = 249) ∧
                       22 < sizeX room ∧ 22 < sizeY room
      | _ => False
      end
  | _ => False
  end.
Proof.
  pose proof demo_createBases_returns as H.
  destruct (generateWorld demoRng) as [[[array root] s1]| |] eqn:Eg;
    [|done..].
  destruct (createBases 30 array root s1)
    as [[[[array' bases] root'] s2]| |] eqn:Ec; [|done..].
  exact (bases_in_edge_rooms demoRng 30 _ _ _ _ _ _ _ Eg Ec).
Defined.

(** ** Every wall keeps a gap *)

(** What the grid of a generation run holds, in the terms of the ways
    through it: the cells strictly inside the rooms hold [Empty], the
    rooms are two cells wide or more, the ends of the walls hold [Wall],
    and every wall has a cell strictly between its ends that holds
    [Empty]. *)
Lemma generateWorld_ways (s : rng) :
  ∃ array root s',
    generateWorld s = Ok ((array, root), s') ∧
    wf root ∧ grown 4 0 root ∧
    (∀ l c, l ∈ leaves root → inside l c → cellAt array c = Some Empty) ∧
    (∀ l, l ∈ leaves root → 2 <= sizeX l ∧ 2 <= sizeY l) ∧
    (∀ c, c ∈ wallEndsOf root → ¬ free array c) ∧
    (∀ m w, subnode m root → wall m = Some w →
            ∃ d, innerCell w d ∧ cellAt array d = Some Empty).
Proof.
  destruct (generateWorld_full s)
    as (root & a0 & s0 & a & s' & E & Ed & Hwf & Hgr & Hs & Hj & _ & Hz &
        Hd & Hg).
  destruct (addDoors_doorable root a0 s0 Hwf Hj Hd) as (a1 & s1 & E1 & C).
  rewrite Ed in E1. injection E1 as <- <-.
  exists a, root, s'. repeat (split; [done|]).
  split; [|split; [|split]].
  - intros l x Hl Hi. pose proof (leaves_subnode _ _ Hl) as Hm.
    apply (off_walls_empty _ root a0 a Hs Hg C).
    + by eapply subnode_inside.
    + eapply room_off_walls; [done|exact Hm| |done].
      by eapply leaves_no_left.
  - intros l Hl. destruct (Hz l (leaves_subnode _ _ Hl)). lia.
  - intros x Hx (v & Hv & Hne). destruct C as [_ C].
    destruct (C x) as [Ex|([_ Hn] & _)]; [|done].
    rewrite Ex, (Hg x), decide_True in Hv by (by apply wallEndsOf_wallCells).
    congruence.
  - intros m w Hm Hw.
    pose proof (joints_leave_large root m w Hwf Hj Hz Hm Hw) as Hl.
    destruct (addDoors_spec root a0 s0 (wf_wallsInGrid _ _ Hwf Hd))
      as (a1 & s1 & E1 & _ & G).
    rewrite Ed in E1. injection E1 as <- <-.
    apply (G m w Hm Hw). by left.
Qed.

(** C1: in every generation run, when [addDoors] has finished, every
    node of the tree that is no leaf has a wall, and this wall has a gap:
    a cell [d] of the wall, strictly between its ends, that holds
    [Empty].  The gap has a neighbour strictly inside a room of the first
    half and a neighbour strictly inside a room of the second half, both
    [Empty], and from every cell of a room of the first half there is a
    way to [d] and from [d] a way to every cell of a room of the second
    half: the two regions that the wall separates are joined through it.
    This is so for every wall of the tree, whatever joints it has and
    whatever the lengths of its parts; the root is such a node. *)
Theorem generateWorld_walls_keep_gap (s : rng) :
  ∃ array root s',
    generateWorld s = Ok ((array, root), s') ∧
    ¬ isLeaf root ∧
    ∀ m, subnode m root → ¬ isLeaf m →
      ∃ w c0 c1 d,
        wall m = Some w ∧ left m = Some c0 ∧ right m = Some c1 ∧
        innerCell w d ∧ cellAt array d = Some Empty ∧
        (∃ e0, adjacent d e0 ∧ inRoomOf c0 e0 ∧
               cellAt array e0 = Some Empty) ∧
        (∃ e1, adjacent d e1 ∧ inRoomOf c1 e1 ∧
               cellAt array e1 = Some Empty) ∧
        ∀ x0 x1, inRoomOf c0 x0 → inRoomOf c1 x1 →
                 way array x0 d ∧ way array d x1.
Proof.
  destruct (generateWorld_ways s)
    as (a & root & s' & E & Hwf & Hgr & Hempty & Hwide & Hends & Hgap).
  exists a, root, s'. split; [done|].
  assert (∀ l c, l ∈ leaves root → inside l c → free a c) as Hfree.
  { intros l c Hl Hi. exists Empty. split; [|done]. by apply (Hempty l). }
  assert (∀ m w, subnode m root → wall m = Some w →
                 ∃ d, innerCell w d ∧ free a d) as Hdoors.
  { intros m w Hm Hw. destruct (Hgap m w Hm Hw) as (d & Hd & Hv).
    exists d. split; [done|]. by exists Empty. }
  split.
  { destruct Hgr as (c0 & c1 & El & _). intros [H _]. congruence. }
  intros m Hm Hnl.
  pose proof (wf_subnode _ _ Hm Hwf) as Hwfm.
  destruct (wf_children m Hwfm)
    as [(E0 & E1 & _)|(c0 & c1 & w & E0 & E1 & Ew & _ & _ & Hsp & W0 & W1)].
  { destruct Hnl. by split. }
  destruct (Hgap m w Hm Ew) as (d & Hd & Hv).
  assert (free a d) as Hfd by (by exists Empty).
  assert (inside m d) as Him.
  { destruct (wf_wall m w Hwfm Ew) as (_ & Hinner & _ & _).
    destruct Hd as (k & Hk & Hlk). by apply (Hinner k d Hlk). }
  assert (subnode c0 root) as Hc0.
  { eapply subnode_trans; [|exact Hm]. eapply subnode_left; [done|].
    apply subnode_here. }
  assert (subnode c1 root) as Hc1.
  { eapply subnode_trans; [|exact Hm]. eapply subnode_right; [done|].
    apply subnode_here. }
  destruct (door_neighbours a root Hwf Hwide Hends m c0 c1 w d Hm E0 E1 Hsp
              (innerCell_elem_of _ _ Hd) Him Hfd)
    as [(l0 & e0 & Hl0 & Ha0 & Hi0) (l1 & e1 & Hl1 & Ha1 & Hi1)].
  exists w, c0, c1, d. repeat (split; [done|]).
  split; [|split].
  - exists e0. split; [done|]. split; [by exists l0|].
    apply (Hempty l0); [|done]. by apply (subnode_leaves c0).
  - exists e1. split; [done|]. split; [by exists l1|].
    apply (Hempty l1); [|done]. by apply (subnode_leaves c1).
  - intros x0 x1 (la & Hla & Hia) (lb & Hlb & Hib). split.
    + apply (way_snoc _ _ e0); [|by apply adjacent_sym|done].
      by apply (rooms_joined a root Hwf Hfree Hwide Hends Hdoors c0 Hc0
                  la l0).
    + apply (way_step _ _ e1); [done..|].
      by apply (rooms_joined a root Hwf Hfree Hwide Hends Hdoors c1 Hc1
                  l1 lb).
Qed.

